(** * The p4est forest iterator and the p6est hanging-code decoder

    A shallow embedding of [src/p4est_iterate.c] (the traversal engine that
    visits volumes, faces, edges and corners of a forest of quadtrees or
    octrees) and of [p6est_lnodes_decode] from
    [example/p6est/p6est_lnodes.h], followed by the properties proved about
    them.

    Conventions of the embedding.
    - C integers are [Z]; [size_t] arithmetic that may wrap is written with
      [sz_add]/[sz_sub], the cast to [p4est_locidx_t] with [to_locidx].
    - A C array is a [list]; an array obtained from [P4EST_ALLOC] (not
      initialised) is a list of [option] cells, [None] meaning "never
      written".  Every access goes through [zlookup]/[aget]/[aset]; an access
      outside the array or a read of a cell never written is undefined
      behaviour in C and makes the embedded function return [None].
    - A pointer to a quadrant is the array it points into together with the
      position in that array ([quad_ptr]); [NULL] is [None].
    - The callbacks are opaque user code: each invocation is recorded, with a
      snapshot of the info record it receives, in a trace of [iter_event]s.
      A callback pointer is modelled by a flag telling whether it is non-NULL.
    - Assertions ([P4EST_ASSERT]) are compiled out, as in an optimised build.
    - The same source file is compiled twice, without and with [P4_TO_P8];
      the flag is a field of [Build] and the [#ifdef]s become conditionals. *)

From stdpp Require Import prelude.

Local Open Scope Z_scope.

(** ** C arrays *)

Definition zlookup {A : Type} (l : list A) (i : Z) : option A :=
  if decide (0 <= i) then l !! Z.to_nat i else None.

Definition zinsert {A : Type} (l : list A) (i : Z) (v : A) : option (list A) :=
  if decide (0 <= i < Z.of_nat (length l))
  then Some (<[Z.to_nat i := v]> l) else None.

(** A block from [P4EST_ALLOC]: [n] cells, none of them written yet. *)
Definition carray (A : Type) : Type := list (option A).

Definition P4EST_ALLOC {A : Type} (n : Z) : carray A :=
  replicate (Z.to_nat n) None.

Definition aget {A : Type} (a : carray A) (i : Z) : option A :=
  mjoin (zlookup a i).

Definition aset {A : Type} (a : carray A) (i : Z) (v : A) : option (carray A) :=
  zinsert a i (Some v).

(** [for (i = lo; i < hi; i++)] ranges over [zrange lo hi]. *)
Definition zrange (lo hi : Z) : list Z :=
  map (fun k : nat => lo + Z.of_nat k) (seq 0 (Z.to_nat (hi - lo))).

(** A loop body run over a list of loop indices, threading a state that may
    fail. *)
Fixpoint for_each {S I : Type} (body : I -> S -> option S) (idxs : list I)
  (s : S) : option S :=
  match idxs with
  | [] => Some s
  | i :: rest => s' ← body i s; for_each body rest s'
  end.

(** [size_t] is 64 bits wide; [p4est_locidx_t] is [int32_t]. *)
Definition SIZE_MAX1 : Z := 2 ^ 64.
Definition sz_add (a b : Z) : Z := (a + b) mod SIZE_MAX1.
Definition sz_sub (a b : Z) : Z := (a - b) mod SIZE_MAX1.
Definition to_locidx (a : Z) : Z := (a + 2 ^ 31) mod 2 ^ 32 - 2 ^ 31.

(** ** The build configuration and the parts of p4est outside this file *)

(** [P4_TO_P8] selects the 3D build.  [P4EST_MAXLEVEL] and
    [P4EST_QMAXLEVEL] are macros of [p4est.h]. *)
Class Build := {
  P4_TO_P8 : bool;
  P4EST_MAXLEVEL : Z;
  P4EST_QMAXLEVEL : Z
}.

Definition P4EST_DIM `{Build} : Z := if P4_TO_P8 then 3 else 2.
Definition P4EST_CHILDREN `{Build} : Z := if P4_TO_P8 then 8 else 4.
Definition P4EST_ITER_STRIDE `{Build} : Z := P4EST_CHILDREN + 1.

(** [p4est_quadrant_t]: anchor coordinates, level, and the tree tag kept in
    the payload of a ghost quadrant ([p.which_tree]).  [qz] is only
    meaningful in the 3D build. *)
Record p4est_quadrant_t := mkQuad {
  qx : Z; qy : Z; qz : Z; qlevel : Z; which_tree : Z
}.

#[global] Instance p4est_quadrant_eq_dec : EqDecision p4est_quadrant_t.
Proof. solve_decision. Defined.

(** The [sc_array_t] objects that hold quadrants: the quadrant array of a
    tree, or the ghost layer. *)
Inductive quad_array :=
| TreeQuads (t : Z)
| GhostQuads.

#[global] Instance quad_array_eq_dec : EqDecision quad_array.
Proof. solve_decision. Defined.

(** A non-NULL [p4est_quadrant_t *] into one of those arrays. *)
Record quad_ptr := QPtr { ptr_array : quad_array; ptr_index : Z }.

#[global] Instance quad_ptr_eq_dec : EqDecision quad_ptr.
Proof. solve_decision. Defined.

(** [p4est_connectivity_t], with the fields the iterator reads.  In the 2D
    build the corner tables are [num_vertices] and [vtt_offset]. *)
Record p4est_connectivity_t := {
  num_vertices : Z;
  vtt_offset : list Z;
  num_corners : Z;
  ctt_offset : list Z;
  num_edges : Z;
  ett_offset : list Z;
  tree_to_face : list Z;
  tree_to_edge : list Z;
  edge_to_tree : list Z;
  edge_to_edge : list Z
}.

(** [p4est_t]: the forest.  [trees] holds, for every tree of the
    connectivity, the array of its local quadrants. *)
Record p4est_t := {
  mpisize : Z;
  first_local_tree : Z;
  last_local_tree : Z;
  trees : list (list p4est_quadrant_t);
  connectivity : p4est_connectivity_t
}.

(** Functions, tables and macros of p4est and libsc that the iterator calls
    and that are defined outside [p4est_iterate.c] ([p4est_bits.c],
    [p4est_algorithms.c], [p4est_connectivity.c], [sc_containers.c]).
    The [_extra] neighbour functions return the neighbouring tree ([-1] when
    there is none) with the transformed quadrant, or the list of those. *)
Class Bits `{Build} := {
  P4EST_QUADRANT_LEN : Z -> Z;
  p4est_quadrant_compare : p4est_quadrant_t -> p4est_quadrant_t -> Z;
  p4est_quadrant_is_equal : p4est_quadrant_t -> p4est_quadrant_t -> bool;
  p4est_quadrant_is_ancestor : p4est_quadrant_t -> p4est_quadrant_t -> bool;
  p4est_quadrant_child_id : p4est_quadrant_t -> Z;
  p4est_quadrant_sibling : p4est_quadrant_t -> Z -> p4est_quadrant_t;
  p4est_quadrant_parent : p4est_quadrant_t -> p4est_quadrant_t;
  p4est_quadrant_face_neighbor_extra :
    p4est_connectivity_t -> p4est_quadrant_t -> Z -> Z ->
    Z * p4est_quadrant_t;
  p8est_quadrant_edge_neighbor_extra :
    p4est_connectivity_t -> p4est_quadrant_t -> Z -> Z ->
    list (p4est_quadrant_t * Z);
  p4est_quadrant_corner_neighbor_extra :
    p4est_connectivity_t -> p4est_quadrant_t -> Z -> Z ->
    list (p4est_quadrant_t * Z);
  p4est_split_array : list p4est_quadrant_t -> Z -> list Z;
  sc_array_bsearch :
    list p4est_quadrant_t -> p4est_quadrant_t ->
    (p4est_quadrant_t -> p4est_quadrant_t -> Z) -> Z;
  sc_array_split :
    list p4est_quadrant_t -> Z -> (p4est_quadrant_t -> Z) -> list Z;
  p4est_corner_faces : Z -> Z -> Z;
  p4est_face_corners : Z -> Z -> Z;
  p4est_zface_to_rface : Z -> Z;
  p4est_rface_to_zface : Z -> Z;
  p8est_corner_edges : Z -> Z -> Z;
  p8est_edge_corners : Z -> Z -> Z;
  p8est_edge_faces : Z -> Z -> Z;
  p8est_child_corner_edges : Z -> Z -> Z;
  p8est_corner_face_corners : Z -> Z -> Z
}.

(** ** [p6est_lnodes_decode] *)

(** [p4est_lnodes_decode] ([p4est_lnodes.h]) and the table
    [p8est_face_edges] ([p8est_connectivity.c]) are used by the decoder and
    defined elsewhere. *)
Class LnodesEnv := {
  p4est_lnodes_decode : Z -> list Z -> Z * list Z;
  p8est_face_edges : Z -> Z -> Z
}.

(** [memset (a, -1, n * sizeof (int))]. *)
Definition memset_m1 (a : list Z) (n : nat) : list Z :=
  replicate (min n (length a)) (-1) ++ drop n a.

(** One round of the loop over the four side faces. *)
Definition p6est_decode_face `{LnodesEnv} (h h2 : Z) (f : Z)
  (st : list Z * list Z * Z) : option (list Z * list Z * Z) :=
  let '(hanging_face, hanging_edge, work) := st in
  hf ← zlookup hanging_face f;
  hanging_edge ←
    (if decide (0 <= hf) then
       e1 ← zinsert hanging_edge (p8est_face_edges f 0) (2 + hf);
       e2 ← zinsert e1 (p8est_face_edges f 1) (2 + hf);
       zinsert e2 (p8est_face_edges f (Z.lxor 3 hf)) 4
     else Some hanging_edge);
  '(hanging_face, hanging_edge) ←
    (if decide (Z.land work 1 <> 0) then
       e1 ← zinsert hanging_edge (p8est_face_edges f (Z.lxor 1 h)) 4;
       e2 ← zinsert e1 (p8est_face_edges f 2) (2 + h);
       e3 ← zinsert e2 (p8est_face_edges f 3) (2 + h);
       hf' ← zlookup hanging_face f;
       hanging_face ←
         (if decide (0 <= hf') then zinsert hanging_face f (hf' + h2)
          else Some hanging_face);
       Some (hanging_face, e3)
     else Some (hanging_face, hanging_edge));
  Some (hanging_face, hanging_edge, Z.shiftr work 1).

(** One round of the loop over the four vertical edges. *)
Definition p6est_decode_edge (h : Z) (e : Z) (st : list Z * Z)
  : option (list Z * Z) :=
  let '(hanging_edge, work) := st in
  hanging_edge ←
    (if decide (Z.land work 1 <> 0) then
       he ← zlookup hanging_edge (8 + e);
       if decide (he < 0) then zinsert hanging_edge (8 + e) h
       else Some hanging_edge
     else Some hanging_edge);
  Some (hanging_edge, Z.shiftr work 1).

(** The decoder.  The result is the returned [int] and the contents of the
    two caller-owned output arrays after the call. *)
Definition p6est_lnodes_decode `{LnodesEnv} (face_code : Z)
  (hanging_face hanging_edge : list Z) : option (Z * list Z * list Z) :=
  if decide (face_code <> 0) then
    let fc4 := Z.land face_code 15 in
    let h := Z.shiftr (Z.land face_code 16) 4 in
    let h2 := Z.shiftl h 1 in
    let work := Z.shiftr face_code 5 in
    let hanging_face := memset_m1 hanging_face 6 in
    let hanging_edge := memset_m1 hanging_edge 12 in
    let hanging_face := (p4est_lnodes_decode fc4 hanging_face).2 in
    '(hanging_face, hanging_edge, work) ←
      for_each (p6est_decode_face h h2) (zrange 0 4)
        (hanging_face, hanging_edge, work);
    '(hanging_edge, work) ←
      for_each (p6est_decode_edge h) (zrange 0 4) (hanging_edge, work);
    Some (1, hanging_face, hanging_edge)
  else
    Some (0, hanging_face, hanging_edge).

(** ** The tier rings *)

(** [p4est_iter_tier_t]: the key is the address of the first quadrant of
    the range that was split; [tier_array] is indeterminate until the tier
    is first filled. *)
Record p4est_iter_tier_t := {
  tier_key : option quad_ptr;
  tier_array : list Z
}.

Record p4est_iter_tier_ring_t := {
  ring_next : Z;
  ring_tiers : list p4est_iter_tier_t
}.

Definition tier_ring_max `{Build} (num_procs : Z) : Z :=
  if decide (num_procs = 1) then P4EST_CHILDREN else 2 * P4EST_CHILDREN.

Definition p4est_iter_tier_rings_new `{Build} (num_procs : Z)
  : list p4est_iter_tier_ring_t :=
  let tier_ring_max := tier_ring_max num_procs in
  let tier_level_max := P4EST_QMAXLEVEL in
  replicate (Z.to_nat tier_level_max)
    {| ring_next := 0;
       ring_tiers := replicate (Z.to_nat tier_ring_max)
                       {| tier_key := None; tier_array := [] |} |}.

(** [p4est_iter_tier_update]: split the view, then shift every offset. *)
Definition p4est_iter_tier_update `{Bits} (view : list p4est_quadrant_t)
  (level : Z) (shift : Z) : list Z :=
  map (fun o => sz_add o shift) (p4est_split_array view level).

(** What the scan of a ring finds first: an unused tier, a tier with the
    requested key, or neither. *)
Inductive tier_scan_result :=
| ScanUnused (i : Z)
| ScanHit (i : Z) (offsets : list Z)
| ScanMiss.

Fixpoint tier_scan (tiers : list p4est_iter_tier_t) (i : Z) (q : quad_ptr)
  : tier_scan_result :=
  match tiers with
  | [] => ScanMiss
  | tier :: rest =>
      match tier_key tier with
      | None => ScanUnused i
      | Some key =>
          if decide (q = key) then ScanHit i (tier_array tier)
          else tier_scan rest (i + 1) q
      end
  end.

(** The outcome of [p4est_iter_tier_insert]: the offsets written to
    [next_tier], the rings after the call, and whether
    [p4est_iter_tier_update] (the binary search) was run. *)
Record tier_insert_result := {
  next_tier : list Z;
  rings_after : list p4est_iter_tier_ring_t;
  searched : bool
}.

Definition ring_store (ring : p4est_iter_tier_ring_t) (i : Z)
  (q : quad_ptr) (offsets : list Z) (limit : Z)
  : option p4est_iter_tier_ring_t :=
  tiers ← zinsert (ring_tiers ring) i
             {| tier_key := Some q; tier_array := offsets |};
  guard (limit <> 0);;
  Some {| ring_next := (ring_next ring + 1) `rem` limit;
          ring_tiers := tiers |}.

Definition p4est_iter_tier_insert `{Bits} (view : list p4est_quadrant_t)
  (level : Z) (shift : Z) (tier_rings : list p4est_iter_tier_ring_t)
  (q : option quad_ptr) : option tier_insert_result :=
  match q with
  | None =>
      Some {| next_tier := replicate (Z.to_nat P4EST_ITER_STRIDE) shift;
              rings_after := tier_rings; searched := false |}
  | Some q =>
      if decide (level >= Z.of_nat (length tier_rings)) then
        Some {| next_tier := p4est_iter_tier_update view level shift;
                rings_after := tier_rings; searched := true |}
      else
        ring ← zlookup tier_rings level;
        let limit := Z.of_nat (length (ring_tiers ring)) in
        match tier_scan (ring_tiers ring) 0 q with
        | ScanUnused i =>
            let offsets := p4est_iter_tier_update view level shift in
            ring' ← ring_store ring i q offsets limit;
            rings ← zinsert tier_rings level ring';
            Some {| next_tier := offsets; rings_after := rings;
                    searched := true |}
        | ScanHit _ offsets =>
            Some {| next_tier := offsets; rings_after := tier_rings;
                    searched := false |}
        | ScanMiss =>
            let offsets := p4est_iter_tier_update view level shift in
            ring' ← ring_store ring (ring_next ring) q offsets limit;
            rings ← zinsert tier_rings level ring';
            Some {| next_tier := offsets; rings_after := rings;
                    searched := true |}
        end
  end.

(** ** Side records, info records and the callback trace *)

(** The three fields that describe one quadrant next to an entity: the
    quadrant ([NULL] when there is none), whether it is a local quadrant,
    and its position in its array. *)
Record side_quad := {
  sq_quad : option quad_ptr;
  sq_is_local : bool;
  sq_quadid : Z
}.

(** The [is] union of a face or edge side together with its [is_hanging]
    tag; a corner side has the three fields of [SideFull] directly.
    [SideUnset] is a side whose quadrant fields were never written; a slot
    of a hanging side that was not written since the side became hanging is
    [None]. *)
Inductive side_data :=
| SideUnset
| SideFull (q : side_quad)
| SideHanging (slots : list (option side_quad)).

Definition side_null : side_quad :=
  {| sq_quad := None; sq_is_local := false; sq_quadid := -1 |}.

Record p4est_iter_corner_side_t := {
  cs_treeid : Z;
  cs_corner : Z;
  cs_is : side_data
}.

Record p8est_iter_edge_side_t := {
  es_treeid : Z;
  es_edge : Z;
  es_orientation : Z;
  es_is : side_data
}.

Record p4est_iter_face_side_t := {
  fs_treeid : Z;
  fs_face : Z;
  fs_is : side_data
}.

(** The info records, without the [p4est] and [ghost_layer] pointers that
    every init routine copies from the arguments of the top-level call. *)
Record p4est_iter_volume_info_t := {
  vi_treeid : Z;
  vi_quad : option quad_ptr;
  vi_quadid : Z
}.

Record p4est_iter_face_info_t := {
  fi_orientation : Z;
  fi_sides : list p4est_iter_face_side_t
}.

(** One invocation of a callback, with the info record as it is at that
    moment. *)
Inductive iter_event :=
| EvVolume (info : p4est_iter_volume_info_t)
| EvFace (info : p4est_iter_face_info_t)
| EvEdge (sides : list p8est_iter_edge_side_t)
| EvCorner (sides : list p4est_iter_corner_side_t).

(** The four callback pointers of a traversal: [true] for non-NULL. *)
Record callbacks := {
  iter_volume : bool;
  iter_face : bool;
  iter_edge : bool;
  iter_corner : bool
}.

(** ** The quadrant arrays *)

(** What a traversal reads and never writes: the forest and the ghost
    layer. *)
Record iter_ctx := {
  ctx_p4est : p4est_t;
  ctx_ghost : list p4est_quadrant_t
}.

Definition array_contents (ctx : iter_ctx) (a : quad_array)
  : option (list p4est_quadrant_t) :=
  match a with
  | TreeQuads t => zlookup (trees (ctx_p4est ctx)) t
  | GhostQuads => Some (ctx_ghost ctx)
  end.

Definition elem_count (ctx : iter_ctx) (a : quad_array) : option Z :=
  l ← array_contents ctx a; Some (Z.of_nat (length l)).

(** [sc_array_index]: the address of element [i], which has to exist. *)
Definition sc_array_index (ctx : iter_ctx) (a : quad_array) (i : Z)
  : option quad_ptr :=
  l ← array_contents ctx a;
  _ ← zlookup l i;
  Some (QPtr a i).

(** Reading through a quadrant pointer. *)
Definition deref (ctx : iter_ctx) (p : quad_ptr) : option p4est_quadrant_t :=
  l ← array_contents ctx (ptr_array p); zlookup l (ptr_index p).

(** [sc_array_init_view]: the [count] elements from [offset] on. *)
Definition sc_array_init_view (ctx : iter_ctx) (a : quad_array)
  (offset count : Z) : option (list p4est_quadrant_t) :=
  l ← array_contents ctx a;
  if decide (count = 0) then Some []
  else
    guard (0 <= offset /\ 0 <= count /\
           offset + count <= Z.of_nat (length l));;
    Some (take (Z.to_nat count) (drop (Z.to_nat offset) l)).

(** ** The loop arguments *)

(** [p4est_iter_loop_args_t].  All arrays come from [P4EST_ALLOC]. *)
Record p4est_iter_loop_args_t := {
  alloc_size : Z;
  loop_edge : bool;
  loop_corner : bool;
  level : Z;
  level_num : carray Z;
  quad_idx2 : carray Z;
  quadrants : carray quad_array;
  index : list (carray Z);
  first_index : carray Z;
  count : carray Z;
  test : carray (option quad_ptr);
  test_level : carray Z;
  refine : carray bool;
  tier_rings : list p4est_iter_tier_ring_t
}.

Definition set_level (v : Z) (la : p4est_iter_loop_args_t) :=
  {| alloc_size := alloc_size la; loop_edge := loop_edge la;
     loop_corner := loop_corner la; level := v;
     level_num := level_num la; quad_idx2 := quad_idx2 la;
     quadrants := quadrants la; index := index la;
     first_index := first_index la; count := count la; test := test la;
     test_level := test_level la; refine := refine la;
     tier_rings := tier_rings la |}.

Definition set_level_num (i v : Z) (la : p4est_iter_loop_args_t) :=
  a ← aset (level_num la) i v;
  Some {| alloc_size := alloc_size la; loop_edge := loop_edge la;
     loop_corner := loop_corner la; level := level la;
     level_num := a; quad_idx2 := quad_idx2 la;
     quadrants := quadrants la; index := index la;
     first_index := first_index la; count := count la; test := test la;
     test_level := test_level la; refine := refine la;
     tier_rings := tier_rings la |}.

Definition set_quad_idx2 (i v : Z) (la : p4est_iter_loop_args_t) :=
  a ← aset (quad_idx2 la) i v;
  Some {| alloc_size := alloc_size la; loop_edge := loop_edge la;
     loop_corner := loop_corner la; level := level la;
     level_num := level_num la; quad_idx2 := a;
     quadrants := quadrants la; index := index la;
     first_index := first_index la; count := count la; test := test la;
     test_level := test_level la; refine := refine la;
     tier_rings := tier_rings la |}.

Definition set_quadrants (i : Z) (v : quad_array)
  (la : p4est_iter_loop_args_t) :=
  a ← aset (quadrants la) i v;
  Some {| alloc_size := alloc_size la; loop_edge := loop_edge la;
     loop_corner := loop_corner la; level := level la;
     level_num := level_num la; quad_idx2 := quad_idx2 la;
     quadrants := a; index := index la;
     first_index := first_index la; count := count la; test := test la;
     test_level := test_level la; refine := refine la;
     tier_rings := tier_rings la |}.

Definition get_index (i k : Z) (la : p4est_iter_loop_args_t) : option Z :=
  a ← zlookup (index la) i; aget a k.

Definition set_index (i k v : Z) (la : p4est_iter_loop_args_t) :=
  a ← zlookup (index la) i;
  a' ← aset a k v;
  idx ← zinsert (index la) i a';
  Some {| alloc_size := alloc_size la; loop_edge := loop_edge la;
     loop_corner := loop_corner la; level := level la;
     level_num := level_num la; quad_idx2 := quad_idx2 la;
     quadrants := quadrants la; index := idx;
     first_index := first_index la; count := count la; test := test la;
     test_level := test_level la; refine := refine la;
     tier_rings := tier_rings la |}.

Definition set_first_index (i v : Z) (la : p4est_iter_loop_args_t) :=
  a ← aset (first_index la) i v;
  Some {| alloc_size := alloc_size la; loop_edge := loop_edge la;
     loop_corner := loop_corner la; level := level la;
     level_num := level_num la; quad_idx2 := quad_idx2 la;
     quadrants := quadrants la; index := index la;
     first_index := a; count := count la; test := test la;
     test_level := test_level la; refine := refine la;
     tier_rings := tier_rings la |}.

Definition set_count (i v : Z) (la : p4est_iter_loop_args_t) :=
  a ← aset (count la) i v;
  Some {| alloc_size := alloc_size la; loop_edge := loop_edge la;
     loop_corner := loop_corner la; level := level la;
     level_num := level_num la; quad_idx2 := quad_idx2 la;
     quadrants := quadrants la; index := index la;
     first_index := first_index la; count := a; test := test la;
     test_level := test_level la; refine := refine la;
     tier_rings := tier_rings la |}.

Definition set_test (i : Z) (v : option quad_ptr)
  (la : p4est_iter_loop_args_t) :=
  a ← aset (test la) i v;
  Some {| alloc_size := alloc_size la; loop_edge := loop_edge la;
     loop_corner := loop_corner la; level := level la;
     level_num := level_num la; quad_idx2 := quad_idx2 la;
     quadrants := quadrants la; index := index la;
     first_index := first_index la; count := count la; test := a;
     test_level := test_level la; refine := refine la;
     tier_rings := tier_rings la |}.

Definition set_test_level (i v : Z) (la : p4est_iter_loop_args_t) :=
  a ← aset (test_level la) i v;
  Some {| alloc_size := alloc_size la; loop_edge := loop_edge la;
     loop_corner := loop_corner la; level := level la;
     level_num := level_num la; quad_idx2 := quad_idx2 la;
     quadrants := quadrants la; index := index la;
     first_index := first_index la; count := count la; test := test la;
     test_level := a; refine := refine la;
     tier_rings := tier_rings la |}.

Definition set_refine (i : Z) (v : bool) (la : p4est_iter_loop_args_t) :=
  a ← aset (refine la) i v;
  Some {| alloc_size := alloc_size la; loop_edge := loop_edge la;
     loop_corner := loop_corner la; level := level la;
     level_num := level_num la; quad_idx2 := quad_idx2 la;
     quadrants := quadrants la; index := index la;
     first_index := first_index la; count := count la; test := test la;
     test_level := test_level la; refine := a;
     tier_rings := tier_rings la |}.

Definition set_tier_rings (v : list p4est_iter_tier_ring_t)
  (la : p4est_iter_loop_args_t) :=
  {| alloc_size := alloc_size la; loop_edge := loop_edge la;
     loop_corner := loop_corner la; level := level la;
     level_num := level_num la; quad_idx2 := quad_idx2 la;
     quadrants := quadrants la; index := index la;
     first_index := first_index la; count := count la; test := test la;
     test_level := test_level la; refine := refine la;
     tier_rings := v |}.

Definition local : Z := 0.
Definition ghost : Z := 1.
Definition left : Z := 0.
Definition right : Z := 1.

(** The largest number of trees listed for one edge or corner of the
    connectivity, starting from the value for a regular mesh. *)
Definition max_entity_size (offsets : list Z) (num : Z) (start : Z)
  : option Z :=
  for_each (fun e m =>
              lo ← zlookup offsets e;
              hi ← zlookup offsets (e + 1);
              let size := hi - lo in
              Some (if decide (size > m) then size else m))
    (zrange 0 num) start.

(** The sizes computed at the start of [p4est_iter_loop_args_new]:
    [alloc_size], the number of index arrays (two for each side), and
    [max_corner_size], the most quadrants that can meet at a corner. *)
Definition loop_args_sizes `{Build} (conn : p4est_connectivity_t)
  (cb_edge cb_corner : bool) : option (Z * Z) :=
  let ctt := if P4_TO_P8 then ctt_offset conn else vtt_offset conn in
  let ncorners := if P4_TO_P8 then num_corners conn else num_vertices conn in
  let alloc_size := 4 in
  let max_corner_size := P4EST_CHILDREN in
  '(alloc_size, max_corner_size) ←
    (if P4_TO_P8 && (cb_edge || cb_corner) then
       max_edge_size ← max_entity_size (ett_offset conn) (num_edges conn) 4;
       Some (if decide (2 * max_edge_size > alloc_size)
             then 2 * max_edge_size else alloc_size,
             if decide (max_edge_size * 2 > max_corner_size)
             then max_edge_size * 2 else max_corner_size)
     else Some (alloc_size, max_corner_size));
  if cb_corner then
    max_corner_size ← max_entity_size ctt ncorners max_corner_size;
    Some (if decide (2 * max_corner_size > alloc_size)
          then 2 * max_corner_size else alloc_size, max_corner_size)
  else Some (alloc_size, max_corner_size).

Definition p4est_iter_loop_args_new `{Build} (conn : p4est_connectivity_t)
  (cb_edge cb_corner : bool) (num_procs : Z)
  : option p4est_iter_loop_args_t :=
  '(alloc_size, _) ← loop_args_sizes conn cb_edge cb_corner;
  Some {|
    alloc_size := alloc_size;
    loop_edge := P4_TO_P8 && (cb_corner || cb_edge);
    loop_corner := cb_corner;
    level := 0;
    level_num := P4EST_ALLOC (P4EST_QMAXLEVEL + 1);
    quad_idx2 := P4EST_ALLOC (alloc_size `quot` 2);
    quadrants :=
      map (fun i => if decide (i `rem` 2 <> 0) then Some GhostQuads else None)
        (zrange 0 alloc_size);
    index :=
      replicate (Z.to_nat alloc_size)
        (P4EST_ALLOC ((P4EST_QMAXLEVEL + 1) * P4EST_ITER_STRIDE));
    first_index := P4EST_ALLOC alloc_size;
    count := P4EST_ALLOC alloc_size;
    test := P4EST_ALLOC alloc_size;
    test_level := P4EST_ALLOC alloc_size;
    refine := P4EST_ALLOC (alloc_size `quot` 2);
    tier_rings := p4est_iter_tier_rings_new num_procs
  |}.

(** [quadrants[i] = (i % 2) ? ghost_quads : local_quads] for [i] in
    [lo .. hi - 1]; [pick] chooses the local array of an even [i]. *)
Definition fill_quadrants (pick : Z -> quad_array) (lo hi : Z)
  (la : p4est_iter_loop_args_t) : option p4est_iter_loop_args_t :=
  for_each (fun i la =>
              set_quadrants i
                (if decide (i `rem` 2 <> 0) then GhostQuads else pick i) la)
    (zrange lo hi) la.

(** The search area of one side at the root: the whole local array of the
    tree and the part of the ghost layer that belongs to the tree. *)
Definition init_root_bounds (ctx : iter_ctx) (ghost_offsets : list Z)
  (side t : Z) (la : p4est_iter_loop_args_t)
  : option p4est_iter_loop_args_t :=
  n ← elem_count ctx (TreeQuads t);
  g0 ← zlookup ghost_offsets t;
  g1 ← zlookup ghost_offsets (t + 1);
  la ← set_index (side * 2 + local) 0 0 la;
  la ← set_index (side * 2 + local) 1 n la;
  la ← set_index (side * 2 + ghost) 0 g0 la;
  set_index (side * 2 + ghost) 1 g1 la.

Definition p4est_iter_init_loop_volume `{Build} (ctx : iter_ctx)
  (ghost_offsets : list Z) (t : Z) (la : p4est_iter_loop_args_t)
  : option p4est_iter_loop_args_t :=
  let la := set_level 0 la in
  la ← set_level_num 0 0 la;
  la ← for_each (fun i la => init_root_bounds ctx ghost_offsets i t la)
         (zrange left (right + 1)) la;
  la ← fill_quadrants (fun _ => TreeQuads t) 0 4 la;
  let do_edge := P4_TO_P8 && loop_edge la in
  la ← (if do_edge then fill_quadrants (fun _ => TreeQuads t) 4 8 la
        else Some la);
  let i := if do_edge then 8 else 4 in
  if loop_corner la
  then fill_quadrants (fun _ => TreeQuads t) i (2 * P4EST_CHILDREN) la
  else Some la.

Definition p4est_iter_init_loop_face `{Build} (ctx : iter_ctx)
  (ghost_offsets : list Z) (t nt : Z) (la : p4est_iter_loop_args_t)
  : option p4est_iter_loop_args_t :=
  let pick i :=
    if decide ((i `quot` 2) `rem` 2 <> 0) then TreeQuads nt
    else TreeQuads t in
  let la := set_level 0 la in
  la ← set_level_num 0 0 la;
  la ← init_root_bounds ctx ghost_offsets left t la;
  la ← init_root_bounds ctx ghost_offsets right nt la;
  la ← set_quadrants (left * 2 + local) (TreeQuads t) la;
  la ← set_quadrants (left * 2 + ghost) GhostQuads la;
  la ← set_quadrants (right * 2 + local) (TreeQuads nt) la;
  la ← set_quadrants (right * 2 + ghost) GhostQuads la;
  let do_edge := P4_TO_P8 && loop_edge la in
  la ← (if do_edge then fill_quadrants pick 4 8 la else Some la);
  let i := if do_edge then 8 else 4 in
  if loop_corner la then fill_quadrants pick i (2 * P4EST_CHILDREN) la
  else Some la.

Definition p4est_iter_init_loop_outside_face `{Build} (ctx : iter_ctx)
  (ghost_offsets : list Z) (t : Z) (la : p4est_iter_loop_args_t)
  : option p4est_iter_loop_args_t :=
  let la := set_level 0 la in
  la ← set_level_num 0 0 la;
  la ← init_root_bounds ctx ghost_offsets 0 t la;
  la ← set_quadrants local (TreeQuads t) la;
  la ← set_quadrants ghost GhostQuads la;
  let do_edge := P4_TO_P8 && loop_edge la in
  la ← (if do_edge then fill_quadrants (fun _ => TreeQuads t) 2 4 la
        else Some la);
  let i := if do_edge then 4 else 2 in
  if loop_corner la
  then fill_quadrants (fun _ => TreeQuads t) i P4EST_CHILDREN la
  else Some la.

(** [p8est_iter_init_loop_edge] and [p4est_iter_init_loop_corner] walk the
    sides of the info record; [treeids] lists [side->treeid] in order.
    The edge variant also prepares the arrays of the corner search
    ([with_corner]). *)
Definition init_loop_sides (ctx : iter_ctx) (ghost_offsets : list Z)
  (treeids : list Z) (with_corner : bool) (la : p4est_iter_loop_args_t)
  : option p4est_iter_loop_args_t :=
  let limit := Z.of_nat (length treeids) in
  let la := set_level 0 la in
  la ← set_level_num 0 0 la;
  for_each (fun '(zz, t) la =>
              la ← init_root_bounds ctx ghost_offsets zz t la;
              la ← set_quadrants (zz * 2 + local) (TreeQuads t) la;
              la ← set_quadrants (zz * 2 + ghost) GhostQuads la;
              if with_corner then
                la ← set_quadrants ((limit + zz) * 2 + local) (TreeQuads t) la;
                set_quadrants ((limit + zz) * 2 + ghost) GhostQuads la
              else Some la)
    (zip (zrange 0 limit) treeids) la.

Definition p8est_iter_init_loop_edge (ctx : iter_ctx)
  (ghost_offsets : list Z) (sides : list p8est_iter_edge_side_t)
  (la : p4est_iter_loop_args_t) : option p4est_iter_loop_args_t :=
  init_loop_sides ctx ghost_offsets (map es_treeid sides) (loop_corner la) la.

Definition p4est_iter_init_loop_corner (ctx : iter_ctx)
  (ghost_offsets : list Z) (sides : list p4est_iter_corner_side_t)
  (la : p4est_iter_loop_args_t) : option p4est_iter_loop_args_t :=
  init_loop_sides ctx ghost_offsets (map cs_treeid sides) false la.

(** [p4est_iter_copy_indices]: give side [side] the bounds of side
    [side % old_num] at the current level. *)
Definition p4est_iter_copy_indices `{Build} (start_idx2 : carray Z)
  (old_num new_num : Z) (la : p4est_iter_loop_args_t)
  : option p4est_iter_loop_args_t :=
  for_each (fun side la =>
     s ← aget start_idx2 side;
     let idx2 := level la * P4EST_ITER_STRIDE + s in
     guard (old_num <> 0);;
     for_each (fun type la =>
        a ← get_index ((side `rem` old_num) * 2 + type) idx2 la;
        la ← set_index (side * 2 + type) idx2 a la;
        b ← get_index ((side `rem` old_num) * 2 + type) (idx2 + 1) la;
        set_index (side * 2 + type) (idx2 + 1) b la)
       (zrange local (ghost + 1)) la)
    (zrange 0 new_num) la.

(** Stop at the first index for which [p] answers [true], as a loop that
    leaves with [break]. *)
Fixpoint find_first (p : Z -> option bool) (idxs : list Z) : option bool :=
  match idxs with
  | [] => Some false
  | i :: rest => b ← p i; if b : bool then Some true else find_first p rest
  end.

(** Load into [first_index] and [count] the bounds that [index[sidetype]]
    holds at position [q]. *)
Definition load_bound_at (sidetype q : Z) (la : p4est_iter_loop_args_t)
  : option p4est_iter_loop_args_t :=
  lo ← get_index sidetype q la;
  la ← set_first_index sidetype lo la;
  hi ← get_index sidetype (q + 1) la;
  lo ← aget (first_index la) sidetype;
  set_count sidetype (sz_sub hi lo) la.

(** The same for both types of one side, at position [quad_idx2[side]]. *)
Definition load_bounds (side : Z) (la : p4est_iter_loop_args_t)
  : option p4est_iter_loop_args_t :=
  for_each (fun type la =>
     q ← aget (quad_idx2 la) side;
     load_bound_at (side * 2 + type) q la)
    (zrange local (ghost + 1)) la.

(** ** The corner iterator *)

Record p4est_iter_corner_args_t := {
  c_num_sides : Z;
  c_start_idx2 : carray Z;
  c_sides : list p4est_iter_corner_side_t
}.

(** The canonical-owner loop of [p4est_iter_init_corner] and
    [p8est_iter_init_edge]: walk the sides after the first, each given as
    (tree id, local entity index), and reject as soon as one of them is
    greater than [(t, e)]. *)
Fixpoint owner_check (t e : Z) (others : list (Z * Z)) : bool :=
  match others with
  | [] => true
  | (treeid, entity) :: rest =>
      if decide (treeid > t) then false
      else if decide (treeid = t /\ entity > e) then false
      else owner_check t e rest
  end.

(** The sides that [p4est_iter_init_corner] pushes for corner [c] of tree
    [t]: the corner itself, then what lies across the faces, (in 3D) the
    edges, and the corner. *)
Definition corner_sides `{Bits} (conn : p4est_connectivity_t) (t c : Z)
  : list p4est_iter_corner_side_t :=
  let temp := mkQuad 0 0 0 1 0 in
  let orig := p4est_quadrant_sibling temp c in
  let side nt q :=
    {| cs_treeid := nt; cs_corner := p4est_quadrant_child_id q;
       cs_is := SideUnset |} in
  [ {| cs_treeid := t; cs_corner := c; cs_is := SideUnset |} ]
  ++ flat_map (fun i =>
       let f := p4est_corner_faces c i in
       let '(nt, temp) := p4est_quadrant_face_neighbor_extra conn orig t f in
       if decide (nt = -1) then [] else [side nt temp])
     (zrange 0 P4EST_DIM)
  ++ (if P4_TO_P8 then
        flat_map (fun i =>
          let e := p8est_corner_edges c i in
          map (fun '(q, nt) => side nt q)
            (p8est_quadrant_edge_neighbor_extra conn orig t e))
        (zrange 0 3)
      else [])
  ++ map (fun '(q, nt) => side nt q)
       (p4est_quadrant_corner_neighbor_extra conn orig t c).

(** [start_idx2[count++] = 0] for each of [n] sides, in a fresh block of
    [size] ints. *)
Definition zero_start_idx2 (size n : Z) : option (carray Z) :=
  for_each (fun i a => aset a i 0) (zrange 0 n) (P4EST_ALLOC size).

Definition p4est_iter_init_corner `{Bits} (ctx : iter_ctx)
  (ghost_offsets : list Z) (la : p4est_iter_loop_args_t) (t c : Z)
  : option (bool * p4est_iter_corner_args_t * p4est_iter_loop_args_t) :=
  let conn := connectivity (ctx_p4est ctx) in
  let sides := corner_sides conn t c in
  let count := Z.of_nat (length sides) in
  start_idx2 ← zero_start_idx2 (alloc_size la `quot` 2) count;
  let args := {| c_num_sides := count; c_start_idx2 := start_idx2;
                 c_sides := sides |} in
  if owner_check t c
       (map (fun s => (cs_treeid s, cs_corner s)) (drop 1 sides))
  then
    la ← p4est_iter_init_loop_corner ctx ghost_offsets sides la;
    Some (true, args, la)
  else Some (false, args, la).

Definition p4est_quadrant_compare_contains `{Bits}
  (q r : p4est_quadrant_t) : Z :=
  let level := if decide (qlevel q < qlevel r) then qlevel q else qlevel r in
  let mask := Z.shiftl (-1) (P4EST_MAXLEVEL - level) in
  if decide (Z.land (Z.lxor (qx q) (qx r)) mask <> 0
             \/ Z.land (Z.lxor (qy q) (qy r)) mask <> 0
             \/ (P4_TO_P8 = true /\ Z.land (Z.lxor (qz q) (qz r)) mask <> 0))
  then p4est_quadrant_compare q r
  else 0.

(** The smallest quadrant in corner [this_corner] of the ancestor at
    [level] of the candidate. *)
Definition corner_probe `{Bits} (level this_corner : Z)
  (cand : p4est_quadrant_t) : p4est_quadrant_t :=
  let mask := Z.shiftl (-1) (P4EST_MAXLEVEL - level) in
  let shift := P4EST_QUADRANT_LEN level - P4EST_QUADRANT_LEN P4EST_QMAXLEVEL in
  let x := Z.land (qx cand) mask in
  let y := Z.land (qy cand) mask in
  let z := if P4_TO_P8 then Z.land (qz cand) mask else qz cand in
  {| qx := x + (if decide (this_corner `rem` 2 <> 0) then shift else 0);
     qy := y + (if decide ((this_corner `rem` 4) `quot` 2 <> 0)
                then shift else 0);
     qz := if P4_TO_P8
           then z + (if decide (this_corner `quot` 4 <> 0) then shift else 0)
           else z;
     qlevel := P4EST_QMAXLEVEL;
     which_tree := which_tree cand |}.

(** The search of one type (local or ghost) of one side: the candidate that
    touches the corner, with its offset [temp_idx] in the search area, or
    [NULL]. *)
Definition corner_candidate `{Bits} (ctx : iter_ctx) (level this_corner : Z)
  (arr : quad_array) (first cnt : Z) : option (option (quad_ptr * Z)) :=
  '(cand, temp_idx) ←
    (if decide (cnt = 1) then
       p ← sc_array_index ctx arr first; Some (p, 0)
     else if decide (this_corner = P4EST_CHILDREN - 1) then
       p ← sc_array_index ctx arr (sz_sub (sz_add first cnt) 1);
       Some (p, cnt - 1)
     else
       p ← sc_array_index ctx arr first; Some (p, 0));
  q ← deref ctx cand;
  let temp := corner_probe level this_corner q in
  if decide (cnt = 1 \/ this_corner = 0 \/ this_corner = P4EST_CHILDREN - 1)
  then
    if negb (p4est_quadrant_is_equal q temp)
       && negb (p4est_quadrant_is_ancestor q temp)
    then Some None
    else Some (Some (cand, temp_idx))
  else
    test_view ← sc_array_init_view ctx arr first cnt;
    let temp_idx :=
      sc_array_bsearch test_view temp p4est_quadrant_compare_contains in
    if decide (temp_idx = -1) then Some None
    else
      _ ← zlookup test_view temp_idx;
      Some (Some (QPtr arr (first + temp_idx), temp_idx)).

(** The body of the loop over the types of one side. *)
Definition corner_side_type `{Bits} (ctx : iter_ctx) (level side : Z)
  (type : Z)
  (st : p4est_iter_loop_args_t * p4est_iter_corner_side_t * bool)
  : option (p4est_iter_loop_args_t * p4est_iter_corner_side_t * bool) :=
  let '(la, cside, has_local) := st in
  let sidetype := side * 2 + type in
  found ← aget (test la) (side * 2 + local);
  if decide (found <> None) then Some st
  else
    cnt ← aget (count la) sidetype;
    if decide (cnt <> 0) then
      arr ← aget (quadrants la) sidetype;
      first ← aget (first_index la) sidetype;
      r ← corner_candidate ctx level (cs_corner cside) arr first cnt;
      match r with
      | None =>
          la ← set_test sidetype None la;
          Some (la, cside, has_local)
      | Some (p, temp_idx) =>
          la ← set_test sidetype (Some p) la;
          let temp_idx := temp_idx + first in
          let cside :=
            {| cs_treeid := cs_treeid cside; cs_corner := cs_corner cside;
               cs_is := SideFull
                 {| sq_quad := Some p;
                    sq_is_local := bool_decide (type = local);
                    sq_quadid := to_locidx temp_idx |} |} in
          Some (la, cside,
                if decide (type = local) then true else has_local)
      end
    else Some st.

(** The body of the loop over the sides. *)
Definition corner_side `{Bits} (ctx : iter_ctx) (level : Z) (side : Z)
  (st : p4est_iter_loop_args_t * list p4est_iter_corner_side_t * bool)
  : option (p4est_iter_loop_args_t * list p4est_iter_corner_side_t * bool) :=
  let '(la, sides, has_local) := st in
  cside ← zlookup sides side;
  let cside := {| cs_treeid := cs_treeid cside; cs_corner := cs_corner cside;
                  cs_is := SideFull side_null |} in
  '(la, cside, has_local) ←
    for_each (corner_side_type ctx level side) (zrange local (ghost + 1))
      (la, cside, has_local);
  sides ← zinsert sides side cside;
  Some (la, sides, has_local).

Definition p4est_corner_iterate `{Bits} (ctx : iter_ctx)
  (args : p4est_iter_corner_args_t) (la : p4est_iter_loop_args_t)
  : option (p4est_iter_corner_args_t * p4est_iter_loop_args_t
            * list iter_event) :=
  let level := level la in
  let num_sides := c_num_sides args in
  let level_idx2 := level * P4EST_ITER_STRIDE in
  la ← for_each (fun side la =>
          s ← aget (c_start_idx2 args) side;
          la ← set_quad_idx2 side (level_idx2 + s) la;
          la ← load_bounds side la;
          la ← set_test (side * 2 + local) None la;
          set_test (side * 2 + ghost) None la)
        (zrange 0 num_sides) la;
  some_local ← find_first (fun side =>
                  cnt ← aget (count la) (side * 2 + local);
                  Some (bool_decide (cnt <> 0)))
                (zrange 0 num_sides);
  if negb some_local then Some (args, la, [])
  else
    '(la, sides, has_local) ←
      for_each (corner_side ctx level) (zrange 0 num_sides)
        (la, c_sides args, false);
    let args := {| c_num_sides := c_num_sides args;
                   c_start_idx2 := c_start_idx2 args;
                   c_sides := sides |} in
    if negb has_local then Some (args, la, [])
    else Some (args, la, [EvCorner sides]).

(** ** Steps shared by the edge, face and volume iterators *)

(** A loop that can be left early with [goto change_search_area]. *)
Inductive flow (S : Type) :=
| Next (s : S)
| Leave (s : S).
Arguments Next {S} s.
Arguments Leave {S} s.

Fixpoint for_break {S I : Type} (body : I -> S -> option (flow S))
  (idxs : list I) (s : S) : option (flow S) :=
  match idxs with
  | [] => Some (Next s)
  | i :: rest =>
      r ← body i s;
      match r with
      | Next s' => for_break body rest s'
      | Leave s' => Some (Leave s')
      end
  end.

(** Fetch the first quadrant of the search area of [sidetype] and its
    level, or [NULL] and [-1] when the area is empty. *)
Definition fetch_candidate (ctx : iter_ctx) (sidetype : Z)
  (la : p4est_iter_loop_args_t) : option p4est_iter_loop_args_t :=
  cnt ← aget (count la) sidetype;
  if decide (cnt <> 0) then
    arr ← aget (quadrants la) sidetype;
    first ← aget (first_index la) sidetype;
    p ← sc_array_index ctx arr first;
    la ← set_test sidetype (Some p) la;
    q ← deref ctx p;
    set_test_level sidetype (qlevel q) la
  else
    la ← set_test sidetype None la;
    set_test_level sidetype (-1) la.

(** Store the [P4EST_ITER_STRIDE] offsets of [next_tier] in
    [index[sidetype]] from position [pos] on. *)
Definition store_tier (sidetype pos : Z) (offsets : list Z)
  (la : p4est_iter_loop_args_t) : option p4est_iter_loop_args_t :=
  for_each (fun '(k, o) la => set_index sidetype (pos + k) o la)
    (zip (zrange 0 (Z.of_nat (length offsets))) offsets) la.

(** Split the search area of [sidetype] through the tier rings and put the
    bounds of its children in [index[sidetype]] from position [pos] on. *)
Definition split_sidetype `{Bits} (ctx : iter_ctx) (sidetype pos : Z)
  (la : p4est_iter_loop_args_t) : option p4est_iter_loop_args_t :=
  arr ← aget (quadrants la) sidetype;
  first ← aget (first_index la) sidetype;
  cnt ← aget (count la) sidetype;
  test_view ← sc_array_init_view ctx arr first cnt;
  q ← aget (test la) sidetype;
  r ← p4est_iter_tier_insert test_view (level la) first (tier_rings la) q;
  la ← store_tier sidetype pos (next_tier r) la;
  Some (set_tier_rings (rings_after r) la).

(** Refine the search area of one side: both of its types. *)
Definition split_side `{Bits} (ctx : iter_ctx) (level_idx2 side : Z)
  (la : p4est_iter_loop_args_t) : option p4est_iter_loop_args_t :=
  la ← set_quad_idx2 side (level_idx2 + P4EST_ITER_STRIDE) la;
  for_each (fun type la =>
     pos ← aget (quad_idx2 la) side;
     split_sidetype ctx (side * 2 + type) pos la)
    (zrange local (ghost + 1)) la.

(** [level_num[i]++]. *)
Definition incr_level_num (i : Z) (la : p4est_iter_loop_args_t)
  : option p4est_iter_loop_args_t :=
  n ← aget (level_num la) i; set_level_num i (n + 1) la.

(** Probe one child position of a hanging side: after [quad_idx2[side]] has
    been pointed at the child, look in the local and then in the ghost
    search area; a non-empty area supplies the slot. *)
Definition probe_child (ctx : iter_ctx) (side : Z)
  (st : p4est_iter_loop_args_t * side_quad * bool)
  : option (p4est_iter_loop_args_t * side_quad * bool) :=
  for_each (fun type '(la, slot, has_local) =>
     let sidetype := side * 2 + type in
     q ← aget (quad_idx2 la) side;
     lo ← get_index sidetype q la;
     la ← set_first_index sidetype lo la;
     hi ← get_index sidetype (q + 1) la;
     let cnt := sz_sub hi lo in
     la ← set_count sidetype cnt la;
     if decide (cnt <> 0) then
       arr ← aget (quadrants la) sidetype;
       p ← sc_array_index ctx arr lo;
       Some (la,
             {| sq_quad := Some p;
                sq_is_local := bool_decide (type = local);
                sq_quadid := to_locidx lo |},
             if decide (type = local) then true else has_local)
     else Some (la, slot, has_local))
    (zrange local (ghost + 1)) st.

(** The slots of a side that is being made hanging: what an already
    hanging side holds, or [n] slots never written.  The arrays of the
    hanging variant have the fixed size [n]. *)
Definition hanging_slots (n : Z) (d : side_data) : list (option side_quad) :=
  match d with
  | SideHanging slots =>
      if decide (length slots = Z.to_nat n) then slots
      else replicate (Z.to_nat n) None
  | _ => replicate (Z.to_nat n) None
  end.

(** Writing slot [child_corner] of a hanging side. *)
Definition write_slot (d : side_data) (child_corner : Z) (slot : side_quad)
  : option side_data :=
  match d with
  | SideHanging slots =>
      slots ← zinsert slots child_corner (Some slot);
      Some (SideHanging slots)
  | _ => None
  end.

(** ** The edge iterator (3D build) *)

Record p8est_iter_edge_args_t := {
  e_num_sides : Z;
  e_start_idx2 : carray Z;
  e_common_corners : list Z * list Z;
  e_corner_args : option p4est_iter_corner_args_t;
  e_sides : list p8est_iter_edge_side_t
}.

Definition common_corner (cc : list Z * list Z) (i side : Z) : option Z :=
  if decide (i = 0) then zlookup cc.1 side
  else if decide (i = 1) then zlookup cc.2 side
  else None.

Definition p8est_iter_init_corner_from_edge (num_sides : Z)
  (common_corners : list Z * list Z) (sides : list p8est_iter_edge_side_t)
  : option p4est_iter_corner_args_t :=
  let n := num_sides * 2 in
  rows ← mapM (fun j =>
            let k := j `rem` num_sides in
            eside ← zlookup sides k;
            c0 ← common_corner common_corners 0 k;
            c1 ← common_corner common_corners 1 k;
            let '(corner, start) :=
              if decide (j = k) then (c1, c0) else (c0, c1) in
            Some ({| cs_treeid := es_treeid eside; cs_corner := corner;
                     cs_is := SideUnset |}, start))
          (zrange 0 n);
  Some {| c_num_sides := n;
          c_start_idx2 := map (fun r => Some r.2) rows;
          c_sides := map fst rows |}.

(** The orientation of edge [e] of tree [t] recorded in the connectivity. *)
Definition edge_orig_orient (conn : p4est_connectivity_t) (t e : Z)
  : option Z :=
  edge ← zlookup (tree_to_edge conn) (t * 12 + e);
  if decide (edge >= 0) then
    lo ← zlookup (ett_offset conn) edge;
    hi ← zlookup (ett_offset conn) (edge + 1);
    for_each (fun it orient =>
                nt ← zlookup (edge_to_tree conn) it;
                if decide (nt = t) then
                  ete ← zlookup (edge_to_edge conn) it;
                  Some (if decide (ete `rem` 12 = e) then ete `quot` 12
                        else orient)
                else Some orient)
      (zrange lo hi) 0
  else Some 0.

(** The sides that [p8est_iter_init_edge] pushes for edge [e] of tree [t],
    each with its entries of [common_corners[0]] and [common_corners[1]]. *)
Definition edge_sides `{Bits} (conn : p4est_connectivity_t) (t e : Z)
  (orig_orient : Z) : list (p8est_iter_edge_side_t * Z * Z) :=
  let tempq := mkQuad 0 0 0 1 0 in
  let c0 := p8est_edge_corners e 0 in
  let c1 := p8est_edge_corners e 1 in
  let tempr := p4est_quadrant_sibling tempq c1 in
  let tempr := mkQuad (qx tempr) (qy tempr) (qz tempr) (qlevel tempr + 1)
                 (which_tree tempr) in
  let orig := p4est_quadrant_sibling tempr c0 in
  let cc c0 c1 := if decide (orig_orient = 0) then (c0, c1) else (c1, c0) in
  let side nt q :=
    let c0 := p4est_quadrant_child_id q in
    let c1 := p4est_quadrant_child_id (p4est_quadrant_parent q) in
    ({| es_treeid := nt; es_edge := p8est_child_corner_edges c0 c1;
        es_orientation := if decide (c0 < c1) then 0 else 1;
        es_is := SideUnset |}, (cc c0 c1).1, (cc c0 c1).2) in
  [ ({| es_treeid := t; es_edge := e; es_orientation := orig_orient;
        es_is := SideUnset |}, (cc c0 c1).1, (cc c0 c1).2) ]
  ++ flat_map (fun i =>
       let f := p8est_edge_faces e i in
       let '(nt, tempq) := p4est_quadrant_face_neighbor_extra conn orig t f in
       if decide (nt = -1) then [] else [side nt tempq])
     (zrange 0 2)
  ++ map (fun '(q, nt) => side nt q)
       (p8est_quadrant_edge_neighbor_extra conn orig t e).

Definition p8est_iter_init_edge `{Bits} (ctx : iter_ctx)
  (ghost_offsets : list Z) (la : p4est_iter_loop_args_t) (t e : Z)
  : option (bool * p8est_iter_edge_args_t * p4est_iter_loop_args_t) :=
  let conn := connectivity (ctx_p4est ctx) in
  orig_orient ← edge_orig_orient conn t e;
  let rows := edge_sides conn t e orig_orient in
  let sides := map (fun r => r.1.1) rows in
  let common_corners := (map (fun r => r.1.2) rows, map snd rows) in
  let count := Z.of_nat (length rows) in
  start_idx2 ← zero_start_idx2 (alloc_size la `quot` 2) count;
  corner_args ←
    (if loop_corner la then
       ca ← p8est_iter_init_corner_from_edge count common_corners sides;
       Some (Some ca)
     else Some None);
  let args := {| e_num_sides := count; e_start_idx2 := start_idx2;
                 e_common_corners := common_corners;
                 e_corner_args := corner_args; e_sides := sides |} in
  if owner_check t e
       (map (fun s => (es_treeid s, es_edge s)) (drop 1 sides))
  then
    la ← p8est_iter_init_loop_edge ctx ghost_offsets sides la;
    Some (true, args, la)
  else Some (false, args, la).

Definition set_edge_side (sides : list p8est_iter_edge_side_t) (side : Z)
  (d : side_data) : option (list p8est_iter_edge_side_t) :=
  eside ← zlookup sides side;
  zinsert sides side
    {| es_treeid := es_treeid eside; es_edge := es_edge eside;
       es_orientation := es_orientation eside; es_is := d |}.

Definition with_edge_sides (args : p8est_iter_edge_args_t)
  (sides : list p8est_iter_edge_side_t) : p8est_iter_edge_args_t :=
  {| e_num_sides := e_num_sides args; e_start_idx2 := e_start_idx2 args;
     e_common_corners := e_common_corners args;
     e_corner_args := e_corner_args args; e_sides := sides |}.

Definition with_edge_corner_args (args : p8est_iter_edge_args_t)
  (ca : p4est_iter_corner_args_t) : p8est_iter_edge_args_t :=
  {| e_num_sides := e_num_sides args; e_start_idx2 := e_start_idx2 args;
     e_common_corners := e_common_corners args;
     e_corner_args := Some ca; e_sides := e_sides args |}.

(** All (side, type) pairs in the order of the nested loops. *)
Definition sidetypes (lo hi : Z) : list (Z * Z) :=
  side ← zrange lo hi; type ← zrange local (ghost + 1); [(side, type)].

(** The candidates of an edge: every side whose candidate has the level of
    the search area is full.  Without an edge callback the first such
    candidate ends the branch ([Leave]). *)
Definition edge_candidates (cb_edge : bool) (num_sides : Z)
  (st : p4est_iter_loop_args_t * list p8est_iter_edge_side_t * bool * bool)
  : option (flow (p4est_iter_loop_args_t * list p8est_iter_edge_side_t
                  * bool * bool)) :=
  for_break (fun '(side, type) '(la, sides, stop_refine, has_local) =>
     let sidetype := side * 2 + type in
     tl ← aget (test_level la) sidetype;
     if decide (tl = level la) then
       if cb_edge then
         la ← set_refine side false la;
         p ← aget (test la) sidetype;
         first ← aget (first_index la) sidetype;
         sides ← set_edge_side sides side
                   (SideFull {| sq_quad := p;
                                sq_is_local := bool_decide (type = local);
                                sq_quadid := to_locidx first |});
         Some (Next (la, sides, true,
                     has_local || bool_decide (type = local)))
       else
         la ← incr_level_num (level la) la;
         Some (Leave (la, sides, stop_refine, has_local))
     else Some (Next (la, sides, stop_refine, has_local)))
    (sidetypes 0 num_sides) st.

(** Sides with nothing in either search area are reported as empty. *)
Definition edge_empty_sides (num_sides : Z)
  (st : p4est_iter_loop_args_t * list p8est_iter_edge_side_t)
  : option (p4est_iter_loop_args_t * list p8est_iter_edge_side_t) :=
  for_each (fun side '(la, sides) =>
     cl ← aget (count la) (side * 2 + local);
     if decide (cl = 0) then
       cg ← aget (count la) (side * 2 + ghost);
       if decide (cg = 0) then
         sides ← set_edge_side sides side (SideFull side_null);
         la ← set_refine side false la;
         Some (la, sides)
       else Some (la, sides)
     else Some (la, sides))
    (zrange 0 num_sides) st.

(** The hanging sides of an edge: the two children that touch it. *)
Definition edge_hanging (ctx : iter_ctx) `{Build} (level_idx2 num_sides : Z)
  (cc : list Z * list Z)
  (st : p4est_iter_loop_args_t * list p8est_iter_edge_side_t * bool)
  : option (p4est_iter_loop_args_t * list p8est_iter_edge_side_t * bool) :=
  for_each (fun side '(la, sides, has_local) =>
     r ← aget (refine la) side;
     if r : bool then
       eside ← zlookup sides side;
       sides ← set_edge_side sides side
                 (SideHanging (hanging_slots 2 (es_is eside)));
       for_each (fun i '(la, sides, has_local) =>
          temp_int ← common_corner cc i side;
          temp_int2 ← common_corner cc (1 - i) side;
          let child_corner := if decide (temp_int < temp_int2) then 0 else 1 in
          la ← set_quad_idx2 side
                 (level_idx2 + P4EST_ITER_STRIDE + temp_int) la;
          '(la, slot, has_local) ←
            probe_child ctx side (la, side_null, has_local);
          eside ← zlookup sides side;
          d ← write_slot (es_is eside) child_corner slot;
          sides ← set_edge_side sides side d;
          Some (la, sides, has_local))
         (zrange 0 2) (la, sides, has_local)
     else Some (la, sides, has_local))
    (zrange 0 num_sides) st.

(** One pass through the body of the [for (;;)] loop of
    [p8est_edge_iterate], up to the label [change_search_area]. *)
Definition edge_body `{Bits} (ctx : iter_ctx) (cb_edge : bool)
  (args : p8est_iter_edge_args_t) (la : p4est_iter_loop_args_t)
  (level_idx2 : Z)
  : option (p8est_iter_edge_args_t * p4est_iter_loop_args_t * Z
            * list iter_event) :=
  let num_sides := e_num_sides args in
  la ← for_each (fun side la =>
          la ← fetch_candidate ctx (side * 2 + local) la;
          la ← fetch_candidate ctx (side * 2 + ghost) la;
          set_refine side true la)
        (zrange 0 num_sides) la;
  r ← edge_candidates cb_edge num_sides (la, e_sides args, false, false);
  match r with
  | Leave (la, sides, _, _) =>
      Some (with_edge_sides args sides, la, level_idx2, [])
  | Next (la, sides, stop_refine, has_local) =>
      '(la, sides) ←
        (if stop_refine then edge_empty_sides num_sides (la, sides)
         else Some (la, sides));
      some_refine ← find_first (fun side => aget (refine la) side)
                      (zrange 0 num_sides);
      if negb some_refine then
        guard (cb_edge = true);;
        la ← incr_level_num (level la) la;
        Some (with_edge_sides args sides, la, level_idx2, [EvEdge sides])
      else
        la ← for_each (fun side la =>
                r ← aget (refine la) side;
                if r : bool then split_side ctx level_idx2 side la
                else Some la)
              (zrange 0 num_sides) la;
        if stop_refine : bool then
          '(la, sides, has_local) ←
            edge_hanging ctx level_idx2 num_sides (e_common_corners args)
              (la, sides, has_local);
          la ← incr_level_num (level la) la;
          Some (with_edge_sides args sides, la, level_idx2,
                if has_local : bool then [EvEdge sides] else [])
        else
          let la := set_level (level la + 1) la in
          la ← set_level_num (level la) 0 la;
          Some (with_edge_sides args sides, la,
                level_idx2 + P4EST_ITER_STRIDE, [])
  end.

(** Where control goes after the code at [change_search_area]: leave the
    loop, come back to [change_search_area], or run the body on a new
    branch. *)
Inductive next_step :=
| GoDone
| GoChange
| GoBody.

(** The [for (;;)] loop with its label, bounded by [fuel] rounds; [None]
    when the fuel runs out. *)
Fixpoint run_loop {S : Type} (fuel : nat) (body : S -> option S)
  (change : S -> option (next_step * S)) (at_body : bool) (s : S)
  : option S :=
  match fuel with
  | O => None
  | Datatypes.S n =>
      if at_body then
        s' ← body s; run_loop n body change false s'
      else
        r ← change s;
        match r with
        | (GoDone, s') => Some s'
        | (GoChange, s') => run_loop n body change false s'
        | (GoBody, s') => run_loop n body change true s'
        end
  end.

(** The state of one run of [p8est_edge_iterate]: the arguments, the loop
    arguments, the local [level_idx2], and the callbacks made so far. *)
Definition edge_state : Type :=
  p8est_iter_edge_args_t * p4est_iter_loop_args_t * Z * list iter_event.

(** The code at [change_search_area] of [p8est_edge_iterate]. *)
Definition edge_change `{Bits} (ctx : iter_ctx) (start_level : Z)
  (st : edge_state) : option (next_step * edge_state) :=
  let '(args, la, level_idx2, tr) := st in
  let num_sides := e_num_sides args in
  n0 ← aget (level_num la) start_level;
  if decide (n0 > 0) then Some (GoDone, st)
  else
    n ← aget (level_num la) (level la);
    if decide (n = 2) then
      '(args, la, evs) ←
        (if loop_corner la then
           ca ← e_corner_args args;
           la ← p4est_iter_copy_indices (c_start_idx2 ca) num_sides
                  (2 * num_sides) la;
           '(ca, la, evs) ← p4est_corner_iterate ctx ca la;
           Some (with_edge_corner_args args ca, la, evs)
         else Some (args, la, []));
      let la := set_level (level la - 1) la in
      la ← incr_level_num (level la) la;
      Some (GoChange, (args, la, level_idx2 - P4EST_ITER_STRIDE, tr ++ evs))
    else
      '(la, all_empty) ←
        for_each (fun side '(la, all_empty) =>
           temp_int ← common_corner (e_common_corners args) n side;
           la ← set_quad_idx2 side (level_idx2 + temp_int) la;
           la ← load_bounds side la;
           cl ← aget (count la) (side * 2 + local);
           Some (la, if decide (cl <> 0) then false else all_empty))
          (zrange 0 num_sides) (la, true);
      if all_empty : bool then
        la ← incr_level_num (level la) la;
        Some (GoChange, (args, la, level_idx2, tr))
      else Some (GoBody, (args, la, level_idx2, tr)).

Definition p8est_edge_iterate `{Bits} (fuel : nat) (ctx : iter_ctx)
  (cbs : callbacks) (args : p8est_iter_edge_args_t)
  (la : p4est_iter_loop_args_t)
  : option (p8est_iter_edge_args_t * p4est_iter_loop_args_t
            * list iter_event) :=
  let num_sides := e_num_sides args in
  let start_level := level la in
  let level_idx2 := start_level * P4EST_ITER_STRIDE in
  la ← for_each (fun side la =>
          s ← aget (e_start_idx2 args) side;
          la ← set_quad_idx2 side (level_idx2 + s) la;
          load_bounds side la)
        (zrange 0 num_sides) la;
  some_local ← find_first (fun side =>
                  cnt ← aget (count la) (side * 2 + local);
                  Some (bool_decide (cnt <> 0)))
                (zrange 0 num_sides);
  if negb some_local then Some (args, la, [])
  else
    la ← set_level_num start_level 0 la;
    '(args, la, _, tr) ←
      run_loop fuel
        (fun '(args, la, level_idx2, tr) =>
           '(args, la, level_idx2, evs) ←
             edge_body ctx (iter_edge cbs) args la level_idx2;
           Some (args, la, level_idx2, tr ++ evs))
        (edge_change ctx start_level) true (args, la, level_idx2, []);
    Some (args, la, tr).

(** ** The face iterator *)

(** [p4est_iter_face_args_t].  [f_edge_args] holds [edge_args[dir][side]]
    at position [dir * 2 + side] once the edge arguments are initialised
    (3D build with [loop_edge]); [f_corner_args] is set with
    [loop_corner]. *)
Record p4est_iter_face_args_t := {
  f_start_idx2 : carray Z;
  f_num_to_child : carray Z;
  f_outside_face : bool;
  f_edge_args : list p8est_iter_edge_args_t;
  f_corner_args : option p4est_iter_corner_args_t;
  f_info : p4est_iter_face_info_t
}.

Definition ntc_str `{Build} : Z := P4EST_CHILDREN `quot` 2.

Definition p4est_iter_init_corner_from_face `{Build}
  (num_to_child : carray Z) (outside_face : bool)
  (fsides : list p4est_iter_face_side_t)
  : option p4est_iter_corner_args_t :=
  let limit := if outside_face then 1 else 2 in
  rows ← mapM (fun '(j, k) =>
            fside ← zlookup fsides k;
            corner ← aget num_to_child (k * ntc_str + (ntc_str - 1 - j));
            start ← aget num_to_child (k * ntc_str + j);
            Some ({| cs_treeid := fs_treeid fside; cs_corner := corner;
                     cs_is := SideUnset |}, start))
          (j ← zrange 0 ntc_str; k ← zrange 0 limit; [(j, k)]);
  Some {| c_num_sides := limit * ntc_str;
          c_start_idx2 := map (fun r => Some r.2) rows;
          c_sides := map fst rows |}.

Definition p8est_iter_init_edge_from_face `{Bits} (cb_corner : bool)
  (num_to_child : carray Z) (outside_face : bool)
  (fsides : list p4est_iter_face_side_t) (dir side : Z)
  : option p8est_iter_edge_args_t :=
  let limit := if outside_face then 1 else 2 in
  let pos (a b : Z) : Z :=
    if decide (a = 0) then
      if decide (b = 0) then 0 else if decide (dir <> 0) then 2 else 1
    else
      if decide (b = 0) then (if decide (dir <> 0) then 1 else 2) else 3 in
  rows ← mapM (fun '(j, k) =>
            c0 ← aget num_to_child (k * ntc_str + pos (1 - j) 0);
            c1 ← aget num_to_child (k * ntc_str + pos (1 - j) 1);
            fside ← zlookup fsides k;
            start ← aget num_to_child (k * ntc_str + pos j side);
            Some ({| es_treeid := fs_treeid fside;
                     es_edge := p8est_child_corner_edges c0 c1;
                     es_orientation := if decide (c0 < c1) then 0 else 1;
                     es_is := SideUnset |}, c0, c1, start))
          (j ← zrange 0 2; k ← zrange 0 limit; [(j, k)]);
  let num_sides := (limit * ntc_str) `quot` 2 in
  let sides := map (fun r => r.1.1.1) rows in
  let common_corners := (map (fun r => r.1.1.2) rows,
                         map (fun r => r.1.2) rows) in
  corner_args ←
    (if cb_corner then
       ca ← p8est_iter_init_corner_from_edge num_sides common_corners sides;
       Some (Some ca)
     else Some None);
  Some {| e_num_sides := num_sides;
          e_start_idx2 := map (fun r => Some r.2) rows;
          e_common_corners := common_corners;
          e_corner_args := corner_args; e_sides := sides |}.

(** The edge and corner arguments that hang off a face: the four
    [edge_args[dir][side]] and the corner arguments. *)
Definition init_face_children `{Bits} (la : p4est_iter_loop_args_t)
  (num_to_child : carray Z) (outside_face : bool)
  (fsides : list p4est_iter_face_side_t)
  : option (list p8est_iter_edge_args_t
            * option p4est_iter_corner_args_t) :=
  edge_args ←
    (if P4_TO_P8 && loop_edge la then
       mapM (fun '(dir, side) =>
               p8est_iter_init_edge_from_face (loop_corner la) num_to_child
                 outside_face fsides dir side)
         [(0, 0); (0, 1); (1, 0); (1, 1)]
     else Some []);
  corner_args ←
    (if loop_corner la then
       ca ← p4est_iter_init_corner_from_face num_to_child outside_face fsides;
       Some (Some ca)
     else Some None);
  Some (edge_args, corner_args).

(** [p4est_iter_init_face] for face [f] of tree [t].  [args0] is the
    structure being initialised: its arrays [num_to_child] and [start_idx2]
    keep what earlier calls left in the entries this call does not write. *)
Definition p4est_iter_init_face `{Bits} (ctx : iter_ctx)
  (ghost_offsets : list Z) (la : p4est_iter_loop_args_t)
  (args0 : p4est_iter_face_args_t) (t f : Z)
  : option (bool * p4est_iter_face_args_t * p4est_iter_loop_args_t) :=
  let conn := connectivity (ctx_p4est ctx) in
  let rf := if P4_TO_P8 then f else p4est_zface_to_rface f in
  let tempq := mkQuad 0 0 0 1 0 in
  '(num_to_child, nt) ←
    for_each (fun i '(num_to_child, _) =>
       let c := p4est_face_corners rf i in
       num_to_child ← aset num_to_child i c;
       let orig := p4est_quadrant_sibling tempq c in
       let '(nt, tempr) :=
         p4est_quadrant_face_neighbor_extra conn orig t rf in
       if decide (nt <> -1) then
         num_to_child ← aset num_to_child (ntc_str + i)
                          (p4est_quadrant_child_id tempr);
         Some (num_to_child, nt)
       else Some (num_to_child, nt))
      (zrange 0 ntc_str) (f_num_to_child args0, -1);
  let outside_face := bool_decide (nt = -1) in
  start_idx2 ← aset (f_start_idx2 args0) 0 0;
  let side0 := {| fs_treeid := t; fs_face := f; fs_is := SideUnset |} in
  '(sides, orientation, nf, start_idx2) ←
    (if decide (nt <> -1) then
       nrf ← zlookup (tree_to_face conn) (2 * P4EST_DIM * t + rf);
       let orientation := nrf `quot` (2 * P4EST_DIM) in
       let nrf := nrf `rem` (2 * P4EST_DIM) in
       let nf := if P4_TO_P8 then nrf else p4est_rface_to_zface nrf in
       start_idx2 ← aset start_idx2 1 0;
       Some ([side0; {| fs_treeid := nt; fs_face := nf;
                        fs_is := SideUnset |}],
             orientation, nf, start_idx2)
     else Some ([side0], 0, -1, start_idx2));
  '(edge_args, corner_args) ←
    init_face_children la num_to_child outside_face sides;
  let args := {| f_start_idx2 := start_idx2;
                 f_num_to_child := num_to_child;
                 f_outside_face := outside_face;
                 f_edge_args := edge_args;
                 f_corner_args := corner_args;
                 f_info := {| fi_orientation := orientation;
                              fi_sides := sides |} |} in
  if decide (nt <> -1 /\ (nt > t \/ (nt = t /\ nf > f))) then
    Some (false, args, la)
  else
    la ← (if decide (nt <> -1)
          then p4est_iter_init_loop_face ctx ghost_offsets t nt la
          else p4est_iter_init_loop_outside_face ctx ghost_offsets t la);
    Some (true, args, la).

Definition set_face_side (sides : list p4est_iter_face_side_t) (side : Z)
  (d : side_data) : option (list p4est_iter_face_side_t) :=
  fside ← zlookup sides side;
  zinsert sides side
    {| fs_treeid := fs_treeid fside; fs_face := fs_face fside; fs_is := d |}.

Definition with_face_sides (args : p4est_iter_face_args_t)
  (sides : list p4est_iter_face_side_t) : p4est_iter_face_args_t :=
  {| f_start_idx2 := f_start_idx2 args;
     f_num_to_child := f_num_to_child args;
     f_outside_face := f_outside_face args;
     f_edge_args := f_edge_args args;
     f_corner_args := f_corner_args args;
     f_info := {| fi_orientation := fi_orientation (f_info args);
                  fi_sides := sides |} |}.

Definition with_face_edge_args (args : p4est_iter_face_args_t)
  (ea : list p8est_iter_edge_args_t) : p4est_iter_face_args_t :=
  {| f_start_idx2 := f_start_idx2 args;
     f_num_to_child := f_num_to_child args;
     f_outside_face := f_outside_face args;
     f_edge_args := ea;
     f_corner_args := f_corner_args args;
     f_info := f_info args |}.

Definition with_face_corner_args (args : p4est_iter_face_args_t)
  (ca : p4est_iter_corner_args_t) : p4est_iter_face_args_t :=
  {| f_start_idx2 := f_start_idx2 args;
     f_num_to_child := f_num_to_child args;
     f_outside_face := f_outside_face args;
     f_edge_args := f_edge_args args;
     f_corner_args := Some ca;
     f_info := f_info args |}.

(** The full record of the candidate of [sidetype]. *)
Definition full_candidate (sidetype type : Z) (la : p4est_iter_loop_args_t)
  : option side_data :=
  p ← aget (test la) sidetype;
  first ← aget (first_index la) sidetype;
  Some (SideFull {| sq_quad := p;
                    sq_is_local := bool_decide (type = local);
                    sq_quadid := to_locidx first |}).

(** The state of the candidate loop of [p4est_face_iterate]: loop
    arguments, the sides of the info record, [has_local], and the callbacks
    made. *)
Definition face_cand_state : Type :=
  p4est_iter_loop_args_t * list p4est_iter_face_side_t * bool
  * list iter_event.

(** With a full candidate on [side], look across the face: a candidate of
    the same size on the other side, or nothing at all there, completes the
    face ([Leave], callback made); otherwise carry on ([Next]). *)
Definition face_opposite (orientation : Z) (side type : Z)
  (st : face_cand_state) : option (flow face_cand_state) :=
  let n_side := Z.lxor side 1 in
  r ← for_break (fun n_type '(la, sides, has_local, evs) =>
         let nsidentype := n_side * 2 + n_type in
         if decide (n_type > type \/ n_side > side) then
           tl ← aget (test_level la) nsidentype;
           if decide (tl = level la) then
             d ← full_candidate nsidentype n_type la;
             sides ← set_face_side sides n_side d;
             la ← incr_level_num (level la) la;
             Some (Leave (la, sides, has_local,
                          evs ++ [EvFace {| fi_orientation := orientation;
                                            fi_sides := sides |}]))
           else Some (Next (la, sides, has_local, evs))
         else Some (Next (la, sides, has_local, evs)))
        (zrange type (ghost + 1)) st;
  match r with
  | Leave st => Some (Leave st)
  | Next (la, sides, has_local, evs) =>
      cl ← aget (count la) (n_side * 2 + local);
      cg ← (if decide (cl = 0) then aget (count la) (n_side * 2 + ghost)
            else Some 1);
      if decide (cl = 0 /\ cg = 0) then
        sides ← set_face_side sides n_side (SideFull side_null);
        la ← incr_level_num (level la) la;
        Some (Leave (la, sides, has_local,
                     evs ++ [EvFace {| fi_orientation := orientation;
                                       fi_sides := sides |}]))
      else Some (Next (la, sides, has_local, evs))
  end.

(** The candidate loop of [p4est_face_iterate]. *)
Definition face_candidates (cb_face outside_face : bool)
  (orientation limit : Z) (st : face_cand_state)
  : option (flow face_cand_state) :=
  for_break (fun '(side, type) '(la, sides, has_local, evs) =>
     let sidetype := side * 2 + type in
     tl ← aget (test_level la) sidetype;
     if decide (tl = level la) then
       if cb_face then
         d ← full_candidate sidetype type la;
         sides ← set_face_side sides side d;
         la ← set_refine side false la;
         let has_local := bool_decide (type = local) in
         if negb outside_face then
           face_opposite orientation side type (la, sides, has_local, evs)
         else
           la ← incr_level_num (level la) la;
           Some (Leave (la, sides, has_local,
                        evs ++ [EvFace {| fi_orientation := orientation;
                                          fi_sides := sides |}]))
       else
         la ← incr_level_num (level la) la;
         Some (Leave (la, sides, has_local, evs))
     else Some (Next (la, sides, has_local, evs)))
    (sidetypes left (limit + 1)) st.

(** The slot of a hanging face side that child number [i] of the finer
    side fills. *)
Definition face_child_corner `{Bits} (num_to_child : carray Z)
  (n_side face i : Z) : option Z :=
  child_corner ← aget num_to_child (n_side * ntc_str + i);
  if P4_TO_P8 then Some (p8est_corner_face_corners child_corner face)
  else
    other ← aget num_to_child (n_side * ntc_str + (1 - i));
    Some (if decide (child_corner < other) then 0 else 1).

(** The hanging part of [p4est_face_iterate]: the first side that was not
    refined is the coarse one; the other side is hanging, with one slot for
    each child of the search area that touches the face. *)
Definition face_hanging `{Bits} (ctx : iter_ctx)
  (num_to_child : carray Z) (orientation level_idx2 limit : Z)
  (st : face_cand_state) : option (flow face_cand_state) :=
  for_break (fun side '(la, sides, has_local, evs) =>
     r ← aget (refine la) side;
     if negb r then
       let n_side := Z.lxor side 1 in
       fside ← zlookup sides n_side;
       sides ← set_face_side sides n_side
                 (SideHanging (hanging_slots ntc_str (fs_is fside)));
       '(la, sides, has_local) ←
         for_each (fun i '(la, sides, has_local) =>
            fside ← zlookup sides n_side;
            child_corner ← face_child_corner num_to_child n_side
                             (fs_face fside) i;
            c ← aget num_to_child (n_side * ntc_str + i);
            la ← set_quad_idx2 n_side
                   (level_idx2 + P4EST_ITER_STRIDE + c) la;
            '(la, slot, has_local) ←
              probe_child ctx n_side (la, side_null, has_local);
            d ← write_slot (fs_is fside) child_corner slot;
            sides ← set_face_side sides n_side d;
            Some (la, sides, has_local))
           (zrange 0 (P4EST_CHILDREN `quot` 2)) (la, sides, has_local);
       la ← incr_level_num (level la) la;
       Some (Leave (la, sides, has_local,
                    if has_local : bool
                    then evs ++ [EvFace {| fi_orientation := orientation;
                                           fi_sides := sides |}]
                    else evs))
     else Some (Next (la, sides, has_local, evs)))
    (zrange left (limit + 1)) st.

(** The state of one run of [p4est_face_iterate]. *)
Definition face_state : Type :=
  p4est_iter_face_args_t * p4est_iter_loop_args_t * Z * list iter_event.

(** One pass through the body of the [for (;;)] loop of
    [p4est_face_iterate], up to the label [change_search_area]. *)
Definition face_body `{Bits} (ctx : iter_ctx) (cb_face : bool)
  (st : face_state) : option face_state :=
  let '(args, la, level_idx2, tr) := st in
  let limit := if f_outside_face args then left else right in
  let orientation := fi_orientation (f_info args) in
  la ← for_each (fun '(side, type) la =>
                   fetch_candidate ctx (side * 2 + type) la)
        (sidetypes left (limit + 1)) la;
  la ← set_refine right true la;
  la ← set_refine left true la;
  r ← face_candidates cb_face (f_outside_face args) orientation limit
        (la, fi_sides (f_info args), false, tr);
  match r with
  | Leave (la, sides, _, tr) =>
      Some (with_face_sides args sides, la, level_idx2, tr)
  | Next (la, sides, has_local, tr) =>
      la ← for_each (fun side la =>
              r ← aget (refine la) side;
              if r : bool then split_side ctx level_idx2 side la
              else Some la)
            (zrange left (limit + 1)) la;
      r ← face_hanging ctx (f_num_to_child args) orientation level_idx2
            limit (la, sides, has_local, tr);
      match r with
      | Leave (la, sides, _, tr) =>
          Some (with_face_sides args sides, la, level_idx2, tr)
      | Next (la, sides, _, tr) =>
          let la := set_level (level la + 1) la in
          la ← set_level_num (level la) 0 la;
          Some (with_face_sides args sides, la,
                level_idx2 + P4EST_ITER_STRIDE, tr)
      end
  end.

(** Is there no local quadrant in the search areas of the face? *)
Definition face_no_local (outside_face : bool) (la : p4est_iter_loop_args_t)
  : option bool :=
  cl ← aget (count la) (left * 2 + local);
  if negb outside_face then
    if decide (cl = 0) then
      cr ← aget (count la) (right * 2 + local);
      Some (bool_decide (cr = 0))
    else Some false
  else Some (bool_decide (cl = 0)).

(** The edges between the branches of a face that has been searched at
    this level (3D build). *)
Definition face_run_edges `{Bits} (fuel : nat) (ctx : iter_ctx)
  (cbs : callbacks) (limit : Z)
  (st : p4est_iter_face_args_t * p4est_iter_loop_args_t * list iter_event)
  : option (p4est_iter_face_args_t * p4est_iter_loop_args_t
            * list iter_event) :=
  for_each (fun '(dir, side) '(args, la, tr) =>
     ea ← zlookup (f_edge_args args) (dir * 2 + side);
     la ← p4est_iter_copy_indices (e_start_idx2 ea) (limit + 1)
            (2 * (limit + 1)) la;
     '(ea, la, evs) ← p8est_edge_iterate fuel ctx cbs ea la;
     eas ← zinsert (f_edge_args args) (dir * 2 + side) ea;
     Some (with_face_edge_args args eas, la, tr ++ evs))
    [(0, 0); (0, 1); (1, 0); (1, 1)] st.

(** The code at [change_search_area] of [p4est_face_iterate]. *)
Definition face_change `{Bits} (fuel : nat) (ctx : iter_ctx)
  (cbs : callbacks) (start_level : Z) (st : face_state)
  : option (next_step * face_state) :=
  let '(args, la, level_idx2, tr) := st in
  let limit := if f_outside_face args then left else right in
  n0 ← aget (level_num la) start_level;
  if decide (n0 > 0) then Some (GoDone, st)
  else
    n ← aget (level_num la) (level la);
    if decide (n = P4EST_CHILDREN `quot` 2) then
      '(args, la, tr) ←
        (if P4_TO_P8 && loop_edge la
         then face_run_edges fuel ctx cbs limit (args, la, tr)
         else Some (args, la, tr));
      '(args, la, tr) ←
        (if iter_corner cbs then
           ca ← f_corner_args args;
           la ← p4est_iter_copy_indices (c_start_idx2 ca) (limit + 1)
                  ((P4EST_CHILDREN `quot` 2) * (limit + 1)) la;
           '(ca, la, evs) ← p4est_corner_iterate ctx ca la;
           Some (with_face_corner_args args ca, la, tr ++ evs)
         else Some (args, la, tr));
      let la := set_level (level la - 1) la in
      la ← incr_level_num (level la) la;
      Some (GoChange, (args, la, level_idx2 - P4EST_ITER_STRIDE, tr))
    else
      la ← for_each (fun side la =>
              c ← aget (f_num_to_child args) (side * ntc_str + n);
              set_quad_idx2 side (level_idx2 + c) la)
            (zrange left (limit + 1)) la;
      la ← for_each load_bounds (zrange left (limit + 1)) la;
      none ← face_no_local (f_outside_face args) la;
      if none : bool then
        la ← incr_level_num (level la) la;
        Some (GoChange, (args, la, level_idx2, tr))
      else Some (GoBody, (args, la, level_idx2, tr)).

(** The code of [p4est_face_iterate] before its loop: the bounds of the
    search areas at the starting level.  The flag says that no local
    quadrant is in them, in which case the function returns at once. *)
Definition face_prologue `{Build} (args : p4est_iter_face_args_t)
  (la : p4est_iter_loop_args_t) : option (bool * p4est_iter_loop_args_t) :=
  let start_level := level la in
  let limit := if f_outside_face args then left else right in
  let level_idx2 := start_level * P4EST_ITER_STRIDE in
  la ← for_each (fun side la =>
          s ← aget (f_start_idx2 args) side;
          la ← set_quad_idx2 side (level_idx2 + s) la;
          load_bounds side la)
        (zrange left (limit + 1)) la;
  none ← face_no_local (f_outside_face args) la;
  if none : bool then Some (true, la)
  else
    la ← set_level_num start_level 0 la;
    Some (false, la).

Definition p4est_face_iterate `{Bits} (fuel : nat) (ctx : iter_ctx)
  (cbs : callbacks) (args : p4est_iter_face_args_t)
  (la : p4est_iter_loop_args_t)
  : option (p4est_iter_face_args_t * p4est_iter_loop_args_t
            * list iter_event) :=
  let start_level := level la in
  let level_idx2 := start_level * P4EST_ITER_STRIDE in
  '(none, la) ← face_prologue args la;
  if none : bool then Some (args, la, [])
  else
    '(args, la, _, tr) ←
      run_loop fuel (face_body ctx (iter_face cbs))
        (face_change fuel ctx cbs start_level) true
        (args, la, level_idx2, []);
    Some (args, la, tr).

(** ** The volume iterator *)

(** [p4est_iter_volume_args_t]: [v_face_args] holds [face_args[dir][pos]]
    at position [dir * (P4EST_CHILDREN / 2) + pos], [v_edge_args] holds
    [edge_args[dir][side]] at position [dir * 2 + side]. *)
Record p4est_iter_volume_args_t := {
  v_start_idx2 : Z;
  v_face_args : list p4est_iter_face_args_t;
  v_edge_args : list p8est_iter_edge_args_t;
  v_corner_args : option p4est_iter_corner_args_t;
  v_info : p4est_iter_volume_info_t
}.

Definition p4est_iter_init_face_from_volume `{Bits}
  (la : p4est_iter_loop_args_t) (treeid : Z) (dir pos : Z)
  : option p4est_iter_face_args_t :=
  let fc (f i : Z) : Z :=
    if P4_TO_P8 then p4est_face_corners f i
    else p4est_face_corners (p4est_zface_to_rface f) i in
  let start_idx2 := [Some (fc (dir * 2) pos); Some (fc (dir * 2 + 1) pos)] in
  let num_to_child :=
    map (fun '(i, j) => Some (fc (dir * 2 + (1 - i)) j))
      (i ← zrange 0 2; j ← zrange 0 ntc_str; [(i, j)]) in
  let sides :=
    [ {| fs_treeid := treeid; fs_face := 2 * dir + 1; fs_is := SideUnset |};
      {| fs_treeid := treeid; fs_face := 2 * dir; fs_is := SideUnset |} ] in
  '(edge_args, corner_args) ←
    init_face_children la num_to_child false sides;
  Some {| f_start_idx2 := start_idx2;
          f_num_to_child := num_to_child;
          f_outside_face := false;
          f_edge_args := edge_args;
          f_corner_args := corner_args;
          f_info := {| fi_orientation := 0; fi_sides := sides |} |}.

Definition p8est_iter_init_edge_from_volume `{Bits}
  (la : p4est_iter_loop_args_t) (treeid : Z) (dir side : Z)
  : option p8est_iter_edge_args_t :=
  let idx := zrange 0 4 in
  let sides :=
    map (fun i => {| es_treeid := treeid; es_edge := 4 * dir + (3 - i);
                     es_orientation := 0; es_is := SideUnset |}) idx in
  let common_corners :=
    (map (fun i => p4est_face_corners (dir * 2) (3 - i)) idx,
     map (fun i => p4est_face_corners (dir * 2 + 1) (3 - i)) idx) in
  corner_args ←
    (if loop_corner la then
       ca ← p8est_iter_init_corner_from_edge 4 common_corners sides;
       Some (Some ca)
     else Some None);
  Some {| e_num_sides := 4;
          e_start_idx2 :=
            map (fun i => Some (p4est_face_corners (dir * 2 + side) i)) idx;
          e_common_corners := common_corners;
          e_corner_args := corner_args;
          e_sides := sides |}.

Definition p4est_iter_init_corner_from_volume `{Build} (treeid : Z)
  : p4est_iter_corner_args_t :=
  let idx := zrange 0 P4EST_CHILDREN in
  {| c_num_sides := P4EST_CHILDREN;
     c_start_idx2 := map Some idx;
     c_sides :=
       map (fun i => {| cs_treeid := treeid;
                        cs_corner := P4EST_CHILDREN - 1 - i;
                        cs_is := SideUnset |}) idx |}.

Definition p4est_iter_init_volume `{Bits} (ctx : iter_ctx)
  (ghost_offsets : list Z) (la : p4est_iter_loop_args_t) (t : Z)
  : option (p4est_iter_volume_args_t * p4est_iter_loop_args_t) :=
  face_args ←
    mapM (fun '(i, j) => p4est_iter_init_face_from_volume la t i j)
      (i ← zrange 0 P4EST_DIM; j ← zrange 0 ntc_str; [(i, j)]);
  edge_args ←
    (if P4_TO_P8 && loop_edge la then
       mapM (fun '(i, j) => p8est_iter_init_edge_from_volume la t i j)
         (i ← zrange 0 P4EST_DIM; j ← zrange 0 2; [(i, j)])
     else Some []);
  let corner_args :=
    if loop_corner la then Some (p4est_iter_init_corner_from_volume t)
    else None in
  la ← p4est_iter_init_loop_volume ctx ghost_offsets t la;
  Some ({| v_start_idx2 := 0;
           v_face_args := face_args;
           v_edge_args := edge_args;
           v_corner_args := corner_args;
           v_info := {| vi_treeid := t; vi_quad := None; vi_quadid := 0 |} |},
        la).

Definition with_volume_info (args : p4est_iter_volume_args_t)
  (info : p4est_iter_volume_info_t) : p4est_iter_volume_args_t :=
  {| v_start_idx2 := v_start_idx2 args; v_face_args := v_face_args args;
     v_edge_args := v_edge_args args; v_corner_args := v_corner_args args;
     v_info := info |}.

Definition with_volume_face_args (args : p4est_iter_volume_args_t)
  (fa : list p4est_iter_face_args_t) : p4est_iter_volume_args_t :=
  {| v_start_idx2 := v_start_idx2 args; v_face_args := fa;
     v_edge_args := v_edge_args args; v_corner_args := v_corner_args args;
     v_info := v_info args |}.

Definition with_volume_edge_args (args : p4est_iter_volume_args_t)
  (ea : list p8est_iter_edge_args_t) : p4est_iter_volume_args_t :=
  {| v_start_idx2 := v_start_idx2 args; v_face_args := v_face_args args;
     v_edge_args := ea; v_corner_args := v_corner_args args;
     v_info := v_info args |}.

Definition with_volume_corner_args (args : p4est_iter_volume_args_t)
  (ca : p4est_iter_corner_args_t) : p4est_iter_volume_args_t :=
  {| v_start_idx2 := v_start_idx2 args; v_face_args := v_face_args args;
     v_edge_args := v_edge_args args; v_corner_args := Some ca;
     v_info := v_info args |}.

(** The state of one run of [p4est_volume_iterate]. *)
Definition volume_state : Type :=
  p4est_iter_volume_args_t * p4est_iter_loop_args_t * Z * list iter_event.

(** The candidate loop of [p4est_volume_iterate]: a local candidate of the
    size of the search area is a leaf and gets the volume callback; a ghost
    candidate of that size ends the branch silently. *)
Definition volume_candidates (ctx : iter_ctx) (cb_volume : bool)
  (st : p4est_iter_loop_args_t * p4est_iter_volume_info_t
        * list iter_event)
  : option (flow (p4est_iter_loop_args_t * p4est_iter_volume_info_t
                  * list iter_event)) :=
  for_break (fun type '(la, info, tr) =>
     cnt ← aget (count la) type;
     if decide (cnt <> 0) then
       la ← fetch_candidate ctx type la;
       tl ← aget (test_level la) type;
       if decide (tl = level la) then
         '(info, tr) ←
           (if decide (type = local) then
              p ← aget (test la) type;
              first ← aget (first_index la) type;
              let info := {| vi_treeid := vi_treeid info; vi_quad := p;
                             vi_quadid := to_locidx first |} in
              Some (info, if cb_volume then tr ++ [EvVolume info] else tr)
            else Some (info, tr));
         la ← incr_level_num (level la) la;
         Some (Leave (la, info, tr))
       else Some (Next (la, info, tr))
     else
       la ← fetch_candidate ctx type la;
       Some (Next (la, info, tr)))
    (zrange local (ghost + 1)) st.

(** One pass through the body of the [for (;;)] loop of
    [p4est_volume_iterate]. *)
Definition volume_body `{Bits} (ctx : iter_ctx) (cb_volume : bool)
  (st : volume_state) : option volume_state :=
  let '(args, la, level_idx2, tr) := st in
  r ← volume_candidates ctx cb_volume (la, v_info args, tr);
  match r with
  | Leave (la, info, tr) =>
      Some (with_volume_info args info, la, level_idx2, tr)
  | Next (la, info, tr) =>
      let quad_idx2 := level_idx2 + P4EST_ITER_STRIDE in
      la ← for_each (fun type la => split_sidetype ctx type quad_idx2 la)
            (zrange local (ghost + 1)) la;
      let la := set_level (level la + 1) la in
      la ← set_level_num (level la) 0 la;
      Some (with_volume_info args info, la,
            level_idx2 + P4EST_ITER_STRIDE, tr)
  end.

(** The faces between the children of a branch that has been searched. *)
Definition volume_run_faces `{Bits} (fuel : nat) (ctx : iter_ctx)
  (cbs : callbacks)
  (st : p4est_iter_volume_args_t * p4est_iter_loop_args_t
        * list iter_event)
  : option (p4est_iter_volume_args_t * p4est_iter_loop_args_t
            * list iter_event) :=
  for_each (fun '(dir, side) '(args, la, tr) =>
     fa ← zlookup (v_face_args args) (dir * ntc_str + side);
     la ← p4est_iter_copy_indices (f_start_idx2 fa) 1 2 la;
     '(fa, la, evs) ← p4est_face_iterate fuel ctx cbs fa la;
     fas ← zinsert (v_face_args args) (dir * ntc_str + side) fa;
     Some (with_volume_face_args args fas, la, tr ++ evs))
    (dir ← zrange 0 P4EST_DIM; side ← zrange 0 ntc_str; [(dir, side)]) st.

(** The edges between the children (3D build). *)
Definition volume_run_edges `{Bits} (fuel : nat) (ctx : iter_ctx)
  (cbs : callbacks)
  (st : p4est_iter_volume_args_t * p4est_iter_loop_args_t
        * list iter_event)
  : option (p4est_iter_volume_args_t * p4est_iter_loop_args_t
            * list iter_event) :=
  for_each (fun '(dir, side) '(args, la, tr) =>
     ea ← zlookup (v_edge_args args) (dir * 2 + side);
     la ← p4est_iter_copy_indices (e_start_idx2 ea) 1 4 la;
     '(ea, la, evs) ← p8est_edge_iterate fuel ctx cbs ea la;
     eas ← zinsert (v_edge_args args) (dir * 2 + side) ea;
     Some (with_volume_edge_args args eas, la, tr ++ evs))
    (dir ← zrange 0 P4EST_DIM; side ← zrange 0 2; [(dir, side)]) st.

(** The code at [change_search_area] of [p4est_volume_iterate]. *)
Definition volume_change `{Bits} (fuel : nat) (ctx : iter_ctx)
  (cbs : callbacks) (start_level : Z) (st : volume_state)
  : option (next_step * volume_state) :=
  let '(args, la, level_idx2, tr) := st in
  n0 ← aget (level_num la) start_level;
  if decide (n0 > 0) then Some (GoDone, st)
  else
    n ← aget (level_num la) (level la);
    if decide (n = P4EST_CHILDREN) then
      '(args, la, tr) ← volume_run_faces fuel ctx cbs (args, la, tr);
      '(args, la, tr) ←
        (if P4_TO_P8 && loop_edge la
         then volume_run_edges fuel ctx cbs (args, la, tr)
         else Some (args, la, tr));
      '(args, la, tr) ←
        (if loop_corner la then
           ca ← v_corner_args args;
           la ← p4est_iter_copy_indices (c_start_idx2 ca) 1
                  P4EST_CHILDREN la;
           '(ca, la, evs) ← p4est_corner_iterate ctx ca la;
           Some (with_volume_corner_args args ca, la, tr ++ evs)
         else Some (args, la, tr));
      let la := set_level (level la - 1) la in
      la ← incr_level_num (level la) la;
      Some (GoChange, (args, la, level_idx2 - P4EST_ITER_STRIDE, tr))
    else
      let quad_idx2 := level_idx2 + n in
      la ← for_each (fun type la => load_bound_at type quad_idx2 la)
            (zrange local (ghost + 1)) la;
      cl ← aget (count la) local;
      if decide (cl = 0) then
        la ← incr_level_num (level la) la;
        Some (GoChange, (args, la, level_idx2, tr))
      else Some (GoBody, (args, la, level_idx2, tr)).

Definition p4est_volume_iterate `{Bits} (fuel : nat) (ctx : iter_ctx)
  (cbs : callbacks) (args : p4est_iter_volume_args_t)
  (la : p4est_iter_loop_args_t)
  : option (p4est_iter_volume_args_t * p4est_iter_loop_args_t
            * list iter_event) :=
  let start_level := level la in
  let level_idx2 := start_level * P4EST_ITER_STRIDE in
  let quad_idx2 := level_idx2 + v_start_idx2 args in
  la ← for_each (fun type la => load_bound_at type quad_idx2 la)
        (zrange local (ghost + 1)) la;
  cl ← aget (count la) local;
  if decide (cl = 0) then Some (args, la, [])
  else
    la ← set_level_num start_level 0 la;
    '(args, la, _, tr) ←
      run_loop fuel (volume_body ctx (iter_volume cbs))
        (volume_change fuel ctx cbs start_level) true
        (args, la, level_idx2, []);
    Some (args, la, tr).

(** [p4est_volume_iterate_simple]: the local quadrants of the local trees,
    tree after tree. *)
Definition p4est_volume_iterate_simple (p4est : p4est_t)
  : option (list iter_event) :=
  for_each (fun t tr =>
     quadrants ← zlookup (trees p4est) t;
     let n_quads := Z.of_nat (length quadrants) in
     Some (tr ++ map (fun si =>
                        EvVolume {| vi_treeid := t;
                                    vi_quad := Some (QPtr (TreeQuads t) si);
                                    vi_quadid := to_locidx si |})
                   (zrange 0 n_quads)))
    (zrange (first_local_tree p4est) (last_local_tree p4est + 1)) [].

(** ** The top-level driver *)

(** [p4est_split_ghost_layer_by_tree]: the offsets in the ghost layer at
    which the quadrants of each tree start. *)
Definition p4est_split_ghost_layer_by_tree `{Bits}
  (ghosts : list p4est_quadrant_t) (num_trees : Z) : list Z :=
  sc_array_split ghosts num_trees which_tree.

(** The local [face_args] of [p4est_iterate] before its first use. *)
Definition face_args_uninit `{Build} : p4est_iter_face_args_t :=
  {| f_start_idx2 := P4EST_ALLOC 2;
     f_num_to_child := P4EST_ALLOC P4EST_CHILDREN;
     f_outside_face := false;
     f_edge_args := [];
     f_corner_args := None;
     f_info := {| fi_orientation := 0; fi_sides := [] |} |}.

(** The state of the loop over the trees: loop arguments, the [face_args]
    structure that every call of [p4est_iter_init_face] reuses, and the
    callbacks made. *)
Definition iterate_state : Type :=
  p4est_iter_loop_args_t * p4est_iter_face_args_t * list iter_event.

(** The faces of tree [t] that are faces between trees or on the boundary
    of the domain. *)
Definition iterate_tree_faces `{Bits} (fuel : nat) (ctx : iter_ctx)
  (cbs : callbacks) (tree_first_ghost : list Z) (t : Z)
  (st : iterate_state) : option iterate_state :=
  for_each (fun i '(la, face_args, tr) =>
     '(run_iter, face_args, la) ←
       p4est_iter_init_face ctx tree_first_ghost la face_args t i;
     if run_iter : bool then
       '(face_args, la, evs) ← p4est_face_iterate fuel ctx cbs face_args la;
       Some (la, face_args, tr ++ evs)
     else Some (la, face_args, tr))
    (zrange 0 (2 * P4EST_DIM)) st.

(** The edges of tree [t] (3D build). *)
Definition iterate_tree_edges `{Bits} (fuel : nat) (ctx : iter_ctx)
  (cbs : callbacks) (tree_first_ghost : list Z) (t : Z)
  (st : p4est_iter_loop_args_t * list iter_event)
  : option (p4est_iter_loop_args_t * list iter_event) :=
  for_each (fun i '(la, tr) =>
     '(run_iter, edge_args, la) ←
       p8est_iter_init_edge ctx tree_first_ghost la t i;
     if run_iter : bool then
       '(_, la, evs) ← p8est_edge_iterate fuel ctx cbs edge_args la;
       Some (la, tr ++ evs)
     else Some (la, tr))
    (zrange 0 12) st.

(** The corners of tree [t]. *)
Definition iterate_tree_corners `{Bits} (ctx : iter_ctx)
  (tree_first_ghost : list Z) (t : Z)
  (st : p4est_iter_loop_args_t * list iter_event)
  : option (p4est_iter_loop_args_t * list iter_event) :=
  for_each (fun i '(la, tr) =>
     '(run_iter, corner_args, la) ←
       p4est_iter_init_corner ctx tree_first_ghost la t i;
     if run_iter : bool then
       '(_, la, evs) ← p4est_corner_iterate ctx corner_args la;
       Some (la, tr ++ evs)
     else Some (la, tr))
    (zrange 0 P4EST_CHILDREN) st.

(** One round of the loop over all trees. *)
Definition iterate_tree `{Bits} (fuel : nat) (ctx : iter_ctx)
  (cbs : callbacks) (tree_first_ghost : list Z) (t : Z)
  (st : iterate_state) : option iterate_state :=
  let '(la, face_args, tr) := st in
  '(args, la) ← p4est_iter_init_volume ctx tree_first_ghost la t;
  '(_, la, evs) ← p4est_volume_iterate fuel ctx cbs args la;
  '(la, face_args, tr) ←
    iterate_tree_faces fuel ctx cbs tree_first_ghost t
      (la, face_args, tr ++ evs);
  '(la, tr) ←
    (if P4_TO_P8 && loop_edge la
     then iterate_tree_edges fuel ctx cbs tree_first_ghost t (la, tr)
     else Some (la, tr));
  '(la, tr) ←
    (if loop_corner la
     then iterate_tree_corners ctx tree_first_ghost t (la, tr)
     else Some (la, tr));
  Some (la, face_args, tr).

(** The traversal behind the fast path: everything [p4est_iterate] does
    once a face, edge or corner callback is present. *)
Definition p4est_iterate_search `{Bits} (fuel : nat) (p4est : p4est_t)
  (ghost_layer : list p4est_quadrant_t) (cbs : callbacks)
  : option (list iter_event) :=
  let ctx := {| ctx_p4est := p4est; ctx_ghost := ghost_layer |} in
  loop_args ←
    p4est_iter_loop_args_new (connectivity p4est)
      (P4_TO_P8 && iter_edge cbs) (iter_corner cbs) (mpisize p4est);
  let global_num_trees := Z.of_nat (length (trees p4est)) in
  let tree_first_ghost :=
    p4est_split_ghost_layer_by_tree ghost_layer global_num_trees in
  '(_, _, tr) ←
    for_each (iterate_tree fuel ctx cbs tree_first_ghost)
      (zrange 0 global_num_trees) (loop_args, face_args_uninit, []);
  Some tr.

(** [p4est_iterate].  [Ghost_layer] is [None] for a NULL argument.  The
    result is the sequence of callbacks made, or [None] when the traversal
    runs into undefined behaviour or needs more than [fuel] rounds of one
    of its search loops. *)
Definition p4est_iterate `{Bits} (fuel : nat) (p4est : p4est_t)
  (Ghost_layer : option (list p4est_quadrant_t)) (cbs : callbacks)
  : option (list iter_event) :=
  let ghost_layer :=
    match Ghost_layer with
    | None => []
    | Some g => g
    end in
  if decide (first_local_tree p4est < 0) then Some []
  else if negb (iter_face cbs) && negb (iter_corner cbs)
          && negb (P4_TO_P8 && iter_edge cbs)
  then
    if negb (iter_volume cbs) then Some []
    else p4est_volume_iterate_simple p4est
  else p4est_iterate_search fuel p4est ghost_layer cbs.

(** ** [p4est_int64_lower_bound] ([src/p4est_base.c]) *)

(** [int] arithmetic: a result that does not fit an [int] is undefined
    behaviour ([None]). *)
Definition INT_MIN : Z := - 2 ^ 31.
Definition INT_MAX : Z := 2 ^ 31 - 1.

Definition int_result (z : Z) : option Z :=
  guard (INT_MIN <= z <= INT_MAX);; Some z.

(** Where one round of the [for (;;)] loop ends: at the [return] after the
    loop or inside it, or at a [continue] with new bounds and a new guess. *)
Inductive lb_step :=
| LbReturn (r : Z)
| LbContinue (k_low k_high guess : Z).

(** One round of the loop.  The assertions at its head are compiled out
    ([P4EST_ASSERT] is empty without [P4EST_DEBUG]); [array] is the block
    the pointer refers to, and a read outside of it is undefined. *)
Definition lower_bound_body (target : Z) (array : list Z)
  (k_low k_high guess : Z) : option lb_step :=
  cur ← zlookup array guess;
  room ← (if decide (target <= cur) then
            if decide (guess > 0) then
              prev ← zlookup array (guess - 1);
              Some (bool_decide (target <= prev))
            else Some false
          else Some false);
  if room : bool then
    k_high ← int_result (guess - 1);
    s ← int_result (k_low + k_high);
    s ← int_result (s + 1);
    Some (LbContinue k_low k_high (s `quot` 2))
  else if decide (target > cur) then
    k_low ← int_result (guess + 1);
    if decide (k_low > k_high) then Some (LbReturn (-1))
    else
      s ← int_result (k_low + k_high);
      Some (LbContinue k_low k_high (s `quot` 2))
  else Some (LbReturn guess).

(** The loop, bounded by [fuel] rounds. *)
Fixpoint lower_bound_loop (fuel : nat) (target : Z) (array : list Z)
  (k_low k_high guess : Z) : option Z :=
  match fuel with
  | O => None
  | S n =>
      r ← lower_bound_body target array k_low k_high guess;
      match r with
      | LbReturn r => Some r
      | LbContinue k_low k_high guess =>
          lower_bound_loop n target array k_low k_high guess
      end
  end.

Definition p4est_int64_lower_bound (fuel : nat) (target : Z)
  (array : list Z) (size guess : Z) : option Z :=
  k_high ← int_result (size - 1);
  lower_bound_loop fuel target array 0 k_high guess.

(** ** A concrete environment for the examples

    The properties below are proved for every [Build] and [Bits].  To run
    the traversal on concrete forests, this section supplies one 2D
    environment: quadrants with [P4EST_MAXLEVEL = 30] in Morton order, the
    corner and face tables in z-order, and connectivities that put trees in
    a row along the x axis.  Faces are numbered 0 bottom, 1 right, 2 top,
    3 left where the 2D code uses the [rface] numbering. *)

Definition ex_build : Build :=
  {| P4_TO_P8 := false; P4EST_MAXLEVEL := 30; P4EST_QMAXLEVEL := 29 |}.

Definition ex_root_len : Z := 2 ^ 30.
Definition ex_len (l : Z) : Z := 2 ^ (30 - l).

(** The Morton key of an anchor: the bits of [y] and [x] interleaved. *)
Fixpoint ex_morton (n : nat) (x y : Z) : Z :=
  match n with
  | O => 0
  | S k => ex_morton k (x `div` 2) (y `div` 2) * 4 + (y `mod` 2) * 2 + x `mod` 2
  end.

Definition ex_compare (a b : p4est_quadrant_t) : Z :=
  let ka := ex_morton 31 (qx a) (qy a) in
  let kb := ex_morton 31 (qx b) (qy b) in
  if decide (ka = kb) then qlevel a - qlevel b else ka - kb.

Definition ex_is_equal (a b : p4est_quadrant_t) : bool :=
  bool_decide (qx a = qx b /\ qy a = qy b /\ qlevel a = qlevel b).

Definition ex_is_ancestor (a b : p4est_quadrant_t) : bool :=
  bool_decide (qlevel a < qlevel b
               /\ Z.shiftr (Z.lxor (qx a) (qx b)) (30 - qlevel a) = 0
               /\ Z.shiftr (Z.lxor (qy a) (qy b)) (30 - qlevel a) = 0).

(** The child id of the ancestor of [q] at [level]. *)
Definition ex_ancestor_id (level : Z) (q : p4est_quadrant_t) : Z :=
  (if decide (Z.land (qx q) (ex_len level) <> 0) then 1 else 0)
  + (if decide (Z.land (qy q) (ex_len level) <> 0) then 2 else 0).

Definition ex_child_id (q : p4est_quadrant_t) : Z :=
  if decide (qlevel q = 0) then 0 else ex_ancestor_id (qlevel q) q.

Definition ex_sibling (q : p4est_quadrant_t) (id : Z) : p4est_quadrant_t :=
  let l := ex_len (qlevel q) in
  let put (bit : Z) (v : Z) :=
    if decide (Z.land id bit <> 0) then Z.lor v l
    else Z.land v (Z.lnot l) in
  mkQuad (put 1 (qx q)) (put 2 (qy q)) (qz q) (qlevel q) (which_tree q).

Definition ex_parent (q : p4est_quadrant_t) : p4est_quadrant_t :=
  let l := ex_len (qlevel q) in
  mkQuad (Z.land (qx q) (Z.lnot l)) (Z.land (qy q) (Z.lnot l)) (qz q)
    (qlevel q - 1) (which_tree q).

(** The neighbour across face [rf]; a row of trees is joined right face to
    left face without rotation, the number of trees being read off
    [tree_to_face]. *)
Definition ex_face_neighbor (conn : p4est_connectivity_t)
  (q : p4est_quadrant_t) (t rf : Z) : Z * p4est_quadrant_t :=
  let ntrees := Z.of_nat (length (tree_to_face conn)) `div` 4 in
  let l := ex_len (qlevel q) in
  let n :=
    if decide (rf = 0) then mkQuad (qx q) (qy q - l) 0 (qlevel q) 0
    else if decide (rf = 1) then mkQuad (qx q + l) (qy q) 0 (qlevel q) 0
    else if decide (rf = 2) then mkQuad (qx q) (qy q + l) 0 (qlevel q) 0
    else mkQuad (qx q - l) (qy q) 0 (qlevel q) 0 in
  if decide (0 <= qx n < ex_root_len /\ 0 <= qy n < ex_root_len) then (t, n)
  else if decide (rf = 1 /\ t + 1 < ntrees)
  then (t + 1, mkQuad (qx n - ex_root_len) (qy n) 0 (qlevel n) 0)
  else if decide (rf = 3 /\ 0 < t)
  then (t - 1, mkQuad (qx n + ex_root_len) (qy n) 0 (qlevel n) 0)
  else (-1, n).

(** Offsets of the children of the ancestor at [level] in a sorted view. *)
Definition ex_split_array (view : list p4est_quadrant_t) (level : Z)
  : list Z :=
  map (fun i => Z.of_nat
                  (length (filter (fun q => ex_ancestor_id (level + 1) q < i)
                             view)))
    (zrange 0 5).

Fixpoint ex_bsearch (i : Z) (l : list p4est_quadrant_t)
  (key : p4est_quadrant_t)
  (compar : p4est_quadrant_t -> p4est_quadrant_t -> Z) : Z :=
  match l with
  | [] => -1
  | q :: rest =>
      if decide (compar key q = 0) then i
      else ex_bsearch (i + 1) rest key compar
  end.

Definition ex_array_split (l : list p4est_quadrant_t) (num_types : Z)
  (type_of : p4est_quadrant_t -> Z) : list Z :=
  map (fun i => Z.of_nat (length (filter (fun q => type_of q < i) l)))
    (zrange 0 (num_types + 1)).

Definition ex_table (rows : list (list Z)) (i j : Z) : Z :=
  default (-1) (r ← zlookup rows i; zlookup r j).

Definition ex_table1 (row : list Z) (i : Z) : Z :=
  default (-1) (zlookup row i).

Definition ex_bits : @Bits ex_build :=
  {| P4EST_QUADRANT_LEN := ex_len;
     p4est_quadrant_compare := ex_compare;
     p4est_quadrant_is_equal := ex_is_equal;
     p4est_quadrant_is_ancestor := ex_is_ancestor;
     p4est_quadrant_child_id := ex_child_id;
     p4est_quadrant_sibling := ex_sibling;
     p4est_quadrant_parent := ex_parent;
     p4est_quadrant_face_neighbor_extra := ex_face_neighbor;
     p8est_quadrant_edge_neighbor_extra := fun _ _ _ _ => [];
     p4est_quadrant_corner_neighbor_extra := fun _ _ _ _ => [];
     p4est_split_array := ex_split_array;
     sc_array_bsearch := ex_bsearch 0;
     sc_array_split := ex_array_split;
     p4est_corner_faces := ex_table [[3; 0]; [1; 0]; [3; 2]; [1; 2]];
     p4est_face_corners := ex_table [[0; 1]; [1; 3]; [2; 3]; [0; 2]];
     p4est_zface_to_rface := ex_table1 [3; 1; 0; 2];
     p4est_rface_to_zface := ex_table1 [2; 1; 3; 0];
     p8est_corner_edges := fun _ _ => -1;
     p8est_edge_corners := fun _ _ => -1;
     p8est_edge_faces := fun _ _ => -1;
     p8est_child_corner_edges := fun _ _ => -1;
     p8est_corner_face_corners := fun _ _ => -1 |}.

(** A decoder environment for the examples; the zero code reaches neither
    [p4est_lnodes_decode] nor the table. *)
Definition ex_lnodes : LnodesEnv :=
  {| p4est_lnodes_decode := fun _ hanging_face => (0, hanging_face);
     p8est_face_edges :=
       ex_table [[4; 6; 8; 10]; [5; 7; 9; 11]; [0; 2; 8; 9];
                 [1; 3; 10; 11]; [0; 1; 4; 5]; [2; 3; 6; 7]] |}.

(** [n] trees in a row; [corner_trees] lists how many trees meet at each
    vertex of the connectivity. *)
Definition ex_brick (n : Z) (corner_trees : list Z) : p4est_connectivity_t :=
  {| num_vertices := Z.of_nat (length corner_trees);
     vtt_offset :=
       map (fun k => foldr Z.add 0 (take k corner_trees))
         (seq 0 (S (length corner_trees)));
     num_corners := 0; ctt_offset := [0];
     num_edges := 0; ett_offset := [0];
     tree_to_face :=
       flat_map (fun t => [0; (if decide (t + 1 < n) then 3 else 1); 2;
                           (if decide (0 < t) then 1 else 3)])
         (zrange 0 n);
     tree_to_edge := []; edge_to_tree := []; edge_to_edge := [] |}.

Definition ex_half : Z := 2 ^ 29.

(** The four children of the root. *)
Definition ex_four : list p4est_quadrant_t :=
  [mkQuad 0 0 0 1 0; mkQuad ex_half 0 0 1 0; mkQuad 0 ex_half 0 1 0;
   mkQuad ex_half ex_half 0 1 0].

(** One tree refined once, on one process. *)
Definition ex_forest1 : p4est_t :=
  {| mpisize := 1; first_local_tree := 0; last_local_tree := 0;
     trees := [ex_four]; connectivity := ex_brick 1 [] |}.

(** Two trees: the first is one quadrant, the second is refined once, so
    the face between them is hanging. *)
Definition ex_forest2 : p4est_t :=
  {| mpisize := 1; first_local_tree := 0; last_local_tree := 1;
     trees := [[mkQuad 0 0 0 0 0]; ex_four];
     connectivity := ex_brick 2 [] |}.

(** The view of the second of two processes on [ex_forest2]: it owns the
    last three quadrants of the second tree; the rest is its ghost layer. *)
Definition ex_forest3 : p4est_t :=
  {| mpisize := 2; first_local_tree := 1; last_local_tree := 1;
     trees := [[]; [mkQuad ex_half 0 0 1 0; mkQuad 0 ex_half 0 1 0;
                    mkQuad ex_half ex_half 0 1 0]];
     connectivity := ex_brick 2 [] |}.

Definition ex_ghosts3 : list p4est_quadrant_t :=
  [mkQuad 0 0 0 0 0; mkQuad 0 0 0 1 1].

(** A tree refined uniformly to level 2, in Morton order; and the range
    that a key stands for when two such trees are searched at depth 1: the
    four children of the level-1 quadrant whose first child the key points
    to, starting at the position of that child. *)
Definition ex_sixteen : list p4est_quadrant_t :=
  map (fun '(x, y) => mkQuad (x * ex_len 2) (y * ex_len 2) 0 2 0)
    [(0, 0); (1, 0); (0, 1); (1, 1); (2, 0); (3, 0); (2, 1); (3, 1);
     (0, 2); (1, 2); (0, 3); (1, 3); (2, 2); (3, 2); (2, 3); (3, 3)].

Definition ex_range_of (level : Z) (q : quad_ptr)
  : list p4est_quadrant_t * Z :=
  (take 4 (drop (Z.to_nat (ptr_index q)) ex_sixteen), ptr_index q).

Definition ex_all_callbacks : callbacks :=
  {| iter_volume := true; iter_face := true; iter_edge := false;
     iter_corner := true |}.

Definition ex_volume_only : callbacks :=
  {| iter_volume := true; iter_face := false; iter_edge := false;
     iter_corner := false |}.

(** The loop arguments that [p4est_iterate] creates for a forest of the
    examples. *)
Definition ex_la_none : p4est_iter_loop_args_t :=
  {| alloc_size := 0; loop_edge := false; loop_corner := false; level := 0;
     level_num := []; quad_idx2 := []; quadrants := []; index := [];
     first_index := []; count := []; test := []; test_level := [];
     refine := []; tier_rings := [] |}.

Definition ex_loop_args (p4est : p4est_t) (cbs : callbacks)
  : p4est_iter_loop_args_t :=
  default ex_la_none
    (@p4est_iter_loop_args_new ex_build (connectivity p4est) false
       (iter_corner cbs) (mpisize p4est)).

(** [ex_forest2] without a ghost layer, and the offsets of its (empty)
    ghost layer by tree. *)
Definition ex_ctx2 : iter_ctx :=
  {| ctx_p4est := ex_forest2; ctx_ghost := [] |}.

Definition ex_offsets2 : list Z := [0; 0; 0].

(** [ex_forest3] with its ghost layer; one ghost quadrant belongs to each
    tree. *)
Definition ex_ctx3 : iter_ctx :=
  {| ctx_p4est := ex_forest3; ctx_ghost := ex_ghosts3 |}.

Definition ex_offsets3 : list Z := [0; 1; 2].

(** The corner arguments and loop arguments with which the top-level
    driver starts the search at corner 0 of tree 1 of [ex_forest3]. *)
Definition ex_corner_init
  : option (bool * p4est_iter_corner_args_t * p4est_iter_loop_args_t) :=
  @p4est_iter_init_corner ex_build ex_bits ex_ctx3 ex_offsets3
    (ex_loop_args ex_forest3 ex_all_callbacks) 1 0.

Definition ex_corner_args : p4est_iter_corner_args_t :=
  match ex_corner_init with
  | Some (_, args, _) => args
  | None => {| c_num_sides := 0; c_start_idx2 := []; c_sides := [] |}
  end.

Definition ex_corner_la : p4est_iter_loop_args_t :=
  match ex_corner_init with
  | Some (_, _, la) => la
  | None => ex_la_none
  end.

(** ** Notions used to state the properties *)

(** A traversal with only a volume callback.  The 2D build has no edge
    callback. *)
Definition only_volume `{Build} (cbs : callbacks) : Prop :=
  iter_volume cbs = true /\ iter_face cbs = false /\ iter_corner cbs = false
  /\ (P4_TO_P8 = true -> iter_edge cbs = false).

(** The volume callback for the quadrant at position [si] of tree [t]. *)
Definition volume_visit (t si : Z) : iter_event :=
  EvVolume {| vi_treeid := t; vi_quad := Some (QPtr (TreeQuads t) si);
              vi_quadid := to_locidx si |}.

(** Every quadrant stored in the forest, tree after tree in increasing tree
    id and, within a tree, in the order of its array. *)
Definition local_quadrant_visits (p4est : p4est_t) : list iter_event :=
  flat_map (fun t =>
              map (volume_visit t)
                (zrange 0 (Z.of_nat (length (default [] (zlookup (trees p4est) t))))))
    (zrange 0 (Z.of_nat (length (trees p4est)))).

(** What [p4est_is_valid] guarantees about the local range of trees: the
    trees outside [first_local_tree .. last_local_tree] hold no local
    quadrants, the range lies inside the forest, and a process without
    quadrants has an empty range that starts below zero. *)
Definition valid_local_trees (p4est : p4est_t) : Prop :=
  (forall t qs, zlookup (trees p4est) t = Some qs -> qs <> [] ->
                first_local_tree p4est <= t <= last_local_tree p4est)
  /\ (0 <= first_local_tree p4est ->
      last_local_tree p4est < Z.of_nat (length (trees p4est)))
  /\ (first_local_tree p4est < 0 ->
      last_local_tree p4est < first_local_tree p4est).

(** A sequence of requests to the tier cache within one top-level call.  A
    request is a depth and the key of a quadrant range; [range_of] gives
    the range that the key stands for at that depth, as the view of its
    quadrants and the offset of its first quadrant.  The result lists the
    outcome of every request. *)
Fixpoint tier_requests `{Bits}
  (range_of : Z -> quad_ptr -> list p4est_quadrant_t * Z)
  (reqs : list (Z * quad_ptr)) (rings : list p4est_iter_tier_ring_t)
  : option (list tier_insert_result) :=
  match reqs with
  | [] => Some []
  | (level, q) :: rest =>
      r ← p4est_iter_tier_insert (range_of level q).1 level
             (range_of level q).2 rings (Some q);
      rs ← tier_requests range_of rest (rings_after r);
      Some (r :: rs)
  end.

(** What a direct call of [p4est_iter_tier_update] computes for a
    request. *)
Definition direct_update `{Bits}
  (range_of : Z -> quad_ptr -> list p4est_quadrant_t * Z)
  (req : Z * quad_ptr) : list Z :=
  p4est_iter_tier_update (range_of req.1 req.2).1 req.1
    (range_of req.1 req.2).2.

(** The caching that the spec describes, as a reference to compare the
    rings with: for every depth below [levels] a first-in first-out cache
    of at most [capacity] keys, newest first.  A request for a key that the
    cache of its depth holds is a hit and leaves the caches as they are; any
    other request is a miss: below [levels] its key is put in front and
    the oldest key is dropped once the cache is full. *)
Definition fifo_insert (capacity level : Z) (q : quad_ptr)
  (cache : Z -> list quad_ptr) : Z -> list quad_ptr :=
  fun l => if decide (l = level)
           then take (Z.to_nat capacity) (q :: cache l)
           else cache l.

(** For each request in turn, whether it is a miss of the reference
    caches, which start as [cache]. *)
Fixpoint fifo_searches (levels capacity : Z) (reqs : list (Z * quad_ptr))
  (cache : Z -> list quad_ptr) : list bool :=
  match reqs with
  | [] => []
  | (level, q) :: rest =>
      if decide (level < levels) then
        if decide (q ∈ cache level)
        then false :: fifo_searches levels capacity rest cache
        else true :: fifo_searches levels capacity rest
                       (fifo_insert capacity level q cache)
      else true :: fifo_searches levels capacity rest cache
  end.

(** A ring holds the keys [fifo] (newest first): the tier written [j + 1]
    stores ago, counted back from the write position, has the key at
    position [j] of [fifo], and the tiers further back are unused. *)
Definition ring_fifo (ring : p4est_iter_tier_ring_t) (fifo : list quad_ptr)
  : Prop :=
  let limit := Z.of_nat (length (ring_tiers ring)) in
  let k := Z.of_nat (length fifo) in
  k <= limit /\ 0 <= ring_next ring < limit
  /\ (k < limit -> ring_next ring = k)
  /\ forall i tier,
       zlookup (ring_tiers ring) i = Some tier ->
       tier_key tier
       = fifo !! Z.to_nat ((ring_next ring - 1 - i) `mod` limit).

Definition rings_fifo (capacity : Z) (rings : list p4est_iter_tier_ring_t)
  (cache : Z -> list quad_ptr) : Prop :=
  forall level ring,
    zlookup rings level = Some ring ->
    Z.of_nat (length (ring_tiers ring)) = capacity
    /\ ring_fifo ring (cache level).

(** The lexicographic order on (tree id, local entity index) pairs. *)
Definition lex_le (a b : Z * Z) : Prop :=
  a.1 < b.1 \/ (a.1 = b.1 /\ a.2 <= b.2).

(** The (tree id, local entity index) pairs that an init routine has
    enumerated through the connectivity for the entity it was called on:
    the pair of the call first. *)
Definition face_pairs (args : p4est_iter_face_args_t) : list (Z * Z) :=
  map (fun s => (fs_treeid s, fs_face s)) (fi_sides (f_info args)).

Definition edge_pairs (args : p8est_iter_edge_args_t) : list (Z * Z) :=
  map (fun s => (es_treeid s, es_edge s)) (e_sides args).

Definition corner_pairs (args : p4est_iter_corner_args_t) : list (Z * Z) :=
  map (fun s => (cs_treeid s, cs_corner s)) (c_sides args).

(** What the driver of [p4est_iterate] starts a search for, tree after
    tree: the volume of the tree, and each of its faces, edges and corners
    under its local index. *)
Inductive entity_kind :=
| KVolume
| KFace
| KEdge
| KCorner.

(** One call of the driver: for the pair [(db_tree, db_index)] of a kind,
    the pairs that the init routine enumerated as touching the entity (the
    pair of the call first; none for a volume), whether the pair passed
    the canonical-owner check ([run_iter]), and the callbacks that the run
    of the assembler added to the trace. *)
Record driver_block := {
  db_kind : entity_kind;
  db_tree : Z;
  db_index : Z;
  db_pairs : list (Z * Z);
  db_owner : bool;
  db_events : list iter_event
}.

Definition db_pair (b : driver_block) : Z * Z := (db_tree b, db_index b).

Definition db_key (b : driver_block) : entity_kind * (Z * Z) :=
  (db_kind b, db_pair b).

(** The block is what the code does for its pair: the init routine of the
    kind was called on the pair and returned [db_owner] with the pairs
    [db_pairs]; the callbacks are those of the iterator run on the
    arguments that the init routine left if the pair was accepted, and
    none if it was rejected. *)
Definition block_assembled `{Bits} (fuel : nat) (ctx : iter_ctx)
  (ghost_offsets : list Z) (cbs : callbacks) (b : driver_block) : Prop :=
  match db_kind b with
  | KVolume =>
      db_index b = 0 /\ db_pairs b = [] /\ db_owner b = true
      /\ exists la args la1 args' la2,
           p4est_iter_init_volume ctx ghost_offsets la (db_tree b)
           = Some (args, la1)
           /\ p4est_volume_iterate fuel ctx cbs args la1
              = Some (args', la2, db_events b)
  | KFace =>
      exists la args0 args la1,
        p4est_iter_init_face ctx ghost_offsets la args0 (db_tree b)
          (db_index b) = Some (db_owner b, args, la1)
        /\ db_pairs b = face_pairs args
        /\ if db_owner b
           then exists args' la2,
                  p4est_face_iterate fuel ctx cbs args la1
                  = Some (args', la2, db_events b)
           else db_events b = []
  | KEdge =>
      exists la args la1,
        p8est_iter_init_edge ctx ghost_offsets la (db_tree b) (db_index b)
        = Some (db_owner b, args, la1)
        /\ db_pairs b = edge_pairs args
        /\ if db_owner b
           then exists args' la2,
                  p8est_edge_iterate fuel ctx cbs args la1
                  = Some (args', la2, db_events b)
           else db_events b = []
  | KCorner =>
      exists la args la1,
        p4est_iter_init_corner ctx ghost_offsets la (db_tree b) (db_index b)
        = Some (db_owner b, args, la1)
        /\ db_pairs b = corner_pairs args
        /\ if db_owner b
           then exists args' la2,
                  p4est_corner_iterate ctx args la1
                  = Some (args', la2, db_events b)
           else db_events b = []
  end.

(** The block of one round of a loop of the driver over the local indices
    of one kind of entity of tree [t]. *)
Definition indexed_blocks (kind : entity_kind) (t : Z)
  (P : driver_block -> Prop) (i : Z) (bs : list driver_block) : Prop :=
  exists b, bs = [b] /\ db_kind b = kind /\ db_tree b = t /\ db_index b = i
            /\ P b.

(** The blocks of one tree: what the code does for each of its pairs, each
    pair once. *)
Definition tree_blocks `{Bits} (fuel : nat) (ctx : iter_ctx)
  (ghost_offsets : list Z) (cbs : callbacks) (t : Z)
  (bs : list driver_block) : Prop :=
  Forall (fun b => db_tree b = t
                   /\ block_assembled fuel ctx ghost_offsets cbs b) bs
  /\ NoDup (map db_key bs).

(** A side record that names a local quadrant. *)
Definition side_quad_local (q : side_quad) : Prop :=
  sq_is_local q = true /\ sq_quad q <> None.

(** A side on which the search found no quadrant, or a quadrant of the
    ghost layer. *)
Definition side_absent_or_ghost (d : side_data) : Prop :=
  match d with
  | SideFull q => sq_quad q = None \/ sq_is_local q = false
  | _ => True
  end.







(** A side record that does not report a ghost quadrant: it names no
    quadrant, or a local one. *)
Definition quad_not_ghost (q : side_quad) : Prop :=
  sq_quad q = None \/ sq_is_local q = true.

Definition data_not_ghost (d : side_data) : Prop :=
  match d with
  | SideUnset => True
  | SideFull q => quad_not_ghost q
  | SideHanging slots =>
      Forall (fun slot => match slot with
                          | Some q => quad_not_ghost q
                          | None => True
                          end) slots
  end.

(** A callback all of whose sides are reported as not ghost. *)
Definition event_not_ghost (e : iter_event) : Prop :=
  match e with
  | EvVolume _ => True
  | EvFace info => Forall (fun s => data_not_ghost (fs_is s)) (fi_sides info)
  | EvEdge sides => Forall (fun s => data_not_ghost (es_is s)) sides
  | EvCorner sides => Forall (fun s => data_not_ghost (cs_is s)) sides
  end.

(** The loop arguments keep the ghost layer apart: the array of every ghost
    search area (the odd positions of [quadrants]) is the ghost layer. *)
Definition ghost_cells (la : p4est_iter_loop_args_t) : Prop :=
  forall side arr,
    aget (quadrants la) (side * 2 + 1) = Some arr -> arr = GhostQuads.

(** No candidate is held for a ghost search area. *)
Definition no_ghost_test (la : p4est_iter_loop_args_t) : Prop :=
  forall side p, aget (test la) (side * 2 + 1) <> Some (Some p).

Definition la_ok (la : p4est_iter_loop_args_t) : Prop :=
  ghost_cells la /\ no_ghost_test la.

(** Two states of the loop arguments with the same [quadrants] and [test]
    arrays. *)
Definition same_qt (la la' : p4est_iter_loop_args_t) : Prop :=
  quadrants la' = quadrants la /\ test la' = test la.

(** [ok x]: the part [x] of the state of a traversal reports no ghost
    quadrant.  Data without side records is always [ok]. *)
Class Ok (A : Type) := ok : A -> Prop.
Global Hint Mode Ok ! : typeclass_instances.

Global Instance ok_Z : Ok Z := fun _ => True.
Global Instance ok_bool : Ok bool := fun _ => True.
Global Instance ok_next_step : Ok next_step := fun _ => True.
Global Instance ok_volume_info : Ok p4est_iter_volume_info_t := fun _ => True.
Global Instance ok_pair {A B} `{Ok A, Ok B} : Ok (A * B) :=
  fun p => ok p.1 /\ ok p.2.
Global Instance ok_list {A} `{Ok A} : Ok (list A) := Forall ok.
Global Instance ok_option {A} `{Ok A} : Ok (option A) :=
  fun o => match o with
           | Some a => ok a
           | None => True
           end.
Global Instance ok_flow {S} `{Ok S} : Ok (flow S) :=
  fun f => match f with
           | Next s => ok s
           | Leave s => ok s
           end.
Global Instance ok_la : Ok p4est_iter_loop_args_t := la_ok.
Global Instance ok_side_quad : Ok side_quad := quad_not_ghost.
Global Instance ok_side_data : Ok side_data := data_not_ghost.
Global Instance ok_corner_side : Ok p4est_iter_corner_side_t :=
  fun s => data_not_ghost (cs_is s).
Global Instance ok_edge_side : Ok p8est_iter_edge_side_t :=
  fun s => data_not_ghost (es_is s).
Global Instance ok_face_side : Ok p4est_iter_face_side_t :=
  fun s => data_not_ghost (fs_is s).
Global Instance ok_event : Ok iter_event := event_not_ghost.
Global Instance ok_corner_args : Ok p4est_iter_corner_args_t :=
  fun ca => ok (c_sides ca).
Global Instance ok_edge_args : Ok p8est_iter_edge_args_t :=
  fun ea => ok (e_sides ea) /\ ok (e_corner_args ea).
Global Instance ok_face_args : Ok p4est_iter_face_args_t :=
  fun fa => ok (fi_sides (f_info fa)) /\ ok (f_edge_args fa)
            /\ ok (f_corner_args fa).
Global Instance ok_volume_args : Ok p4est_iter_volume_args_t :=
  fun va => ok (v_face_args va) /\ ok (v_edge_args va)
            /\ ok (v_corner_args va).

(** An array in ascending order (equal neighbours allowed). *)
Definition sorted_array (a : list Z) : Prop :=
  forall i j x y, i <= j ->
    zlookup a i = Some x -> zlookup a j = Some y -> x <= y.

(** [r] is a position at which [target] can be inserted before everything
    that is not smaller: the element at [r] is at least [target] and the
    one before it, if any, is smaller. *)
Definition lower_bound_at (target : Z) (a : list Z) (r : Z) : Prop :=
  exists x, zlookup a r = Some x /\ target <= x
    /\ (r = 0 \/ exists y, zlookup a (r - 1) = Some y /\ y < target).

(** A ring the way [p4est_iter_tier_insert] fills it: the [k] tiers in use
    come first, and [next] is a position of the ring, the one of the first
    unused tier while there is one. *)
Definition ring_wf (ring : p4est_iter_tier_ring_t) : Prop :=
  let tiers := ring_tiers ring in
  let limit := Z.of_nat (length tiers) in
  exists k, 0 <= k <= limit
    /\ (forall i t, zlookup tiers i = Some t -> (tier_key t = None <-> k <= i))
    /\ 0 <= ring_next ring < limit
    /\ (k < limit -> ring_next ring = k).

(** One coordinate of [r] lies in the interval of length [len] that starts
    at the aligned coordinate [a] of [q]. *)
Definition coord_inside (len a b : Z) : Prop :=
  (exists k, a = k * len) /\ a <= b < a + len.

(** Quadrant [r] lies inside quadrant [q]: [q] is not finer than [r], its
    anchor is aligned to its size, and the anchor of [r] is in the square
    (cube) of [q]. *)
Definition quadrant_inside `{Build} (q r : p4est_quadrant_t) : Prop :=
  let len := 2 ^ (P4EST_MAXLEVEL - qlevel q) in
  qlevel q <= qlevel r /\ qlevel q <= P4EST_MAXLEVEL
  /\ coord_inside len (qx q) (qx r)
  /\ coord_inside len (qy q) (qy r)
  /\ (P4_TO_P8 = true -> coord_inside len (qz q) (qz r)).




(** A quadrant as the C code can hold and compare it: the level is between
    0 and [P4EST_MAXLEVEL], so that the shift by [P4EST_MAXLEVEL - level]
    is defined, and the coordinates fit the 32 bits of
    [p4est_qcoord_t]. *)
Definition quadrant_in_range `{Build} (q : p4est_quadrant_t) : Prop :=
  0 <= qlevel q <= P4EST_MAXLEVEL
  /\ - 2 ^ 31 <= qx q < 2 ^ 31
  /\ - 2 ^ 31 <= qy q < 2 ^ 31
  /\ - 2 ^ 31 <= qz q < 2 ^ 31.

(** A callback that was registered: the function pointer passed to
    [p4est_iterate] for this kind of callback is not [NULL]. *)
Definition event_registered (cbs : callbacks) (e : iter_event) : Prop :=
  match e with
  | EvVolume _ => iter_volume cbs = true
  | EvFace _ => iter_face cbs = true
  | EvEdge _ => iter_edge cbs = true
  | EvCorner _ => iter_corner cbs = true
  end.

(** [reg cbs x]: every callback recorded in the part [x] of the state of a
    traversal is registered in [cbs], and the loop arguments in it were
    made for these callbacks.  Data without callbacks is always [reg]. *)
Class Reg (A : Type) := reg : callbacks -> A -> Prop.
Global Hint Mode Reg ! : typeclass_instances.

Global Instance reg_Z : Reg Z := fun _ _ => True.
Global Instance reg_bool : Reg bool := fun _ _ => True.
Global Instance reg_next_step : Reg next_step := fun _ _ => True.
Global Instance reg_volume_info : Reg p4est_iter_volume_info_t :=
  fun _ _ => True.
Global Instance reg_side_data : Reg side_data := fun _ _ => True.
Global Instance reg_side_quad : Reg side_quad := fun _ _ => True.
Global Instance reg_corner_side : Reg p4est_iter_corner_side_t :=
  fun _ _ => True.
Global Instance reg_edge_side : Reg p8est_iter_edge_side_t :=
  fun _ _ => True.
Global Instance reg_face_side : Reg p4est_iter_face_side_t :=
  fun _ _ => True.
Global Instance reg_corner_args : Reg p4est_iter_corner_args_t :=
  fun _ _ => True.
Global Instance reg_edge_args : Reg p8est_iter_edge_args_t :=
  fun _ _ => True.
Global Instance reg_face_args : Reg p4est_iter_face_args_t :=
  fun _ _ => True.
Global Instance reg_volume_args : Reg p4est_iter_volume_args_t :=
  fun _ _ => True.
Global Instance reg_pair {A B} `{Reg A, Reg B} : Reg (A * B) :=
  fun cbs p => reg cbs p.1 /\ reg cbs p.2.
Global Instance reg_list {A} `{Reg A} : Reg (list A) :=
  fun cbs => Forall (reg cbs).
Global Instance reg_option {A} `{Reg A} : Reg (option A) :=
  fun cbs o => match o with
               | Some a => reg cbs a
               | None => True
               end.
Global Instance reg_flow {S} `{Reg S} : Reg (flow S) :=
  fun cbs f => match f with
               | Next s => reg cbs s
               | Leave s => reg cbs s
               end.
Global Instance reg_la : Reg p4est_iter_loop_args_t :=
  fun cbs la => loop_corner la = iter_corner cbs.
Global Instance reg_event : Reg iter_event := event_registered.

(** Where a quadrant pointer points: into the quadrant array of a tree of
    this process, or into the ghost layer. *)
Definition ptr_local (p : quad_ptr) : Prop :=
  exists t, ptr_array p = TreeQuads t.

Definition ptr_ghost (p : quad_ptr) : Prop := ptr_array p = GhostQuads.

(** The flag [is_local] of a side record tells where its quadrant is. *)
Definition quad_accurate (q : side_quad) : Prop :=
  forall p, sq_quad q = Some p ->
    if sq_is_local q then ptr_local p else ptr_ghost p.

Definition data_accurate (d : side_data) : Prop :=
  match d with
  | SideUnset => True
  | SideFull q => quad_accurate q
  | SideHanging slots =>
      Forall (fun slot => match slot with
                          | Some q => quad_accurate q
                          | None => True
                          end) slots
  end.

(** A callback with accurate sides; the quadrant of a volume callback is
    local. *)
Definition event_accurate (e : iter_event) : Prop :=
  match e with
  | EvVolume info => forall p, vi_quad info = Some p -> ptr_local p
  | EvFace info => Forall (fun s => data_accurate (fs_is s)) (fi_sides info)
  | EvEdge sides => Forall (fun s => data_accurate (es_is s)) sides
  | EvCorner sides => Forall (fun s => data_accurate (cs_is s)) sides
  end.

(** The loop arguments keep local and ghost search areas apart: the arrays
    and the candidates at even positions are local, those at odd positions
    belong to the ghost layer. *)
Definition la_acc (la : p4est_iter_loop_args_t) : Prop :=
  (forall side arr,
     aget (quadrants la) (side * 2 + 1) = Some arr -> arr = GhostQuads)
  /\ (forall side arr,
        aget (quadrants la) (side * 2 + 0) = Some arr ->
        exists t, arr = TreeQuads t)
  /\ (forall side p,
        aget (test la) (side * 2 + 1) = Some (Some p) -> ptr_ghost p)
  /\ (forall side p,
        aget (test la) (side * 2 + 0) = Some (Some p) -> ptr_local p).

(** [acc x]: the side records in the part [x] of the state of a traversal
    are accurate.  Data without side records is always [acc]. *)
Class Acc (A : Type) := acc : A -> Prop.
Global Hint Mode Acc ! : typeclass_instances.

Global Instance acc_Z : Acc Z := fun _ => True.
Global Instance acc_bool : Acc bool := fun _ => True.
Global Instance acc_next_step : Acc next_step := fun _ => True.
Global Instance acc_volume_info : Acc p4est_iter_volume_info_t :=
  fun _ => True.
Global Instance acc_pair {A B} `{Acc A, Acc B} : Acc (A * B) :=
  fun p => acc p.1 /\ acc p.2.
Global Instance acc_list {A} `{Acc A} : Acc (list A) := Forall acc.
Global Instance acc_option {A} `{Acc A} : Acc (option A) :=
  fun o => match o with
           | Some a => acc a
           | None => True
           end.
Global Instance acc_flow {S} `{Acc S} : Acc (flow S) :=
  fun f => match f with
           | Next s => acc s
           | Leave s => acc s
           end.
Global Instance acc_la : Acc p4est_iter_loop_args_t := la_acc.
Global Instance acc_side_quad : Acc side_quad := quad_accurate.
Global Instance acc_side_data : Acc side_data := data_accurate.
Global Instance acc_corner_side : Acc p4est_iter_corner_side_t :=
  fun s => data_accurate (cs_is s).
Global Instance acc_edge_side : Acc p8est_iter_edge_side_t :=
  fun s => data_accurate (es_is s).
Global Instance acc_face_side : Acc p4est_iter_face_side_t :=
  fun s => data_accurate (fs_is s).
Global Instance acc_event : Acc iter_event := event_accurate.
Global Instance acc_corner_args : Acc p4est_iter_corner_args_t :=
  fun ca => acc (c_sides ca).
Global Instance acc_edge_args : Acc p8est_iter_edge_args_t :=
  fun ea => acc (e_sides ea) /\ acc (e_corner_args ea).
Global Instance acc_face_args : Acc p4est_iter_face_args_t :=
  fun fa => acc (fi_sides (f_info fa)) /\ acc (f_edge_args fa)
            /\ acc (f_corner_args fa).
Global Instance acc_volume_args : Acc p4est_iter_volume_args_t :=
  fun va => acc (v_face_args va) /\ acc (v_edge_args va)
            /\ acc (v_corner_args va).

(** The field [quadid] of a side record is the position of its quadrant in
    the array the quadrant lives in, as a [p4est_locidx_t]. *)
Definition quad_indexed (q : side_quad) : Prop :=
  forall p, sq_quad q = Some p -> sq_quadid q = to_locidx (ptr_index p).

Definition data_indexed (d : side_data) : Prop :=
  match d with
  | SideUnset => True
  | SideFull q => quad_indexed q
  | SideHanging slots =>
      Forall (fun slot => match slot with
                          | Some q => quad_indexed q
                          | None => True
                          end) slots
  end.

Definition event_indexed (e : iter_event) : Prop :=
  match e with
  | EvVolume info =>
      forall p, vi_quad info = Some p ->
                vi_quadid info = to_locidx (ptr_index p)
  | EvFace info => Forall (fun s => data_indexed (fs_is s)) (fi_sides info)
  | EvEdge sides => Forall (fun s => data_indexed (es_is s)) sides
  | EvCorner sides => Forall (fun s => data_indexed (cs_is s)) sides
  end.

(** The candidate of the search area [sidetype] is the first quadrant of
    the area: what [fetch_candidate] leaves in [test] and what the
    candidate loops read in [first_index] belong together. *)
Definition cell_indexed (la : p4est_iter_loop_args_t) (sidetype : Z)
  : Prop :=
  forall p f,
    aget (test la) sidetype = Some (Some p) ->
    aget (first_index la) sidetype = Some f -> f = ptr_index p.

(** Steps that leave the candidates and the starts of the search areas
    alone. *)
Definition same_tf (la la' : p4est_iter_loop_args_t) : Prop :=
  test la' = test la /\ first_index la' = first_index la.

(** [idx x]: the side records in the part [x] of the state of a traversal
    carry the positions of their quadrants.  The loop arguments hold no
    side records. *)
Class Idx (A : Type) := idx : A -> Prop.
Global Hint Mode Idx ! : typeclass_instances.

Global Instance idx_Z : Idx Z := fun _ => True.
Global Instance idx_bool : Idx bool := fun _ => True.
Global Instance idx_next_step : Idx next_step := fun _ => True.
Global Instance idx_volume_info : Idx p4est_iter_volume_info_t :=
  fun _ => True.
Global Instance idx_pair {A B} `{Idx A, Idx B} : Idx (A * B) :=
  fun p => idx p.1 /\ idx p.2.
Global Instance idx_list {A} `{Idx A} : Idx (list A) := Forall idx.
Global Instance idx_option {A} `{Idx A} : Idx (option A) :=
  fun o => match o with
           | Some a => idx a
           | None => True
           end.
Global Instance idx_flow {S} `{Idx S} : Idx (flow S) :=
  fun f => match f with
           | Next s => idx s
           | Leave s => idx s
           end.
Global Instance idx_la : Idx p4est_iter_loop_args_t := fun _ => True.
Global Instance idx_side_quad : Idx side_quad := quad_indexed.
Global Instance idx_side_data : Idx side_data := data_indexed.
Global Instance idx_corner_side : Idx p4est_iter_corner_side_t :=
  fun s => data_indexed (cs_is s).
Global Instance idx_edge_side : Idx p8est_iter_edge_side_t :=
  fun s => data_indexed (es_is s).
Global Instance idx_face_side : Idx p4est_iter_face_side_t :=
  fun s => data_indexed (fs_is s).
Global Instance idx_event : Idx iter_event := event_indexed.
Global Instance idx_corner_args : Idx p4est_iter_corner_args_t :=
  fun ca => idx (c_sides ca).
Global Instance idx_edge_args : Idx p8est_iter_edge_args_t :=
  fun ea => idx (e_sides ea) /\ idx (e_corner_args ea).
Global Instance idx_face_args : Idx p4est_iter_face_args_t :=
  fun fa => idx (fi_sides (f_info fa)) /\ idx (f_edge_args fa)
            /\ idx (f_corner_args fa).
Global Instance idx_volume_args : Idx p4est_iter_volume_args_t :=
  fun va => idx (v_face_args va) /\ idx (v_edge_args va)
            /\ idx (v_corner_args va).

(** What the candidate loops of [p4est_face_iterate] keep: the candidates
    and the starts of the search areas of [la0], and the positions in the
    records of the sides and of the callbacks made. *)
Definition face_cand_idx (la0 : p4est_iter_loop_args_t)
  (s : face_cand_state) : Prop :=
  same_tf la0 s.1.1.1 /\ idx s.1.1.2 /\ idx s.2.

(** The tree id of a side names the tree of its local quadrants: a record
    that is marked [is_local] points into the quadrant array of tree
    [t]. *)
Definition quad_in_tree (t : Z) (q : side_quad) : Prop :=
  forall p, sq_quad q = Some p -> sq_is_local q = true ->
            ptr_array p = TreeQuads t.

Definition data_in_tree (t : Z) (d : side_data) : Prop :=
  match d with
  | SideUnset => True
  | SideFull q => quad_in_tree t q
  | SideHanging slots =>
      Forall (fun slot => match slot with
                          | Some q => quad_in_tree t q
                          | None => True
                          end) slots
  end.

Definition event_in_tree (e : iter_event) : Prop :=
  match e with
  | EvVolume info =>
      forall p, vi_quad info = Some p ->
                ptr_array p = TreeQuads (vi_treeid info)
  | EvFace info =>
      Forall (fun s => data_in_tree (fs_treeid s) (fs_is s)) (fi_sides info)
  | EvEdge sides => Forall (fun s => data_in_tree (es_treeid s) (es_is s)) sides
  | EvCorner sides =>
      Forall (fun s => data_in_tree (cs_treeid s) (cs_is s)) sides
  end.

(** The candidate of the search area [sidetype] points into the array of
    that area. *)
Definition cell_array (la : p4est_iter_loop_args_t) (sidetype : Z) : Prop :=
  forall p, aget (test la) sidetype = Some (Some p) ->
            aget (quadrants la) sidetype = Some (ptr_array p).

(** A record or the data of a side that may be stored at position [side]
    when the local search areas are the arrays [qs]: its local quadrants
    are in the local array of [side]. *)
Definition quad_at (qs : carray quad_array) (side : Z) (q : side_quad)
  : Prop :=
  forall t, aget qs (side * 2 + 0) = Some (TreeQuads t) -> quad_in_tree t q.

Definition data_at (qs : carray quad_array) (side : Z) (d : side_data)
  : Prop :=
  forall t, aget qs (side * 2 + 0) = Some (TreeQuads t) -> data_in_tree t d.

(** The side [s] at position [side]: the local search area of the side is
    the quadrant array of the tree that [s] names. *)
Definition side_at {S} (treeid : S -> Z) (data : S -> side_data)
  (qs : carray quad_array) (side : Z) (s : S) : Prop :=
  aget qs (side * 2 + 0) = Some (TreeQuads (treeid s))
  /\ data_in_tree (treeid s) (data s).

Definition sides_at {S} (treeid : S -> Z) (data : S -> side_data)
  (qs : carray quad_array) (l : list S) : Prop :=
  forall i s, l !! i = Some s -> side_at treeid data qs (Z.of_nat i) s.

(** The cells that the volume of tree [t] needs: every local search area
    that the faces, edges and corners inside the volume read is the array
    of [t]. *)
Definition volume_cells `{Build} (qs : carray quad_array)
  (la : p4est_iter_loop_args_t) (t : Z) : Prop :=
  forall i,
    0 <= i ->
    (i < 2 \/ (P4_TO_P8 && loop_edge la = true /\ i < 4)
     \/ (loop_corner la = true /\ i < P4EST_CHILDREN)) ->
    aget qs (i * 2 + 0) = Some (TreeQuads t).

(** [tid qs x]: the part [x] of the state of a traversal whose local and
    ghost search areas are the arrays [qs] names the trees of its local
    quadrants. *)
Class Tid (A : Type) := tid : carray quad_array -> A -> Prop.
Global Hint Mode Tid ! : typeclass_instances.

Global Instance tid_Z : Tid Z := fun _ _ => True.
Global Instance tid_bool : Tid bool := fun _ _ => True.
Global Instance tid_next_step : Tid next_step := fun _ _ => True.
Global Instance tid_volume_info : Tid p4est_iter_volume_info_t :=
  fun qs info => aget qs 0 = Some (TreeQuads (vi_treeid info)).
Global Instance tid_pair {A B} `{Tid A, Tid B} : Tid (A * B) :=
  fun qs p => tid qs p.1 /\ tid qs p.2.
Global Instance tid_list {A} `{Tid A} : Tid (list A) :=
  fun qs => Forall (tid qs).
Global Instance tid_option {A} `{Tid A} : Tid (option A) :=
  fun qs o => match o with
              | Some a => tid qs a
              | None => True
              end.
Global Instance tid_flow {S} `{Tid S} : Tid (flow S) :=
  fun qs f => match f with
              | Next s => tid qs s
              | Leave s => tid qs s
              end.
Global Instance tid_la : Tid p4est_iter_loop_args_t :=
  fun qs la => quadrants la = qs.
Global Instance tid_corner_sides : Tid (list p4est_iter_corner_side_t) :=
  sides_at cs_treeid cs_is.
Global Instance tid_edge_sides : Tid (list p8est_iter_edge_side_t) :=
  sides_at es_treeid es_is.
Global Instance tid_face_sides : Tid (list p4est_iter_face_side_t) :=
  sides_at fs_treeid fs_is.
Global Instance tid_event : Tid iter_event := fun _ => event_in_tree.
Global Instance tid_corner_args : Tid p4est_iter_corner_args_t :=
  fun qs ca => tid qs (c_sides ca).
Global Instance tid_edge_args : Tid p8est_iter_edge_args_t :=
  fun qs ea => tid qs (e_sides ea) /\ tid qs (e_corner_args ea).
Global Instance tid_face_args : Tid p4est_iter_face_args_t :=
  fun qs fa => tid qs (fi_sides (f_info fa)) /\ tid qs (f_edge_args fa)
               /\ tid qs (f_corner_args fa).
Global Instance tid_volume_args : Tid p4est_iter_volume_args_t :=
  fun qs va => tid qs (v_face_args va) /\ tid qs (v_edge_args va)
               /\ tid qs (v_corner_args va) /\ tid qs (v_info va).

(** * Properties *)

(** ** Loops and ranges *)

Lemma zrange_nil (lo hi : Z) : hi <= lo -> zrange lo hi = [].
Proof.
  intros Hle. unfold zrange.
  replace (Z.to_nat (hi - lo)) with 0%nat by lia. reflexivity.
Qed.

Lemma zrange_cons (lo hi : Z) :
  lo < hi -> zrange lo hi = lo :: zrange (lo + 1) hi.
Proof.
  intros Hlt. unfold zrange.
  replace (Z.to_nat (hi - lo)) with (S (Z.to_nat (hi - (lo + 1)))) by lia.
  simpl. f_equal; [lia |].
  rewrite <- seq_shift, map_map. apply map_ext. intros k. lia.
Qed.

Lemma zrange_length (lo hi : Z) : length (zrange lo hi) = Z.to_nat (hi - lo).
Proof. unfold zrange. by rewrite length_map, length_seq. Qed.

Lemma elem_of_zrange (x lo hi : Z) : x ∈ zrange lo hi <-> lo <= x < hi.
Proof.
  unfold zrange. rewrite list_elem_of_fmap. split.
  - intros (k & -> & Hk). apply elem_of_seq in Hk. lia.
  - intros Hx. exists (Z.to_nat (x - lo)). split; [lia |].
    apply elem_of_seq. lia.
Qed.

Lemma zrange_app (lo mid hi : Z) :
  lo <= mid <= hi -> zrange lo hi = zrange lo mid ++ zrange mid hi.
Proof.
  intros Hm. unfold zrange.
  replace (Z.to_nat (hi - lo))
    with (Z.to_nat (mid - lo) + Z.to_nat (hi - mid))%nat by lia.
  rewrite seq_app, map_app. f_equal. simpl.
  rewrite <- (Nat.add_0_r (Z.to_nat (mid - lo))) at 1.
  rewrite <- fmap_add_seq, map_map.
  apply map_ext. intros k. lia.
Qed.

Lemma zlookup_Some {A} (l : list A) (i : Z) (x : A) :
  zlookup l i = Some x <-> 0 <= i /\ l !! Z.to_nat i = Some x.
Proof.
  unfold zlookup. case_decide; split; try tauto; try done; intros [? _]; lia.
Qed.

Lemma zlookup_lt {A} (l : list A) (i : Z) (x : A) :
  zlookup l i = Some x -> 0 <= i < Z.of_nat (length l).
Proof.
  intros [? Hl]%zlookup_Some. apply lookup_lt_Some in Hl. lia.
Qed.

Lemma zlookup_is_Some {A} (l : list A) (i : Z) :
  0 <= i < Z.of_nat (length l) -> is_Some (zlookup l i).
Proof.
  intros Hi. unfold zlookup. rewrite decide_True by lia.
  apply lookup_lt_is_Some. lia.
Qed.

Lemma zlookup_None_ge {A} (l : list A) (i : Z) :
  Z.of_nat (length l) <= i -> zlookup l i = None.
Proof.
  intros Hi. unfold zlookup. case_decide; [| done].
  apply lookup_ge_None. lia.
Qed.

Lemma for_each_app {S I} (body : I -> S -> option S) (l1 l2 : list I) (s : S) :
  for_each body (l1 ++ l2) s = for_each body l1 s ≫= for_each body l2.
Proof.
  revert s. induction l1 as [| i l1 IH]; intros s; simpl; [done |].
  destruct (body i s) as [s' |]; simpl; [apply IH | done].
Qed.

(** An invariant of the loop body is an invariant of the loop. *)
Lemma for_each_inv {S I} (P : S -> Prop) (body : I -> S -> option S)
  (l : list I) (s s' : S) :
  (forall i a b, i ∈ l -> body i a = Some b -> P a -> P b) ->
  for_each body l s = Some s' -> P s -> P s'.
Proof.
  revert s. induction l as [| i l IH]; intros s Hb Hrun HP; simpl in Hrun.
  - by simplify_eq.
  - destruct (body i s) as [a |] eqn:Hi; simpl in Hrun; [| done].
    eapply IH; [| done |].
    + intros j x y Hj. apply Hb. by right.
    + eapply Hb; [by left | done | done].
Qed.

(** ** The fast path of [p4est_iterate] (C1) *)

Lemma simple_loop (p4est : p4est_t) (l : list Z) (tr : list iter_event) :
  (forall t, t ∈ l -> 0 <= t < Z.of_nat (length (trees p4est))) ->
  for_each (fun t tr =>
     quadrants ← zlookup (trees p4est) t;
     let n_quads := Z.of_nat (length quadrants) in
     Some (tr ++ map (fun si =>
                        EvVolume {| vi_treeid := t;
                                    vi_quad := Some (QPtr (TreeQuads t) si);
                                    vi_quadid := to_locidx si |})
                   (zrange 0 n_quads))) l tr
  = Some (tr ++ flat_map (fun t =>
            map (volume_visit t)
              (zrange 0 (Z.of_nat (length (default [] (zlookup (trees p4est) t))))))
            l).
Proof.
  revert tr. induction l as [| t l IH]; intros tr Hin; simpl.
  - by rewrite app_nil_r.
  - destruct (zlookup_is_Some (trees p4est) t) as [qs Hqs].
    { apply Hin. by left. }
    rewrite Hqs. simpl. rewrite IH.
    + by rewrite <- app_assoc.
    + intros t' Ht'. apply Hin. by right.
Qed.

Lemma visits_outside (p4est : p4est_t) (l : list Z) :
  valid_local_trees p4est ->
  (forall t, t ∈ l ->
     ~ (first_local_tree p4est <= t <= last_local_tree p4est)) ->
  flat_map (fun t =>
     map (volume_visit t)
       (zrange 0 (Z.of_nat (length (default [] (zlookup (trees p4est) t))))))
    l = [].
Proof.
  intros (Hout & _ & _) Hl. induction l as [| t l IH]; simpl; [done |].
  rewrite IH by (intros t' Ht'; apply Hl; by right).
  rewrite app_nil_r.
  destruct (zlookup (trees p4est) t) as [qs |] eqn:Hqs; simpl; [| done].
  destruct qs as [| q qs]; [done |].
  exfalso. apply (Hl t); [by left |]. by eapply Hout.
Qed.

(** C1.  With only a volume callback, [p4est_iterate] makes exactly one
    volume callback for every local quadrant of a valid forest, in
    increasing tree id and, within a tree, in the stored order of the
    quadrants; the search is not entered: the result needs no fuel and
    depends neither on the ghost layer nor on the connectivity. *)
Theorem volume_only_visits_each_quadrant_once `{Bits} (fuel : nat)
  (p4est : p4est_t) (Ghost_layer : option (list p4est_quadrant_t))
  (cbs : callbacks) :
  valid_local_trees p4est ->
  only_volume cbs ->
  p4est_iterate fuel p4est Ghost_layer cbs
  = Some (local_quadrant_visits p4est).
Proof.
  intros Hvalid (Hv & Hf & Hc & He).
  assert (Hfast : negb (iter_face cbs) && negb (iter_corner cbs)
                  && negb (P4_TO_P8 && iter_edge cbs) = true).
  { rewrite Hf, Hc. simpl. destruct P4_TO_P8; [by rewrite He | done]. }
  unfold p4est_iterate. rewrite Hfast, Hv. simpl.
  unfold local_quadrant_visits.
  set (n := Z.of_nat (length (trees p4est))).
  destruct Hvalid as (Hout & Hin & Hneg).
  case_decide as Hfirst.
  - rewrite visits_outside; [done | done |].
    intros t _. specialize (Hneg Hfirst). lia.
  - specialize (Hin ltac:(lia)).
    unfold p4est_volume_iterate_simple.
    destruct (decide (last_local_tree p4est + 1 <= first_local_tree p4est))
      as [Hempty | Hne].
    + rewrite zrange_nil by lia. simpl.
      rewrite visits_outside; [done | done |]. intros t _. lia.
    + rewrite simple_loop.
      2:{ intros t Ht%elem_of_zrange. fold n. lia. }
      simpl. f_equal.
      rewrite (zrange_app 0 (first_local_tree p4est) n) by lia.
      rewrite (zrange_app (first_local_tree p4est)
                 (last_local_tree p4est + 1) n) by lia.
      rewrite !flat_map_app.
      rewrite (visits_outside p4est (zrange 0 _)); [| done |].
      2:{ intros t Ht%elem_of_zrange. lia. }
      rewrite (visits_outside p4est (zrange (last_local_tree p4est + 1) _));
        [| done |].
      2:{ intros t Ht%elem_of_zrange. lia. }
      by rewrite app_nil_r.
Qed.

Lemma ex_forest1_valid : valid_local_trees ex_forest1.
Proof.
  split; [| split; simpl; lia].
  intros t qs [Ht Hl]%zlookup_Some _. simpl in *.
  apply lookup_lt_Some in Hl. simpl in Hl. lia.
Qed.

Lemma volume_only_visits_each_quadrant_once_witness :
  valid_local_trees ex_forest1
  /\ @only_volume ex_build ex_volume_only
  /\ @p4est_iterate ex_build ex_bits 0 ex_forest1 None ex_volume_only
     = Some (map (volume_visit 0) [0; 1; 2; 3]).
Proof.
  split; [exact ex_forest1_valid |].
  split; [by repeat split |].
  apply (@volume_only_visits_each_quadrant_once ex_build ex_bits 0 ex_forest1
           None ex_volume_only).
  - exact ex_forest1_valid.
  - by repeat split.
Defined.

(** ** The hanging-code decoder (C7) *)

(** Claim C7 as stated does not hold: decoding the zero code leaves the
    output arrays as the caller passed them, so they hold [-1] only if the
    caller put it there. *)
Lemma decode_zero_reports_nothing :
  ~ (forall hanging_face hanging_edge : list Z,
       length hanging_face = 6%nat -> length hanging_edge = 12%nat ->
       @p6est_lnodes_decode ex_lnodes 0 hanging_face hanging_edge
       = Some (0, replicate 6 (-1), replicate 12 (-1))).
Proof.
  intros Hclaim.
  specialize (Hclaim (replicate 6 0) (replicate 12 0) eq_refl eq_refl).
  vm_compute in Hclaim. discriminate Hclaim.
Qed.

(** C7 (amended).  Decoding the zero code returns 0 and does not touch the
    two output arrays: the return value alone says that no face and no edge
    of the cell is hanging. *)
Theorem decode_zero_returns_false_untouched `{LnodesEnv}
  (hanging_face hanging_edge : list Z) :
  p6est_lnodes_decode 0 hanging_face hanging_edge
  = Some (0, hanging_face, hanging_edge).
Proof. reflexivity. Qed.

(** The return value tells the two cases apart: it is 0 exactly for the
    zero code. *)
Lemma decode_return_value `{LnodesEnv} (face_code : Z)
  (hanging_face hanging_edge : list Z) (r : Z) (hf he : list Z) :
  p6est_lnodes_decode face_code hanging_face hanging_edge = Some (r, hf, he) ->
  (r = 0 <-> face_code = 0) /\ (r = 1 <-> face_code <> 0).
Proof.
  unfold p6est_lnodes_decode. case_decide as Hc; intros Hd.
  - apply bind_Some in Hd as ([[? ?] ?] & _ & Hd).
    apply bind_Some in Hd as ([? ?] & _ & Hd).
    simplify_eq. split; split; intros; try done; lia.
  - simplify_eq. split; split; intros; try done; lia.
Qed.

(** ** The tier rings: capacity (C9) *)

(** Claim C9 as stated does not hold: in a 2D forest with a vertex shared
    by five trees, traversed with a corner callback on one process, up to
    five sides meet at an entity ([max_corner_size], which sizes the index
    arrays), but every ring holds four tiers. *)
Lemma ring_capacity_is_not_fan_in :
  @loop_args_sizes ex_build (ex_brick 1 [5]) false true = Some (10, 5)
  /\ Forall (fun ring => length (ring_tiers ring) = 4%nat)
       (@p4est_iter_tier_rings_new ex_build 1)
  /\ length (@p4est_iter_tier_rings_new ex_build 1) = 29%nat.
Proof.
  split; [reflexivity |]. split; [| reflexivity].
  by apply Forall_replicate.
Qed.

(** C9 (amended).  There is one ring for each of the [P4EST_QMAXLEVEL]
    depths; every ring starts empty and has [P4EST_CHILDREN] tiers, the
    number of sides that meet at a corner of a regular mesh whatever the
    fan-in of the forest at hand, and twice as many exactly when the forest
    is distributed over more than one process. *)
Theorem tier_rings_capacity `{Build} (num_procs : Z) :
  length (p4est_iter_tier_rings_new num_procs) = Z.to_nat P4EST_QMAXLEVEL
  /\ Forall (fun ring =>
       ring_next ring = 0
       /\ Forall (fun tier => tier_key tier = None) (ring_tiers ring)
       /\ Z.of_nat (length (ring_tiers ring))
          = (if decide (num_procs = 1) then P4EST_CHILDREN
             else 2 * P4EST_CHILDREN))
       (p4est_iter_tier_rings_new num_procs).
Proof.
  unfold p4est_iter_tier_rings_new. split; [apply length_replicate |].
  apply Forall_replicate. simpl. split; [done |].
  split; [by apply Forall_replicate |].
  rewrite length_replicate. unfold tier_ring_max, P4EST_CHILDREN.
  case_decide; destruct P4_TO_P8; lia.
Qed.

(** ** The tier rings: caching against recomputation (C5) *)

Lemma zinsert_Some {A} (l : list A) (i : Z) (v : A) :
  0 <= i < Z.of_nat (length l) ->
  zinsert l i v = Some (<[Z.to_nat i := v]> l).
Proof. intros Hi. unfold zinsert. by rewrite decide_True. Qed.

Lemma zinsert_inv {A} (l l' : list A) (i : Z) (v : A) :
  zinsert l i v = Some l' ->
  0 <= i < Z.of_nat (length l) /\ l' = <[Z.to_nat i := v]> l.
Proof. unfold zinsert. case_decide; [| done]. by intros [= <-]. Qed.

Lemma zlookup_zinsert {A} (l l' : list A) (i j : Z) (v : A) :
  zinsert l i v = Some l' ->
  zlookup l' j = if decide (i = j) then Some v else zlookup l j.
Proof.
  intros [Hi ->]%zinsert_inv. unfold zlookup.
  destruct (decide (i = j)) as [<- | Hij].
  - rewrite decide_True by lia. apply list_lookup_insert_eq. lia.
  - case_decide; [| done]. apply list_lookup_insert_ne. lia.
Qed.

Lemma zinsert_length {A} (l l' : list A) (i : Z) (v : A) :
  zinsert l i v = Some l' -> length l' = length l.
Proof. intros [_ ->]%zinsert_inv. apply length_insert. Qed.

Lemma elem_of_insert_inv {A} (l : list A) (i : nat) (x y : A) :
  y ∈ <[i:=x]> l -> y = x \/ y ∈ l.
Proof.
  intros (j & Hj)%list_elem_of_lookup_1.
  destruct (decide (i = j)) as [<- | Hij].
  - destruct (decide (i < length l)%nat) as [Hi | Hi].
    + rewrite list_lookup_insert_eq in Hj by done. left. congruence.
    + rewrite list_insert_ge in Hj by lia. right.
      by eapply list_elem_of_lookup_2.
  - rewrite list_lookup_insert_ne in Hj by done. right.
    by eapply list_elem_of_lookup_2.
Qed.

(** What the scan of a ring reports. *)
Lemma tier_scan_unused (tiers : list p4est_iter_tier_t) (i j : Z)
  (q : quad_ptr) :
  tier_scan tiers i q = ScanUnused j ->
  i <= j < i + Z.of_nat (length tiers).
Proof.
  revert i. induction tiers as [| tier tiers IH]; intros i; simpl; [done |].
  destruct (tier_key tier) as [key |].
  - case_decide; [done |]. intros Hs%IH. lia.
  - intros [= <-]. lia.
Qed.

Lemma tier_scan_hit (tiers : list p4est_iter_tier_t) (i j : Z)
  (q : quad_ptr) (offsets : list Z) :
  tier_scan tiers i q = ScanHit j offsets ->
  exists tier, tier ∈ tiers /\ tier_key tier = Some q
               /\ tier_array tier = offsets.
Proof.
  revert i. induction tiers as [| tier tiers IH]; intros i; simpl; [done |].
  destruct (tier_key tier) as [key |] eqn:Hkey; [| done].
  case_decide as Hq.
  - intros [= <- <-]. exists tier. subst. split; [by left | done].
  - intros (t & Ht & Hk)%IH. exists t. split; [by right | done].
Qed.

Section tier_cache.
Context `{Bits}.
Variable range_of : Z -> quad_ptr -> list p4est_quadrant_t * Z.

(** The state of the rings after the requests [seen]: in every ring the
    write position is inside the ring, and every filled tier holds what
    [p4est_iter_tier_update] computes for the range of its key, which was
    requested before. *)
Definition rings_memoize (rings : list p4est_iter_tier_ring_t)
  (seen : list (Z * quad_ptr)) : Prop :=
  forall level ring, zlookup rings level = Some ring ->
    0 <= ring_next ring < Z.of_nat (length (ring_tiers ring))
    /\ forall tier key, tier ∈ ring_tiers ring -> tier_key tier = Some key ->
         tier_array tier = direct_update range_of (level, key)
         /\ (level, key) ∈ seen.

Lemma rings_new_memoize (num_procs : Z) :
  rings_memoize (p4est_iter_tier_rings_new num_procs) [].
Proof.
  intros level ring [_ Hl]%zlookup_Some.
  unfold p4est_iter_tier_rings_new in Hl.
  apply lookup_replicate in Hl as [-> _]. simpl.
  rewrite length_replicate. split.
  - unfold tier_ring_max, P4EST_CHILDREN.
    case_decide; destruct P4_TO_P8; lia.
  - intros tier key Ht Hk. apply elem_of_replicate in Ht as [-> _]. done.
Qed.

(** Storing the offsets of a new request keeps the rings sound. *)
Lemma ring_store_memoize (rings : list p4est_iter_tier_ring_t)
  (seen : list (Z * quad_ptr)) (level i : Z) (q : quad_ptr)
  (ring : p4est_iter_tier_ring_t) :
  rings_memoize rings seen ->
  zlookup rings level = Some ring ->
  0 <= i < Z.of_nat (length (ring_tiers ring)) ->
  exists ring' rings',
    ring_store ring i q (direct_update range_of (level, q))
      (Z.of_nat (length (ring_tiers ring))) = Some ring'
    /\ zinsert rings level ring' = Some rings'
    /\ rings_memoize rings' ((level, q) :: seen).
Proof.
  intros Hinv Hring Hi.
  destruct (Hinv level ring Hring) as [Hnext Htiers].
  unfold ring_store. rewrite (zinsert_Some _ i) by done. simpl.
  rewrite option_guard_True by lia.
  eexists _, _. split; [done |].
  pose proof (zlookup_lt _ _ _ Hring) as Hlevel.
  rewrite zinsert_Some by done. split; [done |].
  intros level' ring' Hl'.
  erewrite (zlookup_zinsert rings _ level level') in Hl'
    by (by apply zinsert_Some).
  case_decide as Hlv.
  - simplify_eq. simpl. rewrite length_insert. split.
    + apply Z.rem_bound_pos; lia.
    + intros tier key Ht Hk.
      apply elem_of_insert_inv in Ht as [-> | Ht].
      * simpl in Hk. simplify_eq. split; [done | by left].
      * destruct (Htiers tier key Ht Hk). split; [done | by right].
  - destruct (Hinv level' ring' Hl') as [Hn' Ht']. split; [done |].
    intros tier key Ht Hk. destruct (Ht' tier key Ht Hk).
    split; [done | by right].
Qed.

(** One request: the offsets are those of a direct update, and they come
    without a search only if the same request was made before. *)
Lemma tier_insert_memoize (rings : list p4est_iter_tier_ring_t)
  (seen : list (Z * quad_ptr)) (level : Z) (q : quad_ptr) :
  rings_memoize rings seen -> 0 <= level ->
  exists r,
    p4est_iter_tier_insert (range_of level q).1 level (range_of level q).2
      rings (Some q) = Some r
    /\ next_tier r = direct_update range_of (level, q)
    /\ rings_memoize (rings_after r) ((level, q) :: seen)
    /\ (searched r = false -> (level, q) ∈ seen /\ rings_after r = rings).
Proof.
  intros Hinv Hlevel. unfold p4est_iter_tier_insert.
  assert (Hmono : rings_memoize rings ((level, q) :: seen)).
  { intros l r Hl. destruct (Hinv l r Hl) as [Hn Ht]. split; [done |].
    intros tier key Hin Hk. destruct (Ht tier key Hin Hk).
    split; [done | by right]. }
  case_decide as Hbig.
  { eexists. split; [done |]. simpl.
    split; [reflexivity |]. split; [done |]. intros; discriminate. }
  destruct (zlookup_is_Some rings level) as [ring Hring]; [lia |].
  rewrite Hring. simpl.
  change (p4est_iter_tier_update (range_of level q).1 level
            (range_of level q).2)
    with (direct_update range_of (level, q)).
  destruct (Hinv level ring Hring) as [Hnext Htiers].
  destruct (tier_scan (ring_tiers ring) 0 q) as [i | i offsets |] eqn:Hscan.
  - apply tier_scan_unused in Hscan.
    destruct (ring_store_memoize rings seen level i q ring)
      as (ring' & rings' & Hst & Hins & Hinv'); [done | done | lia |].
    rewrite Hst. simpl. rewrite Hins. simpl. eexists. split; [done |]. simpl.
    split; [reflexivity |]. split; [done |]. intros; discriminate.
  - apply tier_scan_hit in Hscan as (tier & Ht & Hk & <-).
    destruct (Htiers tier q Ht Hk) as [Harr Hseen].
    eexists. split; [done |]. simpl.
    split; [done |]. split; [done |]. by intros _.
  - destruct (ring_store_memoize rings seen level (ring_next ring) q ring)
      as (ring' & rings' & Hst & Hins & Hinv'); [done | done | lia |].
    rewrite Hst. simpl. rewrite Hins. simpl. eexists. split; [done |]. simpl.
    split; [reflexivity |]. split; [done |]. intros; discriminate.
Qed.

Lemma tier_requests_memoize (reqs : list (Z * quad_ptr))
  (rings : list p4est_iter_tier_ring_t) (seen : list (Z * quad_ptr)) :
  rings_memoize rings seen ->
  Forall (fun req => 0 <= req.1) reqs ->
  exists outs,
    tier_requests range_of reqs rings = Some outs
    /\ map next_tier outs = map (direct_update range_of) reqs
    /\ forall i out req, outs !! i = Some out -> reqs !! i = Some req ->
         searched out = false ->
         req ∈ seen \/ exists j, (j < i)%nat /\ reqs !! j = Some req.
Proof.
  revert rings seen.
  induction reqs as [| [level q] reqs IH]; intros rings seen Hinv Hlev.
  - exists []. by repeat split.
  - apply Forall_cons in Hlev as [Hl Hlev]. simpl in Hl.
    destruct (tier_insert_memoize rings seen level q Hinv Hl)
      as (r & Hr & Hnext & Hinv' & Hhit).
    destruct (IH (rings_after r) ((level, q) :: seen) Hinv' Hlev)
      as (outs & Houts & Hmap & Hsearch).
    exists (r :: outs). split.
    { change (tier_requests range_of ((level, q) :: reqs) rings)
        with (r ← p4est_iter_tier_insert (range_of level q).1 level
                    (range_of level q).2 rings (Some q);
              rs ← tier_requests range_of reqs (rings_after r);
              Some (r :: rs)).
      rewrite Hr. simpl. by rewrite Houts. }
    split; [simpl; by rewrite Hnext, Hmap |].
    intros [| i] out req Hout Hreq Hs; simpl in *; simplify_eq.
    + left. by apply Hhit.
    + destruct (Hsearch i out req Hout Hreq Hs) as [Hin | (j & Hj & Hrj)].
      * apply elem_of_cons in Hin as [-> | Hin]; [| by left].
        right. exists 0%nat. split; [lia | done].
      * right. exists (S j). split; [lia | done].
Qed.

End tier_cache.

(** What the scan of a ring has seen when it stops. *)
Lemma tier_scan_seen (tiers : list p4est_iter_tier_t) (i0 : Z)
  (q : quad_ptr) :
  match tier_scan tiers i0 q with
  | ScanHit i offsets =>
      exists tier, tier ∈ tiers /\ tier_key tier = Some q
  | ScanUnused i =>
      i0 <= i
      /\ (exists tier, tiers !! Z.to_nat (i - i0) = Some tier
                       /\ tier_key tier = None)
      /\ forall (p : nat) tier,
           (Z.of_nat p < i - i0) -> tiers !! p = Some tier ->
           exists key, tier_key tier = Some key /\ key <> q
  | ScanMiss =>
      forall tier, tier ∈ tiers ->
        exists key, tier_key tier = Some key /\ key <> q
  end.
Proof.
  revert i0. induction tiers as [| tier tiers IH]; intros i0; simpl.
  - intros tier Ht. by apply elem_of_nil in Ht.
  - destruct (tier_key tier) as [key |] eqn:Hkey.
    + case_decide as Hq.
      * exists tier. subst. split; [by left | done].
      * specialize (IH (i0 + 1)).
        destruct (tier_scan tiers (i0 + 1) q) as [i | i offsets |].
        -- destruct IH as (Hi & (t & Ht & Hk) & Hbefore).
           split; [lia |]. split.
           ++ exists t. split; [| done].
              replace (Z.to_nat (i - i0)) with (S (Z.to_nat (i - (i0 + 1))))
                by lia.
              done.
           ++ intros [| p] t' Hp Ht'; simpl in Ht'.
              ** simplify_eq. exists key. split; [done | congruence].
              ** eapply (Hbefore p); [lia | done].
        -- destruct IH as (t & Ht & Hk). exists t.
           split; [by right | done].
        -- intros t Ht. apply elem_of_cons in Ht as [-> | Ht].
           ++ exists key. split; [done | congruence].
           ++ by apply IH.
    + split; [lia |]. split.
      * exists tier. rewrite Z.sub_diag. done.
      * intros p t Hp. lia.
Qed.

(** The position in [fifo] of the key of tier [i]. *)
Lemma ring_fifo_unused (ring : p4est_iter_tier_ring_t)
  (fifo : list quad_ptr) (i : Z) (tier : p4est_iter_tier_t) :
  ring_fifo ring fifo ->
  zlookup (ring_tiers ring) i = Some tier ->
  tier_key tier = None ->
  Z.of_nat (length fifo) < Z.of_nat (length (ring_tiers ring))
  /\ Z.of_nat (length fifo) <= i.
Proof.
  intros (Hk & Hnext & Hpart & Hkeys) Hi Hnone.
  pose proof (zlookup_lt _ _ _ Hi) as Hlt.
  rewrite (Hkeys i tier Hi) in Hnone.
  apply lookup_ge_None in Hnone.
  set (limit := Z.of_nat (length (ring_tiers ring))) in *.
  pose proof (Z.mod_pos_bound (ring_next ring - 1 - i) limit) as Hm.
  assert (Z.of_nat (length fifo) < limit) as Hpartial by lia.
  split; [done |]. specialize (Hpart Hpartial).
  destruct (decide (Z.of_nat (length fifo) <= i)) as [? | Hsmall]; [done |].
  exfalso. rewrite Z.mod_small in Hnone by lia. lia.
Qed.

Lemma ring_fifo_holds (ring : p4est_iter_tier_ring_t)
  (fifo : list quad_ptr) (q : quad_ptr) :
  ring_fifo ring fifo ->
  q ∈ fifo <->
  exists tier, tier ∈ ring_tiers ring /\ tier_key tier = Some q.
Proof.
  intros (Hk & Hnext & Hpart & Hkeys).
  set (limit := Z.of_nat (length (ring_tiers ring))) in *.
  split.
  - intros (j & Hj)%list_elem_of_lookup_1.
    apply lookup_lt_Some in Hj as Hjlt.
    set (i := (ring_next ring - 1 - Z.of_nat j) `mod` limit).
    pose proof (Z.mod_pos_bound (ring_next ring - 1 - Z.of_nat j) limit)
      as Hi.
    destruct (zlookup_is_Some (ring_tiers ring) i) as [tier Ht];
      [fold limit; lia |].
    exists tier. split.
    { apply zlookup_Some in Ht as [_ Ht]. by eapply list_elem_of_lookup_2. }
    rewrite (Hkeys i tier Ht), <- Hj. f_equal.
    assert ((ring_next ring - 1 - i) `mod` limit = Z.of_nat j) as ->;
      [| lia].
    unfold i. rewrite Zminus_mod_idemp_r.
    replace (ring_next ring - 1 - (ring_next ring - 1 - Z.of_nat j))
      with (Z.of_nat j) by lia.
    apply Z.mod_small. lia.
  - intros (tier & (i & Hi)%list_elem_of_lookup_1 & Hkey).
    assert (zlookup (ring_tiers ring) (Z.of_nat i) = Some tier) as Hz.
    { apply zlookup_Some. split; [lia |]. by rewrite Nat2Z.id. }
    rewrite (Hkeys _ _ Hz) in Hkey. by eapply list_elem_of_lookup_2.
Qed.

Lemma ring_back_position (limit next i : Z) :
  0 <= next < limit -> 0 <= i < limit -> i <> next ->
  ((next + 1) `rem` limit - 1 - i) `mod` limit
  = (next - 1 - i) `mod` limit + 1
  /\ (next - 1 - i) `mod` limit + 1 < limit.
Proof.
  intros Hn Hi Hne. rewrite Z.rem_mod_nonneg by lia.
  destruct (decide (i < next)) as [Hlt | Hge].
  - rewrite (Z.mod_small (next - 1 - i)) by lia.
    destruct (decide (next + 1 = limit)) as [Hw | Hw].
    + rewrite Hw, Z_mod_same_full.
      rewrite <- (Z_mod_plus_full (0 - 1 - i) 1 limit).
      rewrite Z.mod_small by lia. lia.
    + rewrite (Z.mod_small (next + 1)) by lia.
      rewrite Z.mod_small by lia. lia.
  - rewrite <- (Z_mod_plus_full (next - 1 - i) 1 limit).
    rewrite (Z.mod_small (next - 1 - i + 1 * limit)) by lia.
    rewrite (Z.mod_small (next + 1)) by lia.
    rewrite <- (Z_mod_plus_full (next + 1 - 1 - i) 1 limit).
    rewrite Z.mod_small by lia. lia.
Qed.

Lemma ring_front_position (limit next : Z) :
  0 <= next < limit ->
  ((next + 1) `rem` limit - 1 - next) `mod` limit = 0.
Proof.
  intros Hn. rewrite Z.rem_mod_nonneg by lia.
  destruct (decide (next + 1 = limit)) as [Hw | Hw].
  - rewrite Hw, Z_mod_same_full.
    replace (0 - 1 - next) with (-1 * limit) by lia.
    apply Z_mod_mult.
  - rewrite (Z.mod_small (next + 1)) by lia.
    replace (next + 1 - 1 - next) with 0 by lia. apply Z.mod_0_l. lia.
Qed.

(** Storing a key at the write position puts it in front of the keys held
    and drops the oldest one from a full ring. *)
Lemma ring_store_fifo (ring ring' : p4est_iter_tier_ring_t)
  (fifo : list quad_ptr) (q : quad_ptr) (offsets : list Z) :
  ring_fifo ring fifo ->
  ring_store ring (ring_next ring) q offsets
    (Z.of_nat (length (ring_tiers ring))) = Some ring' ->
  length (ring_tiers ring') = length (ring_tiers ring)
  /\ ring_fifo ring'
       (take (length (ring_tiers ring)) (q :: fifo)).
Proof.
  intros (Hk & Hnext & Hpart & Hkeys) Hstore. unfold ring_store in Hstore.
  apply bind_Some in Hstore as (tiers & Htiers & Hstore).
  apply bind_Some in Hstore as (? & _ & Hstore). simplify_eq.
  pose proof (zinsert_length _ _ _ _ Htiers) as Hlen.
  split; [done |]. unfold ring_fifo. simpl. rewrite Hlen.
  set (limit := Z.of_nat (length (ring_tiers ring))) in *.
  rewrite length_take. simpl.
  split; [lia |].
  split; [apply Z.rem_bound_pos; lia |].
  split.
  { intros Hsmall.
    assert (Z.of_nat (length fifo) + 1 < limit) as Hroom by lia.
    rewrite Hpart by lia. rewrite Z.rem_small by lia. lia. }
  intros i tier Hi.
  rewrite (zlookup_zinsert _ _ _ i _ Htiers) in Hi.
  case_decide as Hpos.
  - simplify_eq. simpl. rewrite ring_front_position by done.
    rewrite lookup_take_lt by lia. done.
  - pose proof (zlookup_lt _ _ _ Hi) as Hilt. fold limit in Hilt.
    destruct (ring_back_position limit (ring_next ring) i) as [-> Hback];
      [done | done | congruence |].
    pose proof (Z.mod_pos_bound (ring_next ring - 1 - i) limit) as Hm.
    rewrite lookup_take_lt by lia.
    rewrite Z2Nat.inj_add by lia. rewrite Nat.add_1_r. simpl.
    by apply Hkeys.
Qed.

(** One request against rings that behave as the reference caches. *)
Lemma tier_insert_fifo `{Bits} (capacity : Z)
  (rings : list p4est_iter_tier_ring_t) (cache : Z -> list quad_ptr)
  (view : list p4est_quadrant_t) (level shift : Z) (q : quad_ptr)
  (r : tier_insert_result) :
  rings_fifo capacity rings cache -> 0 <= level ->
  p4est_iter_tier_insert view level shift rings (Some q) = Some r ->
  length (rings_after r) = length rings
  /\ if decide (level < Z.of_nat (length rings)) then
       if decide (q ∈ cache level)
       then searched r = false /\ rings_after r = rings
       else searched r = true
            /\ rings_fifo capacity (rings_after r)
                 (fifo_insert capacity level q cache)
     else searched r = true /\ rings_after r = rings.
Proof.
  intros Hinv Hlevel Hrun. unfold p4est_iter_tier_insert in Hrun.
  case_decide as Hbig.
  { simplify_eq. simpl. split; [done |]. rewrite decide_False by lia. done. }
  rewrite decide_True by lia.
  apply bind_Some in Hrun as (ring & Hring & Hrun).
  destruct (Hinv level ring Hring) as [Hcap Hfifo].
  pose proof (ring_fifo_holds ring (cache level) q Hfifo) as Hholds.
  pose proof (tier_scan_seen (ring_tiers ring) 0 q) as Hscan.
  assert (forall ring' rings',
            ring_store ring (ring_next ring) q
              (p4est_iter_tier_update view level shift)
              (Z.of_nat (length (ring_tiers ring))) = Some ring' ->
            zinsert rings level ring' = Some rings' ->
            rings_fifo capacity rings' (fifo_insert capacity level q cache))
    as Hstore.
  { intros ring' rings' Hst Hins.
    destruct (ring_store_fifo _ _ _ _ _ Hfifo Hst) as [Hlen Hfifo'].
    intros level' ring'' Hl'.
    rewrite (zlookup_zinsert _ _ _ level' _ Hins) in Hl'.
    unfold fifo_insert. case_decide as Hlv.
    - simplify_eq. rewrite decide_True by done. rewrite Hlen.
      split; [done |]. by rewrite Nat2Z.id.
    - rewrite decide_False by done. by apply Hinv. }
  destruct (tier_scan (ring_tiers ring) 0 q) as [i | i offsets |].
  - (* an unused tier: it is the one at the write position *)
    destruct Hscan as (Hi & (tier & Ht & Hnone) & Hbefore).
    rewrite Z.sub_0_r in Ht, Hbefore.
    assert (zlookup (ring_tiers ring) i = Some tier) as Hz
      by (by apply zlookup_Some).
    destruct (ring_fifo_unused _ _ _ _ Hfifo Hz Hnone) as [Hpartial Hge].
    destruct Hfifo as (Hk & Hnext & Hpart & Hkeys).
    specialize (Hpart Hpartial).
    assert (i = ring_next ring) as ->.
    { destruct (decide (i = ring_next ring)) as [? | Hne]; [done |].
      exfalso.
      destruct (zlookup_is_Some (ring_tiers ring) (ring_next ring))
        as [t' Ht']; [lia |].
      pose proof Ht' as [_ Hl]%zlookup_Some.
      destruct (Hbefore (Z.to_nat (ring_next ring)) t' ltac:(lia) Hl)
        as (key & Hkey & _).
      rewrite (Hkeys _ _ Ht') in Hkey.
      replace (ring_next ring - 1 - ring_next ring) with (-1) in Hkey
        by lia.
      apply lookup_lt_Some in Hkey.
      assert ((-1) `mod` Z.of_nat (length (ring_tiers ring))
              = Z.of_nat (length (ring_tiers ring)) - 1) as Hm.
      { rewrite <- (Z_mod_plus_full (-1) 1).
        rewrite Z.mod_small by lia. lia. }
      lia. }
    assert (q ∉ cache level) as Hnot.
    { intros (t' & (p & Hp)%list_elem_of_lookup_1 & Hkey)%Hholds.
      apply lookup_lt_Some in Hp as Hplt.
      destruct (decide (Z.of_nat p < ring_next ring)) as [Hlt | Hge'].
      - destruct (Hbefore _ _ Hlt Hp) as (key & Hkey' & Hneq). congruence.
      - assert (zlookup (ring_tiers ring) (Z.of_nat p) = Some t') as Hz'.
        { apply zlookup_Some. split; [lia |]. by rewrite Nat2Z.id. }
        rewrite (Hkeys _ _ Hz') in Hkey.
        apply lookup_lt_Some in Hkey.
        rewrite <- (Z_mod_plus_full _ 1) in Hkey.
        rewrite Z.mod_small in Hkey by lia. lia. }
    apply bind_Some in Hrun as (ring' & Hst & Hrun).
    apply bind_Some in Hrun as (rings' & Hins & Hrun). simplify_eq. simpl.
    split; [by eapply zinsert_length |].
    rewrite decide_False by done. split; [done |]. by eapply Hstore.
  - (* a hit *)
    simplify_eq. simpl. split; [done |].
    rewrite decide_True by (by apply Hholds). done.
  - (* no tier has the key: the oldest tier is overwritten *)
    assert (q ∉ cache level) as Hnot.
    { intros (t' & Ht' & Hkey)%Hholds.
      destruct (Hscan t' Ht') as (key & Hkey' & Hneq). congruence. }
    apply bind_Some in Hrun as (ring' & Hst & Hrun).
    apply bind_Some in Hrun as (rings' & Hins & Hrun). simplify_eq. simpl.
    split; [by eapply zinsert_length |].
    rewrite decide_False by done. split; [done |]. by eapply Hstore.
Qed.

(** A sequence of requests searches exactly on the misses of the reference
    caches. *)
Lemma tier_requests_fifo `{Bits} (capacity : Z)
  (range_of : Z -> quad_ptr -> list p4est_quadrant_t * Z)
  (reqs : list (Z * quad_ptr)) (rings : list p4est_iter_tier_ring_t)
  (cache : Z -> list quad_ptr) (outs : list tier_insert_result) :
  rings_fifo capacity rings cache ->
  Forall (fun req => 0 <= req.1) reqs ->
  tier_requests range_of reqs rings = Some outs ->
  map searched outs
  = fifo_searches (Z.of_nat (length rings)) capacity reqs cache.
Proof.
  revert rings cache outs.
  induction reqs as [| [level q] reqs IH]; intros rings cache outs Hinv Hlev
    Hrun.
  - simpl in Hrun. by simplify_eq.
  - apply Forall_cons in Hlev as [Hl Hlev]. simpl in Hl.
    change (tier_requests range_of ((level, q) :: reqs) rings)
      with (r ← p4est_iter_tier_insert (range_of level q).1 level
                  (range_of level q).2 rings (Some q);
            rs ← tier_requests range_of reqs (rings_after r);
            Some (r :: rs)) in Hrun.
    apply bind_Some in Hrun as (r & Hr & Hrun).
    apply bind_Some in Hrun as (rs & Hrs & Hrun). simplify_eq.
    destruct (tier_insert_fifo capacity rings cache _ _ _ _ _ Hinv Hl Hr)
      as [Hlen Hcase].
    simpl. repeat case_decide.
    + destruct Hcase as [-> Hsame]. rewrite Hsame in Hrs. f_equal.
      by apply IH.
    + destruct Hcase as [-> Hinv']. f_equal. rewrite <- Hlen.
      by apply IH.
    + destruct Hcase as [-> Hsame]. rewrite Hsame in Hrs. f_equal.
      by apply IH.
Qed.

Lemma rings_new_fifo `{Build} (num_procs : Z) :
  rings_fifo (tier_ring_max num_procs) (p4est_iter_tier_rings_new num_procs)
    (fun _ => []).
Proof.
  intros level ring [_ Hl]%zlookup_Some.
  unfold p4est_iter_tier_rings_new in Hl.
  apply lookup_replicate in Hl as [-> _]. simpl.
  rewrite length_replicate.
  assert (0 < tier_ring_max num_procs) as Hpos.
  { unfold tier_ring_max, P4EST_CHILDREN.
    case_decide; destruct P4_TO_P8; lia. }
  split; [lia |]. unfold ring_fifo. simpl. rewrite length_replicate.
  split; [lia |]. split; [lia |]. split; [lia |].
  intros i tier [_ Hi]%zlookup_Some.
  apply lookup_replicate in Hi as [-> _]. done.
Qed.

(** The first request for a pair is a search: a request answered without a
    search repeats one that was searched before. *)
Lemma hit_repeats_search (reqs : list (Z * quad_ptr))
  (outs : list tier_insert_result) :
  length outs = length reqs ->
  (forall i out req, outs !! i = Some out -> reqs !! i = Some req ->
     searched out = false ->
     exists j, (j < i)%nat /\ reqs !! j = Some req) ->
  forall i out req, outs !! i = Some out -> reqs !! i = Some req ->
    searched out = false ->
    exists j first, (j < i)%nat /\ reqs !! j = Some req
                    /\ outs !! j = Some first /\ searched first = true.
Proof.
  intros Hlen Hearlier i. induction i as [i IH] using lt_wf_ind.
  intros out req Hout Hreq Hs.
  destruct (Hearlier i out req Hout Hreq Hs) as (j & Hj & Hrj).
  destruct (outs !! j) as [first |] eqn:Hfirst.
  - destruct (searched first) eqn:Hsf.
    + by exists j, first.
    + destruct (IH j Hj first req Hfirst Hrj Hsf)
        as (j' & first' & Hj' & Hrj' & Hf' & Hs').
      exists j', first'. split; [lia | done].
  - apply lookup_ge_None in Hfirst. apply lookup_lt_Some in Hrj. lia.
Qed.

(** Requests at depths that are not negative do not tell a negative
    number of rings from none. *)
Lemma fifo_searches_levels (levels capacity : Z)
  (reqs : list (Z * quad_ptr)) (cache : Z -> list quad_ptr) :
  Forall (fun req => 0 <= req.1) reqs ->
  fifo_searches (Z.of_nat (Z.to_nat levels)) capacity reqs cache
  = fifo_searches levels capacity reqs cache.
Proof.
  revert cache. induction reqs as [| [level q] reqs IH]; intros cache Hlev;
    [done |].
  apply Forall_cons in Hlev as [Hl Hlev]. simpl in *.
  destruct (decide (level < levels)) as [Hlt | Hge].
  - rewrite decide_True by lia. case_decide; by rewrite IH.
  - rewrite decide_False by lia. by rewrite IH.
Qed.

(** Claim C5 as stated does not hold.  Two trees are refined uniformly to
    level 2 and searched on one process in 2D, where a ring has four tiers.
    At depth 1 the range of the first level-1 quadrant of the first tree is
    split (a search) and asked for again (a hit); then the ranges of the
    other three level-1 quadrants of that tree and of the first one of the
    second tree are split, which overwrites the tier of the first range;
    the next request for the first range runs the binary search a second
    time.  All ranges hold four quadrants. *)
Lemma tier_search_repeats_after_eviction :
  let key t i := QPtr (TreeQuads t) i in
  let reqs := [(1, key 0 0); (1, key 0 0); (1, key 0 4); (1, key 0 8);
               (1, key 0 12); (1, key 1 0); (1, key 0 0)] in
  let outs := @tier_requests ex_build ex_bits ex_range_of reqs
                (@p4est_iter_tier_rings_new ex_build 1) in
  map (fun req => length (ex_range_of req.1 req.2).1) reqs
  = replicate 7 4%nat
  /\ reqs !! 6%nat = reqs !! 0%nat
  /\ fmap (map searched) outs
     = Some [true; false; true; true; true; true; true]
  /\ fmap (map next_tier) outs
     = Some [[0; 1; 2; 3; 4]; [0; 1; 2; 3; 4]; [4; 5; 6; 7; 8];
             [8; 9; 10; 11; 12]; [12; 13; 14; 15; 16]; [0; 1; 2; 3; 4];
             [0; 1; 2; 3; 4]].
Proof. repeat split; vm_compute; reflexivity. Qed.

(** C5 (amended).  Within one top-level call, where a key at a depth always
    stands for the same range, every [p4est_iter_tier_insert] for a
    non-empty range leaves in [next_tier] exactly the offsets that a direct
    [p4est_iter_tier_update] of that range produces.  The rings behave as
    first-in first-out caches of [tier_ring_max] keys for each depth below
    [P4EST_QMAXLEVEL]: the binary search is run exactly on the misses of
    these caches, that is on the first use of a (range, depth) pair and
    again on a use after its tier was overwritten by newer ranges; a ring
    hit runs no search and returns the memoized offsets, those that an
    earlier search for the same pair stored.  Caching is observationally
    equivalent to recomputation. *)
Theorem tier_cache_refines_update `{Bits} (num_procs : Z)
  (range_of : Z -> quad_ptr -> list p4est_quadrant_t * Z)
  (reqs : list (Z * quad_ptr)) :
  Forall (fun req => 0 <= req.1) reqs ->
  exists outs,
    tier_requests range_of reqs (p4est_iter_tier_rings_new num_procs)
    = Some outs
    /\ map next_tier outs = map (direct_update range_of) reqs
    /\ map searched outs
       = fifo_searches P4EST_QMAXLEVEL (tier_ring_max num_procs) reqs
           (fun _ => [])
    /\ forall i out req, outs !! i = Some out -> reqs !! i = Some req ->
         searched out = false ->
         exists j first,
           (j < i)%nat /\ reqs !! j = Some req
           /\ outs !! j = Some first /\ searched first = true
           /\ next_tier out = next_tier first.
Proof.
  intros Hlev.
  destruct (tier_requests_memoize range_of reqs
              (p4est_iter_tier_rings_new num_procs) []
              (rings_new_memoize range_of num_procs) Hlev)
    as (outs & Hrun & Hmap & Hs).
  exists outs. split; [done |]. split; [done |].
  assert (length outs = length reqs) as Hlen.
  { apply (f_equal length) in Hmap. by rewrite !length_map in Hmap. }
  split.
  - rewrite (tier_requests_fifo (tier_ring_max num_procs) range_of reqs _
               (fun _ => []) outs (rings_new_fifo num_procs) Hlev Hrun).
    unfold p4est_iter_tier_rings_new. rewrite length_replicate.
    by apply fifo_searches_levels.
  - intros i out req Hout Hreq Hsr.
    destruct (hit_repeats_search reqs outs Hlen) with (i := i) (out := out)
      (req := req) as (j & first & Hj & Hrj & Hfirst & Hsf); try done.
    { intros i' out' req' Hout' Hreq' Hs'.
      destruct (Hs i' out' req' Hout' Hreq' Hs') as [Hin | Hearlier];
        [by apply elem_of_nil in Hin | done]. }
    exists j, first. repeat (split; [done |]).
    assert (forall k o r, outs !! k = Some o -> reqs !! k = Some r ->
              next_tier o = direct_update range_of r) as Hdirect.
    { intros k o r Ho Hr.
      assert (map next_tier outs !! k = Some (next_tier o)) as Hk
        by (by rewrite list_lookup_fmap, Ho).
      rewrite Hmap, list_lookup_fmap, Hr in Hk. simpl in Hk.
      by injection Hk. }
    by rewrite (Hdirect _ _ _ Hout Hreq), (Hdirect _ _ _ Hfirst Hrj).
Qed.

Lemma tier_cache_refines_update_witness :
  let key t i := QPtr (TreeQuads t) i in
  let reqs := [(0, key 0 0); (1, key 0 0); (1, key 0 4); (1, key 0 0);
               (0, key 0 0)] in
  Forall (fun req => 0 <= req.1) reqs
  /\ exists outs,
       @tier_requests ex_build ex_bits ex_range_of reqs
         (@p4est_iter_tier_rings_new ex_build 1) = Some outs
       /\ map next_tier outs
          = map (@direct_update ex_build ex_bits ex_range_of) reqs
       /\ map searched outs
          = fifo_searches (@P4EST_QMAXLEVEL ex_build)
              (@tier_ring_max ex_build 1) reqs (fun _ => [])
       /\ forall i out req, outs !! i = Some out -> reqs !! i = Some req ->
            searched out = false ->
            exists j first,
              (j < i)%nat /\ reqs !! j = Some req
              /\ outs !! j = Some first /\ searched first = true
              /\ next_tier out = next_tier first.
Proof.
  intros key reqs.
  assert (Hlev : Forall (fun req : Z * quad_ptr => 0 <= req.1) reqs).
  { repeat constructor; simpl; lia. }
  split; [exact Hlev |].
  exact (@tier_cache_refines_update ex_build ex_bits 1 ex_range_of reqs
           Hlev).
Defined.

(** ** The canonical owner of an entity between trees (C2, C3) *)

Lemma lex_le_antisym (a b : Z * Z) : lex_le a b -> lex_le b a -> a = b.
Proof.
  destruct a as [a1 a2], b as [b1 b2]. unfold lex_le. simpl.
  intros Hab Hba. f_equal; lia.
Qed.

(** The owner loop accepts exactly when no other side is greater. *)
Lemma owner_check_largest (t e : Z) (others : list (Z * Z)) :
  owner_check t e others = true
  <-> Forall (fun p => lex_le p (t, e)) others.
Proof.
  induction others as [| [treeid entity] others IH]; simpl.
  - split; [constructor | done].
  - rewrite Forall_cons. unfold lex_le at 1. simpl.
    repeat case_decide; rewrite ?IH; split; try done;
      try (intros [? ?]; lia); try (intros ?; split; [lia | done]).
    intros [_ ?]. done.
Qed.

Section canonical_owner.
Context `{Bits}.

Lemma init_corner_owner (ctx : iter_ctx) (ghost_offsets : list Z)
  (la la' : p4est_iter_loop_args_t) (t c : Z) (b : bool)
  (args : p4est_iter_corner_args_t) :
  p4est_iter_init_corner ctx ghost_offsets la t c = Some (b, args, la') ->
  head (corner_pairs args) = Some (t, c)
  /\ (b = true <-> Forall (fun p => lex_le p (t, c)) (corner_pairs args)).
Proof.
  unfold p4est_iter_init_corner, corner_pairs. intros Hinit.
  apply bind_Some in Hinit as (start_idx2 & _ & Hinit).
  assert (Hself : lex_le (t, c) (t, c)) by (right; simpl; lia).
  unfold corner_sides in Hinit.
  simpl in Hinit. rewrite drop_0 in Hinit.
  destruct (owner_check t c _) eqn:Hcheck.
  - apply bind_Some in Hinit as (l & _ & Hinit). simplify_eq. simpl.
    split; [done |]. split; [intros _ | done].
    apply Forall_cons. split; [done |].
    by apply owner_check_largest in Hcheck.
  - simplify_eq. simpl. split; [done |]. split; [done |].
    intros [_ Hall]%Forall_cons.
    apply owner_check_largest in Hall. congruence.
Qed.

Lemma init_edge_owner (ctx : iter_ctx) (ghost_offsets : list Z)
  (la la' : p4est_iter_loop_args_t) (t e : Z) (b : bool)
  (args : p8est_iter_edge_args_t) :
  p8est_iter_init_edge ctx ghost_offsets la t e = Some (b, args, la') ->
  head (edge_pairs args) = Some (t, e)
  /\ (b = true <-> Forall (fun p => lex_le p (t, e)) (edge_pairs args)).
Proof.
  unfold p8est_iter_init_edge, edge_pairs. intros Hinit.
  apply bind_Some in Hinit as (orig_orient & _ & Hinit).
  apply bind_Some in Hinit as (start_idx2 & _ & Hinit).
  apply bind_Some in Hinit as (corner_args & _ & Hinit).
  assert (Hself : lex_le (t, e) (t, e)) by (right; simpl; lia).
  unfold edge_sides in Hinit. simpl in Hinit. rewrite drop_0 in Hinit.
  destruct (owner_check t e _) eqn:Hcheck.
  - apply bind_Some in Hinit as (l & _ & Hinit). simplify_eq. simpl.
    split; [done |]. split; [intros _ | done].
    apply Forall_cons. split; [done |].
    by apply owner_check_largest in Hcheck.
  - simplify_eq. simpl. split; [done |]. split; [done |].
    intros [_ Hall]%Forall_cons.
    apply owner_check_largest in Hall. congruence.
Qed.

Lemma init_face_owner (ctx : iter_ctx) (ghost_offsets : list Z)
  (la la' : p4est_iter_loop_args_t) (args0 : p4est_iter_face_args_t)
  (t f : Z) (b : bool) (args : p4est_iter_face_args_t) :
  p4est_iter_init_face ctx ghost_offsets la args0 t f = Some (b, args, la') ->
  head (face_pairs args) = Some (t, f)
  /\ (b = true <-> Forall (fun p => lex_le p (t, f)) (face_pairs args)).
Proof.
  unfold p4est_iter_init_face. intros Hinit.
  apply bind_Some in Hinit as ([num_to_child nt] & _ & Hinit).
  apply bind_Some in Hinit as (start_idx2 & _ & Hinit).
  apply bind_Some in Hinit as ([[[sides orientation] nf] start_idx2'] & Hsides & Hinit).
  apply bind_Some in Hinit as ([edge_args corner_args] & _ & Hinit).
  assert (Hself : lex_le (t, f) (t, f)) by (right; simpl; lia).
  destruct (decide (nt <> -1)) as [Hnt | Hnt].
  - apply bind_Some in Hsides as (nrf & _ & Hsides).
    apply bind_Some in Hsides as (s1 & _ & Hsides). simplify_eq.
    set (nf := if P4_TO_P8 then _ else _) in *.
    case_decide as Hrej.
    + simplify_eq. unfold face_pairs. simpl. split; [done |].
      split; [done |]. intros [_ [Hle _]%Forall_cons]%Forall_cons.
      unfold lex_le in Hle. simpl in Hle. lia.
    + apply bind_Some in Hinit as (l & _ & Hinit). simplify_eq.
      unfold face_pairs. simpl. split; [done |]. split; [intros _ | done].
      repeat (apply Forall_cons; split); [done | | done].
      unfold lex_le. simpl. lia.
  - simplify_eq. rewrite decide_False in Hinit by tauto.
    apply bind_Some in Hinit as (l & _ & Hinit). simplify_eq.
    unfold face_pairs. simpl. split; [done |]. split; [intros _ | done].
    by repeat (apply Forall_cons; split).
Qed.

End canonical_owner.

(** Two pairs that list each other cannot both be the largest. *)
Lemma two_owners_equal (p p' : Z * Z) (l l' : list (Z * Z)) :
  p' ∈ l -> p ∈ l' ->
  Forall (fun x => lex_le x p) l -> Forall (fun x => lex_le x p') l' ->
  p = p'.
Proof.
  intros Hin Hin' Hall Hall'. rewrite Forall_forall in Hall, Hall'.
  apply lex_le_antisym; [by apply Hall' | by apply Hall].
Qed.

(** C3 (amended).  The init routine for a face, edge or corner accepts the
    pair [(t, i)] it is called on if and only if [(t, i)] is the
    lexicographically largest of the pairs that touch the entity, as
    enumerated through the connectivity (the list starts with [(t, i)]
    itself). *)
Theorem canonical_owner_is_largest_pair `{Bits} (ctx : iter_ctx)
  (ghost_offsets : list Z) :
  (forall la l args0 t f b args,
      p4est_iter_init_face ctx ghost_offsets la args0 t f
      = Some (b, args, l) ->
      head (face_pairs args) = Some (t, f)
      /\ (b = true <-> Forall (fun p => lex_le p (t, f)) (face_pairs args)))
  /\ (forall la l t e b args,
      p8est_iter_init_edge ctx ghost_offsets la t e = Some (b, args, l) ->
      head (edge_pairs args) = Some (t, e)
      /\ (b = true <-> Forall (fun p => lex_le p (t, e)) (edge_pairs args)))
  /\ (forall la l t c b args,
      p4est_iter_init_corner ctx ghost_offsets la t c = Some (b, args, l) ->
      head (corner_pairs args) = Some (t, c)
      /\ (b = true
          <-> Forall (fun p => lex_le p (t, c)) (corner_pairs args))).
Proof.
  split; [| split].
  - intros la l args0 t f b args Hinit. by eapply init_face_owner.
  - intros la l t e b args Hinit. by eapply init_edge_owner.
  - intros la l t c b args Hinit. by eapply init_corner_owner.
Qed.

(** Claim C3 as stated does not hold: the face between the two trees of
    [ex_forest2] is touched by the pairs (0, 1) and (1, 0); the init routine
    rejects the lexicographically smallest pair (0, 1) and accepts (1, 0). *)
Lemma smallest_pair_is_not_the_owner :
  let run t f :=
    '(b, args, _) ←
      @p4est_iter_init_face ex_build ex_bits ex_ctx2 ex_offsets2
        (ex_loop_args ex_forest2 ex_all_callbacks)
        (@face_args_uninit ex_build) t f;
    Some (b, face_pairs args) in
  run 0 1 = Some (false, [(0, 1); (1, 0)])
  /\ run 1 0 = Some (true, [(1, 0); (0, 1)])
  /\ lex_le (0, 1) (1, 0).
Proof.
  split; [vm_compute; reflexivity |].
  split; [vm_compute; reflexivity |].
  left. simpl. lia.
Qed.

Lemma canonical_owner_is_largest_pair_witness :
  exists args l,
    @p4est_iter_init_face ex_build ex_bits ex_ctx2 ex_offsets2
      (ex_loop_args ex_forest2 ex_all_callbacks)
      (@face_args_uninit ex_build) 1 0 = Some (true, args, l)
    /\ head (face_pairs args) = Some (1, 0)
    /\ (true = true
        <-> Forall (fun p => lex_le p (1, 0)) (face_pairs args)).
Proof.
  eexists _, _. split; [vm_compute; reflexivity |].
  eapply (proj1 (@canonical_owner_is_largest_pair ex_build ex_bits ex_ctx2
                   ex_offsets2)
            (ex_loop_args ex_forest2 ex_all_callbacks) _
            (@face_args_uninit ex_build)).
  vm_compute; reflexivity.
Defined.

(** ** The corner iterator (C6) *)

Lemma aget_aset {A} (a a' : carray A) (i j : Z) (v : A) :
  aset a i v = Some a' ->
  aget a' j = if decide (i = j) then Some v else aget a j.
Proof.
  intros Hset. unfold aget. rewrite (zlookup_zinsert _ _ _ j _ Hset).
  by case_decide.
Qed.

Lemma zrange_types : zrange local (ghost + 1) = [0; 1].
Proof. reflexivity. Qed.

(** The loop over a range, with an invariant that follows the loop
    index. *)
Lemma for_each_zrange_inv {S} (P : Z -> S -> Prop)
  (body : Z -> S -> option S) (lo hi : Z) (s s' : S) :
  lo <= hi ->
  (forall k a b, lo <= k < hi -> body k a = Some b -> P k a -> P (k + 1) b) ->
  for_each body (zrange lo hi) s = Some s' -> P lo s -> P hi s'.
Proof.
  intros Hle Hstep.
  remember (Z.to_nat (hi - lo)) as n eqn:Hn.
  revert lo s Hle Hn Hstep. induction n as [| n IH]; intros lo s Hle Hn Hstep.
  - rewrite zrange_nil by lia. simpl. intros [= <-].
    by replace hi with lo by lia.
  - rewrite zrange_cons by lia. simpl.
    destruct (body lo s) as [a |] eqn:Hbody; simpl; [| done].
    intros Hrun HP. apply (IH (lo + 1) a); [lia | lia | | done |].
    + intros k x y Hk. apply Hstep. lia.
    + apply (Hstep lo s a); [lia | done | done].
Qed.

Section corner.
Context `{Bits}.

(** One type of one side: [has_local] is only raised together with a
    local record on the side, and then [test] remembers the local find. *)
Lemma corner_side_type_local (ctx : iter_ctx) (level side type : Z)
  (la la' : p4est_iter_loop_args_t) (cside cside' : p4est_iter_corner_side_t)
  (hl hl' : bool) :
  corner_side_type ctx level side type (la, cside, hl)
  = Some (la', cside', hl') ->
  hl' = hl
  \/ (type = local /\ hl' = true
      /\ (exists p, aget (test la') (side * 2 + local) = Some (Some p))
      /\ exists q, cs_is cside' = SideFull q /\ side_quad_local q).
Proof.
  unfold corner_side_type. intros Hrun.
  apply bind_Some in Hrun as (found & Hfound & Hrun).
  case_decide as Hf; [left; by simplify_eq |].
  apply bind_Some in Hrun as (cnt & Hcnt & Hrun).
  case_decide as Hc; [| left; by simplify_eq].
  apply bind_Some in Hrun as (arr & Harr & Hrun).
  apply bind_Some in Hrun as (first & Hfirst & Hrun).
  apply bind_Some in Hrun as (r & Hr & Hrun).
  destruct r as [[p temp_idx] |].
  - apply bind_Some in Hrun as (la1 & Hset & Hrun). simplify_eq.
    destruct (decide (type = local)) as [-> | Hty].
    + right. split; [done |]. split; [done |]. split.
      * exists p. unfold set_test in Hset.
        apply bind_Some in Hset as (a & Ha & Hset). simplify_eq. simpl.
        rewrite (aget_aset _ _ _ (side * 2 + local) _ Ha).
        by rewrite decide_True.
      * eexists. split; [done |]. by split.
    + by left.
  - apply bind_Some in Hrun as (la1 & Hset & Hrun). simplify_eq.
    by left.
Qed.

(** Once a local quadrant is found on a side, the ghost layer is not
    searched for that side. *)
Lemma corner_side_type_found (ctx : iter_ctx) (level side type : Z)
  (la : p4est_iter_loop_args_t) (cside : p4est_iter_corner_side_t)
  (hl : bool) (p : quad_ptr) :
  aget (test la) (side * 2 + local) = Some (Some p) ->
  corner_side_type ctx level side type (la, cside, hl)
  = Some (la, cside, hl).
Proof.
  intros Htest. unfold corner_side_type. rewrite Htest. simpl.
  by repeat case_decide.
Qed.

(** One side: the record written is local when [has_local] is raised. *)
Lemma corner_side_local (ctx : iter_ctx) (level side : Z)
  (la la' : p4est_iter_loop_args_t)
  (sides sides' : list p4est_iter_corner_side_t) (hl hl' : bool) :
  corner_side ctx level side (la, sides, hl) = Some (la', sides', hl') ->
  exists cside,
    zinsert sides side cside = Some sides'
    /\ (hl' = true ->
        hl = true \/ exists q, cs_is cside = SideFull q /\ side_quad_local q).
Proof.
  unfold corner_side. intros Hrun.
  apply bind_Some in Hrun as (cside0 & Hc0 & Hrun).
  apply bind_Some in Hrun as ([[la2 cside2] hl2] & Hloop & Hrun).
  apply bind_Some in Hrun as (sides2 & Hins & Hrun). simplify_eq.
  exists cside2. split; [done |].
  rewrite zrange_types in Hloop. cbn [for_each] in Hloop.
  apply bind_Some in Hloop as ([[la1 cside1] hl1] & Hlocal & Hloop).
  apply bind_Some in Hloop as ([[la3 cside3] hl3] & Hghost & Hloop).
  simplify_eq.
  intros Hhl.
  destruct (corner_side_type_local _ _ _ _ _ _ _ _ _ _ Hlocal)
    as [-> | (_ & _ & [p Hp] & Hq)].
  - destruct (corner_side_type_local _ _ _ _ _ _ _ _ _ _ Hghost)
      as [-> | (Hty & _)]; [by left | done].
  - rewrite (corner_side_type_found _ _ _ _ _ _ _ p Hp) in Hghost.
    simplify_eq. by right.
Qed.

(** C6.  In every run of [p4est_corner_iterate], if on every side of the
    corner the search found no quadrant or a quadrant of the ghost layer,
    then no callback is made: the run returns with an empty list of
    callbacks. *)
Theorem corner_callback_needs_local_quadrant (ctx : iter_ctx)
  (args args' : p4est_iter_corner_args_t)
  (la la' : p4est_iter_loop_args_t) (evs : list iter_event) :
  p4est_corner_iterate ctx args la = Some (args', la', evs) ->
  Forall (fun s => side_absent_or_ghost (cs_is s)) (c_sides args') ->
  evs = [].
Proof.
  unfold p4est_corner_iterate. intros Hrun Hsides.
  apply bind_Some in Hrun as (la1 & _ & Hrun).
  apply bind_Some in Hrun as (some_local & _ & Hrun).
  destruct some_local; simpl in Hrun; [| by simplify_eq].
  apply bind_Some in Hrun as ([[la2 sides] has_local] & Hloop & Hrun).
  destruct has_local; simpl in Hrun; [| by simplify_eq].
  simplify_eq. simpl in Hsides. exfalso.
  destruct (decide (0 <= c_num_sides args)) as [Hn | Hn].
  2:{ rewrite zrange_nil in Hloop by lia. simpl in Hloop. by simplify_eq. }
  pose (P := fun (k : Z)
               (st : p4est_iter_loop_args_t
                     * list p4est_iter_corner_side_t * bool) =>
               st.2 = true ->
               exists i s q, 0 <= i < k /\ zlookup st.1.2 i = Some s
                             /\ cs_is s = SideFull q /\ side_quad_local q).
  assert (HP : P (c_num_sides args) (la', sides, true)).
  { eapply (for_each_zrange_inv P); [exact Hn | | exact Hloop | done].
    intros k [[a1 s1] h1] [[a2 s2] h2] Hk Hstep HPk.
    apply corner_side_local in Hstep as (cside & Hins & Hloc).
    unfold P in *. simpl in *. intros Hh2.
    destruct (Hloc Hh2) as [Hh1 | (q & Hq & Hql)].
    - destruct (HPk Hh1) as (i & s & q & Hi & Hs & Hq).
      exists i, s, q. split; [lia |]. split; [| done].
      rewrite (zlookup_zinsert _ _ _ i _ Hins).
      rewrite decide_False by lia. done.
    - exists k, cside, q. split; [lia |]. split; [| done].
      rewrite (zlookup_zinsert _ _ _ k _ Hins). by rewrite decide_True. }
  destruct (HP eq_refl) as (i & s & q & _ & Hs & Hq & Hloc & Hquad).
  apply zlookup_Some in Hs as [_ Hs].
  apply list_elem_of_lookup_2 in Hs.
  rewrite Forall_forall in Hsides. specialize (Hsides s Hs).
  rewrite Hq in Hsides. simpl in Hsides. destruct Hsides; congruence.
Qed.

End corner.

(** On the second process of [ex_forest3], the corner between the two
    trees on the lower boundary has a ghost quadrant on both sides. *)
Lemma corner_callback_needs_local_quadrant_witness :
  exists args' la' evs,
    @p4est_corner_iterate ex_build ex_bits ex_ctx3 ex_corner_args
      ex_corner_la = Some (args', la', evs)
    /\ Forall (fun s => side_absent_or_ghost (cs_is s)) (c_sides args')
    /\ Exists (fun s => exists q p, cs_is s = SideFull q
                                    /\ sq_quad q = Some p) (c_sides args')
    /\ evs = [].
Proof.
  eexists _, _, _.
  split; [vm_compute; reflexivity |].
  assert (Hsides : Forall (fun s => side_absent_or_ghost (cs_is s))
            [ {| cs_treeid := 1; cs_corner := 0;
                 cs_is := SideFull {| sq_quad := Some (QPtr GhostQuads 1);
                                      sq_is_local := false;
                                      sq_quadid := 1 |} |};
              {| cs_treeid := 0; cs_corner := 1;
                 cs_is := SideFull {| sq_quad := Some (QPtr GhostQuads 0);
                                      sq_is_local := false;
                                      sq_quadid := 0 |} |} ]).
  { repeat constructor; simpl; by right. }
  split; [exact Hsides |].
  split; [left; by eexists _, _ |].
  eapply (@corner_callback_needs_local_quadrant ex_build ex_bits ex_ctx3
            ex_corner_args _ ex_corner_la);
    [vm_compute; reflexivity | exact Hsides].
Defined.

(** ** A face on the boundary of the domain (C8) *)






Lemma sidetypes_both : sidetypes left (right + 1) = [(0, 0); (0, 1); (1, 0); (1, 1)].
Proof. reflexivity. Qed.


Section outside_face.
Context `{Bits}.


End outside_face.


(** ** A traversal without a ghost layer (C10) *)

(** *** Steps that leave [quadrants] and [test] alone *)

Lemma same_qt_refl (la : p4est_iter_loop_args_t) : same_qt la la.
Proof. by split. Qed.

Lemma same_qt_trans (a b c : p4est_iter_loop_args_t) :
  same_qt a b -> same_qt b c -> same_qt a c.
Proof. intros [? ?] [? ?]. split; congruence. Qed.

Lemma same_qt_ok (la la' : p4est_iter_loop_args_t) :
  same_qt la la' -> la_ok la -> la_ok la'.
Proof.
  intros [Hq Ht] [Hg Hn]. split.
  - intros side arr. rewrite Hq. apply Hg.
  - intros side p. rewrite Ht. apply Hn.
Qed.

(** Take apart a run [H : c ≫= k = Some r] into its steps. *)
Ltac run_inv H :=
  repeat first
    [ discriminate H
    | match type of H with
      | mbind _ _ = Some _ =>
          apply bind_Some in H;
          let x := fresh "x" in
          let Hx := fresh "Hx" in
          destruct H as (x & Hx & H);
          run_inv Hx
      | context [let '(_, _) := ?p in _] => is_var p; destruct p
      | (if ?c then _ else _) = Some _ => destruct c eqn:?
      | match ?c with _ => _ end = Some _ => destruct c eqn:?
      end ].

Lemma same_qt_for_each {I} (body : I -> p4est_iter_loop_args_t ->
                                   option p4est_iter_loop_args_t)
  (l : list I) (la la' : p4est_iter_loop_args_t) :
  (forall i a b, body i a = Some b -> same_qt a b) ->
  for_each body l la = Some la' -> same_qt la la'.
Proof.
  intros Hbody Hrun.
  apply (for_each_inv (fun x => same_qt la x) body l la la');
    [| done | apply same_qt_refl].
  intros i a b _ Hi Ha. eapply same_qt_trans; [done | by eapply Hbody].
Qed.

Lemma set_level_num_same i v la la' :
  set_level_num i v la = Some la' -> same_qt la la'.
Proof. unfold set_level_num. intros H. run_inv H. by simplify_eq. Qed.

Lemma set_quad_idx2_same i v la la' :
  set_quad_idx2 i v la = Some la' -> same_qt la la'.
Proof. unfold set_quad_idx2. intros H. run_inv H. by simplify_eq. Qed.

Lemma set_index_same i k v la la' :
  set_index i k v la = Some la' -> same_qt la la'.
Proof. unfold set_index. intros H. run_inv H. by simplify_eq. Qed.

Lemma set_first_index_same i v la la' :
  set_first_index i v la = Some la' -> same_qt la la'.
Proof. unfold set_first_index. intros H. run_inv H. by simplify_eq. Qed.

Lemma set_count_same i v la la' :
  set_count i v la = Some la' -> same_qt la la'.
Proof. unfold set_count. intros H. run_inv H. by simplify_eq. Qed.

Lemma set_test_level_same i v la la' :
  set_test_level i v la = Some la' -> same_qt la la'.
Proof. unfold set_test_level. intros H. run_inv H. by simplify_eq. Qed.

Lemma set_refine_same i v la la' :
  set_refine i v la = Some la' -> same_qt la la'.
Proof. unfold set_refine. intros H. run_inv H. by simplify_eq. Qed.

(** Replace the steps in the context by what they keep. *)
Ltac same_step H :=
  first
    [ apply set_level_num_same in H
    | apply set_quad_idx2_same in H
    | apply set_index_same in H
    | apply set_first_index_same in H
    | apply set_count_same in H
    | apply set_test_level_same in H
    | apply set_refine_same in H ].

Ltac same_fwd :=
  repeat match goal with
         | H : _ = Some _ |- _ => same_step H; destruct H as [? ?]
         end.

Ltac same_solve :=
  same_fwd; simplify_eq; simpl in *;
  first
    [ split; congruence
    | match goal with
      | Hok : la_ok ?a |- la_ok ?b =>
          apply (same_qt_ok a b); [split; congruence | exact Hok]
      end ].

Lemma incr_level_num_same i la la' :
  incr_level_num i la = Some la' -> same_qt la la'.
Proof. unfold incr_level_num. intros H. run_inv H. same_solve. Qed.

Lemma load_bound_at_same sidetype q la la' :
  load_bound_at sidetype q la = Some la' -> same_qt la la'.
Proof. unfold load_bound_at. intros H. run_inv H. same_solve. Qed.

Lemma load_bounds_same side la la' :
  load_bounds side la = Some la' -> same_qt la la'.
Proof.
  unfold load_bounds. apply same_qt_for_each.
  intros type a b H. run_inv H. by eapply load_bound_at_same.
Qed.

Lemma store_tier_same sidetype pos offsets la la' :
  store_tier sidetype pos offsets la = Some la' -> same_qt la la'.
Proof.
  unfold store_tier. apply same_qt_for_each.
  intros [k o] a b H. by eapply set_index_same.
Qed.

Lemma copy_indices_same `{Build} start_idx2 old_num new_num la la' :
  p4est_iter_copy_indices start_idx2 old_num new_num la = Some la' ->
  same_qt la la'.
Proof.
  unfold p4est_iter_copy_indices. apply same_qt_for_each.
  intros side a b H0. run_inv H0. revert H0. apply same_qt_for_each.
  intros type c d H0. run_inv H0. same_solve.
Qed.

Lemma init_root_bounds_same ctx ghost_offsets side t la la' :
  init_root_bounds ctx ghost_offsets side t la = Some la' -> same_qt la la'.
Proof. unfold init_root_bounds. intros H. run_inv H. same_solve. Qed.

Lemma split_sidetype_same `{Bits} ctx sidetype pos la la' :
  split_sidetype ctx sidetype pos la = Some la' -> same_qt la la'.
Proof.
  unfold split_sidetype. intros H1. run_inv H1. simplify_eq.
  eapply same_qt_trans; [by eapply store_tier_same |]. by split.
Qed.

Lemma split_side_same `{Bits} ctx level_idx2 side la la' :
  split_side ctx level_idx2 side la = Some la' -> same_qt la la'.
Proof.
  unfold split_side. intros H1. run_inv H1.
  eapply same_qt_trans; [by eapply set_quad_idx2_same |].
  revert H1. apply same_qt_for_each.
  intros type a b H1. run_inv H1. by eapply split_sidetype_same.
Qed.

(** *** Steps on the [quadrants] and [test] arrays *)

Lemma odd_rem (side : Z) : (side * 2 + 1) `rem` 2 <> 0.
Proof.
  intros Hr. pose proof (Z.quot_rem' (side * 2 + 1) 2) as Hq. lia.
Qed.

Lemma set_level_ok v la : ok la -> ok (set_level v la).
Proof. done. Qed.

Lemma set_tier_rings_ok v la : ok la -> ok (set_tier_rings v la).
Proof. done. Qed.

Lemma same_ok (la la' : p4est_iter_loop_args_t) :
  same_qt la la' -> ok la -> ok la'.
Proof. apply same_qt_ok. Qed.

Lemma set_quadrants_ok i v la la' :
  set_quadrants i v la = Some la' ->
  (forall side, i = side * 2 + 1 -> v = GhostQuads) ->
  ok la -> ok la'.
Proof.
  unfold set_quadrants. intros H Hv [Hg Hn]. run_inv H. simplify_eq.
  split; [| done].
  intros side arr. simpl. rewrite (aget_aset _ _ _ _ _ Hx).
  case_decide; [| by apply Hg]. intros [= <-]. by eapply Hv.
Qed.

Lemma set_test_ok i v la la' :
  set_test i v la = Some la' ->
  (forall side, i = side * 2 + 1 -> v = None) ->
  ok la -> ok la'.
Proof.
  unfold set_test. intros H Hv [Hg Hn]. run_inv H. simplify_eq.
  split; [done |].
  intros side p. simpl. rewrite (aget_aset _ _ _ _ _ Hx).
  case_decide as Hi; [| by apply Hn]. intros [= ->]. by apply Hv in Hi.
Qed.

Lemma set_test_None_ok i la la' :
  set_test i None la = Some la' -> ok la -> ok la'.
Proof. intros H. by eapply set_test_ok. Qed.

Lemma fill_quadrants_ok pick lo hi la la' :
  fill_quadrants pick lo hi la = Some la' -> ok la -> ok la'.
Proof.
  unfold fill_quadrants. apply (for_each_inv ok).
  intros i a b _ Hi Ha. eapply set_quadrants_ok; [done | | done].
  intros side ->. rewrite decide_True; [done |]. apply odd_rem.
Qed.

Lemma ghost_index_none (ctx : iter_ctx) (i : Z) :
  ctx_ghost ctx = [] -> sc_array_index ctx GhostQuads i = None.
Proof.
  intros Hg. unfold sc_array_index. simpl. rewrite Hg.
  unfold zlookup. case_decide; [| done]. by rewrite lookup_nil.
Qed.

Lemma ghost_cell_index (ctx : iter_ctx) (la : p4est_iter_loop_args_t)
  (side : Z) (arr : quad_array) (i : Z) (p : quad_ptr) :
  ctx_ghost ctx = [] ->
  ok la -> aget (quadrants la) (side * 2 + 1) = Some arr ->
  sc_array_index ctx arr i = Some p -> False.
Proof.
  intros Hg [Hc _] Ha Hp. apply Hc in Ha as ->.
  by rewrite ghost_index_none in Hp.
Qed.

Lemma fetch_candidate_ok ctx sidetype la la' :
  fetch_candidate ctx sidetype la = Some la' ->
  ctx_ghost ctx = [] -> ok la -> ok la'.
Proof.
  unfold fetch_candidate. intros H Hg Hok. run_inv H.
  - eapply same_ok; [by eapply set_test_level_same |].
    eapply set_test_ok; [done | | done].
    intros side ->. exfalso. by eapply ghost_cell_index.
  - eapply same_ok; [by eapply set_test_level_same |].
    by eapply set_test_None_ok.
Qed.

(** *** The invariant [ok] through the steps of the iterators *)

Create HintDb okdb.

Lemma ok_Z_any (z : Z) : ok z.
Proof. done. Qed.

Lemma ok_bool_any (b : bool) : ok b.
Proof. done. Qed.

Lemma ok_step_any (s : next_step) : ok s.
Proof. done. Qed.

Lemma ok_nil {A} `{Ok A} : ok (@nil A).
Proof. constructor. Qed.

Lemma ok_cons {A} `{Ok A} (x : A) (l : list A) : ok x -> ok l -> ok (x :: l).
Proof. by constructor. Qed.

Lemma ok_app {A} `{Ok A} (l1 l2 : list A) : ok l1 -> ok l2 -> ok (l1 ++ l2).
Proof. intros H1 H2. apply Forall_app. by split. Qed.

Lemma ok_pair_intro {A B} `{Ok A, Ok B} (a : A) (b : B) :
  ok a -> ok b -> ok (a, b).
Proof. by split. Qed.

Lemma ok_Some {A} `{Ok A} (a : A) : ok a -> ok (Some a).
Proof. done. Qed.

Lemma ok_None {A} `{Ok A} : ok (@None A).
Proof. done. Qed.

Lemma ok_Next {S} `{Ok S} (s : S) : ok s -> ok (Next s).
Proof. done. Qed.

Lemma ok_Leave {S} `{Ok S} (s : S) : ok s -> ok (Leave s).
Proof. done. Qed.

Lemma zlookup_ok {A} `{Ok A} (l : list A) (i : Z) (v : A) :
  zlookup l i = Some v -> ok l -> ok v.
Proof.
  intros Hl Hok. apply zlookup_Some in Hl as [_ Hl].
  by eapply (Forall_lookup_1 ok).
Qed.

Lemma zinsert_ok {A} `{Ok A} (l l' : list A) (i : Z) (v : A) :
  zinsert l i v = Some l' -> ok l -> ok v -> ok l'.
Proof.
  intros [_ ->]%zinsert_inv Hl Hv. by apply Forall_insert.
Qed.

Lemma for_each_ok {S I} `{Ok S} (body : I -> S -> option S) (l : list I)
  (s s' : S) :
  for_each body l s = Some s' -> ok s ->
  (forall i a b, i ∈ l -> body i a = Some b -> ok a -> ok b) ->
  ok s'.
Proof. intros Hrun Hs Hbody. by apply (for_each_inv ok body l s s'). Qed.

Lemma for_break_ok {S I} `{Ok S} (body : I -> S -> option (flow S))
  (l : list I) (s : S) (r : flow S) :
  for_break body l s = Some r -> ok s ->
  (forall i a b, i ∈ l -> body i a = Some b -> ok a -> ok b) ->
  ok r.
Proof.
  revert s. induction l as [| i l IH]; intros s Hrun Hs Hbody; simpl in Hrun.
  - by simplify_eq.
  - apply bind_Some in Hrun as (f & Hf & Hrun).
    assert (ok f) as Hok by (eapply Hbody; [by left | done | done]).
    destruct f as [a | a]; [| by simplify_eq].
    eapply IH; [done | done |].
    intros j x y Hj. apply Hbody. by right.
Qed.

Lemma run_loop_ok {S} `{Ok S} (fuel : nat) (body : S -> option S)
  (change : S -> option (next_step * S)) (at_body : bool) (s s' : S) :
  run_loop fuel body change at_body s = Some s' -> ok s ->
  (forall a b, body a = Some b -> ok a -> ok b) ->
  (forall a b, change a = Some b -> ok a -> ok b) ->
  ok s'.
Proof.
  intros Hrun Hs Hbody Hchange. revert at_body s Hrun Hs.
  induction fuel as [| n IH]; intros at_body s Hrun Hs; simpl in Hrun; [done |].
  destruct at_body.
  - apply bind_Some in Hrun as (a & Ha & Hrun).
    eapply IH; [done |]. by eapply Hbody.
  - apply bind_Some in Hrun as ([step a] & Ha & Hrun).
    assert (ok a) by (by eapply (Hchange s (step, a))).
    destruct step; [by simplify_eq | by eapply IH | by eapply IH].
Qed.

Lemma mapM_ok {A B} `{Ok B} (f : A -> option B) (l : list A) (k : list B) :
  mapM f l = Some k ->
  (forall a b, f a = Some b -> ok b) ->
  ok k.
Proof.
  intros Hm Hf. apply mapM_Some_1 in Hm.
  induction Hm; [constructor |]. constructor; [by eapply Hf | done].
Qed.

Lemma find_first_any (p : Z -> option bool) (l : list Z) (b : bool) :
  find_first p l = Some b -> ok b.
Proof. done. Qed.

Lemma elem_of_types (type : Z) :
  type ∈ zrange local (ghost + 1) -> type = 0 \/ type = 1.
Proof.
  rewrite zrange_types. intros Hin.
  apply elem_of_cons in Hin as [-> | Hin]; [by left |].
  apply elem_of_cons in Hin as [-> | Hin]; [by right |].
  by apply elem_of_nil in Hin.
Qed.

Lemma elem_of_sidetypes (side type lo hi : Z) :
  (side, type) ∈ sidetypes lo hi -> type = 0 \/ type = 1.
Proof.
  unfold sidetypes. intros Hin.
  apply list_elem_of_bind in Hin as (s & Hin & _).
  apply list_elem_of_bind in Hin as (t & Hin & Ht).
  apply elem_of_cons in Hin as [[= -> ->] | Hin];
    [by apply elem_of_types | by apply elem_of_nil in Hin].
Qed.

Lemma quad_local_ok (p : option quad_ptr) (i : Z) :
  ok {| sq_quad := p; sq_is_local := true; sq_quadid := i |}.
Proof. by right. Qed.

Lemma quad_null_ok (b : bool) (i : Z) :
  ok {| sq_quad := None; sq_is_local := b; sq_quadid := i |}.
Proof. by left. Qed.

Lemma side_null_ok : ok side_null.
Proof. by left. Qed.

Lemma quad_test_ok (la : p4est_iter_loop_args_t) (side : Z)
  (p : option quad_ptr) (b : bool) (i : Z) :
  aget (test la) (side * 2 + 1) = Some p -> ok la ->
  ok {| sq_quad := p; sq_is_local := b; sq_quadid := i |}.
Proof.
  intros Ha [_ Hn]. destruct p as [p |]; [| by left]. by apply Hn in Ha.
Qed.

Lemma full_ok (q : side_quad) : ok q -> ok (SideFull q).
Proof. done. Qed.

Lemma unset_ok : ok SideUnset.
Proof. done. Qed.

Lemma corner_side_ok_intro t c d :
  ok d -> ok {| cs_treeid := t; cs_corner := c; cs_is := d |}.
Proof. done. Qed.

Lemma edge_side_ok_intro t e o d :
  ok d ->
  ok {| es_treeid := t; es_edge := e; es_orientation := o; es_is := d |}.
Proof. done. Qed.

Lemma face_side_ok_intro t f d :
  ok d -> ok {| fs_treeid := t; fs_face := f; fs_is := d |}.
Proof. done. Qed.

Lemma corner_event_ok sides : ok sides -> ok (EvCorner sides).
Proof. done. Qed.

Lemma edge_event_ok sides : ok sides -> ok (EvEdge sides).
Proof. done. Qed.

Lemma volume_event_ok info : ok (EvVolume info).
Proof. done. Qed.

Lemma corner_args_ok_intro n s sides :
  ok sides ->
  ok {| c_num_sides := n; c_start_idx2 := s; c_sides := sides |}.
Proof. done. Qed.

#[global] Hint Resolve ok_Z_any ok_bool_any ok_step_any ok_nil ok_cons ok_app
  ok_pair_intro ok_Some ok_None ok_Next ok_Leave
  set_level_ok set_tier_rings_ok
  quad_local_ok quad_null_ok side_null_ok quad_test_ok
  full_ok unset_ok corner_side_ok_intro edge_side_ok_intro
  face_side_ok_intro corner_event_ok edge_event_ok volume_event_ok
  corner_args_ok_intro : okdb.

#[global] Hint Extern 2 (ok (if _ then _ else _)) => case_match : okdb.

(** Goals are taken apart first, so that each part is searched on its
    own; what is left is a hypothesis, a fact about a constructor, or the
    position tested in [set_test_ok] and [set_quadrants_ok]. *)
Ltac ok_goal :=
  lazymatch goal with
  | |- ok (_, _) => apply ok_pair_intro; ok_goal
  | |- ok (Next _) => apply ok_Next; ok_goal
  | |- ok (Leave _) => apply ok_Leave; ok_goal
  | |- ok (Some _) => apply ok_Some; ok_goal
  | |- ok (if ?c then _ else _) => destruct c; ok_goal
  | |- ok (_ ++ _) => apply ok_app; ok_goal
  | |- ok (_ :: _) => apply ok_cons; ok_goal
  | |- _ \/ _ => solve [assumption | left; reflexivity | right; reflexivity]
  | |- forall _ : Z, _ = _ -> _ =>
      intros;
      solve [reflexivity
            | exfalso; unfold local, ghost, left, right in *; lia]
  | |- _ => solve [assumption | exact I | reflexivity
                  | eauto 4 with okdb nocore]
  end.

Ltac by_same L H := eapply same_ok; [eapply L; exact H | ok_goal].
Ltac by_ok L H := eapply L; [exact H | ok_goal ..].

(** The lemma for the step [H]; [ok_extra] is extended as the iterators
    are covered. *)
Ltac ok_corner_steps H := fail.
Ltac ok_edge_steps H := fail.
Ltac ok_face_steps H := fail.
Ltac ok_init_steps H := fail.
Ltac ok_volume_steps H := fail.
Ltac ok_tree_steps H := fail.

Ltac ok_extra H :=
  first [ ok_corner_steps H | ok_edge_steps H | ok_face_steps H
        | ok_init_steps H | ok_volume_steps H | ok_tree_steps H ].

Ltac ok_step H :=
  lazymatch type of H with
  | zlookup _ _ = Some _ => by_ok @zlookup_ok H
  | zinsert _ _ _ = Some _ => by_ok @zinsert_ok H
  | set_level_num _ _ _ = Some _ => by_same set_level_num_same H
  | set_quad_idx2 _ _ _ = Some _ => by_same set_quad_idx2_same H
  | set_index _ _ _ _ = Some _ => by_same set_index_same H
  | set_first_index _ _ _ = Some _ => by_same set_first_index_same H
  | set_count _ _ _ = Some _ => by_same set_count_same H
  | set_test_level _ _ _ = Some _ => by_same set_test_level_same H
  | set_refine _ _ _ = Some _ => by_same set_refine_same H
  | incr_level_num _ _ = Some _ => by_same incr_level_num_same H
  | load_bound_at _ _ _ = Some _ => by_same load_bound_at_same H
  | load_bounds _ _ = Some _ => by_same load_bounds_same H
  | store_tier _ _ _ _ = Some _ => by_same store_tier_same H
  | p4est_iter_copy_indices _ _ _ _ = Some _ => by_same @copy_indices_same H
  | init_root_bounds _ _ _ _ _ = Some _ => by_same init_root_bounds_same H
  | split_sidetype _ _ _ _ = Some _ => by_same @split_sidetype_same H
  | split_side _ _ _ _ = Some _ => by_same @split_side_same H
  | set_test _ _ _ = Some _ => by_ok set_test_ok H
  | set_quadrants _ _ _ = Some _ => by_ok set_quadrants_ok H
  | fill_quadrants _ _ _ _ = Some _ => by_ok fill_quadrants_ok H
  | fetch_candidate _ _ _ = Some _ => by_ok fetch_candidate_ok H
  | _ => ok_extra H
  end.

Ltac ok_known x :=
  lazymatch goal with
  | _ : ok x |- _ => fail
  | _ => idtac
  end.

Ltac ok_wanted x :=
  lazymatch type of x with
  | Z => fail
  | bool => fail
  | quad_ptr => fail
  | quad_array => fail
  | p4est_quadrant_t => fail
  | carray _ => fail
  | list Z => fail
  | list p4est_quadrant_t => fail
  | _ = _ => fail
  | _ => idtac
  end.

Ltac split_types :=
  repeat match goal with
         | H : _ ∈ zrange local (ghost + 1) |- _ =>
             apply elem_of_types in H; destruct H as [-> | ->]
         | H : (_, _) ∈ sidetypes _ _ |- _ =>
             apply elem_of_sidetypes in H; destruct H as [-> | ->]
         end.

(** Derive [ok] for every result of a step in the context, in the order
    of the program; a loop with its body written in place is taken
    through its invariant. *)
Ltac ok_pairs :=
  repeat match goal with
         | H : ok (?a, ?b) |- _ =>
             ok_known a; pose proof (proj1 H : ok a)
         | H : ok (?a, ?b) |- _ =>
             ok_known b; pose proof (proj2 H : ok b)
         | H : ok (Next ?a) |- _ => ok_known a; pose proof (H : ok a)
         | H : ok (Leave ?a) |- _ => ok_known a; pose proof (H : ok a)
         | H : ok (Some ?a) |- _ => ok_known a; pose proof (H : ok a)
         end.

Ltac ok_fwd :=
  ok_pairs;
  repeat match reverse goal with
         | H : _ = Some ?x |- _ =>
             ok_wanted x; ok_known x;
             assert (ok x) by ok_prove H;
             ok_pairs
         end
with ok_prove H :=
  first
    [ ok_step H
    | eapply (for_each_ok _ _ _ _ H); [ok_goal | ok_body]
    | eapply (for_break_ok _ _ _ _ H); [ok_goal | ok_body]
    | eapply (run_loop_ok _ _ _ _ _ _ H); [ok_goal | ok_body1 | ok_body1]
    | eapply (mapM_ok _ _ _ H); ok_body0 ]
with ok_body0 :=
  let Hb := fresh "Hb" in
  repeat match goal with
         | H' : _ = Some ?x |- _ => ok_wanted x; ok_known x; clear H'
         end;
  intros ? ? Hb; cbv beta in Hb; run_inv Hb; split_types;
  simplify_eq; ok_fwd; ok_goal
with ok_body :=
  let Hb := fresh "Hb" in
  repeat match goal with
         | H' : _ = Some ?x |- _ => ok_wanted x; ok_known x; clear H'
         end;
  intros ? ? ? ? Hb ?; cbv beta in Hb; run_inv Hb; split_types;
  simplify_eq; ok_fwd; ok_goal
with ok_body1 :=
  let Hb := fresh "Hb" in
  repeat match goal with
         | H' : _ = Some ?x |- _ => ok_wanted x; ok_known x; clear H'
         end;
  intros ? ? Hb ?; cbv beta in Hb; run_inv Hb; split_types;
  simplify_eq; ok_fwd; ok_goal.

Ltac ok_solve := simplify_eq; ok_fwd; ok_goal.

(** *** The corner iterator without a ghost layer *)

Lemma probe_child_ok ctx side st st' :
  probe_child ctx side st = Some st' ->
  ctx_ghost ctx = [] -> ok st -> ok st'.
Proof.
  unfold probe_child. intros H Hg Hok.
  eapply (for_each_ok _ _ _ _ H Hok). clear H Hok.
  intros type [[la slot] hl] [[la' slot'] hl'] Hin H Hok.
  run_inv H; split_types; simplify_eq; ok_fwd;
    first [by ok_goal | by exfalso; eauto using ghost_cell_index].
Qed.

Lemma corner_candidate_local `{Bits} ctx level c la side arr first cnt r :
  corner_candidate ctx level c arr first cnt = Some r ->
  ctx_ghost ctx = [] ->
  ok la -> aget (quadrants la) (side * 2 + 1) = Some arr -> False.
Proof.
  unfold corner_candidate. intros H1 Hg Hok Ha.
  run_inv H1; eauto using ghost_cell_index.
Qed.

Lemma corner_side_type_ok `{Bits} ctx level side type st st' :
  corner_side_type ctx level side type st = Some st' ->
  ctx_ghost ctx = [] ->
  type = 0 \/ type = 1 -> ok st -> ok st'.
Proof.
  unfold corner_side_type. intros H1 Hg [-> | ->] Hok.
  all: destruct st as [[la cside] hl]; run_inv H1; simplify_eq;
    try done; ok_fwd;
    first [by ok_goal | by exfalso; eauto using corner_candidate_local].
Qed.

Ltac ok_corner_steps H ::=
  lazymatch type of H with
  | probe_child _ _ _ = Some _ => by_ok probe_child_ok H
  | corner_side_type _ _ _ _ _ = Some _ => by_ok @corner_side_type_ok H
  end.

Lemma corner_side_ok `{Bits} ctx level side st st' :
  corner_side ctx level side st = Some st' ->
  ctx_ghost ctx = [] -> ok st -> ok st'.
Proof.
  unfold corner_side. intros H1 Hg Hok.
  destruct st as [[la sides] hl]. run_inv H1. ok_solve.
Qed.

Ltac ok_corner_steps H ::=
  lazymatch type of H with
  | probe_child _ _ _ = Some _ => by_ok probe_child_ok H
  | corner_side_type _ _ _ _ _ = Some _ => by_ok @corner_side_type_ok H
  | corner_side _ _ _ _ = Some _ => by_ok @corner_side_ok H
  end.

Lemma corner_iterate_ok `{Bits} ctx args la r :
  p4est_corner_iterate ctx args la = Some r ->
  ctx_ghost ctx = [] -> ok args -> ok la -> ok r.
Proof.
  unfold p4est_corner_iterate. intros H1 Hg Hargs Hla.
  run_inv H1; ok_solve.
Qed.

Ltac ok_corner_steps H ::=
  lazymatch type of H with
  | probe_child _ _ _ = Some _ => by_ok probe_child_ok H
  | corner_side_type _ _ _ _ _ = Some _ => by_ok @corner_side_type_ok H
  | corner_side _ _ _ _ = Some _ => by_ok @corner_side_ok H
  | p4est_corner_iterate _ _ _ = Some _ => by_ok @corner_iterate_ok H
  end.

(** *** The edge iterator without a ghost layer *)

Lemma edge_args_ok_intro n s cc ca sides :
  ok sides -> ok ca ->
  ok {| e_num_sides := n; e_start_idx2 := s; e_common_corners := cc;
        e_corner_args := ca; e_sides := sides |}.
Proof. by split. Qed.

Lemma with_edge_sides_ok args sides :
  ok args -> ok sides -> ok (with_edge_sides args sides).
Proof. intros [_ Hc] Hs. by split. Qed.

Lemma with_edge_corner_args_ok args ca :
  ok args -> ok ca -> ok (with_edge_corner_args args ca).
Proof. intros [Hs _] Hc. by split. Qed.

Lemma edge_args_sides_ok (args : p8est_iter_edge_args_t) :
  ok args -> ok (e_sides args).
Proof. by intros [? ?]. Qed.

Lemma edge_args_corner_ok (args : p8est_iter_edge_args_t) ca :
  e_corner_args args = Some ca -> ok args -> ok ca.
Proof. intros Hc [_ Hca]. by rewrite Hc in Hca. Qed.

Lemma hanging_slots_ok n d : ok d -> ok (SideHanging (hanging_slots n d)).
Proof.
  assert (ok (SideHanging (replicate (Z.to_nat n) None))) as Hrep.
  { apply Forall_replicate. done. }
  intros Hd. destruct d as [| q | slots]; simpl; [done | done |].
  by case_decide.
Qed.

Lemma write_slot_ok d c slot d' :
  write_slot d c slot = Some d' -> ok d -> ok slot -> ok d'.
Proof.
  unfold write_slot. intros H Hd Hs. destruct d as [| q | slots]; [done.. |].
  run_inv H. simplify_eq. apply zinsert_inv in Hx as [_ ->].
  by apply Forall_insert.
Qed.

Lemma set_edge_side_ok sides side d sides' :
  set_edge_side sides side d = Some sides' -> ok sides -> ok d -> ok sides'.
Proof.
  unfold set_edge_side. intros H Hs Hd. run_inv H.
  eapply zinsert_ok; [done | done | done].
Qed.

Lemma edge_side_data_ok (s : p8est_iter_edge_side_t) : ok s -> ok (es_is s).
Proof. done. Qed.

#[global] Hint Resolve edge_args_ok_intro with_edge_sides_ok
  with_edge_corner_args_ok edge_args_sides_ok hanging_slots_ok
  edge_side_data_ok : okdb.

Ltac ok_edge_steps H ::=
  lazymatch type of H with
  | write_slot _ _ _ = Some _ => by_ok write_slot_ok H
  | set_edge_side _ _ _ = Some _ => by_ok set_edge_side_ok H
  | e_corner_args _ = Some _ => by_ok edge_args_corner_ok H
  end.

Lemma edge_candidates_ok cb_edge num_sides st r :
  edge_candidates cb_edge num_sides st = Some r -> ok st -> ok r.
Proof.
  unfold edge_candidates. intros H Hok.
  eapply (for_break_ok _ _ _ _ H Hok). clear H Hok. ok_body.
Qed.

Lemma edge_empty_sides_ok num_sides st r :
  edge_empty_sides num_sides st = Some r -> ok st -> ok r.
Proof.
  unfold edge_empty_sides. intros H Hok.
  eapply (for_each_ok _ _ _ _ H Hok). clear H Hok. ok_body.
Qed.

Lemma edge_hanging_ok `{Build} ctx level_idx2 num_sides cc st r :
  edge_hanging ctx level_idx2 num_sides cc st = Some r ->
  ctx_ghost ctx = [] -> ok st -> ok r.
Proof.
  unfold edge_hanging. intros H1 Hg Hok.
  eapply (for_each_ok _ _ _ _ H1 Hok). clear H1 Hok. ok_body.
Qed.

Ltac ok_edge_steps H ::=
  lazymatch type of H with
  | write_slot _ _ _ = Some _ => by_ok write_slot_ok H
  | set_edge_side _ _ _ = Some _ => by_ok set_edge_side_ok H
  | e_corner_args _ = Some _ => by_ok edge_args_corner_ok H
  | edge_candidates _ _ _ = Some _ => by_ok edge_candidates_ok H
  | edge_empty_sides _ _ = Some _ => by_ok edge_empty_sides_ok H
  | edge_hanging _ _ _ _ _ = Some _ => by_ok @edge_hanging_ok H
  end.

Lemma edge_body_ok `{Bits} ctx cb_edge args la level_idx2 r :
  edge_body ctx cb_edge args la level_idx2 = Some r ->
  ctx_ghost ctx = [] -> ok args -> ok la -> ok r.
Proof.
  unfold edge_body. intros H1 Hg Hargs Hla.
  run_inv H1; ok_solve.
Qed.

Lemma edge_change_ok `{Bits} ctx start_level st r :
  edge_change ctx start_level st = Some r ->
  ctx_ghost ctx = [] -> ok st -> ok r.
Proof.
  unfold edge_change. intros H1 Hg Hok.
  destruct st as [[[args la] level_idx2] tr].
  run_inv H1; ok_solve.
Qed.

Ltac ok_edge_steps H ::=
  lazymatch type of H with
  | write_slot _ _ _ = Some _ => by_ok write_slot_ok H
  | set_edge_side _ _ _ = Some _ => by_ok set_edge_side_ok H
  | e_corner_args _ = Some _ => by_ok edge_args_corner_ok H
  | edge_candidates _ _ _ = Some _ => by_ok edge_candidates_ok H
  | edge_empty_sides _ _ = Some _ => by_ok edge_empty_sides_ok H
  | edge_hanging _ _ _ _ _ = Some _ => by_ok @edge_hanging_ok H
  | edge_body _ _ _ _ _ = Some _ => by_ok @edge_body_ok H
  | edge_change _ _ _ = Some _ => by_ok @edge_change_ok H
  end.

Lemma edge_iterate_ok `{Bits} fuel ctx cbs args la r :
  p8est_edge_iterate fuel ctx cbs args la = Some r ->
  ctx_ghost ctx = [] -> ok args -> ok la -> ok r.
Proof.
  unfold p8est_edge_iterate. intros H1 Hg Hargs Hla.
  run_inv H1; ok_solve.
Qed.

Ltac ok_edge_steps H ::=
  lazymatch type of H with
  | write_slot _ _ _ = Some _ => by_ok write_slot_ok H
  | set_edge_side _ _ _ = Some _ => by_ok set_edge_side_ok H
  | e_corner_args _ = Some _ => by_ok edge_args_corner_ok H
  | edge_candidates _ _ _ = Some _ => by_ok edge_candidates_ok H
  | edge_empty_sides _ _ = Some _ => by_ok edge_empty_sides_ok H
  | edge_hanging _ _ _ _ _ = Some _ => by_ok @edge_hanging_ok H
  | edge_body _ _ _ _ _ = Some _ => by_ok @edge_body_ok H
  | edge_change _ _ _ = Some _ => by_ok @edge_change_ok H
  | p8est_edge_iterate _ _ _ _ _ = Some _ => by_ok @edge_iterate_ok H
  end.

(** *** The face iterator without a ghost layer *)

Lemma face_event_ok o sides :
  ok sides -> ok (EvFace {| fi_orientation := o; fi_sides := sides |}).
Proof. done. Qed.

Lemma face_args_ok_intro s n o ea ca i :
  ok (fi_sides i) -> ok ea -> ok ca ->
  ok {| f_start_idx2 := s; f_num_to_child := n; f_outside_face := o;
        f_edge_args := ea; f_corner_args := ca; f_info := i |}.
Proof. by split. Qed.

Lemma with_face_sides_ok args sides :
  ok args -> ok sides -> ok (with_face_sides args sides).
Proof. intros (_ & He & Hc) Hs. by split. Qed.

Lemma with_face_edge_args_ok args ea :
  ok args -> ok ea -> ok (with_face_edge_args args ea).
Proof. intros (Hs & _ & Hc) He. by split. Qed.

Lemma with_face_corner_args_ok args ca :
  ok args -> ok ca -> ok (with_face_corner_args args ca).
Proof. intros (Hs & He & _) Hc. by split. Qed.

Lemma face_args_sides_ok (args : p4est_iter_face_args_t) :
  ok args -> ok (fi_sides (f_info args)).
Proof. by intros (? & ? & ?). Qed.

Lemma face_args_edges_ok (args : p4est_iter_face_args_t) :
  ok args -> ok (f_edge_args args).
Proof. by intros (? & ? & ?). Qed.

Lemma face_args_corner_ok (args : p4est_iter_face_args_t) ca :
  f_corner_args args = Some ca -> ok args -> ok ca.
Proof. intros Hc (_ & _ & Hca). by rewrite Hc in Hca. Qed.

Lemma face_side_data_ok (s : p4est_iter_face_side_t) : ok s -> ok (fs_is s).
Proof. done. Qed.

Lemma set_face_side_ok sides side d sides' :
  set_face_side sides side d = Some sides' -> ok sides -> ok d -> ok sides'.
Proof.
  unfold set_face_side. intros H Hs Hd. run_inv H.
  eapply zinsert_ok; [done | done | done].
Qed.

Lemma full_candidate_ok side type la d :
  full_candidate (side * 2 + type) type la = Some d ->
  type = 0 \/ type = 1 -> ok la -> ok d.
Proof.
  unfold full_candidate. intros H [-> | ->] Hla; run_inv H; ok_solve.
Qed.

#[global] Hint Resolve face_event_ok face_args_ok_intro with_face_sides_ok
  with_face_edge_args_ok with_face_corner_args_ok face_args_sides_ok
  face_args_edges_ok face_side_data_ok : okdb.

Ltac ok_face_steps H ::=
  lazymatch type of H with
  | set_face_side _ _ _ = Some _ => by_ok set_face_side_ok H
  | f_corner_args _ = Some _ => by_ok face_args_corner_ok H
  | full_candidate _ _ _ = Some _ => by_ok full_candidate_ok H
  end.

Lemma face_opposite_ok orientation side type st r :
  face_opposite orientation side type st = Some r ->
  type = 0 \/ type = 1 -> ok st -> ok r.
Proof.
  unfold face_opposite. intros H Htype Hok.
  apply bind_Some in H as (x & Hx & H).
  assert (ok x) as Hx'.
  { eapply (for_break_ok _ _ _ _ Hx Hok). clear Hx Hok H.
    intros n_type [[[la sides] hl] evs] b Hin Hb Hok.
    assert (n_type = 0 \/ n_type = 1) as Hn
      by (apply elem_of_zrange in Hin; unfold ghost in Hin; lia).
    clear Hin. cbv beta in Hb. run_inv Hb; ok_solve. }
  destruct x as [[[[la sides] hl] evs] | st1]; run_inv H; ok_solve.
Qed.

Ltac ok_face_steps H ::=
  lazymatch type of H with
  | set_face_side _ _ _ = Some _ => by_ok set_face_side_ok H
  | f_corner_args _ = Some _ => by_ok face_args_corner_ok H
  | full_candidate _ _ _ = Some _ => by_ok full_candidate_ok H
  | face_opposite _ _ _ _ = Some _ => by_ok face_opposite_ok H
  end.

Lemma face_candidates_ok cb_face outside_face orientation limit st r :
  face_candidates cb_face outside_face orientation limit st = Some r ->
  ok st -> ok r.
Proof.
  unfold face_candidates. intros H Hok.
  eapply (for_break_ok _ _ _ _ H Hok). clear H Hok. ok_body.
Qed.

Lemma face_hanging_ok `{Bits} ctx num_to_child orientation level_idx2 limit
  st r :
  face_hanging ctx num_to_child orientation level_idx2 limit st = Some r ->
  ctx_ghost ctx = [] -> ok st -> ok r.
Proof.
  unfold face_hanging. intros H1 Hg Hok.
  eapply (for_break_ok _ _ _ _ H1 Hok). clear H1 Hok. ok_body.
Qed.

Ltac ok_face_steps H ::=
  lazymatch type of H with
  | set_face_side _ _ _ = Some _ => by_ok set_face_side_ok H
  | f_corner_args _ = Some _ => by_ok face_args_corner_ok H
  | full_candidate _ _ _ = Some _ => by_ok full_candidate_ok H
  | face_opposite _ _ _ _ = Some _ => by_ok face_opposite_ok H
  | face_candidates _ _ _ _ _ = Some _ => by_ok face_candidates_ok H
  | face_hanging _ _ _ _ _ _ = Some _ => by_ok @face_hanging_ok H
  end.

Lemma face_body_ok `{Bits} ctx cb_face st r :
  face_body ctx cb_face st = Some r ->
  ctx_ghost ctx = [] -> ok st -> ok r.
Proof.
  unfold face_body. intros H1 Hg Hok.
  destruct st as [[[args la] level_idx2] tr].
  run_inv H1; ok_solve.
Qed.

Lemma face_run_edges_ok `{Bits} fuel ctx cbs limit st r :
  face_run_edges fuel ctx cbs limit st = Some r ->
  ctx_ghost ctx = [] -> ok st -> ok r.
Proof.
  unfold face_run_edges. intros H1 Hg Hok.
  eapply (for_each_ok _ _ _ _ H1 Hok). clear H1 Hok. ok_body.
Qed.

Ltac ok_face_steps H ::=
  lazymatch type of H with
  | set_face_side _ _ _ = Some _ => by_ok set_face_side_ok H
  | f_corner_args _ = Some _ => by_ok face_args_corner_ok H
  | full_candidate _ _ _ = Some _ => by_ok full_candidate_ok H
  | face_opposite _ _ _ _ = Some _ => by_ok face_opposite_ok H
  | face_candidates _ _ _ _ _ = Some _ => by_ok face_candidates_ok H
  | face_hanging _ _ _ _ _ _ = Some _ => by_ok @face_hanging_ok H
  | face_body _ _ _ = Some _ => by_ok @face_body_ok H
  | face_run_edges _ _ _ _ _ = Some _ => by_ok @face_run_edges_ok H
  end.

Lemma face_change_ok `{Bits} fuel ctx cbs start_level st r :
  face_change fuel ctx cbs start_level st = Some r ->
  ctx_ghost ctx = [] -> ok st -> ok r.
Proof.
  unfold face_change. intros H1 Hg Hok.
  destruct st as [[[args la] level_idx2] tr].
  run_inv H1; ok_solve.
Qed.

Lemma face_prologue_ok `{Build} args la r :
  face_prologue args la = Some r -> ok la -> ok r.
Proof.
  unfold face_prologue. intros H1 Hla. run_inv H1; ok_solve.
Qed.

Ltac ok_face_steps H ::=
  lazymatch type of H with
  | set_face_side _ _ _ = Some _ => by_ok set_face_side_ok H
  | f_corner_args _ = Some _ => by_ok face_args_corner_ok H
  | full_candidate _ _ _ = Some _ => by_ok full_candidate_ok H
  | face_opposite _ _ _ _ = Some _ => by_ok face_opposite_ok H
  | face_candidates _ _ _ _ _ = Some _ => by_ok face_candidates_ok H
  | face_hanging _ _ _ _ _ _ = Some _ => by_ok @face_hanging_ok H
  | face_body _ _ _ = Some _ => by_ok @face_body_ok H
  | face_run_edges _ _ _ _ _ = Some _ => by_ok @face_run_edges_ok H
  | face_change _ _ _ _ _ = Some _ => by_ok @face_change_ok H
  | face_prologue _ _ = Some _ => by_ok @face_prologue_ok H
  end.

Lemma face_iterate_ok `{Bits} fuel ctx cbs args la r :
  p4est_face_iterate fuel ctx cbs args la = Some r ->
  ctx_ghost ctx = [] -> ok args -> ok la -> ok r.
Proof.
  unfold p4est_face_iterate. intros H1 Hg Hargs Hla.
  run_inv H1; ok_solve.
Qed.

Ltac ok_face_steps H ::=
  lazymatch type of H with
  | set_face_side _ _ _ = Some _ => by_ok set_face_side_ok H
  | f_corner_args _ = Some _ => by_ok face_args_corner_ok H
  | full_candidate _ _ _ = Some _ => by_ok full_candidate_ok H
  | face_opposite _ _ _ _ = Some _ => by_ok face_opposite_ok H
  | face_candidates _ _ _ _ _ = Some _ => by_ok face_candidates_ok H
  | face_hanging _ _ _ _ _ _ = Some _ => by_ok @face_hanging_ok H
  | face_body _ _ _ = Some _ => by_ok @face_body_ok H
  | face_run_edges _ _ _ _ _ = Some _ => by_ok @face_run_edges_ok H
  | face_change _ _ _ _ _ = Some _ => by_ok @face_change_ok H
  | face_prologue _ _ = Some _ => by_ok @face_prologue_ok H
  | p4est_face_iterate _ _ _ _ _ = Some _ => by_ok @face_iterate_ok H
  end.


(** *** Setting up the iterators *)

Lemma ok_map_unset {A B} `{Ok B} (f : A -> B) (l : list A) :
  (forall a, ok (f a)) -> ok (map f l).
Proof. intros Hf. apply Forall_fmap, Forall_forall. intros a _. apply Hf. Qed.

Lemma ok_map_fst {A B} `{Ok A, Ok B} (l : list (A * B)) :
  ok l -> ok (map fst l).
Proof.
  intros Hl. apply Forall_fmap. eapply Forall_impl; [exact Hl |].
  by intros [a b] [Ha _].
Qed.

Lemma ok_map_fst3 {A B C D} `{Ok A, Ok B, Ok C, Ok D}
  (l : list (A * B * C * D)) :
  ok l -> ok (map (fun r => r.1.1.1) l).
Proof.
  intros Hl. apply Forall_fmap. eapply Forall_impl; [exact Hl |].
  by intros [[[a b] c] d] [[[Ha _] _] _].
Qed.

Lemma ok_map_fst2 {A B C} `{Ok A, Ok B, Ok C} (l : list (A * B * C)) :
  ok l -> ok (map (fun r => r.1.1) l).
Proof.
  intros Hl. apply Forall_fmap. eapply Forall_impl; [exact Hl |].
  by intros [[a b] c] [[Ha _] _].
Qed.

Lemma ok_flat_map {A B} `{Ok B} (f : A -> list B) (l : list A) :
  (forall a, ok (f a)) -> ok (flat_map f l).
Proof.
  intros Hf. apply Forall_flat_map, Forall_forall. intros a _. apply Hf.
Qed.

#[global] Hint Resolve ok_map_fst ok_map_fst2 ok_map_fst3 : okdb.

Lemma corner_sides_ok `{Bits} conn t c : ok (corner_sides conn t c).
Proof.
  unfold corner_sides. repeat apply ok_app.
  - by repeat constructor.
  - apply ok_flat_map. intros i.
    destruct (p4est_quadrant_face_neighbor_extra _ _ _ _) as [nt q].
    case_decide; by repeat constructor.
  - destruct P4_TO_P8; [| constructor].
    apply ok_flat_map. intros i. apply ok_map_unset. by intros [q nt].
  - apply ok_map_unset. by intros [q nt].
Qed.

Lemma edge_sides_ok `{Bits} conn t e o :
  ok (map (fun r => r.1.1) (edge_sides conn t e o)).
Proof.
  unfold edge_sides. rewrite !map_app. repeat apply ok_app.
  - by repeat constructor.
  - rewrite flat_map_concat_map, concat_map, map_map, <- flat_map_concat_map.
    apply ok_flat_map. intros i.
    destruct (p4est_quadrant_face_neighbor_extra _ _ _ _) as [nt q].
    case_decide; by repeat constructor.
  - rewrite map_map. apply ok_map_unset. by intros [q nt].
Qed.

Lemma init_loop_sides_ok ctx ghost_offsets treeids with_corner la la' :
  init_loop_sides ctx ghost_offsets treeids with_corner la = Some la' ->
  ok la -> ok la'.
Proof.
  unfold init_loop_sides. intros H Hla. run_inv H. ok_solve.
Qed.

Lemma init_loop_edge_ok ctx ghost_offsets sides la la' :
  p8est_iter_init_loop_edge ctx ghost_offsets sides la = Some la' ->
  ok la -> ok la'.
Proof. apply init_loop_sides_ok. Qed.

Lemma init_loop_corner_ok ctx ghost_offsets sides la la' :
  p4est_iter_init_loop_corner ctx ghost_offsets sides la = Some la' ->
  ok la -> ok la'.
Proof. apply init_loop_sides_ok. Qed.

Lemma init_loop_volume_ok `{Build} ctx ghost_offsets t la la' :
  p4est_iter_init_loop_volume ctx ghost_offsets t la = Some la' ->
  ok la -> ok la'.
Proof.
  unfold p4est_iter_init_loop_volume. intros H1 Hla. run_inv H1; ok_solve.
Qed.

Lemma init_loop_face_ok `{Build} ctx ghost_offsets t nt la la' :
  p4est_iter_init_loop_face ctx ghost_offsets t nt la = Some la' ->
  ok la -> ok la'.
Proof.
  unfold p4est_iter_init_loop_face. intros H1 Hla. run_inv H1; ok_solve.
Qed.

Lemma init_loop_outside_face_ok `{Build} ctx ghost_offsets t la la' :
  p4est_iter_init_loop_outside_face ctx ghost_offsets t la = Some la' ->
  ok la -> ok la'.
Proof.
  unfold p4est_iter_init_loop_outside_face. intros H1 Hla.
  run_inv H1; ok_solve.
Qed.

Lemma init_corner_from_edge_ok num_sides cc sides ca :
  p8est_iter_init_corner_from_edge num_sides cc sides = Some ca -> ok ca.
Proof.
  unfold p8est_iter_init_corner_from_edge. intros H. run_inv H.
  ok_solve.
Qed.

Lemma init_corner_from_face_ok `{Build} num_to_child outside_face fsides ca :
  p4est_iter_init_corner_from_face num_to_child outside_face fsides
  = Some ca -> ok ca.
Proof.
  unfold p4est_iter_init_corner_from_face. intros H1. run_inv H1.
  ok_solve.
Qed.

Lemma init_corner_from_volume_ok `{Build} t :
  ok (p4est_iter_init_corner_from_volume t).
Proof. apply ok_map_unset. done. Qed.

Ltac ok_init_steps H ::=
  lazymatch type of H with
  | init_loop_sides _ _ _ _ _ = Some _ => by_ok init_loop_sides_ok H
  | p8est_iter_init_loop_edge _ _ _ _ = Some _ => by_ok init_loop_edge_ok H
  | p4est_iter_init_loop_corner _ _ _ _ = Some _ =>
      by_ok init_loop_corner_ok H
  | p4est_iter_init_loop_volume _ _ _ _ = Some _ =>
      by_ok @init_loop_volume_ok H
  | p4est_iter_init_loop_face _ _ _ _ _ = Some _ =>
      by_ok @init_loop_face_ok H
  | p4est_iter_init_loop_outside_face _ _ _ _ = Some _ =>
      by_ok @init_loop_outside_face_ok H
  | p8est_iter_init_corner_from_edge _ _ _ = Some _ =>
      by_ok init_corner_from_edge_ok H
  | p4est_iter_init_corner_from_face _ _ _ = Some _ =>
      by_ok @init_corner_from_face_ok H
  end.

#[global] Hint Resolve corner_sides_ok edge_sides_ok
  init_corner_from_volume_ok : okdb.

Lemma init_corner_ok `{Bits} ctx ghost_offsets la t c r :
  p4est_iter_init_corner ctx ghost_offsets la t c = Some r ->
  ok la -> ok r.
Proof.
  unfold p4est_iter_init_corner. intros H1 Hla. run_inv H1; ok_solve.
Qed.

Lemma init_edge_ok `{Bits} ctx ghost_offsets la t e r :
  p8est_iter_init_edge ctx ghost_offsets la t e = Some r ->
  ok la -> ok r.
Proof.
  unfold p8est_iter_init_edge. intros H1 Hla. run_inv H1; ok_solve.
Qed.

Lemma init_edge_from_face_ok `{Bits} cb_corner num_to_child outside_face
  fsides dir side ea :
  p8est_iter_init_edge_from_face cb_corner num_to_child outside_face fsides
    dir side = Some ea -> ok ea.
Proof.
  unfold p8est_iter_init_edge_from_face. intros H1. run_inv H1; ok_solve.
Qed.

Ltac ok_init_steps H ::=
  lazymatch type of H with
  | init_loop_sides _ _ _ _ _ = Some _ => by_ok init_loop_sides_ok H
  | p8est_iter_init_loop_edge _ _ _ _ = Some _ => by_ok init_loop_edge_ok H
  | p4est_iter_init_loop_corner _ _ _ _ = Some _ =>
      by_ok init_loop_corner_ok H
  | p4est_iter_init_loop_volume _ _ _ _ = Some _ =>
      by_ok @init_loop_volume_ok H
  | p4est_iter_init_loop_face _ _ _ _ _ = Some _ =>
      by_ok @init_loop_face_ok H
  | p4est_iter_init_loop_outside_face _ _ _ _ = Some _ =>
      by_ok @init_loop_outside_face_ok H
  | p8est_iter_init_corner_from_edge _ _ _ = Some _ =>
      by_ok init_corner_from_edge_ok H
  | p4est_iter_init_corner_from_face _ _ _ = Some _ =>
      by_ok @init_corner_from_face_ok H
  | p4est_iter_init_corner _ _ _ _ _ = Some _ => by_ok @init_corner_ok H
  | p8est_iter_init_edge _ _ _ _ _ = Some _ => by_ok @init_edge_ok H
  | p8est_iter_init_edge_from_face _ _ _ _ _ _ = Some _ =>
      by_ok @init_edge_from_face_ok H
  end.

Lemma init_face_children_ok `{Bits} la num_to_child outside_face fsides r :
  init_face_children la num_to_child outside_face fsides = Some r -> ok r.
Proof.
  unfold init_face_children. intros H1. run_inv H1; ok_solve.
Qed.

Lemma init_face_ok `{Bits} ctx ghost_offsets la args0 t f r :
  p4est_iter_init_face ctx ghost_offsets la args0 t f = Some r ->
  ok la -> ok r.
Proof.
  unfold p4est_iter_init_face. intros H1 Hla.
  run_inv H1; simplify_eq;
    repeat match goal with
           | Hc : init_face_children _ _ _ _ = Some _ |- _ =>
               apply init_face_children_ok in Hc
           end;
    ok_solve.
Qed.

Lemma init_face_from_volume_ok `{Bits} la treeid dir pos fa :
  p4est_iter_init_face_from_volume la treeid dir pos = Some fa -> ok fa.
Proof.
  unfold p4est_iter_init_face_from_volume. intros H1.
  run_inv H1; simplify_eq.
  apply init_face_children_ok in Hx. ok_solve.
Qed.

Lemma init_edge_from_volume_ok `{Bits} la treeid dir side ea :
  p8est_iter_init_edge_from_volume la treeid dir side = Some ea -> ok ea.
Proof.
  unfold p8est_iter_init_edge_from_volume. intros H1.
  assert (forall d, ok (map (fun i =>
            {| es_treeid := treeid; es_edge := 4 * d + (3 - i);
               es_orientation := 0; es_is := SideUnset |}) (zrange 0 4)))
    as Hsides by (intros d; by apply ok_map_unset).
  run_inv H1; ok_solve.
Qed.

Ltac ok_init_steps H ::=
  lazymatch type of H with
  | init_loop_sides _ _ _ _ _ = Some _ => by_ok init_loop_sides_ok H
  | p8est_iter_init_loop_edge _ _ _ _ = Some _ => by_ok init_loop_edge_ok H
  | p4est_iter_init_loop_corner _ _ _ _ = Some _ =>
      by_ok init_loop_corner_ok H
  | p4est_iter_init_loop_volume _ _ _ _ = Some _ =>
      by_ok @init_loop_volume_ok H
  | p4est_iter_init_loop_face _ _ _ _ _ = Some _ =>
      by_ok @init_loop_face_ok H
  | p4est_iter_init_loop_outside_face _ _ _ _ = Some _ =>
      by_ok @init_loop_outside_face_ok H
  | p8est_iter_init_corner_from_edge _ _ _ = Some _ =>
      by_ok init_corner_from_edge_ok H
  | p4est_iter_init_corner_from_face _ _ _ = Some _ =>
      by_ok @init_corner_from_face_ok H
  | p4est_iter_init_corner _ _ _ _ _ = Some _ => by_ok @init_corner_ok H
  | p8est_iter_init_edge _ _ _ _ _ = Some _ => by_ok @init_edge_ok H
  | p8est_iter_init_edge_from_face _ _ _ _ _ _ = Some _ =>
      by_ok @init_edge_from_face_ok H
  | init_face_children _ _ _ _ = Some _ => by_ok @init_face_children_ok H
  | p4est_iter_init_face _ _ _ _ _ _ = Some _ => by_ok @init_face_ok H
  | p4est_iter_init_face_from_volume _ _ _ _ = Some _ =>
      by_ok @init_face_from_volume_ok H
  | p8est_iter_init_edge_from_volume _ _ _ _ = Some _ =>
      by_ok @init_edge_from_volume_ok H
  end.

Lemma volume_args_ok_intro s fa ea ca i :
  ok fa -> ok ea -> ok ca ->
  ok {| v_start_idx2 := s; v_face_args := fa; v_edge_args := ea;
        v_corner_args := ca; v_info := i |}.
Proof. by split. Qed.

Lemma with_volume_info_ok args info :
  ok args -> ok (with_volume_info args info).
Proof. done. Qed.

Lemma with_volume_face_args_ok args fa :
  ok args -> ok fa -> ok (with_volume_face_args args fa).
Proof. intros (_ & He & Hc) Hf. by split. Qed.

Lemma with_volume_edge_args_ok args ea :
  ok args -> ok ea -> ok (with_volume_edge_args args ea).
Proof. intros (Hf & _ & Hc) He. by split. Qed.

Lemma with_volume_corner_args_ok args ca :
  ok args -> ok ca -> ok (with_volume_corner_args args ca).
Proof. intros (Hf & He & _) Hc. by split. Qed.

Lemma volume_args_faces_ok (args : p4est_iter_volume_args_t) :
  ok args -> ok (v_face_args args).
Proof. by intros (? & ? & ?). Qed.

Lemma volume_args_edges_ok (args : p4est_iter_volume_args_t) :
  ok args -> ok (v_edge_args args).
Proof. by intros (? & ? & ?). Qed.

Lemma volume_args_corner_ok (args : p4est_iter_volume_args_t) ca :
  v_corner_args args = Some ca -> ok args -> ok ca.
Proof. intros Hc (_ & _ & Hca). by rewrite Hc in Hca. Qed.

Lemma volume_info_any (i : p4est_iter_volume_info_t) : ok i.
Proof. done. Qed.

#[global] Hint Resolve volume_args_ok_intro with_volume_info_ok
  with_volume_face_args_ok with_volume_edge_args_ok
  with_volume_corner_args_ok volume_args_faces_ok volume_args_edges_ok
  volume_info_any : okdb.

Lemma init_volume_ok `{Bits} ctx ghost_offsets la t r :
  p4est_iter_init_volume ctx ghost_offsets la t = Some r ->
  ok la -> ok r.
Proof.
  unfold p4est_iter_init_volume. intros H1 Hla. run_inv H1; ok_solve.
Qed.

(** *** The volume iterator without a ghost layer *)

Lemma volume_candidates_ok ctx cb_volume st r :
  volume_candidates ctx cb_volume st = Some r ->
  ctx_ghost ctx = [] -> ok st -> ok r.
Proof.
  unfold volume_candidates. intros H Hg Hok.
  eapply (for_break_ok _ _ _ _ H Hok). clear H Hok. ok_body.
Qed.

Ltac ok_volume_steps H ::=
  lazymatch type of H with
  | v_corner_args _ = Some _ => by_ok volume_args_corner_ok H
  | p4est_iter_init_volume _ _ _ _ = Some _ => by_ok @init_volume_ok H
  | volume_candidates _ _ _ = Some _ => by_ok volume_candidates_ok H
  end.

Lemma volume_body_ok `{Bits} ctx cb_volume st r :
  volume_body ctx cb_volume st = Some r ->
  ctx_ghost ctx = [] -> ok st -> ok r.
Proof.
  unfold volume_body. intros H1 Hg Hok.
  destruct st as [[[args la] level_idx2] tr].
  run_inv H1; ok_solve.
Qed.

Lemma volume_run_faces_ok `{Bits} fuel ctx cbs st r :
  volume_run_faces fuel ctx cbs st = Some r ->
  ctx_ghost ctx = [] -> ok st -> ok r.
Proof.
  unfold volume_run_faces. intros H1 Hg Hok.
  eapply (for_each_ok _ _ _ _ H1 Hok). clear H1 Hok. ok_body.
Qed.

Lemma volume_run_edges_ok `{Bits} fuel ctx cbs st r :
  volume_run_edges fuel ctx cbs st = Some r ->
  ctx_ghost ctx = [] -> ok st -> ok r.
Proof.
  unfold volume_run_edges. intros H1 Hg Hok.
  eapply (for_each_ok _ _ _ _ H1 Hok). clear H1 Hok. ok_body.
Qed.

Ltac ok_volume_steps H ::=
  lazymatch type of H with
  | v_corner_args _ = Some _ => by_ok volume_args_corner_ok H
  | p4est_iter_init_volume _ _ _ _ = Some _ => by_ok @init_volume_ok H
  | volume_candidates _ _ _ = Some _ => by_ok volume_candidates_ok H
  | volume_body _ _ _ = Some _ => by_ok @volume_body_ok H
  | volume_run_faces _ _ _ _ = Some _ => by_ok @volume_run_faces_ok H
  | volume_run_edges _ _ _ _ = Some _ => by_ok @volume_run_edges_ok H
  end.

Lemma volume_change_ok `{Bits} fuel ctx cbs start_level st r :
  volume_change fuel ctx cbs start_level st = Some r ->
  ctx_ghost ctx = [] -> ok st -> ok r.
Proof.
  unfold volume_change. intros H1 Hg Hok.
  destruct st as [[[args la] level_idx2] tr].
  run_inv H1; ok_solve.
Qed.

Ltac ok_volume_steps H ::=
  lazymatch type of H with
  | v_corner_args _ = Some _ => by_ok volume_args_corner_ok H
  | p4est_iter_init_volume _ _ _ _ = Some _ => by_ok @init_volume_ok H
  | volume_candidates _ _ _ = Some _ => by_ok volume_candidates_ok H
  | volume_body _ _ _ = Some _ => by_ok @volume_body_ok H
  | volume_run_faces _ _ _ _ = Some _ => by_ok @volume_run_faces_ok H
  | volume_run_edges _ _ _ _ = Some _ => by_ok @volume_run_edges_ok H
  | volume_change _ _ _ _ _ = Some _ => by_ok @volume_change_ok H
  end.

Lemma volume_iterate_ok `{Bits} fuel ctx cbs args la r :
  p4est_volume_iterate fuel ctx cbs args la = Some r ->
  ctx_ghost ctx = [] -> ok args -> ok la -> ok r.
Proof.
  unfold p4est_volume_iterate. intros H1 Hg Hargs Hla.
  run_inv H1; ok_solve.
Qed.

(** *** The whole traversal without a ghost layer *)

Ltac ok_volume_steps H ::=
  lazymatch type of H with
  | v_corner_args _ = Some _ => by_ok volume_args_corner_ok H
  | p4est_iter_init_volume _ _ _ _ = Some _ => by_ok @init_volume_ok H
  | volume_candidates _ _ _ = Some _ => by_ok volume_candidates_ok H
  | volume_body _ _ _ = Some _ => by_ok @volume_body_ok H
  | volume_run_faces _ _ _ _ = Some _ => by_ok @volume_run_faces_ok H
  | volume_run_edges _ _ _ _ = Some _ => by_ok @volume_run_edges_ok H
  | volume_change _ _ _ _ _ = Some _ => by_ok @volume_change_ok H
  | p4est_volume_iterate _ _ _ _ _ = Some _ => by_ok @volume_iterate_ok H
  end.

Lemma iterate_tree_faces_ok `{Bits} fuel ctx cbs tree_first_ghost t st r :
  iterate_tree_faces fuel ctx cbs tree_first_ghost t st = Some r ->
  ctx_ghost ctx = [] -> ok st -> ok r.
Proof.
  unfold iterate_tree_faces. intros H1 Hg Hok.
  eapply (for_each_ok _ _ _ _ H1 Hok). clear H1 Hok. ok_body.
Qed.

Lemma iterate_tree_edges_ok `{Bits} fuel ctx cbs tree_first_ghost t st r :
  iterate_tree_edges fuel ctx cbs tree_first_ghost t st = Some r ->
  ctx_ghost ctx = [] -> ok st -> ok r.
Proof.
  unfold iterate_tree_edges. intros H1 Hg Hok.
  eapply (for_each_ok _ _ _ _ H1 Hok). clear H1 Hok. ok_body.
Qed.

Lemma iterate_tree_corners_ok `{Bits} ctx tree_first_ghost t st r :
  iterate_tree_corners ctx tree_first_ghost t st = Some r ->
  ctx_ghost ctx = [] -> ok st -> ok r.
Proof.
  unfold iterate_tree_corners. intros H1 Hg Hok.
  eapply (for_each_ok _ _ _ _ H1 Hok). clear H1 Hok. ok_body.
Qed.

Ltac ok_tree_steps H ::=
  lazymatch type of H with
  | iterate_tree_faces _ _ _ _ _ _ = Some _ =>
      by_ok @iterate_tree_faces_ok H
  | iterate_tree_edges _ _ _ _ _ _ = Some _ =>
      by_ok @iterate_tree_edges_ok H
  | iterate_tree_corners _ _ _ _ = Some _ =>
      by_ok @iterate_tree_corners_ok H
  end.

Lemma iterate_tree_ok `{Bits} fuel ctx cbs tree_first_ghost t st r :
  iterate_tree fuel ctx cbs tree_first_ghost t st = Some r ->
  ctx_ghost ctx = [] -> ok st -> ok r.
Proof.
  unfold iterate_tree. intros H1 Hg Hok.
  destruct st as [[la face_args] tr].
  run_inv H1; ok_solve.
Qed.

Lemma loop_args_new_ok `{Build} conn cb_edge cb_corner num_procs la :
  p4est_iter_loop_args_new conn cb_edge cb_corner num_procs = Some la ->
  ok la.
Proof.
  unfold p4est_iter_loop_args_new. intros H1. run_inv H1. simplify_eq.
  split.
  - intros side arr. simpl. unfold aget. intros Ha.
    destruct (zlookup _ _) as [o |] eqn:Hl; [| done]. simpl in Ha. subst o.
    apply zlookup_Some in Hl as [_ Hl].
    apply list_lookup_fmap_Some in Hl as (i & Hi & Hl).
    case_decide; by simplify_eq.
  - intros side p. simpl. unfold aget, P4EST_ALLOC. intros Ha.
    destruct (zlookup _ _) as [o |] eqn:Hl; [| done]. simpl in Ha. subst o.
    apply zlookup_Some in Hl as [_ Hl].
    by apply lookup_replicate in Hl as [? _].
Qed.

Lemma face_args_uninit_ok `{Build} : ok face_args_uninit.
Proof. repeat split; constructor. Qed.

Lemma volume_iterate_simple_ok p4est tr :
  p4est_volume_iterate_simple p4est = Some tr -> ok tr.
Proof.
  unfold p4est_volume_iterate_simple. intros H.
  eapply (for_each_ok _ _ _ _ H); [constructor |].
  intros t a b _ Hb Ha. run_inv Hb. simplify_eq.
  apply ok_app; [done |]. by apply ok_map_unset.
Qed.

#[global] Hint Resolve face_args_uninit_ok : okdb.

Ltac ok_tree_steps H ::=
  lazymatch type of H with
  | iterate_tree_faces _ _ _ _ _ _ = Some _ =>
      by_ok @iterate_tree_faces_ok H
  | iterate_tree_edges _ _ _ _ _ _ = Some _ =>
      by_ok @iterate_tree_edges_ok H
  | iterate_tree_corners _ _ _ _ = Some _ =>
      by_ok @iterate_tree_corners_ok H
  | iterate_tree _ _ _ _ _ _ = Some _ => by_ok @iterate_tree_ok H
  | p4est_iter_loop_args_new _ _ _ _ = Some _ => by_ok @loop_args_new_ok H
  end.

Lemma iterate_search_ok `{Bits} fuel p4est cbs tr :
  p4est_iterate_search fuel p4est [] cbs = Some tr -> ok tr.
Proof.
  unfold p4est_iterate_search. intros H1. run_inv H1. ok_solve.
Qed.

(** X1.  Without a ghost layer no callback is handed a ghost quadrant: when
    [p4est_iterate] is called with [Ghost_layer == NULL] or with an empty
    ghost array, every side of every volume, face, edge and corner callback
    either names no quadrant ([quad == NULL]) or is marked [is_local]. *)
Theorem iterate_without_ghosts_reports_local `{Bits} (fuel : nat)
  (p4est : p4est_t) (Ghost_layer : option (list p4est_quadrant_t))
  (cbs : callbacks) (tr : list iter_event) :
  Ghost_layer = None \/ Ghost_layer = Some [] ->
  p4est_iterate fuel p4est Ghost_layer cbs = Some tr ->
  Forall event_not_ghost tr.
Proof.
  intros Hgl Hrun.
  assert (p4est_iterate fuel p4est (Some []) cbs = Some tr) as Hrun'
    by (by destruct Hgl as [-> | ->]).
  clear Hrun Hgl. unfold p4est_iterate in Hrun'.
  case_decide; [simplify_eq; constructor |].
  destruct (negb (iter_face cbs) && _ && _).
  - destruct (negb (iter_volume cbs)); [simplify_eq; constructor |].
    by apply volume_iterate_simple_ok in Hrun'.
  - by apply iterate_search_ok in Hrun'.
Qed.

Lemma iterate_without_ghosts_reports_local_witness :
  exists tr,
    @p4est_iterate ex_build ex_bits 40 ex_forest3 None ex_all_callbacks
    = Some tr
    /\ Forall event_not_ghost tr /\ tr <> [].
Proof.
  eexists. split; [vm_compute; reflexivity |]. split; [| done].
  eapply (@iterate_without_ghosts_reports_local ex_build ex_bits 40
            ex_forest3 None ex_all_callbacks);
    [left; reflexivity | vm_compute; reflexivity].
Defined.

(** ** The binary search [p4est_int64_lower_bound] *)

Lemma int_result_Some (z : Z) :
  INT_MIN <= z <= INT_MAX -> int_result z = Some z.
Proof. intros Hz. unfold int_result. by rewrite option_guard_True. Qed.

Lemma int_result_inv (z r : Z) : int_result z = Some r -> r = z.
Proof.
  unfold int_result. intros H. apply bind_Some in H as (? & _ & H).
  by simplify_eq.
Qed.

Lemma half_between (lo hi : Z) :
  0 <= lo <= hi -> lo <= (lo + hi) `quot` 2 <= hi.
Proof.
  intros H. pose proof (Z.quot_rem' (lo + hi) 2) as Hq.
  pose proof (Z.rem_bound_pos (lo + hi) 2). lia.
Qed.

Lemma half_up_between (lo hi : Z) :
  0 <= lo <= hi -> lo <= (lo + hi + 1) `quot` 2 <= hi.
Proof.
  intros H. pose proof (Z.quot_rem' (lo + hi + 1) 2) as Hq.
  pose proof (Z.rem_bound_pos (lo + hi + 1) 2). lia.
Qed.

(** The loop with its invariant: the guess lies between the bounds, the
    element below [k_low] is smaller than the target, and the element at
    [k_high] is not, unless [k_high] is still the last position. *)
Lemma lower_bound_loop_total (target : Z) (array : list Z) (size : Z) :
  size = Z.of_nat (length array) -> size <= 2 ^ 30 ->
  forall (fuel : nat) (k_low k_high guess : Z),
    0 <= k_low <= guess -> guess <= k_high < size ->
    (k_low = 0
     \/ exists y, zlookup array (k_low - 1) = Some y /\ y < target) ->
    (k_high = size - 1
     \/ exists x, zlookup array k_high = Some x /\ target <= x) ->
    (Z.to_nat (k_high - k_low + 1) <= fuel)%nat ->
    exists r,
      lower_bound_loop fuel target array k_low k_high guess = Some r
      /\ ((r = -1
           /\ exists x, zlookup array (size - 1) = Some x /\ x < target)
          \/ lower_bound_at target array r).
Proof.
  intros Hsize Hmax. unfold INT_MIN, INT_MAX in *.
  induction fuel as [| n IH]; intros k_low k_high guess Hlo Hhi HA HB Hfuel;
    [lia |].
  simpl. unfold lower_bound_body.
  destruct (zlookup_is_Some array guess) as [cur Hcur]; [lia |].
  rewrite Hcur. simpl.
  destruct (decide (target <= cur)) as [Hle | Hgt].
  - destruct (decide (guess > 0)) as [Hpos | Hzero].
    + destruct (zlookup_is_Some array (guess - 1)) as [prev Hprev]; [lia |].
      rewrite Hprev. simpl.
      destruct (decide (target <= prev)) as [Hp | Hp].
      * rewrite bool_decide_eq_true_2 by done.
        assert (k_low < guess) as Hlt.
        { destruct HA as [-> | (y & Hy & Hyt)]; [lia |].
          destruct (decide (k_low = guess)) as [-> | ?]; [| lia].
          rewrite Hprev in Hy. simplify_eq. lia. }
        rewrite (int_result_Some (guess - 1)) by (unfold INT_MIN, INT_MAX; lia).
        simpl.
        rewrite (int_result_Some (k_low + (guess - 1)))
          by (unfold INT_MIN, INT_MAX; lia).
        simpl.
        rewrite (int_result_Some (k_low + (guess - 1) + 1))
          by (unfold INT_MIN, INT_MAX; lia).
        simpl.
        pose proof (half_up_between k_low (guess - 1)) as Hhalf.
        apply IH; [lia | lia | done | | lia].
        right. by exists prev.
      * rewrite bool_decide_eq_false_2 by done.
        rewrite decide_False by lia.
        eexists. split; [done |]. right.
        exists cur. split; [done |]. split; [done |].
        right. exists prev. split; [done | lia].
    + rewrite decide_False by lia.
      eexists. split; [done |]. right.
      exists cur. split; [done |]. split; [done |]. left. lia.
  - rewrite decide_True by lia.
    rewrite (int_result_Some (guess + 1)) by (unfold INT_MIN, INT_MAX; lia).
    simpl.
    destruct (decide (guess + 1 > k_high)) as [Hend | Hmore].
    + eexists. split; [done |]. left. split; [done |].
      assert (guess = k_high) as -> by lia.
      destruct HB as [-> | (x & Hx & Hxt)].
      * exists cur. split; [done | lia].
      * rewrite Hcur in Hx. simplify_eq. lia.
    + rewrite (int_result_Some (guess + 1 + k_high))
        by (unfold INT_MIN, INT_MAX; lia).
      simpl.
      pose proof (half_between (guess + 1) k_high) as Hhalf.
      apply IH; [lia | lia | | done | lia].
      right. exists cur. replace (guess + 1 - 1) with guess by lia.
      split; [done | lia].
Qed.

(** On an array in ascending order a position that [lower_bound_at]
    describes is the first one whose element is at least the target. *)
Lemma lower_bound_at_first (target : Z) (a : list Z) (r : Z) :
  sorted_array a -> lower_bound_at target a r ->
  forall i x, zlookup a i = Some x -> (target <= x <-> r <= i).
Proof.
  intros Hs (xr & Hr & Hxr & Hprev) i x Hi. split.
  - intros Hx. destruct (decide (r <= i)) as [? | Hlt]; [done |].
    destruct Hprev as [-> | (y & Hy & Hyt)].
    + apply zlookup_lt in Hi. lia.
    + assert (x <= y) by (eapply (Hs i (r - 1)); [lia | done | done]). lia.
  - intros Hge. assert (xr <= x) by (eapply (Hs r i); done). lia.
Qed.

(** X2.  Total correctness on a sorted array.  For a non-empty array of at most
    [2^30] elements in ascending order and a first guess inside it,
    [p4est_int64_lower_bound] returns after at most [size] rounds: [-1]
    when every element is smaller than the target, otherwise the first
    position whose element is at least the target. *)
Theorem lower_bound_sorted_first_position (fuel : nat) (target : Z)
  (array : list Z) (size guess : Z) :
  size = Z.of_nat (length array) -> 0 < size <= 2 ^ 30 ->
  0 <= guess < size -> sorted_array array ->
  (Z.to_nat size <= fuel)%nat ->
  exists r,
    p4est_int64_lower_bound fuel target array size guess = Some r
    /\ ((r = -1 /\ forall i x, zlookup array i = Some x -> x < target)
        \/ (0 <= r < size
            /\ forall i x, zlookup array i = Some x ->
                 (target <= x <-> r <= i))).
Proof.
  intros Hsize Hbound Hguess Hsorted Hfuel.
  unfold p4est_int64_lower_bound.
  rewrite (int_result_Some (size - 1)) by (unfold INT_MIN, INT_MAX; lia).
  simpl.
  destruct (lower_bound_loop_total target array size Hsize
              ltac:(lia) fuel 0 (size - 1) guess)
    as (r & Hrun & Hr); [lia | lia | by left | by left | lia |].
  exists r. split; [done |].
  destruct Hr as [[-> (x & Hx & Hxt)] | Hat].
  - left. split; [done |]. intros i y Hi.
    assert (y <= x); [| lia].
    eapply (Hsorted i (size - 1)); [| done | done].
    apply zlookup_lt in Hi. lia.
  - right. split.
    + destruct Hat as (x & Hx & _). apply zlookup_lt in Hx. lia.
    + by apply lower_bound_at_first.
Qed.

Lemma lower_bound_sorted_first_position_witness :
  p4est_int64_lower_bound 4 3 [1; 3; 3; 7] 4 2 = Some 1
  /\ exists r,
       p4est_int64_lower_bound 4 3 [1; 3; 3; 7] 4 2 = Some r
       /\ ((r = -1 /\ forall i x, zlookup [1; 3; 3; 7] i = Some x -> x < 3)
           \/ (0 <= r < 4
               /\ forall i x, zlookup [1; 3; 3; 7] i = Some x ->
                    (3 <= x <-> r <= i))).
Proof.
  split; [reflexivity |].
  apply (lower_bound_sorted_first_position 4 3 [1; 3; 3; 7] 4 2);
    [reflexivity | lia | lia | | simpl; lia].
  intros i j x y Hij Hi Hj.
  assert (0 <= i < 4) as Hib by (apply zlookup_lt in Hi; simpl in Hi; lia).
  assert (0 <= j < 4) as Hjb by (apply zlookup_lt in Hj; simpl in Hj; lia).
  assert (i = 0 \/ i = 1 \/ i = 2 \/ i = 3) as Hic by lia.
  assert (j = 0 \/ j = 1 \/ j = 2 \/ j = 3) as Hjc by lia.
  destruct Hic as [-> | [-> | [-> | ->]]];
    destruct Hjc as [-> | [-> | [-> | ->]]];
    vm_compute in Hi, Hj; simplify_eq; lia.
Defined.

Lemma lower_bound_loop_result (target : Z) (array : list Z) (fuel : nat) :
  forall (k_low k_high guess r : Z),
    lower_bound_loop fuel target array k_low k_high guess = Some r ->
    0 <= guess < Z.of_nat (length array)
    /\ (r = -1 \/ lower_bound_at target array r).
Proof.
  induction fuel as [| n IH]; intros k_low k_high guess r Hrun; [done |].
  simpl in Hrun. apply bind_Some in Hrun as (step & Hbody & Hrun).
  unfold lower_bound_body in Hbody.
  apply bind_Some in Hbody as (cur & Hcur & Hbody).
  split; [by eapply zlookup_lt |].
  apply bind_Some in Hbody as (room & Hroom & Hbody).
  destruct room.
  - run_inv Hbody. simplify_eq. by apply IH in Hrun as [_ Hr].
  - destruct (decide (target > cur)) as [Hgt | Hle].
    + run_inv Hbody; simplify_eq; [by left |]. by apply IH in Hrun as [_ Hr].
    + simplify_eq. right. exists cur. split; [done |]. split; [lia |].
      destruct (decide (target <= cur)); [| lia].
      destruct (decide (r > 0)); [| left; apply zlookup_lt in Hcur; lia].
      apply bind_Some in Hroom as (prev & Hprev & Hroom).
      right. exists prev. split; [done |].
      injection Hroom as Hroom. apply bool_decide_eq_false in Hroom. lia.
Qed.

(** X3.  Whatever the array holds and whatever bounds are passed, a result of
    [p4est_int64_lower_bound] other than [-1] is a position of the array
    whose element is at least the target and whose predecessor, if any, is
    smaller; and there is a result only if the first guess is a position
    of the array (never for an empty array). *)
Theorem lower_bound_result_is_local (fuel : nat) (target : Z)
  (array : list Z) (size guess r : Z) :
  p4est_int64_lower_bound fuel target array size guess = Some r ->
  0 <= guess < Z.of_nat (length array)
  /\ (r = -1 \/ lower_bound_at target array r).
Proof.
  unfold p4est_int64_lower_bound. intros Hrun.
  apply bind_Some in Hrun as (k_high & _ & Hrun).
  by eapply lower_bound_loop_result.
Qed.

Lemma lower_bound_result_is_local_witness :
  p4est_int64_lower_bound 5 4 [9; 2; 6; 1] 4 1 = Some 2
  /\ (0 <= 1 < Z.of_nat (length [9; 2; 6; 1])
      /\ (2 = -1 \/ lower_bound_at 4 [9; 2; 6; 1] 2)).
Proof.
  split; [reflexivity |].
  apply (lower_bound_result_is_local 5 4 [9; 2; 6; 1] 4 1 2).
  reflexivity.
Defined.

(** ** The tier rings stay well formed *)

Lemma zlookup_cons {A} (x : A) (l : list A) (i : Z) :
  zlookup (x :: l) i = if decide (i = 0) then Some x else zlookup l (i - 1).
Proof.
  unfold zlookup. destruct (decide (i = 0)) as [-> | Hi]; [done |].
  destruct (decide (0 <= i)).
  - rewrite decide_True by lia.
    replace (Z.to_nat i) with (S (Z.to_nat (i - 1))) by lia. done.
  - by rewrite decide_False by lia.
Qed.

(** What the scan of a ring has seen when it stops. *)
Lemma tier_scan_spec (tiers : list p4est_iter_tier_t) (i0 : Z)
  (q : quad_ptr) :
  match tier_scan tiers i0 q with
  | ScanUnused i =>
      i0 <= i
      /\ (exists t, zlookup tiers (i - i0) = Some t /\ tier_key t = None)
      /\ forall j t, j < i - i0 -> zlookup tiers j = Some t ->
           tier_key t <> None
  | ScanHit i _ => True
  | ScanMiss =>
      forall j t, zlookup tiers j = Some t -> tier_key t <> None
  end.
Proof.
  revert i0. induction tiers as [| tier rest IH]; intros i0; simpl.
  - intros j t Hj. by apply zlookup_lt in Hj; simpl in Hj; lia.
  - destruct (tier_key tier) as [key |] eqn:Hkey.
    + destruct (decide (q = key)); [done |].
      specialize (IH (i0 + 1)).
      destruct (tier_scan rest (i0 + 1) q) as [i | i o |].
      * destruct IH as (Hi & (t & Ht & Htk) & Hbefore).
        split; [lia |]. split.
        -- exists t. rewrite zlookup_cons, decide_False by lia.
           by replace (i - i0 - 1) with (i - (i0 + 1)) by lia.
        -- intros j t' Hj. rewrite zlookup_cons. case_decide.
           ++ intros [= <-]. by rewrite Hkey.
           ++ apply Hbefore. lia.
      * done.
      * intros j t. rewrite zlookup_cons. case_decide.
        -- intros [= <-]. by rewrite Hkey.
        -- apply IH.
    + split; [lia |]. split.
      * exists tier. by rewrite Z.sub_diag.
      * intros j t Hj Hl. apply zlookup_lt in Hl. lia.
Qed.

(** The assertion [P4EST_ASSERT (ring->next == i)]: in a well-formed ring
    the first unused tier is the one [next] points at. *)
Lemma ring_wf_unused_is_next (ring : p4est_iter_tier_ring_t) (q : quad_ptr)
  (i : Z) :
  ring_wf ring -> tier_scan (ring_tiers ring) 0 q = ScanUnused i ->
  i = ring_next ring.
Proof.
  intros (k & Hk & Hkeys & Hnext & Hfirst) Hscan.
  pose proof (tier_scan_spec (ring_tiers ring) 0 q) as Hspec.
  rewrite Hscan in Hspec. destruct Hspec as (Hi & (t & Ht & Htk) & Hbefore).
  rewrite Z.sub_0_r in Ht.
  assert (k <= i) by (by apply (Hkeys i t)).
  pose proof (zlookup_lt _ _ _ Ht).
  rewrite Hfirst by lia.
  destruct (decide (k = i)) as [? | Hne]; [done |].
  destruct (zlookup_is_Some (ring_tiers ring) k) as [t' Ht']; [lia |].
  exfalso. eapply (Hbefore k t'); [lia | done |].
  by apply (Hkeys k t').
Qed.

Lemma ring_store_wf (ring ring' : p4est_iter_tier_ring_t) (i : Z)
  (q : quad_ptr) (offsets : list Z) :
  ring_wf ring ->
  i = ring_next ring ->
  ring_store ring i q offsets (Z.of_nat (length (ring_tiers ring)))
  = Some ring' ->
  ring_wf ring'
  /\ length (ring_tiers ring') = length (ring_tiers ring).
Proof.
  intros (k & Hk & Hkeys & Hnext & Hfirst) -> Hstore.
  unfold ring_store in Hstore.
  apply bind_Some in Hstore as (tiers & Htiers & Hstore).
  apply bind_Some in Hstore as (Hlim & _ & Hstore). simplify_eq.
  pose proof (zinsert_inv _ _ _ _ Htiers) as [_ ->].
  simpl. rewrite length_insert. split; [| done].
  pose proof (Z.rem_bound_pos (ring_next ring + 1)
                (Z.of_nat (length (ring_tiers ring)))) as Hrem.
  destruct (decide (k < Z.of_nat (length (ring_tiers ring)))) as [Hlt | Hfull].
  - exists (k + 1). simpl. rewrite length_insert.
    split; [lia |]. split; [| split; [lia |]].
    + intros j t. rewrite (zlookup_zinsert _ _ _ j _ Htiers).
      rewrite Hfirst by done. case_decide.
      * intros [= <-]. simpl. split; [done | lia].
      * intros Hj. rewrite (Hkeys j t Hj). lia.
    + intros Hlt'. rewrite Hfirst by done.
      apply Z.rem_small. lia.
  - exists k. simpl. rewrite length_insert.
    split; [lia |]. split; [| split; [lia | lia]].
    intros j t. rewrite (zlookup_zinsert _ _ _ j _ Htiers). case_decide.
    + intros [= <-]. simpl. split; [done | lia].
    + apply Hkeys.
Qed.

Lemma ring_store_Some (ring : p4est_iter_tier_ring_t) (q : quad_ptr)
  (offsets : list Z) :
  ring_wf ring ->
  is_Some (ring_store ring (ring_next ring) q offsets
             (Z.of_nat (length (ring_tiers ring)))).
Proof.
  intros (k & Hk & Hkeys & Hnext & Hfirst). unfold ring_store.
  rewrite zinsert_Some by lia. simpl.
  rewrite option_guard_True by lia. done.
Qed.

Lemma tier_rings_new_wf `{Build} (num_procs : Z) :
  Forall ring_wf (p4est_iter_tier_rings_new num_procs).
Proof.
  unfold p4est_iter_tier_rings_new. apply Forall_replicate.
  assert (0 < tier_ring_max num_procs) as Hmax.
  { unfold tier_ring_max, P4EST_CHILDREN.
    case_decide; destruct P4_TO_P8; lia. }
  exists 0. simpl. rewrite length_replicate.
  split; [lia |]. split; [| lia].
  intros i t Hi. pose proof (zlookup_lt _ _ _ Hi).
  apply zlookup_Some in Hi as [_ Hi].
  apply lookup_replicate in Hi as [-> _]. simpl. split; [lia | done].
Qed.

(** X4.  The rings that [p4est_iter_tier_rings_new] builds are well formed, and
    [p4est_iter_tier_insert] at a level that is not negative always
    completes on well-formed rings (no access outside a ring), leaves them
    well formed and as many as before, and whenever its scan stops at an
    unused tier this is the tier [ring->next] points at, which is what the
    assertion in the code states. *)
Theorem tier_insert_keeps_rings_well_formed `{Bits}
  (num_procs : Z) (view : list p4est_quadrant_t) (level shift : Z)
  (rings : list p4est_iter_tier_ring_t) (q : option quad_ptr) :
  Forall ring_wf (p4est_iter_tier_rings_new num_procs)
  /\ (Forall ring_wf rings -> 0 <= level ->
      (exists r,
         p4est_iter_tier_insert view level shift rings q = Some r
         /\ Forall ring_wf (rings_after r)
         /\ length (rings_after r) = length rings)
      /\ forall ring key i,
           zlookup rings level = Some ring -> q = Some key ->
           tier_scan (ring_tiers ring) 0 key = ScanUnused i ->
           i = ring_next ring).
Proof.
  split; [apply tier_rings_new_wf |].
  intros Hwf Hlevel. split.
  - unfold p4est_iter_tier_insert. destruct q as [key |]; [| by eexists].
    case_decide; [by eexists |].
    destruct (zlookup_is_Some rings level) as [ring Hring]; [lia |].
    rewrite Hring. simpl.
    assert (ring_wf ring) as Hr.
    { apply zlookup_Some in Hring as [_ Hring].
      by eapply (Forall_lookup_1 ring_wf). }
    destruct (tier_scan (ring_tiers ring) 0 key) as [i | i o |] eqn:Hscan.
    + apply ring_wf_unused_is_next in Hscan as ->; [| done].
      destruct (ring_store_Some ring key
                  (p4est_iter_tier_update view level shift) Hr)
        as [ring' Hstore].
      rewrite Hstore. simpl.
      apply ring_store_wf in Hstore as [Hr' _]; [| done | done].
      rewrite zinsert_Some by lia. simpl. eexists. split; [done |]. simpl.
      split; [by apply Forall_insert | by rewrite length_insert].
    + by eexists.
    + destruct (ring_store_Some ring key
                  (p4est_iter_tier_update view level shift) Hr)
        as [ring' Hstore].
      rewrite Hstore. simpl.
      apply ring_store_wf in Hstore as [Hr' _]; [| done | done].
      rewrite zinsert_Some by lia. simpl. eexists. split; [done |]. simpl.
      split; [by apply Forall_insert | by rewrite length_insert].
  - intros ring key i Hring -> Hscan.
    eapply ring_wf_unused_is_next; [| done].
    apply zlookup_Some in Hring as [_ Hring].
    by eapply (Forall_lookup_1 ring_wf).
Qed.

Lemma tier_insert_keeps_rings_well_formed_witness :
  let rings := @p4est_iter_tier_rings_new ex_build 1 in
  let q := QPtr (TreeQuads 0) 0 in
  Forall ring_wf rings
  /\ 0 <= 0
  /\ exists r,
       @p4est_iter_tier_insert ex_build ex_bits ex_four
         0 0 rings (Some q) = Some r
       /\ Forall ring_wf (rings_after r)
       /\ length (rings_after r) = length rings.
Proof.
  intros rings q.
  pose proof (@tier_insert_keeps_rings_well_formed ex_build ex_bits 1
                ex_four 0 0 rings (Some q)) as [Hnew Hstep].
  split; [exact Hnew |]. split; [lia |].
  destruct (Hstep Hnew ltac:(lia)) as [Hrun _]. exact Hrun.
Defined.

(** ** The sizes of the loop arguments *)

(** [max_entity_size] is a maximum: not below its starting value and not
    below the number of trees listed for any entity. *)
Lemma max_entity_size_max (offsets : list Z) (num start m : Z) :
  max_entity_size offsets num start = Some m ->
  start <= m
  /\ forall e lo hi, 0 <= e < num ->
       zlookup offsets e = Some lo -> zlookup offsets (e + 1) = Some hi ->
       hi - lo <= m.
Proof.
  unfold max_entity_size. intros Hrun.
  destruct (decide (0 <= num)) as [Hnum | Hneg].
  - apply (for_each_zrange_inv
             (fun k m => start <= m
                /\ forall e lo hi, 0 <= e < k ->
                     zlookup offsets e = Some lo ->
                     zlookup offsets (e + 1) = Some hi -> hi - lo <= m)
             _ 0 num start m Hnum) in Hrun; [done | | split; [lia | lia]].
    intros k a b Hk Hbody [Hstart Hall]. run_inv Hbody. simplify_eq.
    split; [case_decide; lia |]. intros e lo hi He Hlo Hhi.
    destruct (decide (e = k)) as [-> | Hne].
    + rewrite Hx in Hlo. rewrite Hx0 in Hhi. simplify_eq. case_decide; lia.
    + specialize (Hall e lo hi ltac:(lia) Hlo Hhi). case_decide; lia.
  - rewrite zrange_nil in Hrun by lia. simpl in Hrun. simplify_eq.
    split; [lia |]. intros e lo hi He. lia.
Qed.

Lemma loop_args_sizes_bounds `{Build} conn cb_edge cb_corner alloc mcs :
  loop_args_sizes conn cb_edge cb_corner = Some (alloc, mcs) ->
  4 <= alloc /\ (exists k, alloc = 2 * k)
  /\ (cb_corner = true ->
      2 * P4EST_CHILDREN <= alloc
      /\ forall c lo hi,
           0 <= c < (if P4_TO_P8 then num_corners conn
                     else num_vertices conn) ->
           zlookup (if P4_TO_P8 then ctt_offset conn else vtt_offset conn) c
           = Some lo ->
           zlookup (if P4_TO_P8 then ctt_offset conn else vtt_offset conn)
             (c + 1) = Some hi ->
           2 * (hi - lo) <= alloc).
Proof.
  unfold loop_args_sizes. intros Hrun.
  apply bind_Some in Hrun as ([alloc0 mcs0] & Hfirst & Hrun).
  assert (4 <= alloc0 /\ (exists k, alloc0 = 2 * k)
          /\ P4EST_CHILDREN <= mcs0) as (Ha0 & Heven0 & Hm0).
  { destruct (P4_TO_P8 && (cb_edge || cb_corner)).
    - apply bind_Some in Hfirst as (mes & Hmes & Hfirst).
      apply max_entity_size_max in Hmes as [Hmes _].
      injection Hfirst as <- <-. repeat case_decide;
        (split; [lia |]); (split; [| lia]);
        first [by exists mes | by exists 2].
    - simplify_eq. split; [lia |]. split; [by exists 2 | lia]. }
  destruct cb_corner.
  - apply bind_Some in Hrun as (m & Hm & Hrun).
    apply max_entity_size_max in Hm as [Hstart Hall].
    injection Hrun as <- <-.
    split; [case_decide; lia |]. split.
    + case_decide; [by exists m | done].
    + intros _. split; [case_decide; lia |].
      intros c lo hi Hc Hlo Hhi.
      specialize (Hall c lo hi Hc Hlo Hhi). case_decide; lia.
  - simplify_eq. split; [done |]. split; [done |]. done.
Qed.

(** X5.  The loop arguments are large enough.  [p4est_iter_loop_args_new] makes
    [alloc_size] an even number, at least 4; every array indexed by a search
    area has [alloc_size] entries and every array indexed by a side has half
    as many; and with a corner callback there are two search areas (local
    and ghost) for every side of the largest corner that the connectivity
    lists, and for the [P4EST_CHILDREN] sides of a corner inside a tree. *)
Theorem loop_args_new_capacity `{Build} (conn : p4est_connectivity_t)
  (cb_edge cb_corner : bool) (num_procs : Z) (la : p4est_iter_loop_args_t) :
  p4est_iter_loop_args_new conn cb_edge cb_corner num_procs = Some la ->
  let n := Z.to_nat (alloc_size la) in
  let half := Z.to_nat (alloc_size la `quot` 2) in
  (4 <= alloc_size la /\ exists k, alloc_size la = 2 * k)
  /\ (length (quadrants la) = n /\ length (index la) = n
      /\ length (first_index la) = n /\ length (count la) = n
      /\ length (test la) = n /\ length (test_level la) = n
      /\ length (quad_idx2 la) = half /\ length (refine la) = half)
  /\ (cb_corner = true ->
      2 * P4EST_CHILDREN <= alloc_size la
      /\ forall c lo hi,
           0 <= c < (if P4_TO_P8 then num_corners conn
                     else num_vertices conn) ->
           zlookup (if P4_TO_P8 then ctt_offset conn else vtt_offset conn) c
           = Some lo ->
           zlookup (if P4_TO_P8 then ctt_offset conn else vtt_offset conn)
             (c + 1) = Some hi ->
           2 * (hi - lo) <= alloc_size la).
Proof.
  unfold p4est_iter_loop_args_new. intros Hrun.
  apply bind_Some in Hrun as ([alloc mcs] & Hsizes & Hrun).
  apply loop_args_sizes_bounds in Hsizes as (Hmin & Heven & Hcorner).
  simplify_eq. simpl. split; [done |]. split; [| done].
  unfold P4EST_ALLOC.
  rewrite length_map, zrange_length, !length_replicate.
  repeat split; lia.
Qed.

Lemma loop_args_new_capacity_witness :
  exists la,
    @p4est_iter_loop_args_new ex_build (connectivity ex_forest2) false true 1
    = Some la
    /\ 4 <= alloc_size la /\ length (index la) = Z.to_nat (alloc_size la)
    /\ 2 * @P4EST_CHILDREN ex_build <= alloc_size la.
Proof.
  eexists. split; [vm_compute; reflexivity |].
  pose proof (@loop_args_new_capacity ex_build (connectivity ex_forest2)
                false true 1 _ ltac:(vm_compute; reflexivity))
    as ((Hmin & _) & (_ & Hindex & _) & Hcorner).
  split; [exact Hmin |]. split; [exact Hindex |].
  exact (proj1 (Hcorner eq_refl)).
Defined.

(** ** The comparison [p4est_quadrant_compare_contains] *)

Lemma masked_xor_zero (n a b : Z) :
  0 <= n -> coord_inside (2 ^ n) a b ->
  Z.land (Z.lxor a b) (Z.shiftl (-1) n) = 0.
Proof.
  intros Hn [[k ->] Hb].
  assert (0 < 2 ^ n) as Hpos by (apply Z.pow_pos_nonneg; lia).
  assert (b `div` 2 ^ n = k) as Hdiv.
  { symmetry. apply (Z.div_unique b (2 ^ n) k (b - k * 2 ^ n)); lia. }
  assert ((k * 2 ^ n) `div` 2 ^ n = k) as Hdiv' by (apply Z.div_mul; lia).
  apply Z.bits_inj'. intros i Hi.
  rewrite Z.land_spec, Z.lxor_spec, Z.bits_0.
  destruct (decide (i < n)) as [Hlt | Hge].
  - rewrite (Z.shiftl_spec_low _ _ _ Hlt). by rewrite andb_false_r.
  - rewrite <- (Z.sub_add n i) at 1 2.
    rewrite <- !Z.div_pow2_bits by lia.
    rewrite Hdiv, Hdiv'. by rewrite xorb_nilpotent.
Qed.

Lemma masked_xor_sym (a b m : Z) :
  Z.land (Z.lxor a b) m = Z.land (Z.lxor b a) m.
Proof. by rewrite Z.lxor_comm. Qed.

(** X6.  For quadrants that the C code can hold (levels between 0 and
    [P4EST_MAXLEVEL], which is below 32, and coordinates of 32 bits), a
    quadrant and one that lies inside it compare as equal under
    [p4est_quadrant_compare_contains], in both orders and whatever
    [p4est_quadrant_compare] would answer: this is what lets the binary
    search of the corner iterator find the quadrant that contains a probe
    point. *)
Theorem compare_contains_inside_is_zero `{Bits} (q r : p4est_quadrant_t) :
  P4EST_MAXLEVEL < 32 ->
  quadrant_in_range q -> quadrant_in_range r ->
  quadrant_inside q r ->
  p4est_quadrant_compare_contains q r = 0
  /\ p4est_quadrant_compare_contains r q = 0.
Proof.
  intros _ [Hlq _] _ (Hlevel & Hmax & Hx & Hy & Hz).
  assert (forall a b, coord_inside (2 ^ (P4EST_MAXLEVEL - qlevel q)) a b ->
            Z.land (Z.lxor a b) (Z.shiftl (-1) (P4EST_MAXLEVEL - qlevel q))
            = 0) as Hmask by (intros a b; apply masked_xor_zero; lia).
  unfold p4est_quadrant_compare_contains. split.
  - replace (if decide (qlevel q < qlevel r) then qlevel q else qlevel r)
      with (qlevel q) by (case_decide; lia).
    rewrite decide_False; [done |].
    intros [Hne | [Hne | [Hp8 Hne]]]; apply Hne; auto.
  - replace (if decide (qlevel r < qlevel q) then qlevel r else qlevel q)
      with (qlevel q) by (case_decide; lia).
    rewrite decide_False; [done |].
    intros [Hne | [Hne | [Hp8 Hne]]]; apply Hne;
      rewrite masked_xor_sym; auto.
Qed.

Lemma compare_contains_inside_is_zero_witness :
  let q := mkQuad 0 0 0 0 0 in
  let r := mkQuad (2 ^ 29) 0 0 1 0 in
  @P4EST_MAXLEVEL ex_build < 32
  /\ @quadrant_in_range ex_build q /\ @quadrant_in_range ex_build r
  /\ @quadrant_inside ex_build q r
  /\ @p4est_quadrant_compare ex_build ex_bits q r <> 0
  /\ @p4est_quadrant_compare_contains ex_build ex_bits q r = 0
  /\ @p4est_quadrant_compare_contains ex_build ex_bits r q = 0.
Proof.
  intros q r.
  assert (@P4EST_MAXLEVEL ex_build < 32) as Hmax by (simpl; lia).
  assert (@quadrant_in_range ex_build q) as Hq
    by (unfold quadrant_in_range; simpl; lia).
  assert (@quadrant_in_range ex_build r) as Hr
    by (unfold quadrant_in_range; simpl; lia).
  assert (@quadrant_inside ex_build q r) as Hin.
  { unfold quadrant_inside, coord_inside. simpl.
    split; [lia |]. split; [lia |].
    split; [split; [by exists 0 | lia] |].
    split; [split; [by exists 0 | lia] | done]. }
  split; [exact Hmax |]. split; [exact Hq |]. split; [exact Hr |].
  split; [exact Hin |]. split; [by vm_compute |].
  exact (@compare_contains_inside_is_zero ex_build ex_bits q r
           Hmax Hq Hr Hin).
Defined.

(** ** Only registered callbacks are made *)

(** *** The invariant [reg] through the steps of the iterators *)

Section reg.
Variable cbs : callbacks.

Lemma reg_Z_any (z : Z) : reg cbs z.
Proof. done. Qed.

Lemma reg_bool_any (b : bool) : reg cbs b.
Proof. done. Qed.

Lemma reg_step_any (s : next_step) : reg cbs s.
Proof. done. Qed.

Lemma reg_corner_args_any (a : p4est_iter_corner_args_t) : reg cbs a.
Proof. done. Qed.

Lemma reg_edge_args_any (a : p8est_iter_edge_args_t) : reg cbs a.
Proof. done. Qed.

Lemma reg_face_args_any (a : p4est_iter_face_args_t) : reg cbs a.
Proof. done. Qed.

Lemma reg_volume_args_any (a : p4est_iter_volume_args_t) : reg cbs a.
Proof. done. Qed.

Lemma reg_volume_info_any (a : p4est_iter_volume_info_t) : reg cbs a.
Proof. done. Qed.

Lemma reg_side_data_any (a : side_data) : reg cbs a.
Proof. done. Qed.

Lemma reg_side_quad_any (a : side_quad) : reg cbs a.
Proof. done. Qed.

Lemma reg_corner_sides_any (l : list p4est_iter_corner_side_t) : reg cbs l.
Proof. by apply Forall_forall. Qed.

Lemma reg_edge_sides_any (l : list p8est_iter_edge_side_t) : reg cbs l.
Proof. by apply Forall_forall. Qed.

Lemma reg_face_sides_any (l : list p4est_iter_face_side_t) : reg cbs l.
Proof. by apply Forall_forall. Qed.

Lemma reg_edge_args_list_any (l : list p8est_iter_edge_args_t) : reg cbs l.
Proof. by apply Forall_forall. Qed.

Lemma reg_face_args_list_any (l : list p4est_iter_face_args_t) : reg cbs l.
Proof. by apply Forall_forall. Qed.

Lemma reg_nil {A} `{Reg A} : reg cbs (@nil A).
Proof. constructor. Qed.

Lemma reg_cons {A} `{Reg A} (x : A) (l : list A) :
  reg cbs x -> reg cbs l -> reg cbs (x :: l).
Proof. by constructor. Qed.

Lemma reg_app {A} `{Reg A} (l1 l2 : list A) :
  reg cbs l1 -> reg cbs l2 -> reg cbs (l1 ++ l2).
Proof. intros H1 H2. apply Forall_app. by split. Qed.

Lemma reg_pair_intro {A B} `{Reg A, Reg B} (a : A) (b : B) :
  reg cbs a -> reg cbs b -> reg cbs (a, b).
Proof. by split. Qed.

Lemma reg_Some {A} `{Reg A} (a : A) : reg cbs a -> reg cbs (Some a).
Proof. done. Qed.

Lemma reg_None {A} `{Reg A} : reg cbs (@None A).
Proof. done. Qed.

Lemma reg_Next {S} `{Reg S} (s : S) : reg cbs s -> reg cbs (Next s).
Proof. done. Qed.

Lemma reg_Leave {S} `{Reg S} (s : S) : reg cbs s -> reg cbs (Leave s).
Proof. done. Qed.

Lemma reg_volume_event info :
  iter_volume cbs = true -> reg cbs (EvVolume info).
Proof. done. Qed.

Lemma reg_face_event info : iter_face cbs = true -> reg cbs (EvFace info).
Proof. done. Qed.

Lemma reg_edge_event sides : iter_edge cbs = true -> reg cbs (EvEdge sides).
Proof. done. Qed.

Lemma reg_corner_event sides :
  iter_corner cbs = true -> reg cbs (EvCorner sides).
Proof. done. Qed.

Lemma reg_set_level v la : reg cbs la -> reg cbs (set_level v la).
Proof. done. Qed.

Lemma reg_set_tier_rings v la : reg cbs la -> reg cbs (set_tier_rings v la).
Proof. done. Qed.

Lemma for_each_reg {S I} `{Reg S} (body : I -> S -> option S) (l : list I)
  (s s' : S) :
  for_each body l s = Some s' -> reg cbs s ->
  (forall i a b, i ∈ l -> body i a = Some b -> reg cbs a -> reg cbs b) ->
  reg cbs s'.
Proof.
  intros Hrun Hs Hbody. by apply (for_each_inv (reg cbs) body l s s').
Qed.

Lemma for_break_inv {S I} (P Q : S -> Prop)
  (body : I -> S -> option (flow S)) (l : list I) (s : S) (r : flow S) :
  for_break body l s = Some r -> P s ->
  (forall i a b, i ∈ l -> body i a = Some b -> P a ->
     match b with
     | Next s' => P s'
     | Leave s' => Q s'
     end) ->
  match r with
  | Next s' => P s'
  | Leave s' => Q s'
  end.
Proof.
  revert s. induction l as [| i l IH]; intros s Hrun Hs Hbody; simpl in Hrun.
  - by simplify_eq.
  - apply bind_Some in Hrun as (f & Hf & Hrun).
    pose proof (Hbody i s f ltac:(by left) Hf Hs) as Hok.
    destruct f as [a | a]; [| by simplify_eq].
    eapply IH; [done | done |].
    intros j x y Hj. apply Hbody. by right.
Qed.

Lemma for_break_reg {S I} `{Reg S} (body : I -> S -> option (flow S))
  (l : list I) (s : S) (r : flow S) :
  for_break body l s = Some r -> reg cbs s ->
  (forall i a b, i ∈ l -> body i a = Some b -> reg cbs a -> reg cbs b) ->
  reg cbs r.
Proof.
  intros Hrun Hs Hbody.
  pose proof (for_break_inv (reg cbs) (reg cbs) body l s r Hrun Hs) as Hinv.
  destruct r; apply Hinv; intros i a b Hi Hb Ha;
    specialize (Hbody i a b Hi Hb Ha); by destruct b.
Qed.

Lemma run_loop_reg {S} `{Reg S} (fuel : nat) (body : S -> option S)
  (change : S -> option (next_step * S)) (at_body : bool) (s s' : S) :
  run_loop fuel body change at_body s = Some s' -> reg cbs s ->
  (forall a b, body a = Some b -> reg cbs a -> reg cbs b) ->
  (forall a b, change a = Some b -> reg cbs a -> reg cbs b) ->
  reg cbs s'.
Proof.
  intros Hrun Hs Hbody Hchange. revert at_body s Hrun Hs.
  induction fuel as [| n IH]; intros at_body s Hrun Hs; simpl in Hrun; [done |].
  destruct at_body.
  - apply bind_Some in Hrun as (a & Ha & Hrun).
    eapply IH; [done |]. by eapply Hbody.
  - apply bind_Some in Hrun as ([step a] & Ha & Hrun).
    assert (reg cbs a) by (by eapply (Hchange s (step, a))).
    destruct step; [by simplify_eq | by eapply IH | by eapply IH].
Qed.

End reg.

Create HintDb regdb.

#[global] Hint Resolve reg_Z_any reg_bool_any reg_step_any
  reg_corner_args_any reg_edge_args_any reg_face_args_any
  reg_volume_args_any reg_volume_info_any reg_side_data_any
  reg_side_quad_any reg_corner_sides_any reg_edge_sides_any
  reg_face_sides_any reg_edge_args_list_any reg_face_args_list_any
  reg_nil reg_cons reg_app reg_pair_intro reg_Some reg_None reg_Next
  reg_Leave reg_volume_event reg_face_event reg_edge_event
  reg_corner_event reg_set_level reg_set_tier_rings : regdb.

#[global] Hint Extern 2 (reg _ (if _ then _ else _)) => case_match : regdb.

(** A flag of the callbacks or of the loop arguments, from what the
    context says about them. *)
Ltac reg_flags :=
  repeat match goal with
         | H : reg ?c ?la |- _ =>
             lazymatch type of la with
             | p4est_iter_loop_args_t =>
                 change (loop_corner la = iter_corner c) in H
             end
         end;
  simpl in *; congruence.

Ltac reg_goal :=
  lazymatch goal with
  | |- reg _ (_, _) => apply reg_pair_intro; reg_goal
  | |- reg _ (Next _) => apply reg_Next; reg_goal
  | |- reg _ (Leave _) => apply reg_Leave; reg_goal
  | |- reg _ (Some _) => apply reg_Some; reg_goal
  | |- reg _ (if ?c then _ else _) => destruct c; reg_goal
  | |- reg _ (_ ++ _) => apply reg_app; reg_goal
  | |- reg _ (_ :: _) => apply reg_cons; reg_goal
  | |- _ = true -> _ =>
      intro; solve [assumption | discriminate | auto | reg_flags]
  | |- ?P -> ?Q => solve [exact (fun x : P => x) | assumption]
  | |- _ => solve [assumption | exact I | reflexivity
                  | eauto 4 with regdb nocore | reg_flags]
  end.

Ltac by_reg L H := eapply L; [exact H | reg_goal ..].

Ltac reg_la_steps H := fail.
Ltac reg_corner_steps H := fail.
Ltac reg_edge_steps H := fail.
Ltac reg_face_steps H := fail.
Ltac reg_volume_steps H := fail.
Ltac reg_tree_steps H := fail.

Ltac reg_step H :=
  first [ reg_la_steps H | reg_corner_steps H | reg_edge_steps H
        | reg_face_steps H | reg_volume_steps H | reg_tree_steps H ].

Ltac reg_known c x :=
  lazymatch goal with
  | _ : reg c x |- _ => fail
  | _ => idtac
  end.

Ltac reg_wanted x :=
  lazymatch type of x with
  | p4est_iter_loop_args_t => idtac
  | list iter_event => idtac
  | (_ * _)%type => idtac
  | flow _ => idtac
  | _ => fail
  end.

Ltac reg_pairs c :=
  repeat match goal with
         | H : reg c (?a, ?b) |- _ =>
             reg_known c a; pose proof (proj1 H : reg c a)
         | H : reg c (?a, ?b) |- _ =>
             reg_known c b; pose proof (proj2 H : reg c b)
         | H : reg c (Next ?a) |- _ =>
             reg_known c a; pose proof (H : reg c a)
         | H : reg c (Leave ?a) |- _ =>
             reg_known c a; pose proof (H : reg c a)
         end.

(** Derive [reg c] for every result of a step in the context, in the order
    of the program. *)
Ltac reg_fwd c :=
  reg_pairs c;
  repeat match reverse goal with
         | H : _ = Some ?x |- _ =>
             reg_wanted x; reg_known c x;
             assert (reg c x) by reg_prove c H;
             reg_pairs c
         end
with reg_prove c H :=
  first
    [ reg_step H
    | eapply (for_each_reg c _ _ _ _ H); [reg_goal | reg_body c]
    | eapply (for_break_reg c _ _ _ _ H); [reg_goal | reg_body c]
    | eapply (run_loop_reg c _ _ _ _ _ _ H);
        [reg_goal | reg_body1 c | reg_body1 c] ]
with reg_body c :=
  let Hb := fresh "Hb" in
  repeat match goal with
         | H' : _ = Some ?x |- _ => reg_wanted x; reg_known c x; clear H'
         end;
  intros ? ? ? ? Hb ?; cbv beta in Hb; run_inv Hb;
  simplify_eq; reg_fwd c; reg_goal
with reg_body1 c :=
  let Hb := fresh "Hb" in
  repeat match goal with
         | H' : _ = Some ?x |- _ => reg_wanted x; reg_known c x; clear H'
         end;
  intros ? ? Hb ?; cbv beta in Hb; run_inv Hb;
  simplify_eq; reg_fwd c; reg_goal.

Ltac reg_solve c := simplify_eq; reg_fwd c; reg_goal.

(** *** The loop arguments keep their flags *)

Lemma set_level_num_reg cbs i v la la' :
  set_level_num i v la = Some la' -> reg cbs la -> reg cbs la'.
Proof. unfold set_level_num. intros H Hr. run_inv H. by simplify_eq. Qed.

Lemma set_quad_idx2_reg cbs i v la la' :
  set_quad_idx2 i v la = Some la' -> reg cbs la -> reg cbs la'.
Proof. unfold set_quad_idx2. intros H Hr. run_inv H. by simplify_eq. Qed.

Lemma set_quadrants_reg cbs i v la la' :
  set_quadrants i v la = Some la' -> reg cbs la -> reg cbs la'.
Proof. unfold set_quadrants. intros H Hr. run_inv H. by simplify_eq. Qed.

Lemma set_index_reg cbs i k v la la' :
  set_index i k v la = Some la' -> reg cbs la -> reg cbs la'.
Proof. unfold set_index. intros H Hr. run_inv H. by simplify_eq. Qed.

Lemma set_first_index_reg cbs i v la la' :
  set_first_index i v la = Some la' -> reg cbs la -> reg cbs la'.
Proof. unfold set_first_index. intros H Hr. run_inv H. by simplify_eq. Qed.

Lemma set_count_reg cbs i v la la' :
  set_count i v la = Some la' -> reg cbs la -> reg cbs la'.
Proof. unfold set_count. intros H Hr. run_inv H. by simplify_eq. Qed.

Lemma set_test_reg cbs i v la la' :
  set_test i v la = Some la' -> reg cbs la -> reg cbs la'.
Proof. unfold set_test. intros H Hr. run_inv H. by simplify_eq. Qed.

Lemma set_test_level_reg cbs i v la la' :
  set_test_level i v la = Some la' -> reg cbs la -> reg cbs la'.
Proof. unfold set_test_level. intros H Hr. run_inv H. by simplify_eq. Qed.

Lemma set_refine_reg cbs i v la la' :
  set_refine i v la = Some la' -> reg cbs la -> reg cbs la'.
Proof. unfold set_refine. intros H Hr. run_inv H. by simplify_eq. Qed.

Ltac reg_la_steps H ::=
  lazymatch type of H with
  | set_level_num _ _ _ = Some _ => by_reg set_level_num_reg H
  | set_quad_idx2 _ _ _ = Some _ => by_reg set_quad_idx2_reg H
  | set_quadrants _ _ _ = Some _ => by_reg set_quadrants_reg H
  | set_index _ _ _ _ = Some _ => by_reg set_index_reg H
  | set_first_index _ _ _ = Some _ => by_reg set_first_index_reg H
  | set_count _ _ _ = Some _ => by_reg set_count_reg H
  | set_test _ _ _ = Some _ => by_reg set_test_reg H
  | set_test_level _ _ _ = Some _ => by_reg set_test_level_reg H
  | set_refine _ _ _ = Some _ => by_reg set_refine_reg H
  end.

Lemma incr_level_num_reg cbs i la la' :
  incr_level_num i la = Some la' -> reg cbs la -> reg cbs la'.
Proof. unfold incr_level_num. intros H Hr. run_inv H; reg_solve cbs. Qed.

Lemma load_bound_at_reg cbs sidetype q la la' :
  load_bound_at sidetype q la = Some la' -> reg cbs la -> reg cbs la'.
Proof. unfold load_bound_at. intros H Hr. run_inv H; reg_solve cbs. Qed.

Lemma fetch_candidate_reg cbs ctx sidetype la la' :
  fetch_candidate ctx sidetype la = Some la' -> reg cbs la -> reg cbs la'.
Proof. unfold fetch_candidate. intros H Hr. run_inv H; reg_solve cbs. Qed.

Ltac reg_la_steps H ::=
  lazymatch type of H with
  | set_level_num _ _ _ = Some _ => by_reg set_level_num_reg H
  | set_quad_idx2 _ _ _ = Some _ => by_reg set_quad_idx2_reg H
  | set_quadrants _ _ _ = Some _ => by_reg set_quadrants_reg H
  | set_index _ _ _ _ = Some _ => by_reg set_index_reg H
  | set_first_index _ _ _ = Some _ => by_reg set_first_index_reg H
  | set_count _ _ _ = Some _ => by_reg set_count_reg H
  | set_test _ _ _ = Some _ => by_reg set_test_reg H
  | set_test_level _ _ _ = Some _ => by_reg set_test_level_reg H
  | set_refine _ _ _ = Some _ => by_reg set_refine_reg H
  | incr_level_num _ _ = Some _ => by_reg incr_level_num_reg H
  | load_bound_at _ _ _ = Some _ => by_reg load_bound_at_reg H
  | fetch_candidate _ _ _ = Some _ => by_reg fetch_candidate_reg H
  end.

Lemma load_bounds_reg cbs side la la' :
  load_bounds side la = Some la' -> reg cbs la -> reg cbs la'.
Proof. unfold load_bounds. intros H1 Hr. run_inv H1; reg_solve cbs. Qed.

Lemma store_tier_reg cbs sidetype pos offsets la la' :
  store_tier sidetype pos offsets la = Some la' -> reg cbs la -> reg cbs la'.
Proof. unfold store_tier. intros H1 Hr. run_inv H1; reg_solve cbs. Qed.

Lemma p4est_iter_copy_indices_reg `{Build} cbs start_idx2 old_num new_num la la' :
  p4est_iter_copy_indices start_idx2 old_num new_num la = Some la' -> reg cbs la -> reg cbs la'.
Proof. unfold p4est_iter_copy_indices. intros H1 Hr. run_inv H1; reg_solve cbs. Qed.

Lemma init_root_bounds_reg cbs ctx ghost_offsets side t la la' :
  init_root_bounds ctx ghost_offsets side t la = Some la' -> reg cbs la -> reg cbs la'.
Proof. unfold init_root_bounds. intros H1 Hr. run_inv H1; reg_solve cbs. Qed.

Lemma fill_quadrants_reg cbs pick lo hi la la' :
  fill_quadrants pick lo hi la = Some la' -> reg cbs la -> reg cbs la'.
Proof. unfold fill_quadrants. intros H1 Hr. run_inv H1; reg_solve cbs. Qed.

Ltac reg_la_steps H ::=
  lazymatch type of H with
  | set_level_num _ _ _ = Some _ => by_reg set_level_num_reg H
  | set_quad_idx2 _ _ _ = Some _ => by_reg set_quad_idx2_reg H
  | set_quadrants _ _ _ = Some _ => by_reg set_quadrants_reg H
  | set_index _ _ _ _ = Some _ => by_reg set_index_reg H
  | set_first_index _ _ _ = Some _ => by_reg set_first_index_reg H
  | set_count _ _ _ = Some _ => by_reg set_count_reg H
  | set_test _ _ _ = Some _ => by_reg set_test_reg H
  | set_test_level _ _ _ = Some _ => by_reg set_test_level_reg H
  | set_refine _ _ _ = Some _ => by_reg set_refine_reg H
  | incr_level_num _ _ = Some _ => by_reg incr_level_num_reg H
  | load_bound_at _ _ _ = Some _ => by_reg load_bound_at_reg H
  | fetch_candidate _ _ _ = Some _ => by_reg fetch_candidate_reg H
  | load_bounds _ _ = Some _ => by_reg load_bounds_reg H
  | store_tier _ _ _ _ = Some _ => by_reg store_tier_reg H
  | p4est_iter_copy_indices _ _ _ _ = Some _ => by_reg @p4est_iter_copy_indices_reg H
  | init_root_bounds _ _ _ _ _ = Some _ => by_reg init_root_bounds_reg H
  | fill_quadrants _ _ _ _ = Some _ => by_reg fill_quadrants_reg H
  end.

Lemma split_sidetype_reg `{Bits} cbs ctx sidetype pos la la' :
  split_sidetype ctx sidetype pos la = Some la' -> reg cbs la -> reg cbs la'.
Proof. unfold split_sidetype. intros H1 Hr. run_inv H1; reg_solve cbs. Qed.

Ltac reg_la_steps H ::=
  lazymatch type of H with
  | set_level_num _ _ _ = Some _ => by_reg set_level_num_reg H
  | set_quad_idx2 _ _ _ = Some _ => by_reg set_quad_idx2_reg H
  | set_quadrants _ _ _ = Some _ => by_reg set_quadrants_reg H
  | set_index _ _ _ _ = Some _ => by_reg set_index_reg H
  | set_first_index _ _ _ = Some _ => by_reg set_first_index_reg H
  | set_count _ _ _ = Some _ => by_reg set_count_reg H
  | set_test _ _ _ = Some _ => by_reg set_test_reg H
  | set_test_level _ _ _ = Some _ => by_reg set_test_level_reg H
  | set_refine _ _ _ = Some _ => by_reg set_refine_reg H
  | incr_level_num _ _ = Some _ => by_reg incr_level_num_reg H
  | load_bound_at _ _ _ = Some _ => by_reg load_bound_at_reg H
  | fetch_candidate _ _ _ = Some _ => by_reg fetch_candidate_reg H
  | load_bounds _ _ = Some _ => by_reg load_bounds_reg H
  | store_tier _ _ _ _ = Some _ => by_reg store_tier_reg H
  | p4est_iter_copy_indices _ _ _ _ = Some _ => by_reg @p4est_iter_copy_indices_reg H
  | init_root_bounds _ _ _ _ _ = Some _ => by_reg init_root_bounds_reg H
  | fill_quadrants _ _ _ _ = Some _ => by_reg fill_quadrants_reg H
  | split_sidetype _ _ _ _ = Some _ => by_reg @split_sidetype_reg H
  end.

Lemma split_side_reg `{Bits} cbs ctx level_idx2 side la la' :
  split_side ctx level_idx2 side la = Some la' -> reg cbs la -> reg cbs la'.
Proof. unfold split_side. intros H1 Hr. run_inv H1; reg_solve cbs. Qed.

Lemma init_loop_sides_reg cbs ctx ghost_offsets treeids with_corner la la' :
  init_loop_sides ctx ghost_offsets treeids with_corner la = Some la' -> reg cbs la -> reg cbs la'.
Proof. unfold init_loop_sides. intros H1 Hr. run_inv H1; reg_solve cbs. Qed.

Lemma p4est_iter_init_loop_volume_reg `{Build} cbs ctx ghost_offsets t la la' :
  p4est_iter_init_loop_volume ctx ghost_offsets t la = Some la' -> reg cbs la -> reg cbs la'.
Proof. unfold p4est_iter_init_loop_volume. intros H1 Hr. run_inv H1; reg_solve cbs. Qed.

Lemma p4est_iter_init_loop_face_reg `{Build} cbs ctx ghost_offsets t nt la la' :
  p4est_iter_init_loop_face ctx ghost_offsets t nt la = Some la' -> reg cbs la -> reg cbs la'.
Proof. unfold p4est_iter_init_loop_face. intros H1 Hr. run_inv H1; reg_solve cbs. Qed.

Lemma p4est_iter_init_loop_outside_face_reg `{Build} cbs ctx ghost_offsets t la la' :
  p4est_iter_init_loop_outside_face ctx ghost_offsets t la = Some la' -> reg cbs la -> reg cbs la'.
Proof. unfold p4est_iter_init_loop_outside_face. intros H1 Hr. run_inv H1; reg_solve cbs. Qed.

Lemma face_prologue_reg `{Build} cbs args la r :
  face_prologue args la = Some r -> reg cbs la -> reg cbs r.
Proof. unfold face_prologue. intros H1 Hr. run_inv H1; reg_solve cbs. Qed.

Lemma p8est_iter_init_loop_edge_reg cbs ctx ghost_offsets sides la la' :
  p8est_iter_init_loop_edge ctx ghost_offsets sides la = Some la' ->
  reg cbs la -> reg cbs la'.
Proof. apply init_loop_sides_reg. Qed.

Lemma p4est_iter_init_loop_corner_reg cbs ctx ghost_offsets sides la la' :
  p4est_iter_init_loop_corner ctx ghost_offsets sides la = Some la' ->
  reg cbs la -> reg cbs la'.
Proof. apply init_loop_sides_reg. Qed.

Ltac reg_la_steps H ::=
  lazymatch type of H with
  | set_level_num _ _ _ = Some _ => by_reg set_level_num_reg H
  | set_quad_idx2 _ _ _ = Some _ => by_reg set_quad_idx2_reg H
  | set_quadrants _ _ _ = Some _ => by_reg set_quadrants_reg H
  | set_index _ _ _ _ = Some _ => by_reg set_index_reg H
  | set_first_index _ _ _ = Some _ => by_reg set_first_index_reg H
  | set_count _ _ _ = Some _ => by_reg set_count_reg H
  | set_test _ _ _ = Some _ => by_reg set_test_reg H
  | set_test_level _ _ _ = Some _ => by_reg set_test_level_reg H
  | set_refine _ _ _ = Some _ => by_reg set_refine_reg H
  | incr_level_num _ _ = Some _ => by_reg incr_level_num_reg H
  | load_bound_at _ _ _ = Some _ => by_reg load_bound_at_reg H
  | fetch_candidate _ _ _ = Some _ => by_reg fetch_candidate_reg H
  | load_bounds _ _ = Some _ => by_reg load_bounds_reg H
  | store_tier _ _ _ _ = Some _ => by_reg store_tier_reg H
  | p4est_iter_copy_indices _ _ _ _ = Some _ => by_reg @p4est_iter_copy_indices_reg H
  | init_root_bounds _ _ _ _ _ = Some _ => by_reg init_root_bounds_reg H
  | fill_quadrants _ _ _ _ = Some _ => by_reg fill_quadrants_reg H
  | split_sidetype _ _ _ _ = Some _ => by_reg @split_sidetype_reg H
  | split_side _ _ _ _ = Some _ => by_reg @split_side_reg H
  | init_loop_sides _ _ _ _ _ = Some _ => by_reg init_loop_sides_reg H
  | p4est_iter_init_loop_volume _ _ _ _ = Some _ => by_reg @p4est_iter_init_loop_volume_reg H
  | p4est_iter_init_loop_face _ _ _ _ _ = Some _ => by_reg @p4est_iter_init_loop_face_reg H
  | p4est_iter_init_loop_outside_face _ _ _ _ = Some _ => by_reg @p4est_iter_init_loop_outside_face_reg H
  | face_prologue _ _ = Some _ => by_reg @face_prologue_reg H
  | p8est_iter_init_loop_edge _ _ _ _ = Some _ => by_reg p8est_iter_init_loop_edge_reg H
  | p4est_iter_init_loop_corner _ _ _ _ = Some _ => by_reg p4est_iter_init_loop_corner_reg H
  end.

(** *** The corner iterator makes corner callbacks only *)

Lemma probe_child_reg cbs ctx side st st' :
  probe_child ctx side st = Some st' -> reg cbs st -> reg cbs st'.
Proof.
  unfold probe_child. intros H Hr.
  eapply (for_each_reg cbs _ _ _ _ H Hr). clear H Hr. reg_body cbs.
Qed.

Lemma corner_side_type_reg `{Bits} cbs ctx level side type st st' :
  corner_side_type ctx level side type st = Some st' ->
  reg cbs st -> reg cbs st'.
Proof.
  unfold corner_side_type. intros H1 Hr.
  destruct st as [[la cside] hl]. run_inv H1; reg_solve cbs.
Qed.

Ltac reg_corner_steps H ::=
  lazymatch type of H with
  | probe_child _ _ _ = Some _ => by_reg probe_child_reg H
  | corner_side_type _ _ _ _ _ = Some _ => by_reg @corner_side_type_reg H
  end.

Lemma corner_side_reg `{Bits} cbs ctx level side st st' :
  corner_side ctx level side st = Some st' -> reg cbs st -> reg cbs st'.
Proof.
  unfold corner_side. intros H1 Hr.
  destruct st as [[la sides] hl]. run_inv H1. reg_solve cbs.
Qed.

Ltac reg_corner_steps H ::=
  lazymatch type of H with
  | probe_child _ _ _ = Some _ => by_reg probe_child_reg H
  | corner_side_type _ _ _ _ _ = Some _ => by_reg @corner_side_type_reg H
  | corner_side _ _ _ _ = Some _ => by_reg @corner_side_reg H
  end.

Lemma corner_iterate_reg `{Bits} cbs ctx args la r :
  p4est_corner_iterate ctx args la = Some r ->
  iter_corner cbs = true -> reg cbs la -> reg cbs r.
Proof.
  unfold p4est_corner_iterate. intros H1 Hcb Hla.
  run_inv H1; reg_solve cbs.
Qed.

Ltac reg_corner_steps H ::=
  lazymatch type of H with
  | probe_child _ _ _ = Some _ => by_reg probe_child_reg H
  | corner_side_type _ _ _ _ _ = Some _ => by_reg @corner_side_type_reg H
  | corner_side _ _ _ _ = Some _ => by_reg @corner_side_reg H
  | p4est_corner_iterate _ _ _ = Some _ => by_reg @corner_iterate_reg H
  end.

(** *** The edge iterator *)

Lemma edge_candidates_reg cbs cb_edge num_sides st r :
  edge_candidates cb_edge num_sides st = Some r -> reg cbs st -> reg cbs r.
Proof.
  unfold edge_candidates. intros H Hr.
  eapply (for_break_reg cbs _ _ _ _ H Hr). clear H Hr. reg_body cbs.
Qed.

(** [stop_refine] is raised for the edge callback only. *)
Lemma edge_candidates_stop cb_edge num_sides la sides hl la' sides' hl' :
  edge_candidates cb_edge num_sides (la, sides, false, hl)
  = Some (Next (la', sides', true, hl')) ->
  cb_edge = true.
Proof.
  unfold edge_candidates. intros H.
  pose proof (for_break_inv
                (fun st : p4est_iter_loop_args_t
                          * list p8est_iter_edge_side_t * bool * bool =>
                   st.1.2 = true -> cb_edge = true)
                (fun _ => True) _ _ _ _ H) as Hinv.
  simpl in Hinv. apply Hinv; [done | | done].
  intros [side type] [[[a s] stop] h] b _ Hb Ha. simpl in Ha.
  run_inv Hb; simplify_eq; simpl; done.
Qed.

Lemma edge_empty_sides_reg cbs num_sides st r :
  edge_empty_sides num_sides st = Some r -> reg cbs st -> reg cbs r.
Proof.
  unfold edge_empty_sides. intros H Hr.
  eapply (for_each_reg cbs _ _ _ _ H Hr). clear H Hr. reg_body cbs.
Qed.

Lemma edge_hanging_reg `{Build} cbs ctx level_idx2 num_sides cc st r :
  edge_hanging ctx level_idx2 num_sides cc st = Some r ->
  reg cbs st -> reg cbs r.
Proof.
  unfold edge_hanging. intros H1 Hr.
  eapply (for_each_reg cbs _ _ _ _ H1 Hr). clear H1 Hr. reg_body cbs.
Qed.

Ltac reg_edge_steps H ::=
  lazymatch type of H with
  | edge_candidates _ _ _ = Some _ => by_reg edge_candidates_reg H
  | edge_empty_sides _ _ = Some _ => by_reg edge_empty_sides_reg H
  | edge_hanging _ _ _ _ _ = Some _ => by_reg @edge_hanging_reg H
  end.

Lemma edge_body_reg `{Bits} cbs ctx cb_edge args la level_idx2 r :
  edge_body ctx cb_edge args la level_idx2 = Some r ->
  (cb_edge = true -> iter_edge cbs = true) ->
  reg cbs la -> reg cbs r.
Proof.
  unfold edge_body. intros H1 Hcb Hla.
  destruct cb_edge; [specialize (Hcb eq_refl) | clear Hcb];
    run_inv H1; simplify_eq;
    try match goal with
        | Hc : edge_candidates false _ _ = Some (Next (_, _, true, _)) |- _ =>
            by apply edge_candidates_stop in Hc
        end;
    reg_solve cbs.
Qed.

Lemma edge_change_reg `{Bits} cbs ctx start_level st r :
  edge_change ctx start_level st = Some r -> reg cbs st -> reg cbs r.
Proof.
  unfold edge_change. intros H1 Hr.
  destruct st as [[[args la] level_idx2] tr].
  run_inv H1; reg_solve cbs.
Qed.

Ltac reg_edge_steps H ::=
  lazymatch type of H with
  | edge_candidates _ _ _ = Some _ => by_reg edge_candidates_reg H
  | edge_empty_sides _ _ = Some _ => by_reg edge_empty_sides_reg H
  | edge_hanging _ _ _ _ _ = Some _ => by_reg @edge_hanging_reg H
  | edge_body _ _ _ _ _ = Some _ => by_reg @edge_body_reg H
  | edge_change _ _ _ = Some _ => by_reg @edge_change_reg H
  end.

Lemma edge_iterate_reg `{Bits} cbs fuel ctx args la r :
  p8est_edge_iterate fuel ctx cbs args la = Some r ->
  reg cbs la -> reg cbs r.
Proof.
  unfold p8est_edge_iterate. intros H1 Hla.
  run_inv H1; reg_solve cbs.
Qed.

Ltac reg_edge_steps H ::=
  lazymatch type of H with
  | edge_candidates _ _ _ = Some _ => by_reg edge_candidates_reg H
  | edge_empty_sides _ _ = Some _ => by_reg edge_empty_sides_reg H
  | edge_hanging _ _ _ _ _ = Some _ => by_reg @edge_hanging_reg H
  | edge_body _ _ _ _ _ = Some _ => by_reg @edge_body_reg H
  | edge_change _ _ _ = Some _ => by_reg @edge_change_reg H
  | p8est_edge_iterate _ _ _ _ _ = Some _ => by_reg @edge_iterate_reg H
  end.

(** *** The face iterator *)

Lemma face_opposite_reg cbs orientation side type st r :
  face_opposite orientation side type st = Some r ->
  iter_face cbs = true -> reg cbs st -> reg cbs r.
Proof.
  unfold face_opposite. intros H Hcb Hr.
  apply bind_Some in H as (x & Hx & H).
  assert (reg cbs x) as Hx'.
  { eapply (for_break_reg cbs _ _ _ _ Hx Hr). clear Hx Hr H. reg_body cbs. }
  destruct x as [[[[la sides] hl] evs] | st1]; run_inv H; reg_solve cbs.
Qed.

Ltac reg_face_steps H ::=
  lazymatch type of H with
  | face_opposite _ _ _ _ = Some _ => by_reg face_opposite_reg H
  end.

Lemma face_candidates_reg cbs cb_face outside_face orientation limit st r :
  face_candidates cb_face outside_face orientation limit st = Some r ->
  (cb_face = true -> iter_face cbs = true) ->
  reg cbs st -> reg cbs r.
Proof.
  unfold face_candidates. intros H Hcb Hr.
  destruct cb_face; [specialize (Hcb eq_refl) | clear Hcb];
    eapply (for_break_reg cbs _ _ _ _ H Hr); clear H Hr; reg_body cbs.
Qed.

(** Without a face callback the candidate loop leaves a state that it hands
    on unchanged. *)
Lemma face_candidates_skip outside_face orientation limit st st' :
  face_candidates false outside_face orientation limit st = Some (Next st') ->
  st' = st.
Proof.
  unfold face_candidates. intros H.
  pose proof (for_break_inv (fun s => s = st) (fun _ => True) _ _ _ _ H
                eq_refl) as Hinv.
  simpl in Hinv. apply Hinv.
  intros [side type] [[[a s] h] e] b _ Hb <-.
  run_inv Hb; simplify_eq; done.
Qed.

Lemma face_hanging_reg `{Bits} cbs ctx num_to_child orientation level_idx2
  limit st r :
  face_hanging ctx num_to_child orientation level_idx2 limit st = Some r ->
  iter_face cbs = true -> reg cbs st -> reg cbs r.
Proof.
  unfold face_hanging. intros H1 Hcb Hr.
  eapply (for_break_reg cbs _ _ _ _ H1 Hr). clear H1 Hr. reg_body cbs.
Qed.

(** A side is made hanging only next to a side that was not refined. *)
Lemma face_hanging_skip `{Bits} ctx num_to_child orientation level_idx2
  limit la sides hl evs r :
  (forall side, side ∈ zrange left (limit + 1) ->
     aget (refine la) side = Some true) ->
  face_hanging ctx num_to_child orientation level_idx2 limit
    (la, sides, hl, evs) = Some r ->
  r = Next (la, sides, hl, evs).
Proof.
  unfold face_hanging. intros Hrefine Hrun.
  pose proof (for_break_inv (fun s => s = (la, sides, hl, evs))
                (fun _ => False) _ _ _ _ Hrun eq_refl) as Hinv.
  simpl in Hinv. destruct r as [s | s].
  - f_equal. apply Hinv. intros side st b Hin Hb ->.
    apply bind_Some in Hb as (rf & Hrf & Hb).
    rewrite (Hrefine side Hin) in Hrf. simplify_eq. simpl in Hb.
    by simplify_eq.
  - exfalso. apply Hinv. intros side st b Hin Hb ->.
    apply bind_Some in Hb as (rf & Hrf & Hb).
    rewrite (Hrefine side Hin) in Hrf. simplify_eq. simpl in Hb.
    by simplify_eq.
Qed.

Lemma set_quad_idx2_refine i v la la' :
  set_quad_idx2 i v la = Some la' -> refine la' = refine la.
Proof. unfold set_quad_idx2. intros H. run_inv H. by simplify_eq. Qed.

Lemma set_index_refine i k v la la' :
  set_index i k v la = Some la' -> refine la' = refine la.
Proof. unfold set_index. intros H. run_inv H. by simplify_eq. Qed.

Lemma for_each_refine {I} (body : I -> p4est_iter_loop_args_t ->
                                  option p4est_iter_loop_args_t)
  (l : list I) (la la' : p4est_iter_loop_args_t) :
  (forall i a b, body i a = Some b -> refine b = refine a) ->
  for_each body l la = Some la' -> refine la' = refine la.
Proof.
  intros Hbody Hrun.
  apply (for_each_inv (fun x => refine x = refine la) body l la la');
    [| done | done].
  intros i a b _ Hi Ha. rewrite <- Ha. by eapply Hbody.
Qed.

Lemma store_tier_refine sidetype pos offsets la la' :
  store_tier sidetype pos offsets la = Some la' -> refine la' = refine la.
Proof.
  unfold store_tier. apply for_each_refine.
  intros [k o] c d Hd. by eapply set_index_refine.
Qed.

Lemma split_sidetype_refine `{Bits} ctx sidetype pos la la' :
  split_sidetype ctx sidetype pos la = Some la' -> refine la' = refine la.
Proof.
  unfold split_sidetype. intros H1. run_inv H1. simplify_eq. simpl.
  match goal with
  | Hs : store_tier _ _ _ _ = Some _ |- _ => by apply store_tier_refine in Hs
  end.
Qed.

Lemma split_side_refine `{Bits} ctx level_idx2 side la la' :
  split_side ctx level_idx2 side la = Some la' -> refine la' = refine la.
Proof.
  unfold split_side. intros H1. run_inv H1.
  apply set_quad_idx2_refine in Hx. rewrite <- Hx.
  revert H1. apply for_each_refine. intros type a b Hb. run_inv Hb.
  by eapply split_sidetype_refine.
Qed.

Lemma set_refine_get i v la la' j :
  set_refine i v la = Some la' ->
  aget (refine la') j = if decide (i = j) then Some v else aget (refine la) j.
Proof.
  unfold set_refine. intros H. run_inv H. simplify_eq. simpl.
  by eapply aget_aset.
Qed.

(** Without a face callback no side is ever marked as not refined, so the
    hanging part of the loop body is passed over. *)
Lemma face_hanging_without_callback `{Bits} ctx num_to_child orientation
  level_idx2 limit la1 la2 la3 la4 sides hl evs r :
  set_refine right true la1 = Some la2 ->
  set_refine left true la2 = Some la3 ->
  for_each (fun side la =>
              r ← aget (refine la) side;
              if r : bool then split_side ctx level_idx2 side la
              else Some la)
    (zrange left (limit + 1)) la3 = Some la4 ->
  limit = left \/ limit = right ->
  face_hanging ctx num_to_child orientation level_idx2 limit
    (la4, sides, hl, evs) = Some r ->
  r = Next (la4, sides, hl, evs).
Proof.
  intros H2 H3 H4 Hlimit. apply face_hanging_skip.
  intros side Hside.
  assert (refine la4 = refine la3) as ->.
  { revert H4. apply for_each_refine. intros i a b Hb. run_inv Hb.
    - by eapply split_side_refine.
    - by simplify_eq. }
  rewrite (set_refine_get _ _ _ _ side H3).
  apply elem_of_zrange in Hside. unfold left, right in *.
  case_decide; [done |].
  rewrite (set_refine_get _ _ _ _ side H2).
  rewrite decide_True; [done | lia].
Qed.

Ltac reg_face_steps H ::=
  lazymatch type of H with
  | face_opposite _ _ _ _ = Some _ => by_reg face_opposite_reg H
  | face_candidates _ _ _ _ _ = Some _ => by_reg face_candidates_reg H
  | face_hanging _ _ _ _ _ _ = Some _ => by_reg @face_hanging_reg H
  end.

Lemma face_body_reg `{Bits} cbs ctx cb_face st r :
  face_body ctx cb_face st = Some r ->
  (cb_face = true -> iter_face cbs = true) ->
  reg cbs st -> reg cbs r.
Proof.
  unfold face_body. intros H1 Hcb Hr.
  destruct st as [[[args la] level_idx2] tr].
  destruct cb_face; [specialize (Hcb eq_refl) | clear Hcb].
  - run_inv H1; reg_solve cbs.
  - apply bind_Some in H1 as (la1 & Hla1 & H1).
    apply bind_Some in H1 as (la2 & Hla2 & H1).
    apply bind_Some in H1 as (la3 & Hla3 & H1).
    apply bind_Some in H1 as (rc & Hrc & H1).
    destruct rc as [[[[la' sides] hl] tr'] | [[[la' sides] hl] tr']].
    + apply face_candidates_skip in Hrc. simplify_eq.
      apply bind_Some in H1 as (la4 & Hla4 & H1).
      apply bind_Some in H1 as (rh & Hrh & H1).
      eapply face_hanging_without_callback in Hrh;
        [| exact Hla2 | exact Hla3 | exact Hla4
         | unfold left, right; destruct (f_outside_face args); lia].
      subst rh. run_inv H1. reg_solve cbs.
    + apply (face_candidates_reg cbs) in Hrc; [| done | reg_solve cbs].
      simplify_eq. reg_solve cbs.
Qed.

Lemma face_run_edges_reg `{Bits} cbs fuel ctx limit st r :
  face_run_edges fuel ctx cbs limit st = Some r -> reg cbs st -> reg cbs r.
Proof.
  unfold face_run_edges. intros H1 Hr.
  eapply (for_each_reg cbs _ _ _ _ H1 Hr). clear H1 Hr. reg_body cbs.
Qed.

Ltac reg_face_steps H ::=
  lazymatch type of H with
  | face_opposite _ _ _ _ = Some _ => by_reg face_opposite_reg H
  | face_candidates _ _ _ _ _ = Some _ => by_reg face_candidates_reg H
  | face_hanging _ _ _ _ _ _ = Some _ => by_reg @face_hanging_reg H
  | face_body _ _ _ = Some _ => by_reg @face_body_reg H
  | face_run_edges _ _ _ _ _ = Some _ => by_reg @face_run_edges_reg H
  end.

Lemma face_change_reg `{Bits} cbs fuel ctx start_level st r :
  face_change fuel ctx cbs start_level st = Some r ->
  reg cbs st -> reg cbs r.
Proof.
  unfold face_change. intros H1 Hr.
  destruct st as [[[args la] level_idx2] tr].
  run_inv H1; reg_solve cbs.
Qed.

Ltac reg_face_steps H ::=
  lazymatch type of H with
  | face_opposite _ _ _ _ = Some _ => by_reg face_opposite_reg H
  | face_candidates _ _ _ _ _ = Some _ => by_reg face_candidates_reg H
  | face_hanging _ _ _ _ _ _ = Some _ => by_reg @face_hanging_reg H
  | face_body _ _ _ = Some _ => by_reg @face_body_reg H
  | face_run_edges _ _ _ _ _ = Some _ => by_reg @face_run_edges_reg H
  | face_change _ _ _ _ _ = Some _ => by_reg @face_change_reg H
  end.

Lemma face_iterate_reg `{Bits} cbs fuel ctx args la r :
  p4est_face_iterate fuel ctx cbs args la = Some r ->
  reg cbs la -> reg cbs r.
Proof.
  unfold p4est_face_iterate. intros H1 Hla.
  run_inv H1; reg_solve cbs.
Qed.

Ltac reg_face_steps H ::=
  lazymatch type of H with
  | face_opposite _ _ _ _ = Some _ => by_reg face_opposite_reg H
  | face_candidates _ _ _ _ _ = Some _ => by_reg face_candidates_reg H
  | face_hanging _ _ _ _ _ _ = Some _ => by_reg @face_hanging_reg H
  | face_body _ _ _ = Some _ => by_reg @face_body_reg H
  | face_run_edges _ _ _ _ _ = Some _ => by_reg @face_run_edges_reg H
  | face_change _ _ _ _ _ = Some _ => by_reg @face_change_reg H
  | p4est_face_iterate _ _ _ _ _ = Some _ => by_reg @face_iterate_reg H
  end.

(** *** The volume iterator *)

Lemma volume_candidates_reg cbs ctx cb_volume st r :
  volume_candidates ctx cb_volume st = Some r ->
  (cb_volume = true -> iter_volume cbs = true) ->
  reg cbs st -> reg cbs r.
Proof.
  unfold volume_candidates. intros H Hcb Hr.
  destruct cb_volume; [specialize (Hcb eq_refl) | clear Hcb];
    eapply (for_break_reg cbs _ _ _ _ H Hr); clear H Hr; reg_body cbs.
Qed.

Ltac reg_volume_steps H ::=
  lazymatch type of H with
  | volume_candidates _ _ _ = Some _ => by_reg volume_candidates_reg H
  end.

Lemma volume_body_reg `{Bits} cbs ctx cb_volume st r :
  volume_body ctx cb_volume st = Some r ->
  (cb_volume = true -> iter_volume cbs = true) ->
  reg cbs st -> reg cbs r.
Proof.
  unfold volume_body. intros H1 Hcb Hr.
  destruct st as [[[args la] level_idx2] tr].
  run_inv H1; reg_solve cbs.
Qed.

Lemma volume_run_faces_reg `{Bits} cbs fuel ctx st r :
  volume_run_faces fuel ctx cbs st = Some r -> reg cbs st -> reg cbs r.
Proof.
  unfold volume_run_faces. intros H1 Hr.
  eapply (for_each_reg cbs _ _ _ _ H1 Hr). clear H1 Hr. reg_body cbs.
Qed.

Lemma volume_run_edges_reg `{Bits} cbs fuel ctx st r :
  volume_run_edges fuel ctx cbs st = Some r -> reg cbs st -> reg cbs r.
Proof.
  unfold volume_run_edges. intros H1 Hr.
  eapply (for_each_reg cbs _ _ _ _ H1 Hr). clear H1 Hr. reg_body cbs.
Qed.

Ltac reg_volume_steps H ::=
  lazymatch type of H with
  | volume_candidates _ _ _ = Some _ => by_reg volume_candidates_reg H
  | volume_body _ _ _ = Some _ => by_reg @volume_body_reg H
  | volume_run_faces _ _ _ _ = Some _ => by_reg @volume_run_faces_reg H
  | volume_run_edges _ _ _ _ = Some _ => by_reg @volume_run_edges_reg H
  end.

Lemma volume_change_reg `{Bits} cbs fuel ctx start_level st r :
  volume_change fuel ctx cbs start_level st = Some r ->
  reg cbs st -> reg cbs r.
Proof.
  unfold volume_change. intros H1 Hr.
  destruct st as [[[args la] level_idx2] tr].
  run_inv H1; reg_solve cbs.
Qed.

Ltac reg_volume_steps H ::=
  lazymatch type of H with
  | volume_candidates _ _ _ = Some _ => by_reg volume_candidates_reg H
  | volume_body _ _ _ = Some _ => by_reg @volume_body_reg H
  | volume_run_faces _ _ _ _ = Some _ => by_reg @volume_run_faces_reg H
  | volume_run_edges _ _ _ _ = Some _ => by_reg @volume_run_edges_reg H
  | volume_change _ _ _ _ _ = Some _ => by_reg @volume_change_reg H
  end.

Lemma volume_iterate_reg `{Bits} cbs fuel ctx args la r :
  p4est_volume_iterate fuel ctx cbs args la = Some r ->
  reg cbs la -> reg cbs r.
Proof.
  unfold p4est_volume_iterate. intros H1 Hla.
  run_inv H1; reg_solve cbs.
Qed.

(** *** The whole traversal *)

Ltac reg_volume_steps H ::=
  lazymatch type of H with
  | volume_candidates _ _ _ = Some _ => by_reg volume_candidates_reg H
  | volume_body _ _ _ = Some _ => by_reg @volume_body_reg H
  | volume_run_faces _ _ _ _ = Some _ => by_reg @volume_run_faces_reg H
  | volume_run_edges _ _ _ _ = Some _ => by_reg @volume_run_edges_reg H
  | volume_change _ _ _ _ _ = Some _ => by_reg @volume_change_reg H
  | p4est_volume_iterate _ _ _ _ _ = Some _ => by_reg @volume_iterate_reg H
  end.

Lemma init_corner_reg `{Bits} cbs ctx ghost_offsets la t c r :
  p4est_iter_init_corner ctx ghost_offsets la t c = Some r ->
  reg cbs la -> reg cbs r.
Proof.
  unfold p4est_iter_init_corner. intros H1 Hla. run_inv H1; reg_solve cbs.
Qed.

Lemma init_edge_reg `{Bits} cbs ctx ghost_offsets la t e r :
  p8est_iter_init_edge ctx ghost_offsets la t e = Some r ->
  reg cbs la -> reg cbs r.
Proof.
  unfold p8est_iter_init_edge. intros H1 Hla. run_inv H1; reg_solve cbs.
Qed.

Lemma init_face_reg `{Bits} cbs ctx ghost_offsets la args0 t f r :
  p4est_iter_init_face ctx ghost_offsets la args0 t f = Some r ->
  reg cbs la -> reg cbs r.
Proof.
  unfold p4est_iter_init_face. intros H1 Hla.
  run_inv H1; reg_solve cbs.
Qed.

Lemma init_volume_reg `{Bits} cbs ctx ghost_offsets la t r :
  p4est_iter_init_volume ctx ghost_offsets la t = Some r ->
  reg cbs la -> reg cbs r.
Proof.
  unfold p4est_iter_init_volume. intros H1 Hla. run_inv H1; reg_solve cbs.
Qed.

Ltac reg_tree_steps H ::=
  lazymatch type of H with
  | p4est_iter_init_corner _ _ _ _ _ = Some _ => by_reg @init_corner_reg H
  | p8est_iter_init_edge _ _ _ _ _ = Some _ => by_reg @init_edge_reg H
  | p4est_iter_init_face _ _ _ _ _ _ = Some _ => by_reg @init_face_reg H
  | p4est_iter_init_volume _ _ _ _ = Some _ => by_reg @init_volume_reg H
  end.

Lemma iterate_tree_faces_reg `{Bits} cbs fuel ctx tree_first_ghost t st r :
  iterate_tree_faces fuel ctx cbs tree_first_ghost t st = Some r ->
  reg cbs st -> reg cbs r.
Proof.
  unfold iterate_tree_faces. intros H1 Hr.
  eapply (for_each_reg cbs _ _ _ _ H1 Hr). clear H1 Hr. reg_body cbs.
Qed.

Lemma iterate_tree_edges_reg `{Bits} cbs fuel ctx tree_first_ghost t st r :
  iterate_tree_edges fuel ctx cbs tree_first_ghost t st = Some r ->
  reg cbs st -> reg cbs r.
Proof.
  unfold iterate_tree_edges. intros H1 Hr.
  eapply (for_each_reg cbs _ _ _ _ H1 Hr). clear H1 Hr. reg_body cbs.
Qed.

Lemma iterate_tree_corners_reg `{Bits} cbs ctx tree_first_ghost t st r :
  iterate_tree_corners ctx tree_first_ghost t st = Some r ->
  iter_corner cbs = true -> reg cbs st -> reg cbs r.
Proof.
  unfold iterate_tree_corners. intros H1 Hcb Hr.
  eapply (for_each_reg cbs _ _ _ _ H1 Hr). clear H1 Hr. reg_body cbs.
Qed.

Ltac reg_tree_steps H ::=
  lazymatch type of H with
  | p4est_iter_init_corner _ _ _ _ _ = Some _ => by_reg @init_corner_reg H
  | p8est_iter_init_edge _ _ _ _ _ = Some _ => by_reg @init_edge_reg H
  | p4est_iter_init_face _ _ _ _ _ _ = Some _ => by_reg @init_face_reg H
  | p4est_iter_init_volume _ _ _ _ = Some _ => by_reg @init_volume_reg H
  | iterate_tree_faces _ _ _ _ _ _ = Some _ =>
      by_reg @iterate_tree_faces_reg H
  | iterate_tree_edges _ _ _ _ _ _ = Some _ =>
      by_reg @iterate_tree_edges_reg H
  | iterate_tree_corners _ _ _ _ = Some _ =>
      by_reg @iterate_tree_corners_reg H
  end.

Lemma iterate_tree_reg `{Bits} cbs fuel ctx tree_first_ghost t st r :
  iterate_tree fuel ctx cbs tree_first_ghost t st = Some r ->
  reg cbs st -> reg cbs r.
Proof.
  unfold iterate_tree. intros H1 Hr.
  destruct st as [[la face_args] tr].
  run_inv H1; reg_solve cbs.
Qed.

Lemma loop_args_new_reg `{Build} cbs conn cb_edge num_procs la :
  p4est_iter_loop_args_new conn cb_edge (iter_corner cbs) num_procs
  = Some la ->
  reg cbs la.
Proof.
  unfold p4est_iter_loop_args_new. intros H1. run_inv H1. by simplify_eq.
Qed.

Lemma volume_iterate_simple_reg cbs p4est tr :
  p4est_volume_iterate_simple p4est = Some tr ->
  iter_volume cbs = true -> reg cbs tr.
Proof.
  unfold p4est_volume_iterate_simple. intros H Hcb.
  eapply (for_each_reg cbs _ _ _ _ H); [constructor |].
  intros t a b _ Hb Ha. run_inv Hb. simplify_eq.
  apply reg_app; [done |]. apply Forall_fmap, Forall_forall. by intros.
Qed.

Lemma iterate_search_reg `{Bits} cbs fuel p4est ghost_layer tr :
  p4est_iterate_search fuel p4est ghost_layer cbs = Some tr -> reg cbs tr.
Proof.
  unfold p4est_iterate_search. intros H1. run_inv H1. simplify_eq.
  apply (loop_args_new_reg cbs) in Hx.
  match goal with
  | Hf : for_each _ _ _ = Some (?a, ?b, tr) |- _ =>
      assert (reg cbs (a, b, tr)) as Hst; [| apply Hst];
      eapply (for_each_reg cbs _ _ _ _ Hf)
  end.
  - repeat apply reg_pair_intro; [done | done | constructor].
  - intros t a b _ Hb Ha. by eapply iterate_tree_reg.
Qed.

(** X7.  A callback that is [NULL] is never invoked.  Every callback that
    [p4est_iterate] makes is of a kind whose function pointer was passed:
    a volume callback needs [iter_volume], a face callback [iter_face], an
    edge callback [iter_edge] and a corner callback [iter_corner], also
    where the iterators of one kind only run to reach the entities of
    another (faces for their edges and corners, edges for their corners). *)
Theorem iterate_calls_registered_callbacks_only `{Bits} (fuel : nat)
  (p4est : p4est_t) (Ghost_layer : option (list p4est_quadrant_t))
  (cbs : callbacks) (tr : list iter_event) :
  p4est_iterate fuel p4est Ghost_layer cbs = Some tr ->
  Forall (event_registered cbs) tr.
Proof.
  unfold p4est_iterate. intros Hrun.
  case_decide; [simplify_eq; constructor |].
  destruct (negb (iter_face cbs) && _ && _).
  - destruct (iter_volume cbs) eqn:Hv; simpl in Hrun;
      [| simplify_eq; constructor].
    by apply (volume_iterate_simple_reg cbs) in Hrun.
  - by apply (iterate_search_reg cbs) in Hrun.
Qed.

Lemma iterate_calls_registered_callbacks_only_witness :
  let cbs := {| iter_volume := false; iter_face := false;
                iter_edge := false; iter_corner := true |} in
  exists tr,
    @p4est_iterate ex_build ex_bits 40 ex_forest2 None cbs = Some tr
    /\ tr <> []
    /\ Forall (event_registered cbs) tr.
Proof.
  intros cbs. eexists. split; [vm_compute; reflexivity |].
  split; [done |].
  apply (@iterate_calls_registered_callbacks_only ex_build ex_bits 40
           ex_forest2 None cbs).
  vm_compute. reflexivity.
Defined.

(** ** The flag [is_local] is accurate *)

(** *** Steps on the [quadrants] and [test] arrays *)

Lemma even_rem (side : Z) : (side * 2 + 0) `rem` 2 = 0.
Proof. rewrite Z.add_0_r. apply Z.rem_mul. lia. Qed.

Lemma set_level_acc v la : acc la -> acc (set_level v la).
Proof. done. Qed.

Lemma set_tier_rings_acc v la : acc la -> acc (set_tier_rings v la).
Proof. done. Qed.

Lemma same_acc (la la' : p4est_iter_loop_args_t) :
  same_qt la la' -> acc la -> acc la'.
Proof.
  intros [Hq Ht] Hacc. unfold acc, acc_la, la_acc in *.
  by rewrite Hq, Ht.
Qed.

Lemma set_quadrants_acc i v la la' :
  set_quadrants i v la = Some la' ->
  (forall side, i = side * 2 + 1 -> v = GhostQuads) ->
  (forall side, i = side * 2 + 0 -> exists t, v = TreeQuads t) ->
  acc la -> acc la'.
Proof.
  unfold set_quadrants. intros H Hg Hl (H1 & H2 & H3 & H4).
  run_inv H. simplify_eq.
  split_and!; [| | done | done]; intros side arr; simpl;
    rewrite (aget_aset _ _ _ _ _ Hx);
    (case_decide as Hi; [| by eauto]); intros [= <-]; eauto.
Qed.

Lemma set_test_acc i v la la' :
  set_test i v la = Some la' ->
  (forall side p, i = side * 2 + 1 -> v = Some p -> ptr_ghost p) ->
  (forall side p, i = side * 2 + 0 -> v = Some p -> ptr_local p) ->
  acc la -> acc la'.
Proof.
  unfold set_test. intros H Hg Hl (H1 & H2 & H3 & H4).
  run_inv H. simplify_eq.
  split_and!; [done | done | |]; intros side p; simpl;
    rewrite (aget_aset _ _ _ _ _ Hx);
    (case_decide as Hi; [| by eauto]); intros [= ->]; eauto.
Qed.

Lemma fill_quadrants_acc pick lo hi la la' :
  fill_quadrants pick lo hi la = Some la' ->
  (forall i, exists t, pick i = TreeQuads t) ->
  acc la -> acc la'.
Proof.
  unfold fill_quadrants. intros H Hp. revert H. apply (for_each_inv acc).
  intros i a b _ Hi Ha. eapply set_quadrants_acc; [done | | | done].
  - intros side ->. rewrite decide_True; [done |]. apply odd_rem.
  - intros side ->. rewrite decide_False; [done |].
    rewrite even_rem. lia.
Qed.

Lemma sc_array_index_array ctx arr i p :
  sc_array_index ctx arr i = Some p -> ptr_array p = arr.
Proof. unfold sc_array_index. intros H. run_inv H. by simplify_eq. Qed.

Lemma index_local ctx la side arr i p :
  sc_array_index ctx arr i = Some p ->
  aget (quadrants la) (side * 2 + 0) = Some arr -> acc la -> ptr_local p.
Proof.
  intros Hp Ha (_ & H2 & _). apply sc_array_index_array in Hp.
  unfold ptr_local. rewrite Hp. by eapply H2.
Qed.

Lemma index_ghost ctx la side arr i p :
  sc_array_index ctx arr i = Some p ->
  aget (quadrants la) (side * 2 + 1) = Some arr -> acc la -> ptr_ghost p.
Proof.
  intros Hp Ha (H1 & _). apply sc_array_index_array in Hp.
  unfold ptr_ghost. rewrite Hp. by eapply H1.
Qed.

Lemma corner_candidate_array `{Bits} ctx level c arr first cnt p i :
  corner_candidate ctx level c arr first cnt = Some (Some (p, i)) ->
  ptr_array p = arr.
Proof.
  unfold corner_candidate. intros H1. run_inv H1; simplify_eq;
    first [done | by eapply sc_array_index_array].
Qed.

Lemma corner_candidate_local_ptr `{Bits} ctx level c la side arr first cnt
  p i :
  corner_candidate ctx level c arr first cnt = Some (Some (p, i)) ->
  aget (quadrants la) (side * 2 + 0) = Some arr -> acc la -> ptr_local p.
Proof.
  intros Hp Ha (_ & H2 & _). apply corner_candidate_array in Hp.
  unfold ptr_local. rewrite Hp. by eapply H2.
Qed.

Lemma corner_candidate_ghost_ptr `{Bits} ctx level c la side arr first cnt
  p i :
  corner_candidate ctx level c arr first cnt = Some (Some (p, i)) ->
  aget (quadrants la) (side * 2 + 1) = Some arr -> acc la -> ptr_ghost p.
Proof.
  intros Hp Ha (H1 & _). apply corner_candidate_array in Hp.
  unfold ptr_ghost. rewrite Hp. by eapply H1.
Qed.

Lemma fetch_candidate_acc ctx sidetype la la' :
  fetch_candidate ctx sidetype la = Some la' -> acc la -> acc la'.
Proof.
  unfold fetch_candidate. intros H Hacc. run_inv H.
  - eapply same_acc; [by eapply set_test_level_same |].
    eapply set_test_acc; [done | | | done].
    + intros side p -> [= <-]. by eapply index_ghost.
    + intros side p -> [= <-]. by eapply index_local.
  - eapply same_acc; [by eapply set_test_level_same |].
    by eapply set_test_acc.
Qed.

(** *** Side records *)

Lemma quad_local_acc (p : quad_ptr) (i : Z) :
  ptr_local p ->
  acc {| sq_quad := Some p; sq_is_local := true; sq_quadid := i |}.
Proof. intros Hp q [= <-]. done. Qed.

Lemma quad_ghost_acc (p : quad_ptr) (i : Z) :
  ptr_ghost p ->
  acc {| sq_quad := Some p; sq_is_local := false; sq_quadid := i |}.
Proof. intros Hp q [= <-]. done. Qed.

Lemma quad_null_acc (b : bool) (i : Z) :
  acc {| sq_quad := None; sq_is_local := b; sq_quadid := i |}.
Proof. by intros q. Qed.

Lemma side_null_acc : acc side_null.
Proof. by intros q. Qed.

Lemma quad_test_even_acc (la : p4est_iter_loop_args_t) (side : Z)
  (p : option quad_ptr) (i : Z) :
  aget (test la) (side * 2 + 0) = Some p -> acc la ->
  acc {| sq_quad := p; sq_is_local := true; sq_quadid := i |}.
Proof. intros Ha (_ & _ & _ & H4) q Hq. simpl in *. subst p. by eapply H4. Qed.

Lemma quad_test_odd_acc (la : p4est_iter_loop_args_t) (side : Z)
  (p : option quad_ptr) (i : Z) :
  aget (test la) (side * 2 + 1) = Some p -> acc la ->
  acc {| sq_quad := p; sq_is_local := false; sq_quadid := i |}.
Proof. intros Ha (_ & _ & H3 & _) q Hq. simpl in *. subst p. by eapply H3. Qed.

(** *** The invariant [acc] through the steps of the iterators *)

Create HintDb accdb.

Lemma acc_Z_any (z : Z) : acc z.
Proof. done. Qed.

Lemma acc_bool_any (b : bool) : acc b.
Proof. done. Qed.

Lemma acc_step_any (s : next_step) : acc s.
Proof. done. Qed.

Lemma acc_nil {A} `{Acc A} : acc (@nil A).
Proof. constructor. Qed.

Lemma acc_cons {A} `{Acc A} (x : A) (l : list A) : acc x -> acc l -> acc (x :: l).
Proof. by constructor. Qed.

Lemma acc_app {A} `{Acc A} (l1 l2 : list A) : acc l1 -> acc l2 -> acc (l1 ++ l2).
Proof. intros H1 H2. apply Forall_app. by split. Qed.

Lemma acc_pair_intro {A B} `{Acc A, Acc B} (a : A) (b : B) :
  acc a -> acc b -> acc (a, b).
Proof. by split. Qed.

Lemma acc_Some {A} `{Acc A} (a : A) : acc a -> acc (Some a).
Proof. done. Qed.

Lemma acc_None {A} `{Acc A} : acc (@None A).
Proof. done. Qed.

Lemma acc_Next {S} `{Acc S} (s : S) : acc s -> acc (Next s).
Proof. done. Qed.

Lemma acc_Leave {S} `{Acc S} (s : S) : acc s -> acc (Leave s).
Proof. done. Qed.

Lemma zlookup_acc {A} `{Acc A} (l : list A) (i : Z) (v : A) :
  zlookup l i = Some v -> acc l -> acc v.
Proof.
  intros Hl Hok. apply zlookup_Some in Hl as [_ Hl].
  by eapply (Forall_lookup_1 acc).
Qed.

Lemma zinsert_acc {A} `{Acc A} (l l' : list A) (i : Z) (v : A) :
  zinsert l i v = Some l' -> acc l -> acc v -> acc l'.
Proof.
  intros [_ ->]%zinsert_inv Hl Hv. by apply Forall_insert.
Qed.

Lemma for_each_acc {S I} `{Acc S} (body : I -> S -> option S) (l : list I)
  (s s' : S) :
  for_each body l s = Some s' -> acc s ->
  (forall i a b, i ∈ l -> body i a = Some b -> acc a -> acc b) ->
  acc s'.
Proof. intros Hrun Hs Hbody. by apply (for_each_inv acc body l s s'). Qed.

Lemma for_break_acc {S I} `{Acc S} (body : I -> S -> option (flow S))
  (l : list I) (s : S) (r : flow S) :
  for_break body l s = Some r -> acc s ->
  (forall i a b, i ∈ l -> body i a = Some b -> acc a -> acc b) ->
  acc r.
Proof.
  revert s. induction l as [| i l IH]; intros s Hrun Hs Hbody; simpl in Hrun.
  - by simplify_eq.
  - apply bind_Some in Hrun as (f & Hf & Hrun).
    assert (acc f) as Hok by (eapply Hbody; [by left | done | done]).
    destruct f as [a | a]; [| by simplify_eq].
    eapply IH; [done | done |].
    intros j x y Hj. apply Hbody. by right.
Qed.

Lemma run_loop_acc {S} `{Acc S} (fuel : nat) (body : S -> option S)
  (change : S -> option (next_step * S)) (at_body : bool) (s s' : S) :
  run_loop fuel body change at_body s = Some s' -> acc s ->
  (forall a b, body a = Some b -> acc a -> acc b) ->
  (forall a b, change a = Some b -> acc a -> acc b) ->
  acc s'.
Proof.
  intros Hrun Hs Hbody Hchange. revert at_body s Hrun Hs.
  induction fuel as [| n IH]; intros at_body s Hrun Hs; simpl in Hrun; [done |].
  destruct at_body.
  - apply bind_Some in Hrun as (a & Ha & Hrun).
    eapply IH; [done |]. by eapply Hbody.
  - apply bind_Some in Hrun as ([step a] & Ha & Hrun).
    assert (acc a) by (by eapply (Hchange s (step, a))).
    destruct step; [by simplify_eq | by eapply IH | by eapply IH].
Qed.

Lemma mapM_acc {A B} `{Acc B} (f : A -> option B) (l : list A) (k : list B) :
  mapM f l = Some k ->
  (forall a b, f a = Some b -> acc b) ->
  acc k.
Proof.
  intros Hm Hf. apply mapM_Some_1 in Hm.
  induction Hm; [constructor |]. constructor; [by eapply Hf | done].
Qed.

Lemma full_acc (q : side_quad) : acc q -> acc (SideFull q).
Proof. done. Qed.

Lemma unset_acc : acc SideUnset.
Proof. done. Qed.

Lemma corner_side_acc_intro t c d :
  acc d -> acc {| cs_treeid := t; cs_corner := c; cs_is := d |}.
Proof. done. Qed.

Lemma edge_side_acc_intro t e o d :
  acc d ->
  acc {| es_treeid := t; es_edge := e; es_orientation := o; es_is := d |}.
Proof. done. Qed.

Lemma face_side_acc_intro t f d :
  acc d -> acc {| fs_treeid := t; fs_face := f; fs_is := d |}.
Proof. done. Qed.

Lemma corner_event_acc sides : acc sides -> acc (EvCorner sides).
Proof. done. Qed.

Lemma edge_event_acc sides : acc sides -> acc (EvEdge sides).
Proof. done. Qed.

Lemma corner_args_acc_intro n s sides :
  acc sides ->
  acc {| c_num_sides := n; c_start_idx2 := s; c_sides := sides |}.
Proof. done. Qed.

#[global] Hint Resolve acc_Z_any acc_bool_any acc_step_any acc_nil acc_cons acc_app
  acc_pair_intro acc_Some acc_None acc_Next acc_Leave
  set_level_acc set_tier_rings_acc
  quad_null_acc side_null_acc
  full_acc unset_acc corner_side_acc_intro edge_side_acc_intro
  face_side_acc_intro corner_event_acc edge_event_acc
  corner_args_acc_intro : accdb.

#[global] Hint Extern 2 (acc (if _ then _ else _)) => case_match : accdb.

(** A pointer goal is read off the step that produced the pointer. *)
Ltac acc_ptr :=
  match goal with
  | Hp : sc_array_index _ ?arr _ = Some ?p,
    Ha : aget (quadrants ?la) _ = Some ?arr, Hacc : acc ?la |- _ ?p =>
      first [ exact (index_local _ _ _ _ _ _ Hp Ha Hacc)
            | exact (index_ghost _ _ _ _ _ _ Hp Ha Hacc) ]
  | Hp : corner_candidate _ _ _ ?arr _ _ = Some (Some (?p, _)),
    Ha : aget (quadrants ?la) _ = Some ?arr, Hacc : acc ?la |- _ ?p =>
      first [ exact (corner_candidate_local_ptr _ _ _ _ _ _ _ _ _ _ Hp Ha Hacc)
            | exact (corner_candidate_ghost_ptr _ _ _ _ _ _ _ _ _ _ Hp Ha Hacc) ]
  end.

Ltac acc_quad :=
  first
    [ apply quad_null_acc
    | match goal with
      | Ha : aget (test ?la) _ = Some ?p, Hacc : acc ?la
        |- acc {| sq_quad := ?p; sq_is_local := _; sq_quadid := _ |} =>
          first [ exact (quad_test_even_acc _ _ _ _ Ha Hacc)
                | exact (quad_test_odd_acc _ _ _ _ Ha Hacc) ]
      end
    | apply quad_local_acc; acc_ptr
    | apply quad_ghost_acc; acc_ptr ].

#[global] Hint Extern 1 (@acc side_quad _ _) => acc_quad : accdb.

(** The position tested in [set_test_acc] and [set_quadrants_acc]: of the
    wrong parity, or that of the fact to show. *)
Ltac acc_side :=
  intros; cbv beta;
  first
    [ match goal with
      | Hv : None = Some _ |- _ => discriminate Hv
      end
    | by (exfalso; unfold local, ghost, left, right in *; lia)
    | reflexivity
    | eexists; reflexivity
    | case_decide; eexists; reflexivity
    | match goal with
      | Hv : Some _ = Some _ |- _ => injection Hv as <-; acc_ptr
      end ].

(** Goals are taken apart first, so that each part is searched on its
    own; what is left is a hypothesis, a fact about a constructor, or the
    position tested in [set_test_acc] and [set_quadrants_acc]. *)
Ltac acc_goal :=
  lazymatch goal with
  | |- acc (_, _) => apply acc_pair_intro; acc_goal
  | |- acc (Next _) => apply acc_Next; acc_goal
  | |- acc (Leave _) => apply acc_Leave; acc_goal
  | |- acc (Some _) => apply acc_Some; acc_goal
  | |- acc (if ?c then _ else _) => destruct c; acc_goal
  | |- acc (_ ++ _) => apply acc_app; acc_goal
  | |- acc (_ :: _) => apply acc_cons; acc_goal
  | |- _ \/ _ => solve [assumption | left; reflexivity | right; reflexivity]
  | |- forall _ : Z, _ => acc_side
  | |- _ => solve [assumption | exact I | reflexivity
                  | eauto 4 with accdb nocore]
  end.

Ltac by_same_acc L H := eapply same_acc; [eapply L; exact H | acc_goal].
Ltac by_acc L H := eapply L; [exact H | acc_goal ..].

(** The lemma for the step [H]; [acc_extra] is extended as the iterators
    are covered. *)
Ltac acc_corner_steps H := fail.
Ltac acc_edge_steps H := fail.
Ltac acc_face_steps H := fail.
Ltac acc_init_steps H := fail.
Ltac acc_volume_steps H := fail.
Ltac acc_tree_steps H := fail.

Ltac acc_extra H :=
  first [ acc_corner_steps H | acc_edge_steps H | acc_face_steps H
        | acc_init_steps H | acc_volume_steps H | acc_tree_steps H ].

Ltac acc_step H :=
  lazymatch type of H with
  | zlookup _ _ = Some _ => by_acc @zlookup_acc H
  | zinsert _ _ _ = Some _ => by_acc @zinsert_acc H
  | set_level_num _ _ _ = Some _ => by_same_acc set_level_num_same H
  | set_quad_idx2 _ _ _ = Some _ => by_same_acc set_quad_idx2_same H
  | set_index _ _ _ _ = Some _ => by_same_acc set_index_same H
  | set_first_index _ _ _ = Some _ => by_same_acc set_first_index_same H
  | set_count _ _ _ = Some _ => by_same_acc set_count_same H
  | set_test_level _ _ _ = Some _ => by_same_acc set_test_level_same H
  | set_refine _ _ _ = Some _ => by_same_acc set_refine_same H
  | incr_level_num _ _ = Some _ => by_same_acc incr_level_num_same H
  | load_bound_at _ _ _ = Some _ => by_same_acc load_bound_at_same H
  | load_bounds _ _ = Some _ => by_same_acc load_bounds_same H
  | store_tier _ _ _ _ = Some _ => by_same_acc store_tier_same H
  | p4est_iter_copy_indices _ _ _ _ = Some _ => by_same_acc @copy_indices_same H
  | init_root_bounds _ _ _ _ _ = Some _ => by_same_acc init_root_bounds_same H
  | split_sidetype _ _ _ _ = Some _ => by_same_acc @split_sidetype_same H
  | split_side _ _ _ _ = Some _ => by_same_acc @split_side_same H
  | set_test _ _ _ = Some _ => by_acc set_test_acc H
  | set_quadrants _ _ _ = Some _ => by_acc set_quadrants_acc H
  | fill_quadrants _ _ _ _ = Some _ => by_acc fill_quadrants_acc H
  | fetch_candidate _ _ _ = Some _ => by_acc fetch_candidate_acc H
  | _ => acc_extra H
  end.

Ltac acc_known x :=
  lazymatch goal with
  | _ : acc x |- _ => fail
  | _ => idtac
  end.

(** Derive [acc] for every result of a step in the context, in the order
    of the program; a loop with its body written in place is taken
    through its invariant. *)
Ltac acc_pairs :=
  repeat match goal with
         | H : acc (?a, ?b) |- _ =>
             acc_known a; pose proof (proj1 H : acc a)
         | H : acc (?a, ?b) |- _ =>
             acc_known b; pose proof (proj2 H : acc b)
         | H : acc (Next ?a) |- _ => acc_known a; pose proof (H : acc a)
         | H : acc (Leave ?a) |- _ => acc_known a; pose proof (H : acc a)
         | H : acc (Some ?a) |- _ => acc_known a; pose proof (H : acc a)
         end.

Ltac acc_fwd :=
  acc_pairs;
  repeat match reverse goal with
         | H : _ = Some ?x |- _ =>
             ok_wanted x; acc_known x;
             assert (acc x) by acc_prove H;
             acc_pairs
         end
with acc_prove H :=
  first
    [ acc_step H
    | eapply (for_each_acc _ _ _ _ H); [acc_goal | acc_body]
    | eapply (for_break_acc _ _ _ _ H); [acc_goal | acc_body]
    | eapply (run_loop_acc _ _ _ _ _ _ H); [acc_goal | acc_body1 | acc_body1]
    | eapply (mapM_acc _ _ _ H); acc_body0 ]
with acc_body0 :=
  let Hb := fresh "Hb" in
  repeat match goal with
         | H' : _ = Some ?x |- _ => ok_wanted x; acc_known x; clear H'
         end;
  intros ? ? Hb; cbv beta in Hb; run_inv Hb; split_types;
  simplify_eq; acc_fwd; acc_goal
with acc_body :=
  let Hb := fresh "Hb" in
  repeat match goal with
         | H' : _ = Some ?x |- _ => ok_wanted x; acc_known x; clear H'
         end;
  intros ? ? ? ? Hb ?; cbv beta in Hb; run_inv Hb; split_types;
  simplify_eq; acc_fwd; acc_goal
with acc_body1 :=
  let Hb := fresh "Hb" in
  repeat match goal with
         | H' : _ = Some ?x |- _ => ok_wanted x; acc_known x; clear H'
         end;
  intros ? ? Hb ?; cbv beta in Hb; run_inv Hb; split_types;
  simplify_eq; acc_fwd; acc_goal.

Ltac acc_solve := simplify_eq; acc_fwd; acc_goal.

(** *** The corner iterator and the flag [is_local] *)

Lemma probe_child_acc ctx side st st' :
  probe_child ctx side st = Some st' ->
  acc st -> acc st'.
Proof.
  unfold probe_child. intros H Hok.
  eapply (for_each_acc _ _ _ _ H Hok). clear H Hok.
  intros type [[la slot] hl] [[la' slot'] hl'] Hin H Hok.
  run_inv H; split_types; simplify_eq; acc_fwd; acc_goal.
Qed.

Lemma corner_side_type_acc `{Bits} ctx level side type st st' :
  corner_side_type ctx level side type st = Some st' ->
  type = 0 \/ type = 1 -> acc st -> acc st'.
Proof.
  unfold corner_side_type. intros H1 [-> | ->] Hok.
  all: destruct st as [[la cside] hl]; run_inv H1; simplify_eq;
    try done; acc_fwd; acc_goal.
Qed.

Ltac acc_corner_steps H ::=
  lazymatch type of H with
  | probe_child _ _ _ = Some _ => by_acc probe_child_acc H
  | corner_side_type _ _ _ _ _ = Some _ => by_acc @corner_side_type_acc H
  end.

Lemma corner_side_acc `{Bits} ctx level side st st' :
  corner_side ctx level side st = Some st' ->
  acc st -> acc st'.
Proof.
  unfold corner_side. intros H1 Hok.
  destruct st as [[la sides] hl]. run_inv H1. acc_solve.
Qed.

Ltac acc_corner_steps H ::=
  lazymatch type of H with
  | probe_child _ _ _ = Some _ => by_acc probe_child_acc H
  | corner_side_type _ _ _ _ _ = Some _ => by_acc @corner_side_type_acc H
  | corner_side _ _ _ _ = Some _ => by_acc @corner_side_acc H
  end.

Lemma corner_iterate_acc `{Bits} ctx args la r :
  p4est_corner_iterate ctx args la = Some r ->
  acc args -> acc la -> acc r.
Proof.
  unfold p4est_corner_iterate. intros H1 Hargs Hla.
  run_inv H1; acc_solve.
Qed.

Ltac acc_corner_steps H ::=
  lazymatch type of H with
  | probe_child _ _ _ = Some _ => by_acc probe_child_acc H
  | corner_side_type _ _ _ _ _ = Some _ => by_acc @corner_side_type_acc H
  | corner_side _ _ _ _ = Some _ => by_acc @corner_side_acc H
  | p4est_corner_iterate _ _ _ = Some _ => by_acc @corner_iterate_acc H
  end.

(** *** The edge iterator and the flag [is_local] *)

Lemma edge_args_acc_intro n s cc ca sides :
  acc sides -> acc ca ->
  acc {| e_num_sides := n; e_start_idx2 := s; e_common_corners := cc;
        e_corner_args := ca; e_sides := sides |}.
Proof. by split. Qed.

Lemma with_edge_sides_acc args sides :
  acc args -> acc sides -> acc (with_edge_sides args sides).
Proof. intros [_ Hc] Hs. by split. Qed.

Lemma with_edge_corner_args_acc args ca :
  acc args -> acc ca -> acc (with_edge_corner_args args ca).
Proof. intros [Hs _] Hc. by split. Qed.

Lemma edge_args_sides_acc (args : p8est_iter_edge_args_t) :
  acc args -> acc (e_sides args).
Proof. by intros [? ?]. Qed.

Lemma edge_args_corner_acc (args : p8est_iter_edge_args_t) ca :
  e_corner_args args = Some ca -> acc args -> acc ca.
Proof. intros Hc [_ Hca]. by rewrite Hc in Hca. Qed.

Lemma hanging_slots_acc n d : acc d -> acc (SideHanging (hanging_slots n d)).
Proof.
  assert (acc (SideHanging (replicate (Z.to_nat n) None))) as Hrep.
  { apply Forall_replicate. done. }
  intros Hd. destruct d as [| q | slots]; simpl; [done | done |].
  by case_decide.
Qed.

Lemma write_slot_acc d c slot d' :
  write_slot d c slot = Some d' -> acc d -> acc slot -> acc d'.
Proof.
  unfold write_slot. intros H Hd Hs. destruct d as [| q | slots]; [done.. |].
  run_inv H. simplify_eq. apply zinsert_inv in Hx as [_ ->].
  by apply Forall_insert.
Qed.

Lemma set_edge_side_acc sides side d sides' :
  set_edge_side sides side d = Some sides' -> acc sides -> acc d -> acc sides'.
Proof.
  unfold set_edge_side. intros H Hs Hd. run_inv H.
  eapply zinsert_acc; [done | done | done].
Qed.

Lemma edge_side_data_acc (s : p8est_iter_edge_side_t) : acc s -> acc (es_is s).
Proof. done. Qed.

#[global] Hint Resolve edge_args_acc_intro with_edge_sides_acc
  with_edge_corner_args_acc edge_args_sides_acc hanging_slots_acc
  edge_side_data_acc : accdb.

Ltac acc_edge_steps H ::=
  lazymatch type of H with
  | write_slot _ _ _ = Some _ => by_acc write_slot_acc H
  | set_edge_side _ _ _ = Some _ => by_acc set_edge_side_acc H
  | e_corner_args _ = Some _ => by_acc edge_args_corner_acc H
  end.

Lemma edge_candidates_acc cb_edge num_sides st r :
  edge_candidates cb_edge num_sides st = Some r -> acc st -> acc r.
Proof.
  unfold edge_candidates. intros H Hok.
  eapply (for_break_acc _ _ _ _ H Hok). clear H Hok. acc_body.
Qed.

Lemma edge_empty_sides_acc num_sides st r :
  edge_empty_sides num_sides st = Some r -> acc st -> acc r.
Proof.
  unfold edge_empty_sides. intros H Hok.
  eapply (for_each_acc _ _ _ _ H Hok). clear H Hok. acc_body.
Qed.

Lemma edge_hanging_acc `{Build} ctx level_idx2 num_sides cc st r :
  edge_hanging ctx level_idx2 num_sides cc st = Some r ->
  acc st -> acc r.
Proof.
  unfold edge_hanging. intros H1 Hok.
  eapply (for_each_acc _ _ _ _ H1 Hok). clear H1 Hok. acc_body.
Qed.

Ltac acc_edge_steps H ::=
  lazymatch type of H with
  | write_slot _ _ _ = Some _ => by_acc write_slot_acc H
  | set_edge_side _ _ _ = Some _ => by_acc set_edge_side_acc H
  | e_corner_args _ = Some _ => by_acc edge_args_corner_acc H
  | edge_candidates _ _ _ = Some _ => by_acc edge_candidates_acc H
  | edge_empty_sides _ _ = Some _ => by_acc edge_empty_sides_acc H
  | edge_hanging _ _ _ _ _ = Some _ => by_acc @edge_hanging_acc H
  end.

Lemma edge_body_acc `{Bits} ctx cb_edge args la level_idx2 r :
  edge_body ctx cb_edge args la level_idx2 = Some r ->
  acc args -> acc la -> acc r.
Proof.
  unfold edge_body. intros H1 Hargs Hla.
  run_inv H1; acc_solve.
Qed.

Lemma edge_change_acc `{Bits} ctx start_level st r :
  edge_change ctx start_level st = Some r ->
  acc st -> acc r.
Proof.
  unfold edge_change. intros H1 Hok.
  destruct st as [[[args la] level_idx2] tr].
  run_inv H1; acc_solve.
Qed.

Ltac acc_edge_steps H ::=
  lazymatch type of H with
  | write_slot _ _ _ = Some _ => by_acc write_slot_acc H
  | set_edge_side _ _ _ = Some _ => by_acc set_edge_side_acc H
  | e_corner_args _ = Some _ => by_acc edge_args_corner_acc H
  | edge_candidates _ _ _ = Some _ => by_acc edge_candidates_acc H
  | edge_empty_sides _ _ = Some _ => by_acc edge_empty_sides_acc H
  | edge_hanging _ _ _ _ _ = Some _ => by_acc @edge_hanging_acc H
  | edge_body _ _ _ _ _ = Some _ => by_acc @edge_body_acc H
  | edge_change _ _ _ = Some _ => by_acc @edge_change_acc H
  end.

Lemma edge_iterate_acc `{Bits} fuel ctx cbs args la r :
  p8est_edge_iterate fuel ctx cbs args la = Some r ->
  acc args -> acc la -> acc r.
Proof.
  unfold p8est_edge_iterate. intros H1 Hargs Hla.
  run_inv H1; acc_solve.
Qed.

Ltac acc_edge_steps H ::=
  lazymatch type of H with
  | write_slot _ _ _ = Some _ => by_acc write_slot_acc H
  | set_edge_side _ _ _ = Some _ => by_acc set_edge_side_acc H
  | e_corner_args _ = Some _ => by_acc edge_args_corner_acc H
  | edge_candidates _ _ _ = Some _ => by_acc edge_candidates_acc H
  | edge_empty_sides _ _ = Some _ => by_acc edge_empty_sides_acc H
  | edge_hanging _ _ _ _ _ = Some _ => by_acc @edge_hanging_acc H
  | edge_body _ _ _ _ _ = Some _ => by_acc @edge_body_acc H
  | edge_change _ _ _ = Some _ => by_acc @edge_change_acc H
  | p8est_edge_iterate _ _ _ _ _ = Some _ => by_acc @edge_iterate_acc H
  end.

(** *** The face iterator and the flag [is_local] *)

Lemma face_event_acc o sides :
  acc sides -> acc (EvFace {| fi_orientation := o; fi_sides := sides |}).
Proof. done. Qed.

Lemma face_args_acc_intro s n o ea ca i :
  acc (fi_sides i) -> acc ea -> acc ca ->
  acc {| f_start_idx2 := s; f_num_to_child := n; f_outside_face := o;
        f_edge_args := ea; f_corner_args := ca; f_info := i |}.
Proof. by split. Qed.

Lemma with_face_sides_acc args sides :
  acc args -> acc sides -> acc (with_face_sides args sides).
Proof. intros (_ & He & Hc) Hs. by split. Qed.

Lemma with_face_edge_args_acc args ea :
  acc args -> acc ea -> acc (with_face_edge_args args ea).
Proof. intros (Hs & _ & Hc) He. by split. Qed.

Lemma with_face_corner_args_acc args ca :
  acc args -> acc ca -> acc (with_face_corner_args args ca).
Proof. intros (Hs & He & _) Hc. by split. Qed.

Lemma face_args_sides_acc (args : p4est_iter_face_args_t) :
  acc args -> acc (fi_sides (f_info args)).
Proof. by intros (? & ? & ?). Qed.

Lemma face_args_edges_acc (args : p4est_iter_face_args_t) :
  acc args -> acc (f_edge_args args).
Proof. by intros (? & ? & ?). Qed.

Lemma face_args_corner_acc (args : p4est_iter_face_args_t) ca :
  f_corner_args args = Some ca -> acc args -> acc ca.
Proof. intros Hc (_ & _ & Hca). by rewrite Hc in Hca. Qed.

Lemma face_side_data_acc (s : p4est_iter_face_side_t) : acc s -> acc (fs_is s).
Proof. done. Qed.

Lemma set_face_side_acc sides side d sides' :
  set_face_side sides side d = Some sides' -> acc sides -> acc d -> acc sides'.
Proof.
  unfold set_face_side. intros H Hs Hd. run_inv H.
  eapply zinsert_acc; [done | done | done].
Qed.

Lemma full_candidate_acc side type la d :
  full_candidate (side * 2 + type) type la = Some d ->
  type = 0 \/ type = 1 -> acc la -> acc d.
Proof.
  unfold full_candidate. intros H [-> | ->] Hla; run_inv H; acc_solve.
Qed.

#[global] Hint Resolve face_event_acc face_args_acc_intro with_face_sides_acc
  with_face_edge_args_acc with_face_corner_args_acc face_args_sides_acc
  face_args_edges_acc face_side_data_acc : accdb.

Ltac acc_face_steps H ::=
  lazymatch type of H with
  | set_face_side _ _ _ = Some _ => by_acc set_face_side_acc H
  | f_corner_args _ = Some _ => by_acc face_args_corner_acc H
  | full_candidate _ _ _ = Some _ => by_acc full_candidate_acc H
  end.

Lemma face_opposite_acc orientation side type st r :
  face_opposite orientation side type st = Some r ->
  type = 0 \/ type = 1 -> acc st -> acc r.
Proof.
  unfold face_opposite. intros H Htype Hok.
  apply bind_Some in H as (x & Hx & H).
  assert (acc x) as Hx'.
  { eapply (for_break_acc _ _ _ _ Hx Hok). clear Hx Hok H.
    intros n_type [[[la sides] hl] evs] b Hin Hb Hok.
    assert (n_type = 0 \/ n_type = 1) as Hn
      by (apply elem_of_zrange in Hin; unfold ghost in Hin; lia).
    clear Hin. cbv beta in Hb. run_inv Hb; acc_solve. }
  destruct x as [[[[la sides] hl] evs] | st1]; run_inv H; acc_solve.
Qed.

Ltac acc_face_steps H ::=
  lazymatch type of H with
  | set_face_side _ _ _ = Some _ => by_acc set_face_side_acc H
  | f_corner_args _ = Some _ => by_acc face_args_corner_acc H
  | full_candidate _ _ _ = Some _ => by_acc full_candidate_acc H
  | face_opposite _ _ _ _ = Some _ => by_acc face_opposite_acc H
  end.

Lemma face_candidates_acc cb_face outside_face orientation limit st r :
  face_candidates cb_face outside_face orientation limit st = Some r ->
  acc st -> acc r.
Proof.
  unfold face_candidates. intros H Hok.
  eapply (for_break_acc _ _ _ _ H Hok). clear H Hok. acc_body.
Qed.

Lemma face_hanging_acc `{Bits} ctx num_to_child orientation level_idx2 limit
  st r :
  face_hanging ctx num_to_child orientation level_idx2 limit st = Some r ->
  acc st -> acc r.
Proof.
  unfold face_hanging. intros H1 Hok.
  eapply (for_break_acc _ _ _ _ H1 Hok). clear H1 Hok. acc_body.
Qed.

Ltac acc_face_steps H ::=
  lazymatch type of H with
  | set_face_side _ _ _ = Some _ => by_acc set_face_side_acc H
  | f_corner_args _ = Some _ => by_acc face_args_corner_acc H
  | full_candidate _ _ _ = Some _ => by_acc full_candidate_acc H
  | face_opposite _ _ _ _ = Some _ => by_acc face_opposite_acc H
  | face_candidates _ _ _ _ _ = Some _ => by_acc face_candidates_acc H
  | face_hanging _ _ _ _ _ _ = Some _ => by_acc @face_hanging_acc H
  end.

Lemma face_body_acc `{Bits} ctx cb_face st r :
  face_body ctx cb_face st = Some r ->
  acc st -> acc r.
Proof.
  unfold face_body. intros H1 Hok.
  destruct st as [[[args la] level_idx2] tr].
  run_inv H1; acc_solve.
Qed.

Lemma face_run_edges_acc `{Bits} fuel ctx cbs limit st r :
  face_run_edges fuel ctx cbs limit st = Some r ->
  acc st -> acc r.
Proof.
  unfold face_run_edges. intros H1 Hok.
  eapply (for_each_acc _ _ _ _ H1 Hok). clear H1 Hok. acc_body.
Qed.

Ltac acc_face_steps H ::=
  lazymatch type of H with
  | set_face_side _ _ _ = Some _ => by_acc set_face_side_acc H
  | f_corner_args _ = Some _ => by_acc face_args_corner_acc H
  | full_candidate _ _ _ = Some _ => by_acc full_candidate_acc H
  | face_opposite _ _ _ _ = Some _ => by_acc face_opposite_acc H
  | face_candidates _ _ _ _ _ = Some _ => by_acc face_candidates_acc H
  | face_hanging _ _ _ _ _ _ = Some _ => by_acc @face_hanging_acc H
  | face_body _ _ _ = Some _ => by_acc @face_body_acc H
  | face_run_edges _ _ _ _ _ = Some _ => by_acc @face_run_edges_acc H
  end.

Lemma face_change_acc `{Bits} fuel ctx cbs start_level st r :
  face_change fuel ctx cbs start_level st = Some r ->
  acc st -> acc r.
Proof.
  unfold face_change. intros H1 Hok.
  destruct st as [[[args la] level_idx2] tr].
  run_inv H1; acc_solve.
Qed.

Lemma face_prologue_acc `{Build} args la r :
  face_prologue args la = Some r -> acc la -> acc r.
Proof.
  unfold face_prologue. intros H1 Hla. run_inv H1; acc_solve.
Qed.

Ltac acc_face_steps H ::=
  lazymatch type of H with
  | set_face_side _ _ _ = Some _ => by_acc set_face_side_acc H
  | f_corner_args _ = Some _ => by_acc face_args_corner_acc H
  | full_candidate _ _ _ = Some _ => by_acc full_candidate_acc H
  | face_opposite _ _ _ _ = Some _ => by_acc face_opposite_acc H
  | face_candidates _ _ _ _ _ = Some _ => by_acc face_candidates_acc H
  | face_hanging _ _ _ _ _ _ = Some _ => by_acc @face_hanging_acc H
  | face_body _ _ _ = Some _ => by_acc @face_body_acc H
  | face_run_edges _ _ _ _ _ = Some _ => by_acc @face_run_edges_acc H
  | face_change _ _ _ _ _ = Some _ => by_acc @face_change_acc H
  | face_prologue _ _ = Some _ => by_acc @face_prologue_acc H
  end.

Lemma face_iterate_acc `{Bits} fuel ctx cbs args la r :
  p4est_face_iterate fuel ctx cbs args la = Some r ->
  acc args -> acc la -> acc r.
Proof.
  unfold p4est_face_iterate. intros H1 Hargs Hla.
  run_inv H1; acc_solve.
Qed.

Ltac acc_face_steps H ::=
  lazymatch type of H with
  | set_face_side _ _ _ = Some _ => by_acc set_face_side_acc H
  | f_corner_args _ = Some _ => by_acc face_args_corner_acc H
  | full_candidate _ _ _ = Some _ => by_acc full_candidate_acc H
  | face_opposite _ _ _ _ = Some _ => by_acc face_opposite_acc H
  | face_candidates _ _ _ _ _ = Some _ => by_acc face_candidates_acc H
  | face_hanging _ _ _ _ _ _ = Some _ => by_acc @face_hanging_acc H
  | face_body _ _ _ = Some _ => by_acc @face_body_acc H
  | face_run_edges _ _ _ _ _ = Some _ => by_acc @face_run_edges_acc H
  | face_change _ _ _ _ _ = Some _ => by_acc @face_change_acc H
  | face_prologue _ _ = Some _ => by_acc @face_prologue_acc H
  | p4est_face_iterate _ _ _ _ _ = Some _ => by_acc @face_iterate_acc H
  end.


(** *** Setting up the iterators *)

Lemma acc_map_unset {A B} `{Acc B} (f : A -> B) (l : list A) :
  (forall a, acc (f a)) -> acc (map f l).
Proof. intros Hf. apply Forall_fmap, Forall_forall. intros a _. apply Hf. Qed.

Lemma acc_map_fst {A B} `{Acc A, Acc B} (l : list (A * B)) :
  acc l -> acc (map fst l).
Proof.
  intros Hl. apply Forall_fmap. eapply Forall_impl; [exact Hl |].
  by intros [a b] [Ha _].
Qed.

Lemma acc_map_fst3 {A B C D} `{Acc A, Acc B, Acc C, Acc D}
  (l : list (A * B * C * D)) :
  acc l -> acc (map (fun r => r.1.1.1) l).
Proof.
  intros Hl. apply Forall_fmap. eapply Forall_impl; [exact Hl |].
  by intros [[[a b] c] d] [[[Ha _] _] _].
Qed.

Lemma acc_map_fst2 {A B C} `{Acc A, Acc B, Acc C} (l : list (A * B * C)) :
  acc l -> acc (map (fun r => r.1.1) l).
Proof.
  intros Hl. apply Forall_fmap. eapply Forall_impl; [exact Hl |].
  by intros [[a b] c] [[Ha _] _].
Qed.

Lemma acc_flat_map {A B} `{Acc B} (f : A -> list B) (l : list A) :
  (forall a, acc (f a)) -> acc (flat_map f l).
Proof.
  intros Hf. apply Forall_flat_map, Forall_forall. intros a _. apply Hf.
Qed.

#[global] Hint Resolve acc_map_fst acc_map_fst2 acc_map_fst3 : accdb.

Lemma corner_sides_acc `{Bits} conn t c : acc (corner_sides conn t c).
Proof.
  unfold corner_sides. repeat apply acc_app.
  - by repeat constructor.
  - apply acc_flat_map. intros i.
    destruct (p4est_quadrant_face_neighbor_extra _ _ _ _) as [nt q].
    case_decide; by repeat constructor.
  - destruct P4_TO_P8; [| constructor].
    apply acc_flat_map. intros i. apply acc_map_unset. by intros [q nt].
  - apply acc_map_unset. by intros [q nt].
Qed.

Lemma edge_sides_acc `{Bits} conn t e o :
  acc (map (fun r => r.1.1) (edge_sides conn t e o)).
Proof.
  unfold edge_sides. rewrite !map_app. repeat apply acc_app.
  - by repeat constructor.
  - rewrite flat_map_concat_map, concat_map, map_map, <- flat_map_concat_map.
    apply acc_flat_map. intros i.
    destruct (p4est_quadrant_face_neighbor_extra _ _ _ _) as [nt q].
    case_decide; by repeat constructor.
  - rewrite map_map. apply acc_map_unset. by intros [q nt].
Qed.

Lemma init_loop_sides_acc ctx ghost_offsets treeids with_corner la la' :
  init_loop_sides ctx ghost_offsets treeids with_corner la = Some la' ->
  acc la -> acc la'.
Proof.
  unfold init_loop_sides. intros H Hla. run_inv H. acc_solve.
Qed.

Lemma init_loop_edge_acc ctx ghost_offsets sides la la' :
  p8est_iter_init_loop_edge ctx ghost_offsets sides la = Some la' ->
  acc la -> acc la'.
Proof. apply init_loop_sides_acc. Qed.

Lemma init_loop_corner_acc ctx ghost_offsets sides la la' :
  p4est_iter_init_loop_corner ctx ghost_offsets sides la = Some la' ->
  acc la -> acc la'.
Proof. apply init_loop_sides_acc. Qed.

Lemma init_loop_volume_acc `{Build} ctx ghost_offsets t la la' :
  p4est_iter_init_loop_volume ctx ghost_offsets t la = Some la' ->
  acc la -> acc la'.
Proof.
  unfold p4est_iter_init_loop_volume. intros H1 Hla. run_inv H1; acc_solve.
Qed.

Lemma init_loop_face_acc `{Build} ctx ghost_offsets t nt la la' :
  p4est_iter_init_loop_face ctx ghost_offsets t nt la = Some la' ->
  acc la -> acc la'.
Proof.
  unfold p4est_iter_init_loop_face. intros H1 Hla. run_inv H1; acc_solve.
Qed.

Lemma init_loop_outside_face_acc `{Build} ctx ghost_offsets t la la' :
  p4est_iter_init_loop_outside_face ctx ghost_offsets t la = Some la' ->
  acc la -> acc la'.
Proof.
  unfold p4est_iter_init_loop_outside_face. intros H1 Hla.
  run_inv H1; acc_solve.
Qed.

Lemma init_corner_from_edge_acc num_sides cc sides ca :
  p8est_iter_init_corner_from_edge num_sides cc sides = Some ca -> acc ca.
Proof.
  unfold p8est_iter_init_corner_from_edge. intros H. run_inv H.
  acc_solve.
Qed.

Lemma init_corner_from_face_acc `{Build} num_to_child outside_face fsides ca :
  p4est_iter_init_corner_from_face num_to_child outside_face fsides
  = Some ca -> acc ca.
Proof.
  unfold p4est_iter_init_corner_from_face. intros H1. run_inv H1.
  acc_solve.
Qed.

Lemma init_corner_from_volume_acc `{Build} t :
  acc (p4est_iter_init_corner_from_volume t).
Proof. apply acc_map_unset. done. Qed.

Ltac acc_init_steps H ::=
  lazymatch type of H with
  | init_loop_sides _ _ _ _ _ = Some _ => by_acc init_loop_sides_acc H
  | p8est_iter_init_loop_edge _ _ _ _ = Some _ => by_acc init_loop_edge_acc H
  | p4est_iter_init_loop_corner _ _ _ _ = Some _ =>
      by_acc init_loop_corner_acc H
  | p4est_iter_init_loop_volume _ _ _ _ = Some _ =>
      by_acc @init_loop_volume_acc H
  | p4est_iter_init_loop_face _ _ _ _ _ = Some _ =>
      by_acc @init_loop_face_acc H
  | p4est_iter_init_loop_outside_face _ _ _ _ = Some _ =>
      by_acc @init_loop_outside_face_acc H
  | p8est_iter_init_corner_from_edge _ _ _ = Some _ =>
      by_acc init_corner_from_edge_acc H
  | p4est_iter_init_corner_from_face _ _ _ = Some _ =>
      by_acc @init_corner_from_face_acc H
  end.

#[global] Hint Resolve corner_sides_acc edge_sides_acc
  init_corner_from_volume_acc : accdb.

Lemma init_corner_acc `{Bits} ctx ghost_offsets la t c r :
  p4est_iter_init_corner ctx ghost_offsets la t c = Some r ->
  acc la -> acc r.
Proof.
  unfold p4est_iter_init_corner. intros H1 Hla. run_inv H1; acc_solve.
Qed.

Lemma init_edge_acc `{Bits} ctx ghost_offsets la t e r :
  p8est_iter_init_edge ctx ghost_offsets la t e = Some r ->
  acc la -> acc r.
Proof.
  unfold p8est_iter_init_edge. intros H1 Hla. run_inv H1; acc_solve.
Qed.

Lemma init_edge_from_face_acc `{Bits} cb_corner num_to_child outside_face
  fsides dir side ea :
  p8est_iter_init_edge_from_face cb_corner num_to_child outside_face fsides
    dir side = Some ea -> acc ea.
Proof.
  unfold p8est_iter_init_edge_from_face. intros H1. run_inv H1; acc_solve.
Qed.

Ltac acc_init_steps H ::=
  lazymatch type of H with
  | init_loop_sides _ _ _ _ _ = Some _ => by_acc init_loop_sides_acc H
  | p8est_iter_init_loop_edge _ _ _ _ = Some _ => by_acc init_loop_edge_acc H
  | p4est_iter_init_loop_corner _ _ _ _ = Some _ =>
      by_acc init_loop_corner_acc H
  | p4est_iter_init_loop_volume _ _ _ _ = Some _ =>
      by_acc @init_loop_volume_acc H
  | p4est_iter_init_loop_face _ _ _ _ _ = Some _ =>
      by_acc @init_loop_face_acc H
  | p4est_iter_init_loop_outside_face _ _ _ _ = Some _ =>
      by_acc @init_loop_outside_face_acc H
  | p8est_iter_init_corner_from_edge _ _ _ = Some _ =>
      by_acc init_corner_from_edge_acc H
  | p4est_iter_init_corner_from_face _ _ _ = Some _ =>
      by_acc @init_corner_from_face_acc H
  | p4est_iter_init_corner _ _ _ _ _ = Some _ => by_acc @init_corner_acc H
  | p8est_iter_init_edge _ _ _ _ _ = Some _ => by_acc @init_edge_acc H
  | p8est_iter_init_edge_from_face _ _ _ _ _ _ = Some _ =>
      by_acc @init_edge_from_face_acc H
  end.

Lemma init_face_children_acc `{Bits} la num_to_child outside_face fsides r :
  init_face_children la num_to_child outside_face fsides = Some r -> acc r.
Proof.
  unfold init_face_children. intros H1. run_inv H1; acc_solve.
Qed.

Lemma init_face_acc `{Bits} ctx ghost_offsets la args0 t f r :
  p4est_iter_init_face ctx ghost_offsets la args0 t f = Some r ->
  acc la -> acc r.
Proof.
  unfold p4est_iter_init_face. intros H1 Hla.
  run_inv H1; simplify_eq;
    repeat match goal with
           | Hc : init_face_children _ _ _ _ = Some _ |- _ =>
               apply init_face_children_acc in Hc
           end;
    acc_solve.
Qed.

Lemma init_face_from_volume_acc `{Bits} la treeid dir pos fa :
  p4est_iter_init_face_from_volume la treeid dir pos = Some fa -> acc fa.
Proof.
  unfold p4est_iter_init_face_from_volume. intros H1.
  run_inv H1; simplify_eq.
  apply init_face_children_acc in Hx. acc_solve.
Qed.

Lemma init_edge_from_volume_acc `{Bits} la treeid dir side ea :
  p8est_iter_init_edge_from_volume la treeid dir side = Some ea -> acc ea.
Proof.
  unfold p8est_iter_init_edge_from_volume. intros H1.
  assert (forall d, acc (map (fun i =>
            {| es_treeid := treeid; es_edge := 4 * d + (3 - i);
               es_orientation := 0; es_is := SideUnset |}) (zrange 0 4)))
    as Hsides by (intros d; by apply acc_map_unset).
  run_inv H1; acc_solve.
Qed.

Ltac acc_init_steps H ::=
  lazymatch type of H with
  | init_loop_sides _ _ _ _ _ = Some _ => by_acc init_loop_sides_acc H
  | p8est_iter_init_loop_edge _ _ _ _ = Some _ => by_acc init_loop_edge_acc H
  | p4est_iter_init_loop_corner _ _ _ _ = Some _ =>
      by_acc init_loop_corner_acc H
  | p4est_iter_init_loop_volume _ _ _ _ = Some _ =>
      by_acc @init_loop_volume_acc H
  | p4est_iter_init_loop_face _ _ _ _ _ = Some _ =>
      by_acc @init_loop_face_acc H
  | p4est_iter_init_loop_outside_face _ _ _ _ = Some _ =>
      by_acc @init_loop_outside_face_acc H
  | p8est_iter_init_corner_from_edge _ _ _ = Some _ =>
      by_acc init_corner_from_edge_acc H
  | p4est_iter_init_corner_from_face _ _ _ = Some _ =>
      by_acc @init_corner_from_face_acc H
  | p4est_iter_init_corner _ _ _ _ _ = Some _ => by_acc @init_corner_acc H
  | p8est_iter_init_edge _ _ _ _ _ = Some _ => by_acc @init_edge_acc H
  | p8est_iter_init_edge_from_face _ _ _ _ _ _ = Some _ =>
      by_acc @init_edge_from_face_acc H
  | init_face_children _ _ _ _ = Some _ => by_acc @init_face_children_acc H
  | p4est_iter_init_face _ _ _ _ _ _ = Some _ => by_acc @init_face_acc H
  | p4est_iter_init_face_from_volume _ _ _ _ = Some _ =>
      by_acc @init_face_from_volume_acc H
  | p8est_iter_init_edge_from_volume _ _ _ _ = Some _ =>
      by_acc @init_edge_from_volume_acc H
  end.

Lemma volume_args_acc_intro s fa ea ca i :
  acc fa -> acc ea -> acc ca ->
  acc {| v_start_idx2 := s; v_face_args := fa; v_edge_args := ea;
        v_corner_args := ca; v_info := i |}.
Proof. by split. Qed.

Lemma with_volume_info_acc args info :
  acc args -> acc (with_volume_info args info).
Proof. done. Qed.

Lemma with_volume_face_args_acc args fa :
  acc args -> acc fa -> acc (with_volume_face_args args fa).
Proof. intros (_ & He & Hc) Hf. by split. Qed.

Lemma with_volume_edge_args_acc args ea :
  acc args -> acc ea -> acc (with_volume_edge_args args ea).
Proof. intros (Hf & _ & Hc) He. by split. Qed.

Lemma with_volume_corner_args_acc args ca :
  acc args -> acc ca -> acc (with_volume_corner_args args ca).
Proof. intros (Hf & He & _) Hc. by split. Qed.

Lemma volume_args_faces_acc (args : p4est_iter_volume_args_t) :
  acc args -> acc (v_face_args args).
Proof. by intros (? & ? & ?). Qed.

Lemma volume_args_edges_acc (args : p4est_iter_volume_args_t) :
  acc args -> acc (v_edge_args args).
Proof. by intros (? & ? & ?). Qed.

Lemma volume_args_corner_acc (args : p4est_iter_volume_args_t) ca :
  v_corner_args args = Some ca -> acc args -> acc ca.
Proof. intros Hc (_ & _ & Hca). by rewrite Hc in Hca. Qed.

Lemma acc_volume_info_any (i : p4est_iter_volume_info_t) : acc i.
Proof. done. Qed.

#[global] Hint Resolve volume_args_acc_intro with_volume_info_acc
  with_volume_face_args_acc with_volume_edge_args_acc
  with_volume_corner_args_acc volume_args_faces_acc volume_args_edges_acc
  acc_volume_info_any : accdb.

Lemma init_volume_acc `{Bits} ctx ghost_offsets la t r :
  p4est_iter_init_volume ctx ghost_offsets la t = Some r ->
  acc la -> acc r.
Proof.
  unfold p4est_iter_init_volume. intros H1 Hla. run_inv H1; acc_solve.
Qed.

(** *** The volume iterator and the flag [is_local] *)

Lemma volume_event_acc (la : p4est_iter_loop_args_t)
  (p : option quad_ptr) (t i : Z) :
  aget (test la) 0 = Some p -> acc la ->
  acc (EvVolume {| vi_treeid := t; vi_quad := p; vi_quadid := i |}).
Proof.
  intros Ha (_ & _ & _ & H4) q Hq. simpl in Hq. subst p.
  by apply (H4 0).
Qed.

#[global] Hint Extern 1 (acc (EvVolume _)) =>
  match goal with
  | Ha : aget (test ?la) _ = Some ?p, Hacc : acc ?la |- _ =>
      exact (volume_event_acc _ _ _ _ Ha Hacc)
  end : accdb.

Lemma volume_candidates_acc ctx cb_volume st r :
  volume_candidates ctx cb_volume st = Some r ->
  acc st -> acc r.
Proof.
  unfold volume_candidates. intros H Hok.
  eapply (for_break_acc _ _ _ _ H Hok). clear H Hok. acc_body.
Qed.

Ltac acc_volume_steps H ::=
  lazymatch type of H with
  | v_corner_args _ = Some _ => by_acc volume_args_corner_acc H
  | p4est_iter_init_volume _ _ _ _ = Some _ => by_acc @init_volume_acc H
  | volume_candidates _ _ _ = Some _ => by_acc volume_candidates_acc H
  end.

Lemma volume_body_acc `{Bits} ctx cb_volume st r :
  volume_body ctx cb_volume st = Some r ->
  acc st -> acc r.
Proof.
  unfold volume_body. intros H1 Hok.
  destruct st as [[[args la] level_idx2] tr].
  run_inv H1; acc_solve.
Qed.

Lemma volume_run_faces_acc `{Bits} fuel ctx cbs st r :
  volume_run_faces fuel ctx cbs st = Some r ->
  acc st -> acc r.
Proof.
  unfold volume_run_faces. intros H1 Hok.
  eapply (for_each_acc _ _ _ _ H1 Hok). clear H1 Hok. acc_body.
Qed.

Lemma volume_run_edges_acc `{Bits} fuel ctx cbs st r :
  volume_run_edges fuel ctx cbs st = Some r ->
  acc st -> acc r.
Proof.
  unfold volume_run_edges. intros H1 Hok.
  eapply (for_each_acc _ _ _ _ H1 Hok). clear H1 Hok. acc_body.
Qed.

Ltac acc_volume_steps H ::=
  lazymatch type of H with
  | v_corner_args _ = Some _ => by_acc volume_args_corner_acc H
  | p4est_iter_init_volume _ _ _ _ = Some _ => by_acc @init_volume_acc H
  | volume_candidates _ _ _ = Some _ => by_acc volume_candidates_acc H
  | volume_body _ _ _ = Some _ => by_acc @volume_body_acc H
  | volume_run_faces _ _ _ _ = Some _ => by_acc @volume_run_faces_acc H
  | volume_run_edges _ _ _ _ = Some _ => by_acc @volume_run_edges_acc H
  end.

Lemma volume_change_acc `{Bits} fuel ctx cbs start_level st r :
  volume_change fuel ctx cbs start_level st = Some r ->
  acc st -> acc r.
Proof.
  unfold volume_change. intros H1 Hok.
  destruct st as [[[args la] level_idx2] tr].
  run_inv H1; acc_solve.
Qed.

Ltac acc_volume_steps H ::=
  lazymatch type of H with
  | v_corner_args _ = Some _ => by_acc volume_args_corner_acc H
  | p4est_iter_init_volume _ _ _ _ = Some _ => by_acc @init_volume_acc H
  | volume_candidates _ _ _ = Some _ => by_acc volume_candidates_acc H
  | volume_body _ _ _ = Some _ => by_acc @volume_body_acc H
  | volume_run_faces _ _ _ _ = Some _ => by_acc @volume_run_faces_acc H
  | volume_run_edges _ _ _ _ = Some _ => by_acc @volume_run_edges_acc H
  | volume_change _ _ _ _ _ = Some _ => by_acc @volume_change_acc H
  end.

Lemma volume_iterate_acc `{Bits} fuel ctx cbs args la r :
  p4est_volume_iterate fuel ctx cbs args la = Some r ->
  acc args -> acc la -> acc r.
Proof.
  unfold p4est_volume_iterate. intros H1 Hargs Hla.
  run_inv H1; acc_solve.
Qed.

(** *** The whole traversal and the flag [is_local] *)

Ltac acc_volume_steps H ::=
  lazymatch type of H with
  | v_corner_args _ = Some _ => by_acc volume_args_corner_acc H
  | p4est_iter_init_volume _ _ _ _ = Some _ => by_acc @init_volume_acc H
  | volume_candidates _ _ _ = Some _ => by_acc volume_candidates_acc H
  | volume_body _ _ _ = Some _ => by_acc @volume_body_acc H
  | volume_run_faces _ _ _ _ = Some _ => by_acc @volume_run_faces_acc H
  | volume_run_edges _ _ _ _ = Some _ => by_acc @volume_run_edges_acc H
  | volume_change _ _ _ _ _ = Some _ => by_acc @volume_change_acc H
  | p4est_volume_iterate _ _ _ _ _ = Some _ => by_acc @volume_iterate_acc H
  end.

Lemma iterate_tree_faces_acc `{Bits} fuel ctx cbs tree_first_ghost t st r :
  iterate_tree_faces fuel ctx cbs tree_first_ghost t st = Some r ->
  acc st -> acc r.
Proof.
  unfold iterate_tree_faces. intros H1 Hok.
  eapply (for_each_acc _ _ _ _ H1 Hok). clear H1 Hok. acc_body.
Qed.

Lemma iterate_tree_edges_acc `{Bits} fuel ctx cbs tree_first_ghost t st r :
  iterate_tree_edges fuel ctx cbs tree_first_ghost t st = Some r ->
  acc st -> acc r.
Proof.
  unfold iterate_tree_edges. intros H1 Hok.
  eapply (for_each_acc _ _ _ _ H1 Hok). clear H1 Hok. acc_body.
Qed.

Lemma iterate_tree_corners_acc `{Bits} ctx tree_first_ghost t st r :
  iterate_tree_corners ctx tree_first_ghost t st = Some r ->
  acc st -> acc r.
Proof.
  unfold iterate_tree_corners. intros H1 Hok.
  eapply (for_each_acc _ _ _ _ H1 Hok). clear H1 Hok. acc_body.
Qed.

Ltac acc_tree_steps H ::=
  lazymatch type of H with
  | iterate_tree_faces _ _ _ _ _ _ = Some _ =>
      by_acc @iterate_tree_faces_acc H
  | iterate_tree_edges _ _ _ _ _ _ = Some _ =>
      by_acc @iterate_tree_edges_acc H
  | iterate_tree_corners _ _ _ _ = Some _ =>
      by_acc @iterate_tree_corners_acc H
  end.

Lemma iterate_tree_acc `{Bits} fuel ctx cbs tree_first_ghost t st r :
  iterate_tree fuel ctx cbs tree_first_ghost t st = Some r ->
  acc st -> acc r.
Proof.
  unfold iterate_tree. intros H1 Hok.
  destruct st as [[la face_args] tr].
  run_inv H1; acc_solve.
Qed.

Lemma loop_args_new_acc `{Build} conn cb_edge cb_corner num_procs la :
  p4est_iter_loop_args_new conn cb_edge cb_corner num_procs = Some la ->
  acc la.
Proof.
  unfold p4est_iter_loop_args_new. intros H1. run_inv H1. simplify_eq.
  assert (forall i arr,
            aget (map (fun i => if decide (i `rem` 2 <> 0)
                                then Some GhostQuads else None)
                    (zrange 0 z)) i = Some arr ->
            i `rem` 2 <> 0 /\ arr = GhostQuads) as Hq.
  { intros i arr. unfold aget. intros Ha.
    destruct (zlookup _ _) as [o |] eqn:Hl; [| done]. simpl in Ha. subst o.
    apply zlookup_Some in Hl as [Hi Hl].
    apply list_lookup_fmap_Some in Hl as (j & Hl & Hj).
    unfold zrange in Hj.
    apply list_lookup_fmap_Some in Hj as (k & -> & Hk).
    apply lookup_seq in Hk as [-> _].
    replace (0 + Z.of_nat (0 + Z.to_nat i)) with i in Hl by lia.
    case_decide; by simplify_eq. }
  assert (forall i p, aget (P4EST_ALLOC z : carray (option quad_ptr)) i
                      = Some p -> False) as Ht.
  { intros i p. unfold aget, P4EST_ALLOC. intros Ha.
    destruct (zlookup _ _) as [o |] eqn:Hl; [| done]. simpl in Ha. subst o.
    apply zlookup_Some in Hl as [_ Hl].
    by apply lookup_replicate in Hl as [? _]. }
  split_and!; simpl.
  - intros side arr Ha. by apply Hq in Ha as [_ ->].
  - intros side arr Ha. apply Hq in Ha as [Hr _].
    by rewrite even_rem in Hr.
  - intros side p Ha. by apply Ht in Ha.
  - intros side p Ha. by apply Ht in Ha.
Qed.

Lemma face_args_uninit_acc `{Build} : acc face_args_uninit.
Proof. repeat split; constructor. Qed.

Lemma volume_iterate_simple_acc p4est tr :
  p4est_volume_iterate_simple p4est = Some tr -> acc tr.
Proof.
  unfold p4est_volume_iterate_simple. intros H.
  eapply (for_each_acc _ _ _ _ H); [constructor |].
  intros t a b _ Hb Ha. run_inv Hb. simplify_eq.
  apply acc_app; [done |]. apply acc_map_unset.
  intros si p [= <-]. by exists t.
Qed.

#[global] Hint Resolve face_args_uninit_acc : accdb.

Ltac acc_tree_steps H ::=
  lazymatch type of H with
  | iterate_tree_faces _ _ _ _ _ _ = Some _ =>
      by_acc @iterate_tree_faces_acc H
  | iterate_tree_edges _ _ _ _ _ _ = Some _ =>
      by_acc @iterate_tree_edges_acc H
  | iterate_tree_corners _ _ _ _ = Some _ =>
      by_acc @iterate_tree_corners_acc H
  | iterate_tree _ _ _ _ _ _ = Some _ => by_acc @iterate_tree_acc H
  | p4est_iter_loop_args_new _ _ _ _ = Some _ => by_acc @loop_args_new_acc H
  end.

Lemma iterate_search_acc `{Bits} fuel p4est ghost_layer cbs tr :
  p4est_iterate_search fuel p4est ghost_layer cbs = Some tr -> acc tr.
Proof.
  unfold p4est_iterate_search. intros H1. run_inv H1. acc_solve.
Qed.


(** X8.  The flag [is_local] of a side tells where its quadrant lives: in
    every completed run of [p4est_iterate], with or without a ghost layer,
    a side (full, or a slot of a hanging side) of a face, edge or corner
    callback that names a quadrant and is marked [is_local] points into the
    quadrant array of a tree, one that is not marked [is_local] points into
    the ghost layer; the quadrant handed to a volume callback is always in
    the quadrant array of a tree. *)
Theorem iterate_is_local_accurate `{Bits} (fuel : nat) (p4est : p4est_t)
  (Ghost_layer : option (list p4est_quadrant_t)) (cbs : callbacks)
  (tr : list iter_event) :
  p4est_iterate fuel p4est Ghost_layer cbs = Some tr ->
  Forall event_accurate tr.
Proof.
  unfold p4est_iterate. intros Hrun.
  case_decide; [simplify_eq; constructor |].
  destruct (negb (iter_face cbs) && _ && _).
  - destruct (negb (iter_volume cbs)); [simplify_eq; constructor |].
    by apply volume_iterate_simple_acc in Hrun.
  - by apply iterate_search_acc in Hrun.
Qed.

Lemma iterate_is_local_accurate_witness :
  exists tr,
    @p4est_iterate ex_build ex_bits 40 ex_forest3 (Some ex_ghosts3)
      ex_all_callbacks = Some tr
    /\ Forall event_accurate tr /\ length tr = 20%nat.
Proof.
  eexists. split; [vm_compute; reflexivity |]. split; [| done].
  eapply (@iterate_is_local_accurate ex_build ex_bits 40 ex_forest3
            (Some ex_ghosts3) ex_all_callbacks).
  vm_compute; reflexivity.
Defined.

(** ** The field [quadid] is the position of the quadrant *)

(** *** Candidates and the starts of their search areas *)

Lemma same_tf_refl (la : p4est_iter_loop_args_t) : same_tf la la.
Proof. done. Qed.

Lemma same_tf_trans (a b c : p4est_iter_loop_args_t) :
  same_tf a b -> same_tf b c -> same_tf a c.
Proof. intros [H1 H2] [H3 H4]. split; congruence. Qed.

Lemma same_tf_cell (la la' : p4est_iter_loop_args_t) (sidetype : Z) :
  same_tf la la' -> cell_indexed la sidetype -> cell_indexed la' sidetype.
Proof. intros [Ht Hf] Hc p f. rewrite Ht, Hf. apply Hc. Qed.

Lemma set_refine_tf i v la la' :
  set_refine i v la = Some la' -> same_tf la la'.
Proof. unfold set_refine. intros H. run_inv H. by simplify_eq. Qed.

Lemma set_level_num_tf i v la la' :
  set_level_num i v la = Some la' -> same_tf la la'.
Proof. unfold set_level_num. intros H. run_inv H. by simplify_eq. Qed.

Lemma incr_level_num_tf i la la' :
  incr_level_num i la = Some la' -> same_tf la la'.
Proof.
  unfold incr_level_num. intros H. run_inv H. by eapply set_level_num_tf.
Qed.

Lemma set_test_level_tf i v la la' :
  set_test_level i v la = Some la' -> same_tf la la'.
Proof. unfold set_test_level. intros H. run_inv H. by simplify_eq. Qed.

Lemma sc_array_index_index ctx arr i p :
  sc_array_index ctx arr i = Some p -> ptr_index p = i.
Proof. unfold sc_array_index. intros H. run_inv H. by simplify_eq. Qed.

Lemma to_locidx_size (x : Z) : to_locidx (x `mod` SIZE_MAX1) = to_locidx x.
Proof.
  unfold to_locidx, SIZE_MAX1. f_equal.
  rewrite <- (Zplus_mod_idemp_l (x `mod` 2 ^ 64)).
  rewrite <- (Zplus_mod_idemp_l x (2 ^ 31) (2 ^ 32)). f_equal. f_equal.
  change (2 ^ 64) with (2 ^ 32 * 2 ^ 32).
  rewrite Z.rem_mul_r by lia.
  rewrite Z.add_mod, Z.mul_comm, Z.mod_mul, Z.add_0_r by lia.
  by rewrite !Z.mod_mod by lia.
Qed.

(** What [fetch_candidate] leaves in [test] is the first quadrant of the
    search area; the other candidates and all the starts are as before. *)
Lemma fetch_candidate_cell ctx sidetype la la' :
  fetch_candidate ctx sidetype la = Some la' ->
  cell_indexed la' sidetype
  /\ forall other, cell_indexed la other -> cell_indexed la' other.
Proof.
  unfold fetch_candidate. intros H.
  assert (forall v lb,
            set_test sidetype v la = Some lb ->
            first_index lb = first_index la
            /\ forall i, aget (test lb) i
                         = if decide (sidetype = i) then Some v
                           else aget (test la) i) as Hset.
  { unfold set_test. intros v lb Hs. run_inv Hs. simplify_eq. simpl.
    split; [done |]. intros i. by rewrite (aget_aset _ _ _ _ _ Hx). }
  assert (forall v lb,
            (forall p, v = Some p ->
               forall f, aget (first_index la) sidetype = Some f ->
                         f = ptr_index p) ->
            set_test sidetype v la = Some lb ->
            cell_indexed lb sidetype
            /\ forall other, cell_indexed la other ->
                              cell_indexed lb other) as Hcell.
  { intros v lb Hv Hs. apply Hset in Hs as [Hf Ht].
    assert (cell_indexed lb sidetype) as Hhere.
    { intros p f. rewrite Ht, Hf, decide_True by done.
      intros [= ->]. by apply Hv. }
    split; [done |]. intros other Ho.
    destruct (decide (other = sidetype)) as [-> | Hne]; [done |].
    intros p f. rewrite Ht, Hf, decide_False by done. apply Ho. }
  assert (forall lb,
            (cell_indexed lb sidetype
             /\ forall other, cell_indexed la other ->
                               cell_indexed lb other) ->
            same_tf lb la' ->
            cell_indexed la' sidetype
            /\ forall other, cell_indexed la other ->
                              cell_indexed la' other) as Hlast.
  { intros lb [Hh Ho] Hs. split; [by eapply same_tf_cell |].
    intros other Hc. eapply same_tf_cell; [done |]. by apply Ho. }
  run_inv H.
  - eapply Hlast; [| by eapply set_test_level_tf].
    eapply Hcell; [| done]. intros p [= <-] f Hf.
    apply sc_array_index_index in Hx2. congruence.
  - eapply Hlast; [| by eapply set_test_level_tf].
    eapply Hcell; [| done]. by intros p.
Qed.

Lemma fetch_candidate_keeps ctx sidetype la la' other :
  fetch_candidate ctx sidetype la = Some la' ->
  cell_indexed la other -> cell_indexed la' other.
Proof. intros H. apply fetch_candidate_cell in H as [_ H]. apply H. Qed.

(** A loop whose rounds each settle one fact and keep those settled before
    settles them all. *)
Lemma for_each_establish {S I} (C : I -> S -> Prop)
  (body : I -> S -> option S) (l : list I) (s s' : S) :
  for_each body l s = Some s' ->
  (forall i a b, body i a = Some b -> C i b) ->
  (forall i j a b, body i a = Some b -> C j a -> C j b) ->
  forall j, j ∈ l -> C j s'.
Proof.
  intros Hrun Hnew Hkeep. revert s Hrun.
  induction l as [| i l IH]; intros s Hrun j Hj; simpl in Hrun.
  - by apply elem_of_nil in Hj.
  - apply bind_Some in Hrun as (a & Ha & Hrun).
    apply elem_of_cons in Hj as [-> | Hj]; [| by eapply IH].
    eapply (for_each_inv (C i)); [| exact Hrun | by eapply Hnew].
    intros k x y _. apply Hkeep.
Qed.

Lemma elem_of_sidetypes_iff (side type lo hi : Z) :
  (side, type) ∈ sidetypes lo hi
  <-> lo <= side < hi /\ (type = 0 \/ type = 1).
Proof.
  unfold sidetypes. rewrite list_elem_of_bind. split.
  - intros (s & Hin & Hs). apply elem_of_zrange in Hs.
    apply list_elem_of_bind in Hin as (t & Hin & Ht).
    apply elem_of_cons in Hin as [[= -> ->] | Hin];
      [| by apply elem_of_nil in Hin].
    split; [done |]. by apply elem_of_types.
  - intros [Hs Ht]. exists side. split; [| by apply elem_of_zrange].
    apply list_elem_of_bind. exists type. split; [by left |].
    rewrite zrange_types. destruct Ht as [-> | ->]; [by left |].
    right. by left.
Qed.

(** *** Side records *)

Lemma quad_index_idx ctx arr (i : Z) (p : quad_ptr) (b : bool) (j : Z) :
  sc_array_index ctx arr i = Some p ->
  j = to_locidx i ->
  idx {| sq_quad := Some p; sq_is_local := b; sq_quadid := j |}.
Proof.
  intros Hp -> q [= <-]. simpl. apply sc_array_index_index in Hp.
  by rewrite Hp.
Qed.

Lemma corner_candidate_index `{Bits} ctx level c arr first cnt p i :
  corner_candidate ctx level c arr first cnt = Some (Some (p, i)) ->
  to_locidx (i + first) = to_locidx (ptr_index p).
Proof.
  unfold corner_candidate. intros H1. run_inv H1; simplify_eq; simpl.
  all: repeat match goal with
         | Hp : sc_array_index _ _ _ = Some _ |- _ =>
             apply sc_array_index_index in Hp; rewrite Hp
         end.
  all: try done.
  all: unfold sz_sub, sz_add; rewrite ?to_locidx_size.
  all: try (f_equal; lia).
  all: rewrite <- (to_locidx_size (_ `mod` _ - 1)), Zminus_mod_idemp_l,
    to_locidx_size; f_equal; lia.
Qed.

Lemma quad_corner_idx `{Bits} ctx level c arr first cnt p i (b : bool) :
  corner_candidate ctx level c arr first cnt = Some (Some (p, i)) ->
  idx {| sq_quad := Some p; sq_is_local := b;
         sq_quadid := to_locidx (i + first) |}.
Proof.
  intros Hp q [= <-]. simpl. by eapply corner_candidate_index.
Qed.

Lemma quad_null_idx (b : bool) (i : Z) :
  idx {| sq_quad := None; sq_is_local := b; sq_quadid := i |}.
Proof. by intros q. Qed.

Lemma side_null_idx : idx side_null.
Proof. by intros q. Qed.

Lemma quad_cell_idx (la : p4est_iter_loop_args_t) (sidetype : Z)
  (p : option quad_ptr) (f : Z) (b : bool) :
  aget (test la) sidetype = Some p ->
  aget (first_index la) sidetype = Some f ->
  cell_indexed la sidetype ->
  idx {| sq_quad := p; sq_is_local := b; sq_quadid := to_locidx f |}.
Proof.
  intros Ht Hf Hc q Hq. simpl in *. subst p. f_equal. by eapply Hc.
Qed.

Lemma la_idx_any (la : p4est_iter_loop_args_t) : idx la.
Proof. done. Qed.

(** *** The invariant [idx] through the steps of the iterators *)

Create HintDb idxdb.

Lemma idx_Z_any (z : Z) : idx z.
Proof. done. Qed.

Lemma idx_bool_any (b : bool) : idx b.
Proof. done. Qed.

Lemma idx_step_any (s : next_step) : idx s.
Proof. done. Qed.

Lemma idx_nil {A} `{Idx A} : idx (@nil A).
Proof. constructor. Qed.

Lemma idx_cons {A} `{Idx A} (x : A) (l : list A) : idx x -> idx l -> idx (x :: l).
Proof. by constructor. Qed.

Lemma idx_app {A} `{Idx A} (l1 l2 : list A) : idx l1 -> idx l2 -> idx (l1 ++ l2).
Proof. intros H1 H2. apply Forall_app. by split. Qed.

Lemma idx_pair_intro {A B} `{Idx A, Idx B} (a : A) (b : B) :
  idx a -> idx b -> idx (a, b).
Proof. by split. Qed.

Lemma idx_Some {A} `{Idx A} (a : A) : idx a -> idx (Some a).
Proof. done. Qed.

Lemma idx_None {A} `{Idx A} : idx (@None A).
Proof. done. Qed.

Lemma idx_Next {S} `{Idx S} (s : S) : idx s -> idx (Next s).
Proof. done. Qed.

Lemma idx_Leave {S} `{Idx S} (s : S) : idx s -> idx (Leave s).
Proof. done. Qed.

Lemma zlookup_idx {A} `{Idx A} (l : list A) (i : Z) (v : A) :
  zlookup l i = Some v -> idx l -> idx v.
Proof.
  intros Hl Hok. apply zlookup_Some in Hl as [_ Hl].
  by eapply (Forall_lookup_1 idx).
Qed.

Lemma zinsert_idx {A} `{Idx A} (l l' : list A) (i : Z) (v : A) :
  zinsert l i v = Some l' -> idx l -> idx v -> idx l'.
Proof.
  intros [_ ->]%zinsert_inv Hl Hv. by apply Forall_insert.
Qed.

Lemma for_each_idx {S I} `{Idx S} (body : I -> S -> option S) (l : list I)
  (s s' : S) :
  for_each body l s = Some s' -> idx s ->
  (forall i a b, i ∈ l -> body i a = Some b -> idx a -> idx b) ->
  idx s'.
Proof. intros Hrun Hs Hbody. by apply (for_each_inv idx body l s s'). Qed.

Lemma for_break_idx {S I} `{Idx S} (body : I -> S -> option (flow S))
  (l : list I) (s : S) (r : flow S) :
  for_break body l s = Some r -> idx s ->
  (forall i a b, i ∈ l -> body i a = Some b -> idx a -> idx b) ->
  idx r.
Proof.
  revert s. induction l as [| i l IH]; intros s Hrun Hs Hbody; simpl in Hrun.
  - by simplify_eq.
  - apply bind_Some in Hrun as (f & Hf & Hrun).
    assert (idx f) as Hok by (eapply Hbody; [by left | done | done]).
    destruct f as [a | a]; [| by simplify_eq].
    eapply IH; [done | done |].
    intros j x y Hj. apply Hbody. by right.
Qed.

Lemma run_loop_idx {S} `{Idx S} (fuel : nat) (body : S -> option S)
  (change : S -> option (next_step * S)) (at_body : bool) (s s' : S) :
  run_loop fuel body change at_body s = Some s' -> idx s ->
  (forall a b, body a = Some b -> idx a -> idx b) ->
  (forall a b, change a = Some b -> idx a -> idx b) ->
  idx s'.
Proof.
  intros Hrun Hs Hbody Hchange. revert at_body s Hrun Hs.
  induction fuel as [| n IH]; intros at_body s Hrun Hs; simpl in Hrun; [done |].
  destruct at_body.
  - apply bind_Some in Hrun as (a & Ha & Hrun).
    eapply IH; [done |]. by eapply Hbody.
  - apply bind_Some in Hrun as ([step a] & Ha & Hrun).
    assert (idx a) by (by eapply (Hchange s (step, a))).
    destruct step; [by simplify_eq | by eapply IH | by eapply IH].
Qed.

Lemma mapM_idx {A B} `{Idx B} (f : A -> option B) (l : list A) (k : list B) :
  mapM f l = Some k ->
  (forall a b, f a = Some b -> idx b) ->
  idx k.
Proof.
  intros Hm Hf. apply mapM_Some_1 in Hm.
  induction Hm; [constructor |]. constructor; [by eapply Hf | done].
Qed.

Lemma full_idx (q : side_quad) : idx q -> idx (SideFull q).
Proof. done. Qed.

Lemma unset_idx : idx SideUnset.
Proof. done. Qed.

Lemma corner_side_idx_intro t c d :
  idx d -> idx {| cs_treeid := t; cs_corner := c; cs_is := d |}.
Proof. done. Qed.

Lemma edge_side_idx_intro t e o d :
  idx d ->
  idx {| es_treeid := t; es_edge := e; es_orientation := o; es_is := d |}.
Proof. done. Qed.

Lemma face_side_idx_intro t f d :
  idx d -> idx {| fs_treeid := t; fs_face := f; fs_is := d |}.
Proof. done. Qed.

Lemma corner_event_idx sides : idx sides -> idx (EvCorner sides).
Proof. done. Qed.

Lemma edge_event_idx sides : idx sides -> idx (EvEdge sides).
Proof. done. Qed.

Lemma corner_args_idx_intro n s sides :
  idx sides ->
  idx {| c_num_sides := n; c_start_idx2 := s; c_sides := sides |}.
Proof. done. Qed.

#[global] Hint Resolve idx_Z_any idx_bool_any idx_step_any idx_nil idx_cons idx_app
  idx_pair_intro idx_Some idx_None idx_Next idx_Leave
  quad_null_idx side_null_idx la_idx_any
  full_idx unset_idx corner_side_idx_intro edge_side_idx_intro
  face_side_idx_intro corner_event_idx edge_event_idx
  corner_args_idx_intro : idxdb.

#[global] Hint Extern 2 (idx (if _ then _ else _)) => case_match : idxdb.

(** The candidates and the starts of the search areas are as they were
    before the steps that touch neither. *)
Ltac tf_solve :=
  first
    [ assumption
    | apply same_tf_refl
    | match goal with
      | H : set_refine _ _ _ = Some ?b |- same_tf _ ?b =>
          eapply same_tf_trans; [| eapply set_refine_tf; exact H]; tf_solve
      | H : incr_level_num _ _ = Some ?b |- same_tf _ ?b =>
          eapply same_tf_trans; [| eapply incr_level_num_tf; exact H];
          tf_solve
      | H : set_level_num _ _ _ = Some ?b |- same_tf _ ?b =>
          eapply same_tf_trans; [| eapply set_level_num_tf; exact H];
          tf_solve
      end ].

Ltac cell_member := assumption.

(** A candidate is the first quadrant of its area since it was fetched. *)
Ltac cell_solve :=
  lazymatch goal with
  | |- cell_indexed ?b ?st =>
      first
        [ assumption
        | match goal with
          | H : fetch_candidate _ st _ = Some b |- _ =>
              exact (proj1 (fetch_candidate_cell _ _ _ _ H))
          end
        | match goal with
          | HJ : forall side type : Z, _ -> cell_indexed ?a _ |- _ =>
              apply (same_tf_cell a b); [tf_solve | apply HJ; cell_member]
          end ]
  end.

(** A record is read off the step that produced its pointer. *)
Ltac idx_quad :=
  first
    [ apply quad_null_idx
    | match goal with
      | Hp : sc_array_index _ _ _ = Some ?p
        |- idx {| sq_quad := Some ?p; sq_is_local := _; sq_quadid := _ |} =>
          eapply (quad_index_idx _ _ _ _ _ _ Hp); reflexivity
      | Hp : corner_candidate _ _ _ _ _ _ = Some (Some (?p, _))
        |- idx {| sq_quad := Some ?p; sq_is_local := _; sq_quadid := _ |} =>
          exact (quad_corner_idx _ _ _ _ _ _ _ _ _ Hp)
      end
    | eapply quad_cell_idx; [eassumption | eassumption | cell_solve] ].

#[global] Hint Extern 1 (@idx side_quad _ _) => idx_quad : idxdb.

(** Goals are taken apart first, so that each part is searched on its
    own; what is left is a hypothesis or a fact about a constructor. *)
Ltac idx_goal :=
  lazymatch goal with
  | |- idx (_, _) => apply idx_pair_intro; idx_goal
  | |- idx (Next _) => apply idx_Next; idx_goal
  | |- idx (Leave _) => apply idx_Leave; idx_goal
  | |- idx (Some _) => apply idx_Some; idx_goal
  | |- idx (if ?c then _ else _) => destruct c; idx_goal
  | |- idx (_ ++ _) => apply idx_app; idx_goal
  | |- idx (_ :: _) => apply idx_cons; idx_goal
  | |- _ \/ _ => solve [assumption | left; reflexivity | right; reflexivity]
  | |- _ => solve [assumption | exact I | reflexivity
                  | eauto 4 with idxdb nocore]
  end.

Ltac by_idx L H := eapply L; [exact H | idx_goal ..].

(** The lemma for the step [H]; [idx_extra] is extended as the iterators
    are covered. *)
Ltac idx_corner_steps H := fail.
Ltac idx_edge_steps H := fail.
Ltac idx_face_steps H := fail.
Ltac idx_init_steps H := fail.
Ltac idx_volume_steps H := fail.
Ltac idx_tree_steps H := fail.

Ltac idx_extra H :=
  first [ idx_corner_steps H | idx_edge_steps H | idx_face_steps H
        | idx_init_steps H | idx_volume_steps H | idx_tree_steps H ].

Ltac idx_step H :=
  lazymatch type of H with
  | zlookup _ _ = Some _ => by_idx @zlookup_idx H
  | zinsert _ _ _ = Some _ => by_idx @zinsert_idx H
  | _ => idx_extra H
  end.

(** The loop arguments hold no side records and are passed over. *)
Ltac idx_wanted x :=
  lazymatch type of x with
  | p4est_iter_loop_args_t => fail
  | _ => ok_wanted x
  end.

Ltac idx_known x :=
  lazymatch goal with
  | _ : idx x |- _ => fail
  | _ => idtac
  end.

(** Derive [idx] for every result of a step in the context, in the order
    of the program; a loop with its body written in place is taken
    through its invariant. *)
Ltac idx_pairs :=
  repeat match goal with
         | H : idx (?a, ?b) |- _ =>
             idx_known a; pose proof (proj1 H : idx a)
         | H : idx (?a, ?b) |- _ =>
             idx_known b; pose proof (proj2 H : idx b)
         | H : idx (Next ?a) |- _ => idx_known a; pose proof (H : idx a)
         | H : idx (Leave ?a) |- _ => idx_known a; pose proof (H : idx a)
         | H : idx (Some ?a) |- _ => idx_known a; pose proof (H : idx a)
         end.

Ltac idx_fwd :=
  idx_pairs;
  repeat match reverse goal with
         | H : _ = Some ?x |- _ =>
             idx_wanted x; idx_known x;
             assert (idx x) by idx_prove H;
             idx_pairs
         end
with idx_prove H :=
  first
    [ idx_step H
    | eapply (for_each_idx _ _ _ _ H); [idx_goal | idx_body]
    | eapply (for_break_idx _ _ _ _ H); [idx_goal | idx_body]
    | eapply (run_loop_idx _ _ _ _ _ _ H); [idx_goal | idx_body1 | idx_body1]
    | eapply (mapM_idx _ _ _ H); idx_body0 ]
with idx_body0 :=
  let Hb := fresh "Hb" in
  repeat match goal with
         | H' : _ = Some ?x |- _ => idx_wanted x; idx_known x; clear H'
         end;
  intros ? ? Hb; cbv beta in Hb; run_inv Hb; split_types;
  simplify_eq; idx_fwd; idx_goal
with idx_body :=
  let Hb := fresh "Hb" in
  repeat match goal with
         | H' : _ = Some ?x |- _ => idx_wanted x; idx_known x; clear H'
         end;
  intros ? ? ? ? Hb ?; cbv beta in Hb; run_inv Hb; split_types;
  simplify_eq; idx_fwd; idx_goal
with idx_body1 :=
  let Hb := fresh "Hb" in
  repeat match goal with
         | H' : _ = Some ?x |- _ => idx_wanted x; idx_known x; clear H'
         end;
  intros ? ? Hb ?; cbv beta in Hb; run_inv Hb; split_types;
  simplify_eq; idx_fwd; idx_goal.

Ltac idx_solve := simplify_eq; idx_fwd; idx_goal.

(** *** The corner iterator and the field [quadid] *)

Lemma probe_child_idx ctx side st st' :
  probe_child ctx side st = Some st' ->
  idx st -> idx st'.
Proof.
  unfold probe_child. intros H Hok.
  eapply (for_each_idx _ _ _ _ H Hok). clear H Hok.
  intros type [[la slot] hl] [[la' slot'] hl'] Hin H Hok.
  run_inv H; split_types; simplify_eq; idx_fwd; idx_goal.
Qed.

Lemma corner_side_type_idx `{Bits} ctx level side type st st' :
  corner_side_type ctx level side type st = Some st' ->
  type = 0 \/ type = 1 -> idx st -> idx st'.
Proof.
  unfold corner_side_type. intros H1 [-> | ->] Hok.
  all: destruct st as [[la cside] hl]; run_inv H1; simplify_eq;
    try done; idx_fwd; idx_goal.
Qed.

Ltac idx_corner_steps H ::=
  lazymatch type of H with
  | probe_child _ _ _ = Some _ => by_idx probe_child_idx H
  | corner_side_type _ _ _ _ _ = Some _ => by_idx @corner_side_type_idx H
  end.

Lemma corner_side_idx `{Bits} ctx level side st st' :
  corner_side ctx level side st = Some st' ->
  idx st -> idx st'.
Proof.
  unfold corner_side. intros H1 Hok.
  destruct st as [[la sides] hl]. run_inv H1. idx_solve.
Qed.

Ltac idx_corner_steps H ::=
  lazymatch type of H with
  | probe_child _ _ _ = Some _ => by_idx probe_child_idx H
  | corner_side_type _ _ _ _ _ = Some _ => by_idx @corner_side_type_idx H
  | corner_side _ _ _ _ = Some _ => by_idx @corner_side_idx H
  end.

Lemma corner_iterate_idx `{Bits} ctx args la r :
  p4est_corner_iterate ctx args la = Some r ->
  idx args -> idx la -> idx r.
Proof.
  unfold p4est_corner_iterate. intros H1 Hargs Hla.
  run_inv H1; idx_solve.
Qed.

Ltac idx_corner_steps H ::=
  lazymatch type of H with
  | probe_child _ _ _ = Some _ => by_idx probe_child_idx H
  | corner_side_type _ _ _ _ _ = Some _ => by_idx @corner_side_type_idx H
  | corner_side _ _ _ _ = Some _ => by_idx @corner_side_idx H
  | p4est_corner_iterate _ _ _ = Some _ => by_idx @corner_iterate_idx H
  end.

(** *** The edge iterator and the field [quadid] *)

Lemma edge_args_idx_intro n s cc ca sides :
  idx sides -> idx ca ->
  idx {| e_num_sides := n; e_start_idx2 := s; e_common_corners := cc;
        e_corner_args := ca; e_sides := sides |}.
Proof. by split. Qed.

Lemma with_edge_sides_idx args sides :
  idx args -> idx sides -> idx (with_edge_sides args sides).
Proof. intros [_ Hc] Hs. by split. Qed.

Lemma with_edge_corner_args_idx args ca :
  idx args -> idx ca -> idx (with_edge_corner_args args ca).
Proof. intros [Hs _] Hc. by split. Qed.

Lemma edge_args_sides_idx (args : p8est_iter_edge_args_t) :
  idx args -> idx (e_sides args).
Proof. by intros [? ?]. Qed.

Lemma edge_args_corner_idx (args : p8est_iter_edge_args_t) ca :
  e_corner_args args = Some ca -> idx args -> idx ca.
Proof. intros Hc [_ Hca]. by rewrite Hc in Hca. Qed.

Lemma hanging_slots_idx n d : idx d -> idx (SideHanging (hanging_slots n d)).
Proof.
  assert (idx (SideHanging (replicate (Z.to_nat n) None))) as Hrep.
  { apply Forall_replicate. done. }
  intros Hd. destruct d as [| q | slots]; simpl; [done | done |].
  by case_decide.
Qed.

Lemma write_slot_idx d c slot d' :
  write_slot d c slot = Some d' -> idx d -> idx slot -> idx d'.
Proof.
  unfold write_slot. intros H Hd Hs. destruct d as [| q | slots]; [done.. |].
  run_inv H. simplify_eq. apply zinsert_inv in Hx as [_ ->].
  by apply Forall_insert.
Qed.

Lemma set_edge_side_idx sides side d sides' :
  set_edge_side sides side d = Some sides' -> idx sides -> idx d -> idx sides'.
Proof.
  unfold set_edge_side. intros H Hs Hd. run_inv H.
  eapply zinsert_idx; [done | done | done].
Qed.

Lemma edge_side_data_idx (s : p8est_iter_edge_side_t) : idx s -> idx (es_is s).
Proof. done. Qed.

#[global] Hint Resolve edge_args_idx_intro with_edge_sides_idx
  with_edge_corner_args_idx edge_args_sides_idx hanging_slots_idx
  edge_side_data_idx : idxdb.

Ltac idx_edge_steps H ::=
  lazymatch type of H with
  | write_slot _ _ _ = Some _ => by_idx write_slot_idx H
  | set_edge_side _ _ _ = Some _ => by_idx set_edge_side_idx H
  | e_corner_args _ = Some _ => by_idx edge_args_corner_idx H
  end.

Lemma edge_candidates_idx cb_edge num_sides la sides sr hl r :
  edge_candidates cb_edge num_sides (la, sides, sr, hl) = Some r ->
  (forall side type, (side, type) ∈ sidetypes 0 num_sides ->
     cell_indexed la (side * 2 + type)) ->
  idx sides -> idx r.
Proof.
  unfold edge_candidates. intros H HJ Hok.
  pose (P := fun s : p4est_iter_loop_args_t * list p8est_iter_edge_side_t
                     * bool * bool =>
               same_tf la s.1.1.1 /\ idx s.1.1.2).
  assert (match r with
          | Next s => P s
          | Leave s => P s
          end) as Hr.
  { eapply (for_break_inv P P _ _ _ _ H).
    - split; [apply same_tf_refl | apply Hok].
    - clear H. intros [side type] [[[la1 sides1] sr1] hl1] b Hin Hb [Htf Hs].
      simpl in Htf, Hs. run_inv Hb; simplify_eq; unfold P; simpl.
      all: split; [tf_solve | idx_fwd; idx_goal]. }
  destruct r as [[[[la1 sides1] sr1] hl1] | [[[la1 sides1] sr1] hl1]];
    destruct Hr as [_ Hr]; by repeat split.
Qed.

Lemma edge_empty_sides_idx num_sides st r :
  edge_empty_sides num_sides st = Some r -> idx st -> idx r.
Proof.
  unfold edge_empty_sides. intros H Hok.
  eapply (for_each_idx _ _ _ _ H Hok). clear H Hok. idx_body.
Qed.

Lemma edge_hanging_idx `{Build} ctx level_idx2 num_sides cc st r :
  edge_hanging ctx level_idx2 num_sides cc st = Some r ->
  idx st -> idx r.
Proof.
  unfold edge_hanging. intros H1 Hok.
  eapply (for_each_idx _ _ _ _ H1 Hok). clear H1 Hok. idx_body.
Qed.

Ltac idx_edge_steps H ::=
  lazymatch type of H with
  | write_slot _ _ _ = Some _ => by_idx write_slot_idx H
  | set_edge_side _ _ _ = Some _ => by_idx set_edge_side_idx H
  | e_corner_args _ = Some _ => by_idx edge_args_corner_idx H
  | edge_empty_sides _ _ = Some _ => by_idx edge_empty_sides_idx H
  | edge_hanging _ _ _ _ _ = Some _ => by_idx @edge_hanging_idx H
  end.

Lemma edge_fetch_cells ctx num_sides la la' :
  for_each (fun side la =>
              la ← fetch_candidate ctx (side * 2 + local) la;
              la ← fetch_candidate ctx (side * 2 + ghost) la;
              set_refine side true la)
    (zrange 0 num_sides) la = Some la' ->
  forall side type, (side, type) ∈ sidetypes 0 num_sides ->
    cell_indexed la' (side * 2 + type).
Proof.
  intros H side type [Hs Ht]%elem_of_sidetypes_iff.
  apply elem_of_zrange in Hs.
  pose (C := fun side la => cell_indexed la (side * 2 + local)
                            /\ cell_indexed la (side * 2 + ghost)).
  assert (C side la') as [H0 H1].
  { eapply (for_each_establish C _ _ _ _ H); [| | done].
    - intros i a b Hb. run_inv Hb.
      apply set_refine_tf in Hb.
      split; (eapply same_tf_cell; [exact Hb |]).
      + eapply fetch_candidate_keeps; [done |].
        by apply fetch_candidate_cell in Hx as [Hx _].
      + by apply fetch_candidate_cell in Hx0 as [Hx0 _].
    - intros i j a b Hb [Ha0 Ha1]. run_inv Hb.
      apply set_refine_tf in Hb.
      split; (eapply same_tf_cell; [exact Hb |]);
        eauto using fetch_candidate_keeps. }
  by destruct Ht as [-> | ->].
Qed.

Lemma edge_body_idx `{Bits} ctx cb_edge args la level_idx2 r :
  edge_body ctx cb_edge args la level_idx2 = Some r ->
  idx args -> idx la -> idx r.
Proof.
  unfold edge_body. intros H1 Hargs Hla.
  apply bind_Some in H1 as (la1 & Hfetch & H1).
  apply bind_Some in H1 as (c & Hc & H1).
  assert (idx c) as Hidx.
  { eapply edge_candidates_idx; [exact Hc | | by destruct Hargs].
    by eapply edge_fetch_cells. }
  clear Hfetch Hc.
  run_inv H1; idx_solve.
Qed.

Lemma edge_change_idx `{Bits} ctx start_level st r :
  edge_change ctx start_level st = Some r ->
  idx st -> idx r.
Proof.
  unfold edge_change. intros H1 Hok.
  destruct st as [[[args la] level_idx2] tr].
  run_inv H1; idx_solve.
Qed.

Ltac idx_edge_steps H ::=
  lazymatch type of H with
  | write_slot _ _ _ = Some _ => by_idx write_slot_idx H
  | set_edge_side _ _ _ = Some _ => by_idx set_edge_side_idx H
  | e_corner_args _ = Some _ => by_idx edge_args_corner_idx H
  | edge_empty_sides _ _ = Some _ => by_idx edge_empty_sides_idx H
  | edge_hanging _ _ _ _ _ = Some _ => by_idx @edge_hanging_idx H
  | edge_body _ _ _ _ _ = Some _ => by_idx @edge_body_idx H
  | edge_change _ _ _ = Some _ => by_idx @edge_change_idx H
  end.

Lemma edge_iterate_idx `{Bits} fuel ctx cbs args la r :
  p8est_edge_iterate fuel ctx cbs args la = Some r ->
  idx args -> idx la -> idx r.
Proof.
  unfold p8est_edge_iterate. intros H1 Hargs Hla.
  run_inv H1; idx_solve.
Qed.

Ltac idx_edge_steps H ::=
  lazymatch type of H with
  | write_slot _ _ _ = Some _ => by_idx write_slot_idx H
  | set_edge_side _ _ _ = Some _ => by_idx set_edge_side_idx H
  | e_corner_args _ = Some _ => by_idx edge_args_corner_idx H
  | edge_empty_sides _ _ = Some _ => by_idx edge_empty_sides_idx H
  | edge_hanging _ _ _ _ _ = Some _ => by_idx @edge_hanging_idx H
  | edge_body _ _ _ _ _ = Some _ => by_idx @edge_body_idx H
  | edge_change _ _ _ = Some _ => by_idx @edge_change_idx H
  | p8est_edge_iterate _ _ _ _ _ = Some _ => by_idx @edge_iterate_idx H
  end.

(** *** The face iterator and the field [quadid] *)

Lemma face_event_idx o sides :
  idx sides -> idx (EvFace {| fi_orientation := o; fi_sides := sides |}).
Proof. done. Qed.

Lemma face_args_idx_intro s n o ea ca i :
  idx (fi_sides i) -> idx ea -> idx ca ->
  idx {| f_start_idx2 := s; f_num_to_child := n; f_outside_face := o;
        f_edge_args := ea; f_corner_args := ca; f_info := i |}.
Proof. by split. Qed.

Lemma with_face_sides_idx args sides :
  idx args -> idx sides -> idx (with_face_sides args sides).
Proof. intros (_ & He & Hc) Hs. by split. Qed.

Lemma with_face_edge_args_idx args ea :
  idx args -> idx ea -> idx (with_face_edge_args args ea).
Proof. intros (Hs & _ & Hc) He. by split. Qed.

Lemma with_face_corner_args_idx args ca :
  idx args -> idx ca -> idx (with_face_corner_args args ca).
Proof. intros (Hs & He & _) Hc. by split. Qed.

Lemma face_args_sides_idx (args : p4est_iter_face_args_t) :
  idx args -> idx (fi_sides (f_info args)).
Proof. by intros (? & ? & ?). Qed.

Lemma face_args_edges_idx (args : p4est_iter_face_args_t) :
  idx args -> idx (f_edge_args args).
Proof. by intros (? & ? & ?). Qed.

Lemma face_args_corner_idx (args : p4est_iter_face_args_t) ca :
  f_corner_args args = Some ca -> idx args -> idx ca.
Proof. intros Hc (_ & _ & Hca). by rewrite Hc in Hca. Qed.

Lemma face_side_data_idx (s : p4est_iter_face_side_t) : idx s -> idx (fs_is s).
Proof. done. Qed.

Lemma set_face_side_idx sides side d sides' :
  set_face_side sides side d = Some sides' -> idx sides -> idx d -> idx sides'.
Proof.
  unfold set_face_side. intros H Hs Hd. run_inv H.
  eapply zinsert_idx; [done | done | done].
Qed.

Lemma full_candidate_idx sidetype type la d :
  full_candidate sidetype type la = Some d ->
  cell_indexed la sidetype -> idx d.
Proof.
  unfold full_candidate. intros H Hc. run_inv H. simplify_eq.
  by eapply quad_cell_idx.
Qed.

#[global] Hint Resolve face_event_idx face_args_idx_intro with_face_sides_idx
  with_face_edge_args_idx with_face_corner_args_idx face_args_sides_idx
  face_args_edges_idx face_side_data_idx : idxdb.

Ltac idx_face_steps H ::=
  lazymatch type of H with
  | set_face_side _ _ _ = Some _ => by_idx set_face_side_idx H
  | f_corner_args _ = Some _ => by_idx face_args_corner_idx H
  | full_candidate _ _ _ = Some _ =>
      eapply full_candidate_idx; [exact H | cell_solve]
  end.

Lemma face_opposite_idx orientation side type la sides hl evs r :
  face_opposite orientation side type (la, sides, hl, evs) = Some r ->
  (forall s t, (s, t) ∈ sidetypes left (right + 1) ->
     cell_indexed la (s * 2 + t)) ->
  side = 0 \/ side = 1 -> type = 0 \/ type = 1 ->
  idx sides -> idx evs ->
  match r with
  | Next s => face_cand_idx la s
  | Leave s => face_cand_idx la s
  end.
Proof.
  unfold face_opposite. intros H HJ Hside Htype Hsides Hevs.
  apply bind_Some in H as (x & Hx & H).
  assert (match x with
          | Next s => face_cand_idx la s
          | Leave s => face_cand_idx la s
          end) as Hx'.
  { eapply (for_break_inv (face_cand_idx la) (face_cand_idx la)
              _ _ _ _ Hx).
    - by split; [apply same_tf_refl |].
    - clear Hx H. intros n_type [[[la1 sides1] hl1] evs1] b Hin Hb
        (Htf & Hs & He). simpl in Htf, Hs, He.
      assert ((Z.lxor side 1, n_type) ∈ sidetypes left (right + 1)) as Hm.
      { apply elem_of_sidetypes_iff. apply elem_of_zrange in Hin.
        unfold left, right, ghost in *.
        split; [by destruct Hside as [-> | ->] | lia]. }
      run_inv Hb; simplify_eq; unfold face_cand_idx; simpl.
      all: split; [tf_solve | split; idx_fwd; idx_goal]. }
  destruct x as [[[[la1 sides1] hl1] evs1] | st1]; [| by simplify_eq].
  destruct Hx' as (Htf & Hs & He). simpl in Htf, Hs, He.
  run_inv H; simplify_eq; unfold face_cand_idx; simpl.
  all: split; [tf_solve | split; idx_fwd; idx_goal].
Qed.

Ltac idx_face_steps H ::=
  lazymatch type of H with
  | set_face_side _ _ _ = Some _ => by_idx set_face_side_idx H
  | f_corner_args _ = Some _ => by_idx face_args_corner_idx H
  | full_candidate _ _ _ = Some _ =>
      eapply full_candidate_idx; [exact H | cell_solve]
  end.

Lemma face_candidates_idx cb_face outside_face orientation limit la sides
  hl evs r :
  face_candidates cb_face outside_face orientation limit
    (la, sides, hl, evs) = Some r ->
  limit = (if outside_face then left else right) ->
  (forall s t, (s, t) ∈ sidetypes left (limit + 1) ->
     cell_indexed la (s * 2 + t)) ->
  idx sides -> idx evs -> idx r.
Proof.
  unfold face_candidates. intros H Hlimit HJ Hsides Hevs.
  assert (match r with
          | Next s => face_cand_idx la s
          | Leave s => face_cand_idx la s
          end) as Hr.
  { eapply (for_break_inv (face_cand_idx la) (face_cand_idx la)
              _ _ _ _ H).
    - by split; [apply same_tf_refl |].
    - clear H. intros [side type] [[[la1 sides1] hl1] evs1] b Hin Hb
        (Htf & Hs & He). simpl in Htf, Hs, He.
      assert (side = 0 \/ side = 1) as Hside.
      { apply elem_of_sidetypes_iff in Hin as [Hin _].
        destruct outside_face; unfold left, right in *; lia. }
      assert (type = 0 \/ type = 1) as Htype
        by (by apply elem_of_sidetypes_iff in Hin as [_ Hin]).
      run_inv Hb; simplify_eq; unfold face_cand_idx; simpl.
      + (* the other side is looked at *)
        match goal with
        | Ho : face_opposite _ _ _ (?la2, _, _, _) = Some _ |- _ =>
            assert (same_tf la la2) as Htf2 by tf_solve;
            idx_fwd;
            eapply face_opposite_idx in Ho; [| | done | done | done | done]
        end.
        * destruct b as [s | s]; destruct Hb as (Htf3 & Hs3 & He3);
            (split; [by eapply same_tf_trans | by split]).
        * intros s t Hst. destruct outside_face; [done |].
          eapply same_tf_cell; [exact Htf2 |]. by apply HJ.
      + split; [tf_solve | split; idx_fwd; idx_goal].
      + split; [tf_solve | split; idx_fwd; idx_goal].
      + split; [tf_solve | split; idx_fwd; idx_goal]. }
  destruct r as [[[[la1 sides1] hl1] evs1] | [[[la1 sides1] hl1] evs1]];
    destruct Hr as (_ & Hs & He); by repeat split.
Qed.

Lemma face_hanging_idx `{Bits} ctx num_to_child orientation level_idx2 limit
  st r :
  face_hanging ctx num_to_child orientation level_idx2 limit st = Some r ->
  idx st -> idx r.
Proof.
  unfold face_hanging. intros H1 Hok.
  eapply (for_break_idx _ _ _ _ H1 Hok). clear H1 Hok. idx_body.
Qed.

Ltac idx_face_steps H ::=
  lazymatch type of H with
  | set_face_side _ _ _ = Some _ => by_idx set_face_side_idx H
  | f_corner_args _ = Some _ => by_idx face_args_corner_idx H
  | full_candidate _ _ _ = Some _ =>
      eapply full_candidate_idx; [exact H | cell_solve]
  | face_hanging _ _ _ _ _ _ = Some _ => by_idx @face_hanging_idx H
  end.

Lemma face_fetch_cells ctx lo hi la la' :
  for_each (fun '(side, type) la =>
              fetch_candidate ctx (side * 2 + type) la)
    (sidetypes lo hi) la = Some la' ->
  forall side type, (side, type) ∈ sidetypes lo hi ->
    cell_indexed la' (side * 2 + type).
Proof.
  intros H side type Hin.
  pose (C := fun (i : Z * Z) la => cell_indexed la (i.1 * 2 + i.2)).
  apply (for_each_establish C _ _ _ _ H) with (j := (side, type));
    [| | done].
  - intros [s t] a b Hb. by apply fetch_candidate_cell in Hb as [Hb _].
  - intros [s t] [s' t'] a b Hb. by eapply fetch_candidate_keeps.
Qed.

Lemma face_body_idx `{Bits} ctx cb_face st r :
  face_body ctx cb_face st = Some r ->
  idx st -> idx r.
Proof.
  unfold face_body. intros H1 Hok.
  destruct st as [[[args la] level_idx2] tr].
  destruct Hok as [[[Hargs _] _] Htr]. simpl in Hargs, Htr.
  apply bind_Some in H1 as (la1 & Hfetch & H1).
  apply bind_Some in H1 as (la2 & Hr1 & H1).
  apply bind_Some in H1 as (la3 & Hr2 & H1).
  apply bind_Some in H1 as (c & Hc & H1).
  assert (idx c) as Hidx.
  { eapply face_candidates_idx; [exact Hc | done | | by destruct Hargs
                                | done].
    intros s t Hst. eapply same_tf_cell; [| by eapply face_fetch_cells].
    tf_solve. }
  clear Hfetch Hc.
  run_inv H1; idx_solve.
Qed.

Lemma face_run_edges_idx `{Bits} fuel ctx cbs limit st r :
  face_run_edges fuel ctx cbs limit st = Some r ->
  idx st -> idx r.
Proof.
  unfold face_run_edges. intros H1 Hok.
  eapply (for_each_idx _ _ _ _ H1 Hok). clear H1 Hok. idx_body.
Qed.

Ltac idx_face_steps H ::=
  lazymatch type of H with
  | set_face_side _ _ _ = Some _ => by_idx set_face_side_idx H
  | f_corner_args _ = Some _ => by_idx face_args_corner_idx H
  | full_candidate _ _ _ = Some _ =>
      eapply full_candidate_idx; [exact H | cell_solve]
  | face_hanging _ _ _ _ _ _ = Some _ => by_idx @face_hanging_idx H
  | face_body _ _ _ = Some _ => by_idx @face_body_idx H
  | face_run_edges _ _ _ _ _ = Some _ => by_idx @face_run_edges_idx H
  end.

Lemma face_change_idx `{Bits} fuel ctx cbs start_level st r :
  face_change fuel ctx cbs start_level st = Some r ->
  idx st -> idx r.
Proof.
  unfold face_change. intros H1 Hok.
  destruct st as [[[args la] level_idx2] tr].
  run_inv H1; idx_solve.
Qed.

Lemma face_prologue_idx `{Build} args la r :
  face_prologue args la = Some r -> idx la -> idx r.
Proof.
  unfold face_prologue. intros H1 Hla. run_inv H1; idx_solve.
Qed.

Ltac idx_face_steps H ::=
  lazymatch type of H with
  | set_face_side _ _ _ = Some _ => by_idx set_face_side_idx H
  | f_corner_args _ = Some _ => by_idx face_args_corner_idx H
  | full_candidate _ _ _ = Some _ =>
      eapply full_candidate_idx; [exact H | cell_solve]
  | face_hanging _ _ _ _ _ _ = Some _ => by_idx @face_hanging_idx H
  | face_body _ _ _ = Some _ => by_idx @face_body_idx H
  | face_run_edges _ _ _ _ _ = Some _ => by_idx @face_run_edges_idx H
  | face_change _ _ _ _ _ = Some _ => by_idx @face_change_idx H
  | face_prologue _ _ = Some _ => by_idx @face_prologue_idx H
  end.

Lemma face_iterate_idx `{Bits} fuel ctx cbs args la r :
  p4est_face_iterate fuel ctx cbs args la = Some r ->
  idx args -> idx la -> idx r.
Proof.
  unfold p4est_face_iterate. intros H1 Hargs Hla.
  run_inv H1; idx_solve.
Qed.

Ltac idx_face_steps H ::=
  lazymatch type of H with
  | set_face_side _ _ _ = Some _ => by_idx set_face_side_idx H
  | f_corner_args _ = Some _ => by_idx face_args_corner_idx H
  | full_candidate _ _ _ = Some _ =>
      eapply full_candidate_idx; [exact H | cell_solve]
  | face_hanging _ _ _ _ _ _ = Some _ => by_idx @face_hanging_idx H
  | face_body _ _ _ = Some _ => by_idx @face_body_idx H
  | face_run_edges _ _ _ _ _ = Some _ => by_idx @face_run_edges_idx H
  | face_change _ _ _ _ _ = Some _ => by_idx @face_change_idx H
  | face_prologue _ _ = Some _ => by_idx @face_prologue_idx H
  | p4est_face_iterate _ _ _ _ _ = Some _ => by_idx @face_iterate_idx H
  end.


(** *** Setting up the iterators *)

Lemma idx_map_unset {A B} `{Idx B} (f : A -> B) (l : list A) :
  (forall a, idx (f a)) -> idx (map f l).
Proof. intros Hf. apply Forall_fmap, Forall_forall. intros a _. apply Hf. Qed.

Lemma idx_map_fst {A B} `{Idx A, Idx B} (l : list (A * B)) :
  idx l -> idx (map fst l).
Proof.
  intros Hl. apply Forall_fmap. eapply Forall_impl; [exact Hl |].
  by intros [a b] [Ha _].
Qed.

Lemma idx_map_fst3 {A B C D} `{Idx A, Idx B, Idx C, Idx D}
  (l : list (A * B * C * D)) :
  idx l -> idx (map (fun r => r.1.1.1) l).
Proof.
  intros Hl. apply Forall_fmap. eapply Forall_impl; [exact Hl |].
  by intros [[[a b] c] d] [[[Ha _] _] _].
Qed.

Lemma idx_map_fst2 {A B C} `{Idx A, Idx B, Idx C} (l : list (A * B * C)) :
  idx l -> idx (map (fun r => r.1.1) l).
Proof.
  intros Hl. apply Forall_fmap. eapply Forall_impl; [exact Hl |].
  by intros [[a b] c] [[Ha _] _].
Qed.

Lemma idx_flat_map {A B} `{Idx B} (f : A -> list B) (l : list A) :
  (forall a, idx (f a)) -> idx (flat_map f l).
Proof.
  intros Hf. apply Forall_flat_map, Forall_forall. intros a _. apply Hf.
Qed.

#[global] Hint Resolve idx_map_fst idx_map_fst2 idx_map_fst3 : idxdb.

Lemma corner_sides_idx `{Bits} conn t c : idx (corner_sides conn t c).
Proof.
  unfold corner_sides. repeat apply idx_app.
  - by repeat constructor.
  - apply idx_flat_map. intros i.
    destruct (p4est_quadrant_face_neighbor_extra _ _ _ _) as [nt q].
    case_decide; by repeat constructor.
  - destruct P4_TO_P8; [| constructor].
    apply idx_flat_map. intros i. apply idx_map_unset. by intros [q nt].
  - apply idx_map_unset. by intros [q nt].
Qed.

Lemma edge_sides_idx `{Bits} conn t e o :
  idx (map (fun r => r.1.1) (edge_sides conn t e o)).
Proof.
  unfold edge_sides. rewrite !map_app. repeat apply idx_app.
  - by repeat constructor.
  - rewrite flat_map_concat_map, concat_map, map_map, <- flat_map_concat_map.
    apply idx_flat_map. intros i.
    destruct (p4est_quadrant_face_neighbor_extra _ _ _ _) as [nt q].
    case_decide; by repeat constructor.
  - rewrite map_map. apply idx_map_unset. by intros [q nt].
Qed.

Lemma init_corner_from_edge_idx num_sides cc sides ca :
  p8est_iter_init_corner_from_edge num_sides cc sides = Some ca -> idx ca.
Proof.
  unfold p8est_iter_init_corner_from_edge. intros H. run_inv H.
  idx_solve.
Qed.

Lemma init_corner_from_face_idx `{Build} num_to_child outside_face fsides ca :
  p4est_iter_init_corner_from_face num_to_child outside_face fsides
  = Some ca -> idx ca.
Proof.
  unfold p4est_iter_init_corner_from_face. intros H1. run_inv H1.
  idx_solve.
Qed.

Lemma init_corner_from_volume_idx `{Build} t :
  idx (p4est_iter_init_corner_from_volume t).
Proof. apply idx_map_unset. done. Qed.

Ltac idx_init_steps H ::=
  lazymatch type of H with
  | p8est_iter_init_corner_from_edge _ _ _ = Some _ =>
      by_idx init_corner_from_edge_idx H
  | p4est_iter_init_corner_from_face _ _ _ = Some _ =>
      by_idx @init_corner_from_face_idx H
  end.

#[global] Hint Resolve corner_sides_idx edge_sides_idx
  init_corner_from_volume_idx : idxdb.

Lemma init_corner_idx `{Bits} ctx ghost_offsets la t c r :
  p4est_iter_init_corner ctx ghost_offsets la t c = Some r ->
  idx la -> idx r.
Proof.
  unfold p4est_iter_init_corner. intros H1 Hla. run_inv H1; idx_solve.
Qed.

Lemma init_edge_idx `{Bits} ctx ghost_offsets la t e r :
  p8est_iter_init_edge ctx ghost_offsets la t e = Some r ->
  idx la -> idx r.
Proof.
  unfold p8est_iter_init_edge. intros H1 Hla. run_inv H1; idx_solve.
Qed.

Lemma init_edge_from_face_idx `{Bits} cb_corner num_to_child outside_face
  fsides dir side ea :
  p8est_iter_init_edge_from_face cb_corner num_to_child outside_face fsides
    dir side = Some ea -> idx ea.
Proof.
  unfold p8est_iter_init_edge_from_face. intros H1. run_inv H1; idx_solve.
Qed.

Ltac idx_init_steps H ::=
  lazymatch type of H with
  | p8est_iter_init_corner_from_edge _ _ _ = Some _ =>
      by_idx init_corner_from_edge_idx H
  | p4est_iter_init_corner_from_face _ _ _ = Some _ =>
      by_idx @init_corner_from_face_idx H
  | p4est_iter_init_corner _ _ _ _ _ = Some _ => by_idx @init_corner_idx H
  | p8est_iter_init_edge _ _ _ _ _ = Some _ => by_idx @init_edge_idx H
  | p8est_iter_init_edge_from_face _ _ _ _ _ _ = Some _ =>
      by_idx @init_edge_from_face_idx H
  end.

Lemma init_face_children_idx `{Bits} la num_to_child outside_face fsides r :
  init_face_children la num_to_child outside_face fsides = Some r -> idx r.
Proof.
  unfold init_face_children. intros H1. run_inv H1; idx_solve.
Qed.

Lemma init_face_idx `{Bits} ctx ghost_offsets la args0 t f r :
  p4est_iter_init_face ctx ghost_offsets la args0 t f = Some r ->
  idx la -> idx r.
Proof.
  unfold p4est_iter_init_face. intros H1 Hla.
  run_inv H1; simplify_eq;
    repeat match goal with
           | Hc : init_face_children _ _ _ _ = Some _ |- _ =>
               apply init_face_children_idx in Hc
           end;
    idx_solve.
Qed.

Lemma init_face_from_volume_idx `{Bits} la treeid dir pos fa :
  p4est_iter_init_face_from_volume la treeid dir pos = Some fa -> idx fa.
Proof.
  unfold p4est_iter_init_face_from_volume. intros H1.
  run_inv H1; simplify_eq.
  apply init_face_children_idx in Hx. idx_solve.
Qed.

Lemma init_edge_from_volume_idx `{Bits} la treeid dir side ea :
  p8est_iter_init_edge_from_volume la treeid dir side = Some ea -> idx ea.
Proof.
  unfold p8est_iter_init_edge_from_volume. intros H1.
  assert (forall d, idx (map (fun i =>
            {| es_treeid := treeid; es_edge := 4 * d + (3 - i);
               es_orientation := 0; es_is := SideUnset |}) (zrange 0 4)))
    as Hsides by (intros d; by apply idx_map_unset).
  run_inv H1; idx_solve.
Qed.

Ltac idx_init_steps H ::=
  lazymatch type of H with
  | p8est_iter_init_corner_from_edge _ _ _ = Some _ =>
      by_idx init_corner_from_edge_idx H
  | p4est_iter_init_corner_from_face _ _ _ = Some _ =>
      by_idx @init_corner_from_face_idx H
  | p4est_iter_init_corner _ _ _ _ _ = Some _ => by_idx @init_corner_idx H
  | p8est_iter_init_edge _ _ _ _ _ = Some _ => by_idx @init_edge_idx H
  | p8est_iter_init_edge_from_face _ _ _ _ _ _ = Some _ =>
      by_idx @init_edge_from_face_idx H
  | init_face_children _ _ _ _ = Some _ => by_idx @init_face_children_idx H
  | p4est_iter_init_face _ _ _ _ _ _ = Some _ => by_idx @init_face_idx H
  | p4est_iter_init_face_from_volume _ _ _ _ = Some _ =>
      by_idx @init_face_from_volume_idx H
  | p8est_iter_init_edge_from_volume _ _ _ _ = Some _ =>
      by_idx @init_edge_from_volume_idx H
  end.

Lemma volume_args_idx_intro s fa ea ca i :
  idx fa -> idx ea -> idx ca ->
  idx {| v_start_idx2 := s; v_face_args := fa; v_edge_args := ea;
        v_corner_args := ca; v_info := i |}.
Proof. by split. Qed.

Lemma with_volume_info_idx args info :
  idx args -> idx (with_volume_info args info).
Proof. done. Qed.

Lemma with_volume_face_args_idx args fa :
  idx args -> idx fa -> idx (with_volume_face_args args fa).
Proof. intros (_ & He & Hc) Hf. by split. Qed.

Lemma with_volume_edge_args_idx args ea :
  idx args -> idx ea -> idx (with_volume_edge_args args ea).
Proof. intros (Hf & _ & Hc) He. by split. Qed.

Lemma with_volume_corner_args_idx args ca :
  idx args -> idx ca -> idx (with_volume_corner_args args ca).
Proof. intros (Hf & He & _) Hc. by split. Qed.

Lemma volume_args_faces_idx (args : p4est_iter_volume_args_t) :
  idx args -> idx (v_face_args args).
Proof. by intros (? & ? & ?). Qed.

Lemma volume_args_edges_idx (args : p4est_iter_volume_args_t) :
  idx args -> idx (v_edge_args args).
Proof. by intros (? & ? & ?). Qed.

Lemma volume_args_corner_idx (args : p4est_iter_volume_args_t) ca :
  v_corner_args args = Some ca -> idx args -> idx ca.
Proof. intros Hc (_ & _ & Hca). by rewrite Hc in Hca. Qed.

Lemma idx_volume_info_any (i : p4est_iter_volume_info_t) : idx i.
Proof. done. Qed.

#[global] Hint Resolve volume_args_idx_intro with_volume_info_idx
  with_volume_face_args_idx with_volume_edge_args_idx
  with_volume_corner_args_idx volume_args_faces_idx volume_args_edges_idx
  idx_volume_info_any : idxdb.

Lemma init_volume_idx `{Bits} ctx ghost_offsets la t r :
  p4est_iter_init_volume ctx ghost_offsets la t = Some r ->
  idx la -> idx r.
Proof.
  unfold p4est_iter_init_volume. intros H1 Hla. run_inv H1; idx_solve.
Qed.

(** *** The volume iterator and the field [quadid] *)

Lemma volume_event_idx (la : p4est_iter_loop_args_t) (sidetype : Z)
  (p : option quad_ptr) (f t : Z) :
  aget (test la) sidetype = Some p ->
  aget (first_index la) sidetype = Some f ->
  cell_indexed la sidetype ->
  idx (EvVolume {| vi_treeid := t; vi_quad := p;
                   vi_quadid := to_locidx f |}).
Proof.
  intros Ht Hf Hc q Hq. simpl in *. subst p. f_equal. by eapply Hc.
Qed.

#[global] Hint Extern 1 (idx (EvVolume _)) =>
  eapply volume_event_idx; [eassumption | eassumption | cell_solve]
  : idxdb.

Lemma volume_candidates_idx ctx cb_volume st r :
  volume_candidates ctx cb_volume st = Some r ->
  idx st -> idx r.
Proof.
  unfold volume_candidates. intros H Hok.
  eapply (for_break_idx _ _ _ _ H Hok). clear H Hok. idx_body.
Qed.

Ltac idx_volume_steps H ::=
  lazymatch type of H with
  | v_corner_args _ = Some _ => by_idx volume_args_corner_idx H
  | p4est_iter_init_volume _ _ _ _ = Some _ => by_idx @init_volume_idx H
  | volume_candidates _ _ _ = Some _ => by_idx volume_candidates_idx H
  end.

Lemma volume_body_idx `{Bits} ctx cb_volume st r :
  volume_body ctx cb_volume st = Some r ->
  idx st -> idx r.
Proof.
  unfold volume_body. intros H1 Hok.
  destruct st as [[[args la] level_idx2] tr].
  run_inv H1; idx_solve.
Qed.

Lemma volume_run_faces_idx `{Bits} fuel ctx cbs st r :
  volume_run_faces fuel ctx cbs st = Some r ->
  idx st -> idx r.
Proof.
  unfold volume_run_faces. intros H1 Hok.
  eapply (for_each_idx _ _ _ _ H1 Hok). clear H1 Hok. idx_body.
Qed.

Lemma volume_run_edges_idx `{Bits} fuel ctx cbs st r :
  volume_run_edges fuel ctx cbs st = Some r ->
  idx st -> idx r.
Proof.
  unfold volume_run_edges. intros H1 Hok.
  eapply (for_each_idx _ _ _ _ H1 Hok). clear H1 Hok. idx_body.
Qed.

Ltac idx_volume_steps H ::=
  lazymatch type of H with
  | v_corner_args _ = Some _ => by_idx volume_args_corner_idx H
  | p4est_iter_init_volume _ _ _ _ = Some _ => by_idx @init_volume_idx H
  | volume_candidates _ _ _ = Some _ => by_idx volume_candidates_idx H
  | volume_body _ _ _ = Some _ => by_idx @volume_body_idx H
  | volume_run_faces _ _ _ _ = Some _ => by_idx @volume_run_faces_idx H
  | volume_run_edges _ _ _ _ = Some _ => by_idx @volume_run_edges_idx H
  end.

Lemma volume_change_idx `{Bits} fuel ctx cbs start_level st r :
  volume_change fuel ctx cbs start_level st = Some r ->
  idx st -> idx r.
Proof.
  unfold volume_change. intros H1 Hok.
  destruct st as [[[args la] level_idx2] tr].
  run_inv H1; idx_solve.
Qed.

Ltac idx_volume_steps H ::=
  lazymatch type of H with
  | v_corner_args _ = Some _ => by_idx volume_args_corner_idx H
  | p4est_iter_init_volume _ _ _ _ = Some _ => by_idx @init_volume_idx H
  | volume_candidates _ _ _ = Some _ => by_idx volume_candidates_idx H
  | volume_body _ _ _ = Some _ => by_idx @volume_body_idx H
  | volume_run_faces _ _ _ _ = Some _ => by_idx @volume_run_faces_idx H
  | volume_run_edges _ _ _ _ = Some _ => by_idx @volume_run_edges_idx H
  | volume_change _ _ _ _ _ = Some _ => by_idx @volume_change_idx H
  end.

Lemma volume_iterate_idx `{Bits} fuel ctx cbs args la r :
  p4est_volume_iterate fuel ctx cbs args la = Some r ->
  idx args -> idx la -> idx r.
Proof.
  unfold p4est_volume_iterate. intros H1 Hargs Hla.
  run_inv H1; idx_solve.
Qed.

(** *** The whole traversal and the field [quadid] *)

Ltac idx_volume_steps H ::=
  lazymatch type of H with
  | v_corner_args _ = Some _ => by_idx volume_args_corner_idx H
  | p4est_iter_init_volume _ _ _ _ = Some _ => by_idx @init_volume_idx H
  | volume_candidates _ _ _ = Some _ => by_idx volume_candidates_idx H
  | volume_body _ _ _ = Some _ => by_idx @volume_body_idx H
  | volume_run_faces _ _ _ _ = Some _ => by_idx @volume_run_faces_idx H
  | volume_run_edges _ _ _ _ = Some _ => by_idx @volume_run_edges_idx H
  | volume_change _ _ _ _ _ = Some _ => by_idx @volume_change_idx H
  | p4est_volume_iterate _ _ _ _ _ = Some _ => by_idx @volume_iterate_idx H
  end.

Lemma iterate_tree_faces_idx `{Bits} fuel ctx cbs tree_first_ghost t st r :
  iterate_tree_faces fuel ctx cbs tree_first_ghost t st = Some r ->
  idx st -> idx r.
Proof.
  unfold iterate_tree_faces. intros H1 Hok.
  eapply (for_each_idx _ _ _ _ H1 Hok). clear H1 Hok. idx_body.
Qed.

Lemma iterate_tree_edges_idx `{Bits} fuel ctx cbs tree_first_ghost t st r :
  iterate_tree_edges fuel ctx cbs tree_first_ghost t st = Some r ->
  idx st -> idx r.
Proof.
  unfold iterate_tree_edges. intros H1 Hok.
  eapply (for_each_idx _ _ _ _ H1 Hok). clear H1 Hok. idx_body.
Qed.

Lemma iterate_tree_corners_idx `{Bits} ctx tree_first_ghost t st r :
  iterate_tree_corners ctx tree_first_ghost t st = Some r ->
  idx st -> idx r.
Proof.
  unfold iterate_tree_corners. intros H1 Hok.
  eapply (for_each_idx _ _ _ _ H1 Hok). clear H1 Hok. idx_body.
Qed.

Ltac idx_tree_steps H ::=
  lazymatch type of H with
  | iterate_tree_faces _ _ _ _ _ _ = Some _ =>
      by_idx @iterate_tree_faces_idx H
  | iterate_tree_edges _ _ _ _ _ _ = Some _ =>
      by_idx @iterate_tree_edges_idx H
  | iterate_tree_corners _ _ _ _ = Some _ =>
      by_idx @iterate_tree_corners_idx H
  end.

Lemma iterate_tree_idx `{Bits} fuel ctx cbs tree_first_ghost t st r :
  iterate_tree fuel ctx cbs tree_first_ghost t st = Some r ->
  idx st -> idx r.
Proof.
  unfold iterate_tree. intros H1 Hok.
  destruct st as [[la face_args] tr].
  run_inv H1; idx_solve.
Qed.

Lemma face_args_uninit_idx `{Build} : idx face_args_uninit.
Proof. repeat split; constructor. Qed.

Lemma volume_iterate_simple_idx p4est tr :
  p4est_volume_iterate_simple p4est = Some tr -> idx tr.
Proof.
  unfold p4est_volume_iterate_simple. intros H.
  eapply (for_each_idx _ _ _ _ H); [constructor |].
  intros t a b _ Hb Ha. run_inv Hb. simplify_eq.
  apply idx_app; [done |]. apply idx_map_unset.
  by intros si p [= <-].
Qed.

#[global] Hint Resolve face_args_uninit_idx : idxdb.

Ltac idx_tree_steps H ::=
  lazymatch type of H with
  | iterate_tree_faces _ _ _ _ _ _ = Some _ =>
      by_idx @iterate_tree_faces_idx H
  | iterate_tree_edges _ _ _ _ _ _ = Some _ =>
      by_idx @iterate_tree_edges_idx H
  | iterate_tree_corners _ _ _ _ = Some _ =>
      by_idx @iterate_tree_corners_idx H
  | iterate_tree _ _ _ _ _ _ = Some _ => by_idx @iterate_tree_idx H
  end.

Lemma iterate_search_idx `{Bits} fuel p4est ghost_layer cbs tr :
  p4est_iterate_search fuel p4est ghost_layer cbs = Some tr -> idx tr.
Proof.
  unfold p4est_iterate_search. intros H1. run_inv H1. idx_solve.
Qed.


(** X9.  The field [quadid] is the position of [quad]: in every completed
    run of [p4est_iterate], whenever a volume callback or a side of a face,
    edge or corner callback (a full side, or a slot of a hanging side)
    names a quadrant, its [quadid] is the index of that quadrant in the
    array it points into (the quadrant array of its tree, or the ghost
    layer), converted to [p4est_locidx_t]. *)
Theorem iterate_quadid_is_position `{Bits} (fuel : nat) (p4est : p4est_t)
  (Ghost_layer : option (list p4est_quadrant_t)) (cbs : callbacks)
  (tr : list iter_event) :
  p4est_iterate fuel p4est Ghost_layer cbs = Some tr ->
  Forall event_indexed tr.
Proof.
  unfold p4est_iterate. intros Hrun.
  case_decide; [simplify_eq; constructor |].
  destruct (negb (iter_face cbs) && _ && _).
  - destruct (negb (iter_volume cbs)); [simplify_eq; constructor |].
    by apply volume_iterate_simple_idx in Hrun.
  - by apply iterate_search_idx in Hrun.
Qed.

Lemma iterate_quadid_is_position_witness :
  exists tr,
    @p4est_iterate ex_build ex_bits 40 ex_forest2 (Some [])
      ex_all_callbacks = Some tr
    /\ Forall event_indexed tr /\ length tr = 29%nat.
Proof.
  eexists. split; [vm_compute; reflexivity |]. split; [| done].
  eapply (@iterate_quadid_is_position ex_build ex_bits 40 ex_forest2
            (Some []) ex_all_callbacks).
  vm_compute; reflexivity.
Defined.

(** ** The ranges of the output of [p6est_lnodes_decode] *)

(** A loop over a range all of whose rounds complete, with an invariant
    that follows the loop index. *)
Lemma for_each_zrange_total {S} (P : Z -> S -> Prop)
  (body : Z -> S -> option S) (lo hi : Z) (s : S) :
  lo <= hi ->
  (forall k a, lo <= k < hi -> P k a ->
     exists b, body k a = Some b /\ P (k + 1) b) ->
  P lo s ->
  exists s', for_each body (zrange lo hi) s = Some s' /\ P hi s'.
Proof.
  intros Hle Hstep.
  remember (Z.to_nat (hi - lo)) as n eqn:Hn.
  revert lo s Hle Hn Hstep. induction n as [| n IH]; intros lo s Hle Hn Hstep.
  - rewrite zrange_nil by lia. simpl. intros HP. exists s.
    by replace hi with lo by lia.
  - rewrite zrange_cons by lia. simpl. intros HP.
    destruct (Hstep lo s) as (a & -> & Ha); [lia | done |]. simpl.
    apply IH; [lia | lia | | done].
    intros k x Hk. apply Hstep. lia.
Qed.

Section decode.
Context `{LnodesEnv}.

(** The table [p8est_face_edges] names edges of the cell. *)
Hypothesis face_edges_range :
  forall f i, 0 <= f < 4 -> 0 <= i < 4 -> 0 <= p8est_face_edges f i < 12.

(** A store into [hanging_edge] at an edge that the table names. *)
Lemma hanging_edge_store (hanging_edge : list Z) (f i v : Z) :
  0 <= f < 4 -> 0 <= i < 4 -> -1 <= v <= 4 ->
  length hanging_edge = 12%nat ->
  Forall (fun v => -1 <= v <= 4) hanging_edge ->
  exists e, zinsert hanging_edge (p8est_face_edges f i) v = Some e
            /\ length e = 12%nat /\ Forall (fun v => -1 <= v <= 4) e.
Proof.
  intros Hf Hi Hv Hlen Hall. pose proof (face_edges_range f i Hf Hi).
  eexists. split; [apply zinsert_Some; lia |].
  split; [by rewrite length_insert | by apply Forall_insert].
Qed.

(** One round of the loop over the side faces: the faces from [f] on still
    hold what [p4est_lnodes_decode] wrote. *)
Lemma decode_face_round (h f : Z) (hanging_face hanging_edge : list Z)
  (work : Z) :
  0 <= h <= 1 -> 0 <= f < 4 ->
  length hanging_face = 6%nat -> length hanging_edge = 12%nat ->
  (forall j v, hanging_face !! j = Some v ->
     -1 <= v <= 3 /\ (f <= Z.of_nat j -> v <= 1)) ->
  Forall (fun v => -1 <= v <= 4) hanging_edge ->
  exists hf he,
    p6est_decode_face h (Z.shiftl h 1) f (hanging_face, hanging_edge, work)
    = Some (hf, he, Z.shiftr work 1)
    /\ length hf = 6%nat /\ length he = 12%nat
    /\ (forall j v, hf !! j = Some v ->
          -1 <= v <= 3 /\ (f + 1 <= Z.of_nat j -> v <= 1))
    /\ Forall (fun v => -1 <= v <= 4) he.
Proof.
  intros Hh Hf Hlf Hle Hfaces Hedges. unfold p6est_decode_face.
  destruct (zlookup_is_Some hanging_face f) as [hf Hhf]; [lia |].
  rewrite Hhf. simpl.
  assert (-1 <= hf <= 1) as Hrange.
  { apply zlookup_Some in Hhf as [_ Hhf]. apply Hfaces in Hhf. lia. }
  assert (Z.shiftl h 1 = 2 * h) as -> by (rewrite Z.shiftl_mul_pow2; lia).
  assert (0 <= Z.lxor 3 hf < 4 \/ hf < 0) as Hx3.
  { destruct (decide (hf = 0)) as [-> | ?];
      [left; change (Z.lxor 3 0) with 3; lia |].
    destruct (decide (hf = 1)) as [-> | ?];
      [left; change (Z.lxor 3 1) with 2; lia |].
    right. lia. }
  assert (0 <= Z.lxor 1 h < 4) as Hx1.
  { destruct (decide (h = 0)) as [-> | ?];
      [change (Z.lxor 1 0) with 1; lia |].
    replace h with 1 by lia. change (Z.lxor 1 1) with 0. lia. }
  assert (exists e,
            (if decide (0 <= hf) then
               e1 ← zinsert hanging_edge (p8est_face_edges f 0) (2 + hf);
               e2 ← zinsert e1 (p8est_face_edges f 1) (2 + hf);
               zinsert e2 (p8est_face_edges f (Z.lxor 3 hf)) 4
             else Some hanging_edge) = Some e
            /\ length e = 12%nat /\ Forall (fun v => -1 <= v <= 4) e)
    as (e & -> & Hlen & Hall).
  { case_decide; [| by exists hanging_edge].
    destruct (hanging_edge_store hanging_edge f 0 (2 + hf))
      as (e1 & -> & Hl1 & Ha1); [lia.. | done | done |]. simpl.
    destruct (hanging_edge_store e1 f 1 (2 + hf))
      as (e2 & -> & Hl2 & Ha2); [lia.. | done | done |]. simpl.
    apply hanging_edge_store; [lia.. | done | done]. }
  simpl. case_decide as Hwork.
  - destruct (hanging_edge_store e f (Z.lxor 1 h) 4)
      as (e1 & -> & Hl1 & Ha1); [lia.. | done | done |]. simpl.
    destruct (hanging_edge_store e1 f 2 (2 + h))
      as (e2 & -> & Hl2 & Ha2); [lia.. | done | done |]. simpl.
    destruct (hanging_edge_store e2 f 3 (2 + h))
      as (e3 & -> & Hl3 & Ha3); [lia.. | done | done |]. simpl.
    case_decide as Hhang.
    + rewrite zinsert_Some by lia. simpl. eexists _, _.
      split; [done |]. split; [by rewrite length_insert |].
      split; [done |]. split; [| done].
      intros j v Hj.
      destruct (decide (j = Z.to_nat f)) as [-> | Hne].
      * rewrite list_lookup_insert_eq in Hj by lia. simplify_eq. lia.
      * rewrite list_lookup_insert_ne in Hj by done.
        apply Hfaces in Hj. lia.
    + eexists _, _. split; [done |]. split; [done |]. split; [done |].
      split; [| done]. intros j v Hj. apply Hfaces in Hj. lia.
  - eexists _, _. split; [done |]. split; [done |]. split; [done |].
    split; [| done]. intros j v Hj. apply Hfaces in Hj. lia.
Qed.

(** One round of the loop over the vertical edges. *)
Lemma decode_edge_round (h e : Z) (hanging_edge : list Z) (work : Z) :
  0 <= h <= 1 -> 0 <= e < 4 ->
  length hanging_edge = 12%nat ->
  Forall (fun v => -1 <= v <= 4) hanging_edge ->
  exists he,
    p6est_decode_edge h e (hanging_edge, work)
    = Some (he, Z.shiftr work 1)
    /\ length he = 12%nat /\ Forall (fun v => -1 <= v <= 4) he.
Proof.
  intros Hh He Hlen Hall. unfold p6est_decode_edge.
  case_decide; [| by exists hanging_edge].
  destruct (zlookup_is_Some hanging_edge (8 + e)) as [v ->]; [lia |].
  simpl. case_decide; [| by exists hanging_edge].
  rewrite zinsert_Some by lia. simpl. eexists. split; [done |].
  split; [by rewrite length_insert |]. apply Forall_insert; [done | lia].
Qed.

(** X10.  The outputs of [p6est_lnodes_decode] stay in the documented
    ranges.  For a positive face code and output arrays of 6 and 12
    entries, when [p4est_lnodes_decode] reports each face as [-1], [0] or
    [1] the decoder completes without an access outside the arrays,
    returns 1, and leaves every entry of [hanging_face] between [-1] and
    [3] and every entry of [hanging_edge] between [-1] and [4]. *)
Theorem decode_outputs_in_range (face_code : Z)
  (hanging_face hanging_edge : list Z) :
  0 < face_code ->
  length hanging_face = 6%nat -> length hanging_edge = 12%nat ->
  (let decoded :=
     (p4est_lnodes_decode (Z.land face_code 15)
        (memset_m1 hanging_face 6)).2 in
   length decoded = 6%nat /\ Forall (fun v => -1 <= v <= 1) decoded) ->
  exists hf he,
    p6est_lnodes_decode face_code hanging_face hanging_edge
    = Some (1, hf, he)
    /\ length hf = 6%nat /\ length he = 12%nat
    /\ Forall (fun v => -1 <= v <= 3) hf
    /\ Forall (fun v => -1 <= v <= 4) he.
Proof.
  intros Hcode Hlf Hle [Hld Hdec]. unfold p6est_lnodes_decode.
  rewrite decide_True by lia.
  set (h := Z.shiftr (Z.land face_code 16) 4).
  assert (0 <= h <= 1) as Hh.
  { unfold h. rewrite Z.shiftr_div_pow2 by lia.
    assert (0 <= Z.land face_code 16 < 32) as Hl.
    { assert (0 <= Z.land face_code 16) as Hnn
        by (apply Z.land_nonneg; lia).
      split; [done |].
      destruct (decide (Z.land face_code 16 = 0)) as [-> | Hne]; [lia |].
      apply (Z.log2_lt_pow2 _ 5); [lia |].
      pose proof (Z.log2_land face_code 16) as Hlog.
      change (Z.log2 16) with 4 in Hlog. lia. }
    change (2 ^ 4) with 16. split; [apply Z.div_pos; lia |].
    assert (Z.land face_code 16 `div` 16 < 2); [| lia].
    apply Z.div_lt_upper_bound; lia. }
  set (hf0 := (p4est_lnodes_decode _ _).2) in *.
  set (he0 := memset_m1 hanging_edge 12).
  assert (length he0 = 12%nat /\ Forall (fun v => -1 <= v <= 4) he0)
    as [Hle0 Hall0].
  { unfold he0, memset_m1. rewrite Hle. simpl.
    rewrite drop_ge by lia. split; [done |].
    repeat constructor; lia. }
  pose (P := fun (f : Z) (st : list Z * list Z * Z) =>
               length st.1.1 = 6%nat /\ length st.1.2 = 12%nat
               /\ (forall j v, st.1.1 !! j = Some v ->
                     -1 <= v <= 3 /\ (f <= Z.of_nat j -> v <= 1))
               /\ Forall (fun v => -1 <= v <= 4) st.1.2).
  destruct (for_each_zrange_total P
              (p6est_decode_face h (Z.shiftl h 1)) 0 4
              (hf0, he0, Z.shiftr face_code 5))
    as ([[hf1 he1] w1] & Hface & Hl1 & Hl2 & Hf1 & He1); [lia | | |].
  - intros f [[hf he] w] Hf (Ha & Hb & Hc & Hd). simpl in Ha, Hb, Hc, Hd.
    destruct (decode_face_round h f hf he w)
      as (hf' & he' & -> & Ha' & Hb' & Hc' & Hd'); [done.. |].
    eexists. split; [done |].
    exact (conj Ha' (conj Hb' (conj Hc' Hd'))).
  - split; [done |]. split; [done |]. split; [| done].
    intros j v Hj. simpl in Hj.
    rewrite Forall_lookup in Hdec. apply Hdec in Hj. lia.
  - simpl in Hl1, Hl2, Hf1, He1.
    pose (Q := fun (e : Z) (st : list Z * Z) =>
                 length st.1 = 12%nat
                 /\ Forall (fun v => -1 <= v <= 4) st.1).
    destruct (for_each_zrange_total Q (p6est_decode_edge h) 0 4 (he1, w1))
      as ([he2 w2] & Hedge & Hl3 & He2); [lia | | done |].
    + intros e [he w] He [Ha Hb]. simpl in Ha, Hb.
      destruct (decode_edge_round h e he w) as (he' & -> & Ha' & Hb');
        [done.. |].
      eexists. split; [done |]. exact (conj Ha' Hb').
    + simpl in Hl3, He2. exists hf1, he2. split.
      { apply bind_Some. exists (hf1, he1, w1). split; [exact Hface |].
        apply bind_Some. exists (he2, w2). by split. }
      split; [done |]. split; [done |]. split; [| done].
      apply Forall_lookup. intros j v Hj. apply Hf1 in Hj. lia.
Qed.

End decode.

Lemma decode_outputs_in_range_witness :
  exists hf he,
    @p6est_lnodes_decode ex_lnodes 560 (replicate 6 7) (replicate 12 7)
    = Some (1, hf, he)
    /\ length hf = 6%nat /\ length he = 12%nat
    /\ Forall (fun v => -1 <= v <= 3) hf
    /\ Forall (fun v => -1 <= v <= 4) he.
Proof.
  apply (@decode_outputs_in_range ex_lnodes).
  - intros f i Hf Hi.
    assert (f = 0 \/ f = 1 \/ f = 2 \/ f = 3) as Hf' by lia.
    assert (i = 0 \/ i = 1 \/ i = 2 \/ i = 3) as Hi' by lia.
    destruct Hf' as [-> | [-> | [-> | ->]]];
      destruct Hi' as [-> | [-> | [-> | ->]]]; vm_compute; split; congruence.
  - lia.
  - reflexivity.
  - reflexivity.
  - split; [reflexivity |]. vm_compute. repeat constructor; congruence.
Defined.

(** ** The tree id of a side names the tree of its local quadrants *)

(** *** The invariant [tid] through the steps of the iterators *)

Section tid.
Variable qs : carray quad_array.

Lemma tid_Z_any (z : Z) : tid qs z.
Proof. done. Qed.

Lemma tid_bool_any (b : bool) : tid qs b.
Proof. done. Qed.

Lemma tid_step_any (s : next_step) : tid qs s.
Proof. done. Qed.

Lemma tid_nil {A} `{Tid A} : tid qs (@nil A).
Proof. constructor. Qed.

Lemma tid_cons {A} `{Tid A} (x : A) (l : list A) :
  tid qs x -> tid qs l -> tid qs (x :: l).
Proof. by constructor. Qed.

Lemma tid_app {A} `{Tid A} (l1 l2 : list A) :
  tid qs l1 -> tid qs l2 -> tid qs (l1 ++ l2).
Proof. intros H1 H2. apply Forall_app. by split. Qed.

Lemma tid_pair_intro {A B} `{Tid A, Tid B} (a : A) (b : B) :
  tid qs a -> tid qs b -> tid qs (a, b).
Proof. by split. Qed.

Lemma tid_Some {A} `{Tid A} (a : A) : tid qs a -> tid qs (Some a).
Proof. done. Qed.

Lemma tid_None {A} `{Tid A} : tid qs (@None A).
Proof. done. Qed.

Lemma tid_Next {S} `{Tid S} (s : S) : tid qs s -> tid qs (Next s).
Proof. done. Qed.

Lemma tid_Leave {S} `{Tid S} (s : S) : tid qs s -> tid qs (Leave s).
Proof. done. Qed.

Lemma tid_set_level v la : tid qs la -> tid qs (set_level v la).
Proof. done. Qed.

Lemma tid_set_tier_rings v la : tid qs la -> tid qs (set_tier_rings v la).
Proof. done. Qed.

Lemma same_tid (la la' : p4est_iter_loop_args_t) :
  same_qt la la' -> tid qs la -> tid qs la'.
Proof. intros [Hq _] Hla. unfold tid, tid_la in *. congruence. Qed.

Lemma set_test_tid i v la la' :
  set_test i v la = Some la' -> tid qs la -> tid qs la'.
Proof. unfold set_test. intros H Hla. run_inv H. by simplify_eq. Qed.

Lemma fetch_candidate_tid ctx sidetype la la' :
  fetch_candidate ctx sidetype la = Some la' -> tid qs la -> tid qs la'.
Proof.
  unfold fetch_candidate. intros H Hla. run_inv H.
  all: eapply same_tid; [by eapply set_test_level_same |].
  all: by eapply set_test_tid.
Qed.

Lemma zlookup_tid {A} `{Tid A} (l : list A) (i : Z) (v : A) :
  zlookup l i = Some v -> tid qs l -> tid qs v.
Proof.
  intros Hl Hok. apply zlookup_Some in Hl as [_ Hl].
  by eapply (Forall_lookup_1 (tid qs)).
Qed.

Lemma zinsert_tid {A} `{Tid A} (l l' : list A) (i : Z) (v : A) :
  zinsert l i v = Some l' -> tid qs l -> tid qs v -> tid qs l'.
Proof.
  intros [_ ->]%zinsert_inv Hl Hv. by apply Forall_insert.
Qed.

Lemma for_each_tid {S I} `{Tid S} (body : I -> S -> option S) (l : list I)
  (s s' : S) :
  for_each body l s = Some s' -> tid qs s ->
  (forall i a b, i ∈ l -> body i a = Some b -> tid qs a -> tid qs b) ->
  tid qs s'.
Proof.
  intros Hrun Hs Hbody. by apply (for_each_inv (tid qs) body l s s').
Qed.

Lemma for_break_tid {S I} `{Tid S} (body : I -> S -> option (flow S))
  (l : list I) (s : S) (r : flow S) :
  for_break body l s = Some r -> tid qs s ->
  (forall i a b, i ∈ l -> body i a = Some b -> tid qs a -> tid qs b) ->
  tid qs r.
Proof.
  intros Hrun Hs Hbody.
  pose proof (for_break_inv (tid qs) (tid qs) body l s r Hrun Hs) as Hinv.
  destruct r; apply Hinv; intros i a b Hi Hb Ha;
    specialize (Hbody i a b Hi Hb Ha); by destruct b.
Qed.

Lemma run_loop_tid {S} `{Tid S} (fuel : nat) (body : S -> option S)
  (change : S -> option (next_step * S)) (at_body : bool) (s s' : S) :
  run_loop fuel body change at_body s = Some s' -> tid qs s ->
  (forall a b, body a = Some b -> tid qs a -> tid qs b) ->
  (forall a b, change a = Some b -> tid qs a -> tid qs b) ->
  tid qs s'.
Proof.
  intros Hrun Hs Hbody Hchange. revert at_body s Hrun Hs.
  induction fuel as [| n IH]; intros at_body s Hrun Hs; simpl in Hrun; [done |].
  destruct at_body.
  - apply bind_Some in Hrun as (a & Ha & Hrun).
    eapply IH; [done |]. by eapply Hbody.
  - apply bind_Some in Hrun as ([step a] & Ha & Hrun).
    assert (tid qs a) by (by eapply (Hchange s (step, a))).
    destruct step; [by simplify_eq | by eapply IH | by eapply IH].
Qed.

End tid.

Create HintDb tiddb.

#[global] Hint Resolve tid_Z_any tid_bool_any tid_step_any tid_nil tid_cons
  tid_app tid_pair_intro tid_Some tid_None tid_Next tid_Leave tid_set_level
  tid_set_tier_rings : tiddb.

#[global] Hint Extern 2 (tid _ (if _ then _ else _)) => case_match : tiddb.

Ltac tid_goal :=
  lazymatch goal with
  | |- tid _ (_, _) => apply tid_pair_intro; tid_goal
  | |- tid _ (Next _) => apply tid_Next; tid_goal
  | |- tid _ (Leave _) => apply tid_Leave; tid_goal
  | |- tid _ (Some _) => apply tid_Some; tid_goal
  | |- tid _ (if ?c then _ else _) => destruct c; tid_goal
  | |- tid _ (_ ++ _) => apply tid_app; tid_goal
  | |- tid _ (_ :: _) => apply tid_cons; tid_goal
  | |- _ => solve [assumption | exact I | reflexivity
                  | eauto 4 with tiddb nocore]
  end.

Ltac by_tid L H := eapply L; [exact H | tid_goal ..].
Ltac by_same_tid L H := eapply same_tid; [eapply L; exact H | tid_goal].

Ltac tid_corner_steps H := fail.
Ltac tid_edge_steps H := fail.
Ltac tid_face_steps H := fail.
Ltac tid_volume_steps H := fail.
Ltac tid_tree_steps H := fail.

Ltac tid_step H :=
  lazymatch type of H with
  | zlookup _ _ = Some _ => by_tid @zlookup_tid H
  | zinsert _ _ _ = Some _ => by_tid @zinsert_tid H
  | set_level_num _ _ _ = Some _ => by_same_tid set_level_num_same H
  | set_quad_idx2 _ _ _ = Some _ => by_same_tid set_quad_idx2_same H
  | set_index _ _ _ _ = Some _ => by_same_tid set_index_same H
  | set_first_index _ _ _ = Some _ => by_same_tid set_first_index_same H
  | set_count _ _ _ = Some _ => by_same_tid set_count_same H
  | set_test_level _ _ _ = Some _ => by_same_tid set_test_level_same H
  | set_refine _ _ _ = Some _ => by_same_tid set_refine_same H
  | incr_level_num _ _ = Some _ => by_same_tid incr_level_num_same H
  | load_bound_at _ _ _ = Some _ => by_same_tid load_bound_at_same H
  | load_bounds _ _ = Some _ => by_same_tid load_bounds_same H
  | store_tier _ _ _ _ = Some _ => by_same_tid store_tier_same H
  | p4est_iter_copy_indices _ _ _ _ = Some _ =>
      by_same_tid @copy_indices_same H
  | split_sidetype _ _ _ _ = Some _ => by_same_tid @split_sidetype_same H
  | split_side _ _ _ _ = Some _ => by_same_tid @split_side_same H
  | set_test _ _ _ = Some _ => by_tid set_test_tid H
  | fetch_candidate _ _ _ = Some _ => by_tid fetch_candidate_tid H
  | _ =>
      first [ tid_corner_steps H | tid_edge_steps H | tid_face_steps H
            | tid_volume_steps H | tid_tree_steps H ]
  end.

Ltac tid_known c x :=
  lazymatch goal with
  | _ : tid c x |- _ => fail
  | _ => idtac
  end.

Ltac tid_pairs c :=
  repeat match goal with
         | H : tid c (?a, ?b) |- _ =>
             tid_known c a; pose proof (proj1 H : tid c a)
         | H : tid c (?a, ?b) |- _ =>
             tid_known c b; pose proof (proj2 H : tid c b)
         | H : tid c (Next ?a) |- _ =>
             tid_known c a; pose proof (H : tid c a)
         | H : tid c (Leave ?a) |- _ =>
             tid_known c a; pose proof (H : tid c a)
         | H : tid c (Some ?a) |- _ =>
             tid_known c a; pose proof (H : tid c a)
         end.

(** Derive [tid c] for every result of a step in the context, in the order
    of the program. *)
Ltac tid_fwd c :=
  tid_pairs c;
  repeat match reverse goal with
         | H : _ = Some ?x |- _ =>
             ok_wanted x; tid_known c x;
             assert (tid c x) by tid_prove c H;
             tid_pairs c
         end
with tid_prove c H :=
  first
    [ tid_step H
    | eapply (for_each_tid c _ _ _ _ H); [tid_goal | tid_body c]
    | eapply (for_break_tid c _ _ _ _ H); [tid_goal | tid_body c]
    | eapply (run_loop_tid c _ _ _ _ _ _ H);
        [tid_goal | tid_body1 c | tid_body1 c] ]
with tid_body c :=
  let Hb := fresh "Hb" in
  repeat match goal with
         | H' : _ = Some ?x |- _ => ok_wanted x; tid_known c x; clear H'
         end;
  intros ? ? ? ? Hb ?; cbv beta in Hb; run_inv Hb; split_types;
  simplify_eq; tid_fwd c; tid_goal
with tid_body1 c :=
  let Hb := fresh "Hb" in
  repeat match goal with
         | H' : _ = Some ?x |- _ => ok_wanted x; tid_known c x; clear H'
         end;
  intros ? ? Hb ?; cbv beta in Hb; run_inv Hb; split_types;
  simplify_eq; tid_fwd c; tid_goal.

Ltac tid_solve c := simplify_eq; tid_fwd c; tid_goal.

(** *** Candidates and the arrays of their search areas *)

Lemma same_qt_cell (la la' : p4est_iter_loop_args_t) (sidetype : Z) :
  same_qt la la' -> cell_array la sidetype -> cell_array la' sidetype.
Proof. intros [Hq Ht] Hc p. rewrite Hq, Ht. apply Hc. Qed.

(** What [fetch_candidate] leaves in [test] points into the array of the
    search area; the other candidates are as before. *)
Lemma fetch_candidate_array ctx sidetype la la' :
  fetch_candidate ctx sidetype la = Some la' ->
  cell_array la' sidetype
  /\ forall other, cell_array la other -> cell_array la' other.
Proof.
  unfold fetch_candidate. intros H.
  assert (forall v lb,
            set_test sidetype v la = Some lb ->
            quadrants lb = quadrants la
            /\ forall i, aget (test lb) i
                         = if decide (sidetype = i) then Some v
                           else aget (test la) i) as Hset.
  { unfold set_test. intros v lb Hs. run_inv Hs. simplify_eq. simpl.
    split; [done |]. intros i. by rewrite (aget_aset _ _ _ _ _ Hx). }
  assert (forall v lb,
            (forall p, v = Some p ->
               aget (quadrants la) sidetype = Some (ptr_array p)) ->
            set_test sidetype v la = Some lb ->
            cell_array lb sidetype
            /\ forall other, cell_array la other -> cell_array lb other)
    as Hcell.
  { intros v lb Hv Hs. apply Hset in Hs as [Hq Ht].
    assert (cell_array lb sidetype) as Hhere.
    { intros p. rewrite Ht, Hq, decide_True by done.
      intros [= ->]. by apply Hv. }
    split; [done |]. intros other Ho.
    destruct (decide (other = sidetype)) as [-> | Hne]; [done |].
    intros p. rewrite Ht, Hq, decide_False by done. apply Ho. }
  assert (forall lb,
            (cell_array lb sidetype
             /\ forall other, cell_array la other -> cell_array lb other) ->
            same_qt lb la' ->
            cell_array la' sidetype
            /\ forall other, cell_array la other -> cell_array la' other)
    as Hlast.
  { intros lb [Hh Ho] Hs. split; [by eapply same_qt_cell |].
    intros other Hc. eapply same_qt_cell; [done |]. by apply Ho. }
  run_inv H.
  - eapply Hlast; [| by eapply set_test_level_same].
    eapply Hcell; [| done]. intros p [= <-].
    apply sc_array_index_array in Hx2. congruence.
  - eapply Hlast; [| by eapply set_test_level_same].
    eapply Hcell; [| done]. by intros p.
Qed.

Lemma fetch_candidate_keeps_array ctx sidetype la la' other :
  fetch_candidate ctx sidetype la = Some la' ->
  cell_array la other -> cell_array la' other.
Proof. intros H. apply fetch_candidate_array in H as [_ H]. apply H. Qed.

(** *** Records, sides and their positions *)

Section at_side.
Variable qs : carray quad_array.

Lemma side_null_at (side : Z) : quad_at qs side side_null.
Proof. by intros t _ p. Qed.

Lemma quad_null_at (side : Z) (b : bool) (i : Z) :
  quad_at qs side {| sq_quad := None; sq_is_local := b; sq_quadid := i |}.
Proof. by intros t _ p. Qed.

(** A record made from an element of the array of a search area. *)
Lemma quad_index_at ctx la (side type : Z) arr (i : Z) (p : quad_ptr)
  (j : Z) :
  sc_array_index ctx arr i = Some p ->
  aget (quadrants la) (side * 2 + type) = Some arr ->
  tid qs la ->
  quad_at qs side {| sq_quad := Some p;
                     sq_is_local := bool_decide (type = local);
                     sq_quadid := j |}.
Proof.
  intros Hp Ha Hla t Ht q [= <-] Hl. simpl in Hl.
  apply bool_decide_eq_true in Hl as ->.
  apply sc_array_index_array in Hp. unfold tid, tid_la in Hla.
  unfold local in Ha. congruence.
Qed.

Lemma quad_corner_at `{Bits} ctx level c la (side type : Z) arr first cnt
  (p : quad_ptr) (i j : Z) :
  corner_candidate ctx level c arr first cnt = Some (Some (p, i)) ->
  aget (quadrants la) (side * 2 + type) = Some arr ->
  tid qs la ->
  quad_at qs side {| sq_quad := Some p;
                     sq_is_local := bool_decide (type = local);
                     sq_quadid := j |}.
Proof.
  intros Hp Ha Hla t Ht q [= <-] Hl. simpl in Hl.
  apply bool_decide_eq_true in Hl as ->.
  apply corner_candidate_array in Hp. unfold tid, tid_la in Hla.
  unfold local in Ha. congruence.
Qed.

(** A record made from the candidate of a search area. *)
Lemma quad_cell_at la (side type : Z) (p : option quad_ptr) (j : Z) :
  aget (test la) (side * 2 + type) = Some p ->
  cell_array la (side * 2 + type) ->
  tid qs la ->
  quad_at qs side {| sq_quad := p;
                     sq_is_local := bool_decide (type = local);
                     sq_quadid := j |}.
Proof.
  intros Hp Hc Hla t Ht q Hq Hl. simpl in Hq, Hl. subst p.
  apply bool_decide_eq_true in Hl as ->. apply Hc in Hp.
  unfold tid, tid_la in Hla. unfold local in Hp. congruence.
Qed.

Lemma full_at (side : Z) (q : side_quad) :
  quad_at qs side q -> data_at qs side (SideFull q).
Proof. done. Qed.

Lemma hanging_slots_at (side n : Z) (d : side_data) :
  data_at qs side d -> data_at qs side (SideHanging (hanging_slots n d)).
Proof.
  intros Hd t Ht. specialize (Hd t Ht).
  assert (data_in_tree t (SideHanging (replicate (Z.to_nat n) None)))
    as Hrep by (by apply Forall_replicate).
  destruct d as [| q | slots]; simpl; [done | done |]. by case_decide.
Qed.

Lemma write_slot_at (side : Z) d c slot d' :
  write_slot d c slot = Some d' ->
  data_at qs side d -> quad_at qs side slot -> data_at qs side d'.
Proof.
  unfold write_slot. intros H Hd Hs t Ht. specialize (Hd t Ht).
  specialize (Hs t Ht). destruct d as [| q | slots]; [done.. |].
  run_inv H. simplify_eq. apply zinsert_inv in Hx as [_ ->].
  by apply Forall_insert.
Qed.

(** The data of the side at a position may be stored there again. *)
Lemma side_at_data {S} (treeid : S -> Z) (data : S -> side_data)
  (side : Z) (s : S) :
  side_at treeid data qs side s -> data_at qs side (data s).
Proof. intros [Hq Hd] t Ht. by simplify_eq. Qed.

Lemma sides_at_lookup {S} (treeid : S -> Z) (data : S -> side_data)
  (l : list S) (side : Z) (s : S) :
  zlookup l side = Some s -> sides_at treeid data qs l ->
  side_at treeid data qs side s.
Proof.
  intros [Hi Hl]%zlookup_Some Hall. apply Hall in Hl.
  by rewrite Z2Nat.id in Hl.
Qed.

Lemma sides_at_insert {S} (treeid : S -> Z) (data : S -> side_data)
  (l l' : list S) (side : Z) (s : S) :
  zinsert l side s = Some l' -> sides_at treeid data qs l ->
  side_at treeid data qs side s -> sides_at treeid data qs l'.
Proof.
  intros [Hi ->]%zinsert_inv Hall Hs i x Hx.
  destruct (decide (i = Z.to_nat side)) as [-> | Hne].
  - rewrite list_lookup_insert_eq in Hx by lia. simplify_eq.
    by rewrite Z2Nat.id by lia.
  - rewrite list_lookup_insert_ne in Hx by done. by apply Hall.
Qed.

End at_side.

#[global] Hint Resolve side_null_at quad_null_at full_at hanging_slots_at
  : tiddb.

(** The candidates and their arrays are as they were before the steps that
    touch neither. *)
Ltac qt_solve :=
  first
    [ assumption
    | apply same_qt_refl
    | match goal with
      | H : set_refine _ _ _ = Some ?b |- same_qt _ ?b =>
          eapply same_qt_trans; [| eapply set_refine_same; exact H];
          qt_solve
      | H : incr_level_num _ _ = Some ?b |- same_qt _ ?b =>
          eapply same_qt_trans; [| eapply incr_level_num_same; exact H];
          qt_solve
      | H : set_level_num _ _ _ = Some ?b |- same_qt _ ?b =>
          eapply same_qt_trans; [| eapply set_level_num_same; exact H];
          qt_solve
      end ].

(** A candidate points into the array of its area since it was fetched. *)
Ltac array_solve :=
  lazymatch goal with
  | |- cell_array ?b ?st =>
      first
        [ assumption
        | match goal with
          | H : fetch_candidate _ st _ = Some b |- _ =>
              exact (proj1 (fetch_candidate_array _ _ _ _ H))
          end
        | match goal with
          | HJ : forall side type : Z, _ -> cell_array ?a _ |- _ =>
              apply (same_qt_cell a b); [qt_solve | apply HJ; assumption]
          end ]
  end.

(** The record of the candidate of a search area, for the side of the
    area. *)
Ltac quad_at_solve :=
  first
    [ apply side_null_at
    | apply quad_null_at
    | eapply quad_cell_at; [eassumption | array_solve | assumption] ].

#[global] Hint Extern 1 (quad_at _ _ _) => quad_at_solve : tiddb.

(** *** The corner iterator and the tree ids *)

Lemma probe_child_at qs ctx side la slot hl la' slot' hl' :
  probe_child ctx side (la, slot, hl) = Some (la', slot', hl') ->
  tid qs la -> quad_at qs side slot ->
  tid qs la' /\ quad_at qs side slot'.
Proof.
  unfold probe_child. intros H Hla Hslot.
  pose (P := fun s : p4est_iter_loop_args_t * side_quad * bool =>
               tid qs s.1.1 /\ quad_at qs side s.1.2).
  apply (for_each_inv P _ _ _ _) in H; [done | | done].
  intros type [[la1 slot1] hl1] [[la2 slot2] hl2] Hin Hb [Hla1 Hs1].
  simpl in Hla1, Hs1. run_inv Hb; simplify_eq; tid_fwd qs.
  - split; [done |]. simpl. by eapply quad_index_at.
  - by split.
Qed.

Lemma corner_side_type_at `{Bits} qs ctx level side type la cside hl
  la' cside' hl' :
  corner_side_type ctx level side type (la, cside, hl)
  = Some (la', cside', hl') ->
  tid qs la -> side_at cs_treeid cs_is qs side cside ->
  tid qs la' /\ side_at cs_treeid cs_is qs side cside'.
Proof.
  unfold corner_side_type. intros H1 Hla Hside.
  run_inv H1; simplify_eq; tid_fwd qs; try done.
  split; [done |]. destruct Hside as [Hq Hd]. split; [done |]. simpl.
  by eapply quad_corner_at.
Qed.

Lemma corner_side_tid `{Bits} qs ctx level side st st' :
  corner_side ctx level side st = Some st' -> tid qs st -> tid qs st'.
Proof.
  unfold corner_side. intros H1 Hst. destruct st as [[la sides] hl].
  destruct Hst as [[Hla Hsides] _]. simpl in Hla, Hsides.
  apply bind_Some in H1 as (cside & Hc & H1).
  apply bind_Some in H1 as ([[la1 cside1] hl1] & Hloop & H1).
  apply bind_Some in H1 as (sides1 & Hins & H1). simplify_eq.
  pose (P := fun s : p4est_iter_loop_args_t * p4est_iter_corner_side_t
                     * bool =>
               tid qs s.1.1 /\ side_at cs_treeid cs_is qs side s.1.2).
  apply (for_each_inv P _ _ _ _) in Hloop.
  - destruct Hloop as [Hla1 Hs1]. simpl in Hla1, Hs1.
    split; [split; [done |] | done]. simpl.
    by eapply sides_at_insert.
  - intros type [[la2 cside2] hl2] [[la3 cside3] hl3] _ Hb [Hla2 Hs2].
    by eapply corner_side_type_at.
  - split; [done |]. simpl.
    eapply sides_at_lookup in Hc; [| done]. destruct Hc as [Hq _].
    by split.
Qed.

Lemma corner_event_tid qs sides : tid qs sides -> tid qs (EvCorner sides).
Proof.
  intros Hall. apply Forall_lookup. intros i s Hs.
  by apply Hall in Hs as [_ Hd].
Qed.

Lemma corner_args_tid_intro qs n s sides :
  tid qs sides ->
  tid qs {| c_num_sides := n; c_start_idx2 := s; c_sides := sides |}.
Proof. done. Qed.

Lemma corner_args_sides_tid qs (args : p4est_iter_corner_args_t) :
  tid qs args -> tid qs (c_sides args).
Proof. done. Qed.

#[global] Hint Resolve corner_event_tid corner_args_tid_intro
  corner_args_sides_tid : tiddb.

Ltac tid_corner_steps H ::=
  lazymatch type of H with
  | corner_side _ _ _ _ = Some _ => by_tid @corner_side_tid H
  end.

Lemma corner_iterate_tid `{Bits} qs ctx args la r :
  p4est_corner_iterate ctx args la = Some r ->
  tid qs args -> tid qs la -> tid qs r.
Proof.
  unfold p4est_corner_iterate. intros H1 Hargs Hla.
  run_inv H1; tid_solve qs.
Qed.

Ltac tid_corner_steps H ::=
  lazymatch type of H with
  | corner_side _ _ _ _ = Some _ => by_tid @corner_side_tid H
  | p4est_corner_iterate _ _ _ = Some _ => by_tid @corner_iterate_tid H
  end.

(** *** The edge iterator and the tree ids *)

Lemma edge_args_tid_intro qs n s cc ca sides :
  tid qs sides -> tid qs ca ->
  tid qs {| e_num_sides := n; e_start_idx2 := s; e_common_corners := cc;
            e_corner_args := ca; e_sides := sides |}.
Proof. by split. Qed.

Lemma with_edge_sides_tid qs args sides :
  tid qs args -> tid qs sides -> tid qs (with_edge_sides args sides).
Proof. intros [_ Hc] Hs. by split. Qed.

Lemma with_edge_corner_args_tid qs args ca :
  tid qs args -> tid qs ca -> tid qs (with_edge_corner_args args ca).
Proof. intros [Hs _] Hc. by split. Qed.

Lemma edge_args_sides_tid qs (args : p8est_iter_edge_args_t) :
  tid qs args -> tid qs (e_sides args).
Proof. by intros [? ?]. Qed.

Lemma edge_args_corner_tid qs (args : p8est_iter_edge_args_t) ca :
  e_corner_args args = Some ca -> tid qs args -> tid qs ca.
Proof. intros Hc [_ Hca]. by rewrite Hc in Hca. Qed.

Lemma edge_event_tid qs sides : tid qs sides -> tid qs (EvEdge sides).
Proof.
  intros Hall. apply Forall_lookup. intros i s Hs.
  by apply Hall in Hs as [_ Hd].
Qed.

Lemma set_edge_side_tid qs sides side d sides' :
  set_edge_side sides side d = Some sides' ->
  tid qs sides -> data_at qs side d -> tid qs sides'.
Proof.
  unfold set_edge_side. intros H Hs Hd. run_inv H.
  eapply sides_at_insert; [done | done |].
  eapply sides_at_lookup in Hx; [| done]. destruct Hx as [Hq _].
  split; [done |]. simpl. by apply Hd.
Qed.

#[global] Hint Resolve edge_args_tid_intro with_edge_sides_tid
  with_edge_corner_args_tid edge_args_sides_tid edge_event_tid : tiddb.

Ltac tid_edge_steps H ::=
  lazymatch type of H with
  | set_edge_side _ _ _ = Some _ => by_tid set_edge_side_tid H
  | e_corner_args _ = Some _ => by_tid edge_args_corner_tid H
  end.

Lemma full_candidate_at qs side type la d :
  full_candidate (side * 2 + type) type la = Some d ->
  cell_array la (side * 2 + type) -> tid qs la -> data_at qs side d.
Proof.
  unfold full_candidate. intros H Hc Hla. run_inv H. simplify_eq.
  apply full_at. by eapply quad_cell_at.
Qed.

(** Facts about the records and the data of single sides, which are not
    parts of the state with a [tid] of their own. *)
Ltac at_known P :=
  lazymatch goal with
  | _ : P |- _ => fail
  | _ => idtac
  end.

Ltac at_fwd c :=
  repeat match reverse goal with
    | H : zlookup ?l ?i = Some ?s, Hl : tid c ?l |- _ =>
        lazymatch type of s with
        | p8est_iter_edge_side_t =>
            at_known (data_at c i (es_is s));
            assert (data_at c i (es_is s))
              by (eapply (side_at_data c es_treeid es_is);
                  eapply sides_at_lookup; [exact H | exact Hl])
        | p4est_iter_face_side_t =>
            at_known (data_at c i (fs_is s));
            assert (data_at c i (fs_is s))
              by (eapply (side_at_data c fs_treeid fs_is);
                  eapply sides_at_lookup; [exact H | exact Hl])
        end
    | H : probe_child _ ?side (?la, ?slot, _) = Some (?la', ?slot', _)
      |- _ =>
        at_known (quad_at c side slot');
        let Ha := fresh "Hla" in
        let Hq := fresh "Hslot" in
        destruct (probe_child_at c _ _ _ _ _ _ _ _ H) as [Ha Hq];
        [assumption | solve [apply side_null_at | assumption] |]
    | H : full_candidate (?side * 2 + ?type) ?type ?la = Some ?d |- _ =>
        at_known (data_at c side d);
        assert (data_at c side d)
          by (eapply full_candidate_at; [exact H | array_solve | assumption])
    | H : write_slot ?d _ ?slot = Some ?d', Hq : quad_at c ?side ?slot
      |- _ =>
        at_known (data_at c side d');
        assert (data_at c side d')
          by (eapply write_slot_at; [exact H | assumption | exact Hq])
    | H : _ = Some ?x |- _ =>
        lazymatch type of x with
        | p4est_iter_loop_args_t => idtac
        | list p8est_iter_edge_side_t => idtac
        | list p4est_iter_face_side_t => idtac
        end;
        tid_known c x;
        assert (tid c x) by tid_step H
    end.

Lemma edge_candidates_tid qs cb_edge num_sides la sides sr hl r :
  edge_candidates cb_edge num_sides (la, sides, sr, hl) = Some r ->
  (forall side type, (side, type) ∈ sidetypes 0 num_sides ->
     cell_array la (side * 2 + type)) ->
  tid qs la -> tid qs sides -> tid qs r.
Proof.
  unfold edge_candidates. intros H HJ Hla Hsides.
  pose (P := fun s : p4est_iter_loop_args_t * list p8est_iter_edge_side_t
                     * bool * bool =>
               same_qt la s.1.1.1 /\ tid qs s.1.1.2).
  assert (match r with
          | Next s => P s
          | Leave s => P s
          end) as Hr.
  { eapply (for_break_inv P P _ _ _ _ H).
    - split; [apply same_qt_refl | apply Hsides].
    - clear H. intros [side type] [[[la1 sides1] sr1] hl1] b Hin Hb [Hqt Hs].
      simpl in Hqt, Hs.
      assert (tid qs la1) as Hla1 by (by eapply same_tid).
      run_inv Hb; simplify_eq; unfold P; simpl.
      all: split; [qt_solve | at_fwd qs; tid_goal]. }
  destruct r as [[[[la1 sides1] sr1] hl1] | [[[la1 sides1] sr1] hl1]];
    destruct Hr as [Hqt Hr]; simpl in Hqt, Hr;
    (split; [split; [split; [by eapply same_tid | done] | done] | done]).
Qed.

Lemma edge_empty_sides_tid qs num_sides st r :
  edge_empty_sides num_sides st = Some r -> tid qs st -> tid qs r.
Proof.
  unfold edge_empty_sides. intros H Hok.
  eapply (for_each_tid qs _ _ _ _ H Hok). clear H Hok. tid_body qs.
Qed.

Lemma edge_hanging_tid `{Build} qs ctx level_idx2 num_sides cc st r :
  edge_hanging ctx level_idx2 num_sides cc st = Some r ->
  tid qs st -> tid qs r.
Proof.
  unfold edge_hanging. intros H1 Hok.
  eapply (for_each_tid qs _ _ _ _ H1 Hok). clear H1 Hok.
  intros side [[la sides] hl] [[la' sides'] hl'] _ Hb Hst.
  run_inv Hb; simplify_eq; [| done]. tid_pairs qs. at_fwd qs.
  match goal with
  | Hin : for_each _ _ _ = Some _ |- _ =>
      eapply (for_each_tid qs _ _ _ _ Hin); [tid_goal |]; clear Hin
  end.
  intros i [[la2 sides2] hl2] [[la3 sides3] hl3] _ Hb Hst2.
  run_inv Hb; simplify_eq. tid_pairs qs. at_fwd qs. tid_goal.
Qed.

Ltac tid_edge_steps H ::=
  lazymatch type of H with
  | set_edge_side _ _ _ = Some _ => by_tid set_edge_side_tid H
  | e_corner_args _ = Some _ => by_tid edge_args_corner_tid H
  | edge_empty_sides _ _ = Some _ => by_tid edge_empty_sides_tid H
  | edge_hanging _ _ _ _ _ = Some _ => by_tid @edge_hanging_tid H
  end.

Lemma edge_fetch_arrays ctx num_sides la la' :
  for_each (fun side la =>
              la ← fetch_candidate ctx (side * 2 + local) la;
              la ← fetch_candidate ctx (side * 2 + ghost) la;
              set_refine side true la)
    (zrange 0 num_sides) la = Some la' ->
  forall side type, (side, type) ∈ sidetypes 0 num_sides ->
    cell_array la' (side * 2 + type).
Proof.
  intros H side type [Hs Ht]%elem_of_sidetypes_iff.
  apply elem_of_zrange in Hs.
  pose (C := fun side la => cell_array la (side * 2 + local)
                            /\ cell_array la (side * 2 + ghost)).
  assert (C side la') as [H0 H1].
  { eapply (for_each_establish C _ _ _ _ H); [| | done].
    - intros i a b Hb. run_inv Hb.
      apply set_refine_same in Hb.
      split; (eapply same_qt_cell; [exact Hb |]).
      + eapply fetch_candidate_keeps_array; [done |].
        by apply fetch_candidate_array in Hx as [Hx _].
      + by apply fetch_candidate_array in Hx0 as [Hx0 _].
    - intros i j a b Hb [Ha0 Ha1]. run_inv Hb.
      apply set_refine_same in Hb.
      split; (eapply same_qt_cell; [exact Hb |]);
        eauto using fetch_candidate_keeps_array. }
  by destruct Ht as [-> | ->].
Qed.

Lemma edge_body_tid `{Bits} qs ctx cb_edge args la level_idx2 r :
  edge_body ctx cb_edge args la level_idx2 = Some r ->
  tid qs args -> tid qs la -> tid qs r.
Proof.
  unfold edge_body. intros H1 Hargs Hla.
  apply bind_Some in H1 as (la1 & Hfetch & H1).
  apply bind_Some in H1 as (c & Hc & H1).
  assert (tid qs la1) as Hla1 by (tid_fwd qs; assumption).
  assert (tid qs c) as Hidx.
  { eapply edge_candidates_tid; [exact Hc | | done | by destruct Hargs].
    by eapply edge_fetch_arrays. }
  clear Hfetch Hc.
  run_inv H1; tid_solve qs.
Qed.

Lemma edge_change_tid `{Bits} qs ctx start_level st r :
  edge_change ctx start_level st = Some r ->
  tid qs st -> tid qs r.
Proof.
  unfold edge_change. intros H1 Hok.
  destruct st as [[[args la] level_idx2] tr].
  run_inv H1; tid_solve qs.
Qed.

Ltac tid_edge_steps H ::=
  lazymatch type of H with
  | set_edge_side _ _ _ = Some _ => by_tid set_edge_side_tid H
  | e_corner_args _ = Some _ => by_tid edge_args_corner_tid H
  | edge_empty_sides _ _ = Some _ => by_tid edge_empty_sides_tid H
  | edge_hanging _ _ _ _ _ = Some _ => by_tid @edge_hanging_tid H
  | edge_body _ _ _ _ _ = Some _ => by_tid @edge_body_tid H
  | edge_change _ _ _ = Some _ => by_tid @edge_change_tid H
  end.

Lemma edge_iterate_tid `{Bits} qs fuel ctx cbs args la r :
  p8est_edge_iterate fuel ctx cbs args la = Some r ->
  tid qs args -> tid qs la -> tid qs r.
Proof.
  unfold p8est_edge_iterate. intros H1 Hargs Hla.
  run_inv H1; tid_solve qs.
Qed.

Ltac tid_edge_steps H ::=
  lazymatch type of H with
  | set_edge_side _ _ _ = Some _ => by_tid set_edge_side_tid H
  | e_corner_args _ = Some _ => by_tid edge_args_corner_tid H
  | edge_empty_sides _ _ = Some _ => by_tid edge_empty_sides_tid H
  | edge_hanging _ _ _ _ _ = Some _ => by_tid @edge_hanging_tid H
  | edge_body _ _ _ _ _ = Some _ => by_tid @edge_body_tid H
  | edge_change _ _ _ = Some _ => by_tid @edge_change_tid H
  | p8est_edge_iterate _ _ _ _ _ = Some _ => by_tid @edge_iterate_tid H
  end.

(** *** The face iterator and the tree ids *)

Lemma face_event_tid qs o sides :
  tid qs sides ->
  tid qs (EvFace {| fi_orientation := o; fi_sides := sides |}).
Proof.
  intros Hall. apply Forall_lookup. intros i s Hs.
  by apply Hall in Hs as [_ Hd].
Qed.

Lemma face_args_tid_intro qs s n o ea ca i :
  tid qs (fi_sides i) -> tid qs ea -> tid qs ca ->
  tid qs {| f_start_idx2 := s; f_num_to_child := n; f_outside_face := o;
            f_edge_args := ea; f_corner_args := ca; f_info := i |}.
Proof. by split. Qed.

Lemma with_face_sides_tid qs args sides :
  tid qs args -> tid qs sides -> tid qs (with_face_sides args sides).
Proof. intros (_ & He & Hc) Hs. by split. Qed.

Lemma with_face_edge_args_tid qs args ea :
  tid qs args -> tid qs ea -> tid qs (with_face_edge_args args ea).
Proof. intros (Hs & _ & Hc) He. by split. Qed.

Lemma with_face_corner_args_tid qs args ca :
  tid qs args -> tid qs ca -> tid qs (with_face_corner_args args ca).
Proof. intros (Hs & He & _) Hc. by split. Qed.

Lemma face_args_sides_tid qs (args : p4est_iter_face_args_t) :
  tid qs args -> tid qs (fi_sides (f_info args)).
Proof. by intros (? & ? & ?). Qed.

Lemma face_args_edges_tid qs (args : p4est_iter_face_args_t) :
  tid qs args -> tid qs (f_edge_args args).
Proof. by intros (? & ? & ?). Qed.

Lemma face_args_corner_tid qs (args : p4est_iter_face_args_t) ca :
  f_corner_args args = Some ca -> tid qs args -> tid qs ca.
Proof. intros Hc (_ & _ & Hca). by rewrite Hc in Hca. Qed.

Lemma set_face_side_tid qs sides side d sides' :
  set_face_side sides side d = Some sides' ->
  tid qs sides -> data_at qs side d -> tid qs sides'.
Proof.
  unfold set_face_side. intros H Hs Hd. run_inv H.
  eapply sides_at_insert; [done | done |].
  eapply sides_at_lookup in Hx; [| done]. destruct Hx as [Hq _].
  split; [done |]. simpl. by apply Hd.
Qed.

#[global] Hint Resolve face_event_tid face_args_tid_intro with_face_sides_tid
  with_face_edge_args_tid with_face_corner_args_tid face_args_sides_tid
  face_args_edges_tid : tiddb.

Ltac tid_face_steps H ::=
  lazymatch type of H with
  | set_face_side _ _ _ = Some _ => by_tid set_face_side_tid H
  | f_corner_args _ = Some _ => by_tid face_args_corner_tid H
  end.

Lemma face_opposite_tid qs orientation side type la sides hl evs r :
  face_opposite orientation side type (la, sides, hl, evs) = Some r ->
  (forall s t, (s, t) ∈ sidetypes left (right + 1) ->
     cell_array la (s * 2 + t)) ->
  side = 0 \/ side = 1 -> type = 0 \/ type = 1 ->
  tid qs la -> tid qs sides -> tid qs evs ->
  match r with
  | Next s => same_qt la s.1.1.1 /\ tid qs s.1.1.2 /\ tid qs s.2
  | Leave s => same_qt la s.1.1.1 /\ tid qs s.1.1.2 /\ tid qs s.2
  end.
Proof.
  unfold face_opposite. intros H HJ Hside Htype Hla Hsides Hevs.
  pose (P := fun s : face_cand_state =>
               same_qt la s.1.1.1 /\ tid qs s.1.1.2 /\ tid qs s.2).
  apply bind_Some in H as (x & Hx & H).
  assert (match x with
          | Next s => P s
          | Leave s => P s
          end) as Hx'.
  { eapply (for_break_inv P P _ _ _ _ Hx).
    - by split; [apply same_qt_refl |].
    - clear Hx H. intros n_type [[[la1 sides1] hl1] evs1] b Hin Hb
        (Hqt & Hs & He). simpl in Hqt, Hs, He.
      assert (tid qs la1) as Hla1 by (by eapply same_tid).
      assert ((Z.lxor side 1, n_type) ∈ sidetypes left (right + 1)) as Hm.
      { apply elem_of_sidetypes_iff. apply elem_of_zrange in Hin.
        unfold left, right, ghost in *.
        split; [by destruct Hside as [-> | ->] | lia]. }
      run_inv Hb; simplify_eq; unfold P; simpl.
      all: split; [qt_solve | split; at_fwd qs; tid_goal]. }
  destruct x as [[[[la1 sides1] hl1] evs1] | st1]; [| by simplify_eq].
  destruct Hx' as (Hqt & Hs & He). simpl in Hqt, Hs, He.
  assert (tid qs la1) as Hla1 by (by eapply same_tid).
  run_inv H; simplify_eq; simpl.
  all: split; [qt_solve | split; at_fwd qs; tid_goal].
Qed.

Lemma face_candidates_tid qs cb_face outside_face orientation limit la
  sides hl evs r :
  face_candidates cb_face outside_face orientation limit
    (la, sides, hl, evs) = Some r ->
  limit = (if outside_face then left else right) ->
  (forall s t, (s, t) ∈ sidetypes left (limit + 1) ->
     cell_array la (s * 2 + t)) ->
  tid qs la -> tid qs sides -> tid qs evs -> tid qs r.
Proof.
  unfold face_candidates. intros H Hlimit HJ Hla Hsides Hevs.
  pose (P := fun s : face_cand_state =>
               same_qt la s.1.1.1 /\ tid qs s.1.1.2 /\ tid qs s.2).
  assert (match r with
          | Next s => P s
          | Leave s => P s
          end) as Hr.
  { eapply (for_break_inv P P _ _ _ _ H).
    - by split; [apply same_qt_refl |].
    - clear H. intros [side type] [[[la1 sides1] hl1] evs1] b Hin Hb
        (Hqt & Hs & He). simpl in Hqt, Hs, He.
      assert (tid qs la1) as Hla1 by (by eapply same_tid).
      assert (side = 0 \/ side = 1) as Hside.
      { apply elem_of_sidetypes_iff in Hin as [Hin _].
        destruct outside_face; unfold left, right in *; lia. }
      assert (type = 0 \/ type = 1) as Htype
        by (by apply elem_of_sidetypes_iff in Hin as [_ Hin]).
      run_inv Hb; simplify_eq; unfold P; simpl.
      + (* the other side is looked at *)
        match goal with
        | Ho : face_opposite _ _ _ (?la2, _, _, _) = Some _ |- _ =>
            assert (same_qt la la2) as Hqt2 by qt_solve;
            at_fwd qs;
            eapply (face_opposite_tid qs) in Ho;
              [| | done | done | done | done | done]
        end.
        * destruct b as [s | s]; destruct Hb as (Hqt3 & Hs3 & He3);
            (split; [by eapply same_qt_trans | by split]).
        * intros s t Hst. destruct outside_face; [done |].
          eapply same_qt_cell; [exact Hqt2 |]. by apply HJ.
      + split; [qt_solve | split; at_fwd qs; tid_goal].
      + split; [qt_solve | split; at_fwd qs; tid_goal].
      + split; [qt_solve | split; at_fwd qs; tid_goal]. }
  destruct r as [[[[la1 sides1] hl1] evs1] | [[[la1 sides1] hl1] evs1]];
    destruct Hr as (Hqt & Hs & He); simpl in Hqt, Hs, He;
    (split; [split; [split; [by eapply same_tid | done] | done] | done]).
Qed.

Lemma face_hanging_tid `{Bits} qs ctx num_to_child orientation level_idx2
  limit st r :
  face_hanging ctx num_to_child orientation level_idx2 limit st = Some r ->
  tid qs st -> tid qs r.
Proof.
  unfold face_hanging. intros H1 Hok.
  eapply (for_break_tid qs _ _ _ _ H1 Hok). clear H1 Hok.
  intros side [[[la sides] hl] evs] b _ Hb Hst.
  run_inv Hb; simplify_eq; [| done]. tid_pairs qs. at_fwd qs.
  match goal with
  | Hin : for_each _ _ _ = Some ?x |- _ =>
      assert (tid qs x);
        [eapply (for_each_tid qs _ _ _ _ Hin); [tid_goal |]; clear Hin |]
  end.
  - intros i [[la2 sides2] hl2] [[la3 sides3] hl3] _ Hb Hst2.
    run_inv Hb; simplify_eq. tid_pairs qs. at_fwd qs. tid_goal.
  - tid_pairs qs. at_fwd qs. tid_goal.
Qed.

Ltac tid_face_steps H ::=
  lazymatch type of H with
  | set_face_side _ _ _ = Some _ => by_tid set_face_side_tid H
  | f_corner_args _ = Some _ => by_tid face_args_corner_tid H
  | face_hanging _ _ _ _ _ _ = Some _ => by_tid @face_hanging_tid H
  end.

Lemma face_fetch_arrays ctx lo hi la la' :
  for_each (fun '(side, type) la =>
              fetch_candidate ctx (side * 2 + type) la)
    (sidetypes lo hi) la = Some la' ->
  forall side type, (side, type) ∈ sidetypes lo hi ->
    cell_array la' (side * 2 + type).
Proof.
  intros H side type Hin.
  pose (C := fun (i : Z * Z) la => cell_array la (i.1 * 2 + i.2)).
  apply (for_each_establish C _ _ _ _ H) with (j := (side, type));
    [| | done].
  - intros [s t] a b Hb. by apply fetch_candidate_array in Hb as [Hb _].
  - intros [s t] [s' t'] a b Hb. by eapply fetch_candidate_keeps_array.
Qed.

Lemma face_body_tid `{Bits} qs ctx cb_face st r :
  face_body ctx cb_face st = Some r ->
  tid qs st -> tid qs r.
Proof.
  unfold face_body. intros H1 Hok.
  destruct st as [[[args la] level_idx2] tr].
  destruct Hok as [[[Hargs Hla] _] Htr]. simpl in Hargs, Hla, Htr.
  apply bind_Some in H1 as (la1 & Hfetch & H1).
  apply bind_Some in H1 as (la2 & Hr1 & H1).
  apply bind_Some in H1 as (la3 & Hr2 & H1).
  apply bind_Some in H1 as (c & Hc & H1).
  assert (tid qs la1) as Hla1.
  { eapply (for_each_tid qs _ _ _ _ Hfetch Hla).
    intros [s t] a b _ Hb Ha. by eapply fetch_candidate_tid. }
  assert (tid qs la3) as Hla3 by (tid_fwd qs; assumption).
  assert (tid qs c) as Hidx.
  { eapply face_candidates_tid;
      [exact Hc | done | | done | by destruct Hargs | done].
    intros s t Hst. eapply same_qt_cell; [| by eapply face_fetch_arrays].
    eapply same_qt_trans; [by eapply set_refine_same |].
    by eapply set_refine_same. }
  clear Hfetch Hc.
  run_inv H1; tid_solve qs.
Qed.

Lemma face_run_edges_tid `{Bits} qs fuel ctx cbs limit st r :
  face_run_edges fuel ctx cbs limit st = Some r ->
  tid qs st -> tid qs r.
Proof.
  unfold face_run_edges. intros H1 Hok.
  eapply (for_each_tid qs _ _ _ _ H1 Hok). clear H1 Hok. tid_body qs.
Qed.

Ltac tid_face_steps H ::=
  lazymatch type of H with
  | set_face_side _ _ _ = Some _ => by_tid set_face_side_tid H
  | f_corner_args _ = Some _ => by_tid face_args_corner_tid H
  | face_hanging _ _ _ _ _ _ = Some _ => by_tid @face_hanging_tid H
  | face_body _ _ _ = Some _ => by_tid @face_body_tid H
  | face_run_edges _ _ _ _ _ = Some _ => by_tid @face_run_edges_tid H
  end.

Lemma face_change_tid `{Bits} qs fuel ctx cbs start_level st r :
  face_change fuel ctx cbs start_level st = Some r ->
  tid qs st -> tid qs r.
Proof.
  unfold face_change. intros H1 Hok.
  destruct st as [[[args la] level_idx2] tr].
  run_inv H1; tid_solve qs.
Qed.

Lemma face_prologue_tid `{Build} qs args la r :
  face_prologue args la = Some r -> tid qs la -> tid qs r.
Proof.
  unfold face_prologue. intros H1 Hla. run_inv H1; tid_solve qs.
Qed.

Ltac tid_face_steps H ::=
  lazymatch type of H with
  | set_face_side _ _ _ = Some _ => by_tid set_face_side_tid H
  | f_corner_args _ = Some _ => by_tid face_args_corner_tid H
  | face_hanging _ _ _ _ _ _ = Some _ => by_tid @face_hanging_tid H
  | face_body _ _ _ = Some _ => by_tid @face_body_tid H
  | face_run_edges _ _ _ _ _ = Some _ => by_tid @face_run_edges_tid H
  | face_change _ _ _ _ _ = Some _ => by_tid @face_change_tid H
  | face_prologue _ _ = Some _ => by_tid @face_prologue_tid H
  end.

Lemma face_iterate_tid `{Bits} qs fuel ctx cbs args la r :
  p4est_face_iterate fuel ctx cbs args la = Some r ->
  tid qs args -> tid qs la -> tid qs r.
Proof.
  unfold p4est_face_iterate. intros H1 Hargs Hla.
  run_inv H1; tid_solve qs.
Qed.

Ltac tid_face_steps H ::=
  lazymatch type of H with
  | set_face_side _ _ _ = Some _ => by_tid set_face_side_tid H
  | f_corner_args _ = Some _ => by_tid face_args_corner_tid H
  | face_hanging _ _ _ _ _ _ = Some _ => by_tid @face_hanging_tid H
  | face_body _ _ _ = Some _ => by_tid @face_body_tid H
  | face_run_edges _ _ _ _ _ = Some _ => by_tid @face_run_edges_tid H
  | face_change _ _ _ _ _ = Some _ => by_tid @face_change_tid H
  | face_prologue _ _ = Some _ => by_tid @face_prologue_tid H
  | p4est_face_iterate _ _ _ _ _ = Some _ => by_tid @face_iterate_tid H
  end.

(** *** The volume iterator and the tree ids *)

Lemma volume_args_tid_intro qs s fa ea ca i :
  tid qs fa -> tid qs ea -> tid qs ca -> tid qs i ->
  tid qs {| v_start_idx2 := s; v_face_args := fa; v_edge_args := ea;
            v_corner_args := ca; v_info := i |}.
Proof. by split. Qed.

Lemma with_volume_info_tid qs args info :
  tid qs args -> tid qs info -> tid qs (with_volume_info args info).
Proof. intros (Hf & He & Hc & _) Hi. by split. Qed.

Lemma with_volume_face_args_tid qs args fa :
  tid qs args -> tid qs fa -> tid qs (with_volume_face_args args fa).
Proof. intros (_ & He & Hc) Hf. by split. Qed.

Lemma with_volume_edge_args_tid qs args ea :
  tid qs args -> tid qs ea -> tid qs (with_volume_edge_args args ea).
Proof. intros (Hf & _ & Hc) He. by split. Qed.

Lemma with_volume_corner_args_tid qs args ca :
  tid qs args -> tid qs ca -> tid qs (with_volume_corner_args args ca).
Proof. intros (Hf & He & _ & Hi) Hc. by split. Qed.

Lemma volume_args_faces_tid qs (args : p4est_iter_volume_args_t) :
  tid qs args -> tid qs (v_face_args args).
Proof. by intros (? & ? & ?). Qed.

Lemma volume_args_edges_tid qs (args : p4est_iter_volume_args_t) :
  tid qs args -> tid qs (v_edge_args args).
Proof. by intros (? & ? & ?). Qed.

Lemma volume_args_info_tid qs (args : p4est_iter_volume_args_t) :
  tid qs args -> tid qs (v_info args).
Proof. by intros (? & ? & ? & ?). Qed.

Lemma volume_args_corner_tid qs (args : p4est_iter_volume_args_t) ca :
  v_corner_args args = Some ca -> tid qs args -> tid qs ca.
Proof. intros Hc (_ & _ & Hca & _). by rewrite Hc in Hca. Qed.

Lemma volume_info_tid_intro qs (info : p4est_iter_volume_info_t)
  (p : option quad_ptr) (i : Z) :
  tid qs info ->
  tid qs {| vi_treeid := vi_treeid info; vi_quad := p; vi_quadid := i |}.
Proof. done. Qed.

(** The quadrant of a volume callback is the candidate of the local search
    area of the volume. *)
Lemma volume_event_tid qs (la : p4est_iter_loop_args_t)
  (info : p4est_iter_volume_info_t) (p : option quad_ptr) (i : Z) :
  aget (test la) 0 = Some p -> cell_array la 0 ->
  tid qs la -> tid qs info ->
  tid qs (EvVolume {| vi_treeid := vi_treeid info; vi_quad := p;
                      vi_quadid := i |}).
Proof.
  intros Ha Hc Hla Hi q Hq. simpl in *. subst p. apply Hc in Ha.
  unfold tid, tid_la, tid_volume_info in *. congruence.
Qed.

#[global] Hint Resolve volume_args_tid_intro with_volume_info_tid
  with_volume_face_args_tid with_volume_edge_args_tid
  with_volume_corner_args_tid volume_args_faces_tid volume_args_edges_tid
  volume_args_info_tid volume_info_tid_intro : tiddb.

#[global] Hint Extern 1 (tid _ (EvVolume _)) =>
  eapply volume_event_tid; [eassumption | array_solve | assumption
                           | assumption] : tiddb.

Lemma volume_candidates_tid qs ctx cb_volume st r :
  volume_candidates ctx cb_volume st = Some r ->
  tid qs st -> tid qs r.
Proof.
  unfold volume_candidates. intros H Hok.
  eapply (for_break_tid qs _ _ _ _ H Hok). clear H Hok. tid_body qs.
Qed.

Ltac tid_volume_steps H ::=
  lazymatch type of H with
  | v_corner_args _ = Some _ => by_tid volume_args_corner_tid H
  | volume_candidates _ _ _ = Some _ => by_tid volume_candidates_tid H
  end.

Lemma volume_body_tid `{Bits} qs ctx cb_volume st r :
  volume_body ctx cb_volume st = Some r ->
  tid qs st -> tid qs r.
Proof.
  unfold volume_body. intros H1 Hok.
  destruct st as [[[args la] level_idx2] tr].
  run_inv H1; tid_solve qs.
Qed.

Lemma volume_run_faces_tid `{Bits} qs fuel ctx cbs st r :
  volume_run_faces fuel ctx cbs st = Some r ->
  tid qs st -> tid qs r.
Proof.
  unfold volume_run_faces. intros H1 Hok.
  eapply (for_each_tid qs _ _ _ _ H1 Hok). clear H1 Hok. tid_body qs.
Qed.

Lemma volume_run_edges_tid `{Bits} qs fuel ctx cbs st r :
  volume_run_edges fuel ctx cbs st = Some r ->
  tid qs st -> tid qs r.
Proof.
  unfold volume_run_edges. intros H1 Hok.
  eapply (for_each_tid qs _ _ _ _ H1 Hok). clear H1 Hok. tid_body qs.
Qed.

Ltac tid_volume_steps H ::=
  lazymatch type of H with
  | v_corner_args _ = Some _ => by_tid volume_args_corner_tid H
  | volume_candidates _ _ _ = Some _ => by_tid volume_candidates_tid H
  | volume_body _ _ _ = Some _ => by_tid @volume_body_tid H
  | volume_run_faces _ _ _ _ = Some _ => by_tid @volume_run_faces_tid H
  | volume_run_edges _ _ _ _ = Some _ => by_tid @volume_run_edges_tid H
  end.

Lemma volume_change_tid `{Bits} qs fuel ctx cbs start_level st r :
  volume_change fuel ctx cbs start_level st = Some r ->
  tid qs st -> tid qs r.
Proof.
  unfold volume_change. intros H1 Hok.
  destruct st as [[[args la] level_idx2] tr].
  run_inv H1; tid_solve qs.
Qed.

Ltac tid_volume_steps H ::=
  lazymatch type of H with
  | v_corner_args _ = Some _ => by_tid volume_args_corner_tid H
  | volume_candidates _ _ _ = Some _ => by_tid volume_candidates_tid H
  | volume_body _ _ _ = Some _ => by_tid @volume_body_tid H
  | volume_run_faces _ _ _ _ = Some _ => by_tid @volume_run_faces_tid H
  | volume_run_edges _ _ _ _ = Some _ => by_tid @volume_run_edges_tid H
  | volume_change _ _ _ _ _ = Some _ => by_tid @volume_change_tid H
  end.

Lemma volume_iterate_tid `{Bits} qs fuel ctx cbs args la r :
  p4est_volume_iterate fuel ctx cbs args la = Some r ->
  tid qs args -> tid qs la -> tid qs r.
Proof.
  unfold p4est_volume_iterate. intros H1 Hargs Hla.
  run_inv H1; tid_solve qs.
Qed.

(** *** The arrays of the search areas after the initialisation *)

Lemma lookup_zrange (lo hi : Z) (i : nat) (x : Z) :
  zrange lo hi !! i = Some x -> x = lo + Z.of_nat i /\ lo + Z.of_nat i < hi.
Proof.
  unfold zrange. intros Hl.
  apply list_lookup_fmap_Some in Hl as (k & -> & Hk).
  apply lookup_seq in Hk as [-> Hlt]. lia.
Qed.

Lemma mapM_lookup {A B} (f : A -> option B) (l : list A) (k : list B)
  (i : nat) (y : B) :
  mapM f l = Some k -> k !! i = Some y ->
  exists x, l !! i = Some x /\ f x = Some y.
Proof.
  intros Hm%mapM_Some_1 Hy.
  destruct (Forall2_lookup_r _ _ _ _ _ Hm Hy) as (x & Hx & Hf). by exists x.
Qed.

Lemma bind_pair_fmap {A B} (j : A) (l : list B) :
  (k ← l; [(j, k)]) = (fun k => (j, k)) <$> l.
Proof.
  induction l as [| x l IH]; [done |]. rewrite bind_cons, IH. done.
Qed.

(** The position of a pair in the list that two nested loops walk. *)
Lemma product_lookup (lo a b : Z) (i : nat) (j k : Z) :
  0 <= b ->
  (j' ← zrange lo a; k' ← zrange 0 b; [(j', k')]) !! i = Some (j, k) ->
  lo <= j < a /\ 0 <= k < b /\ Z.of_nat i = (j - lo) * b + k.
Proof.
  intros Hb.
  remember (Z.to_nat (a - lo)) as n eqn:Hn.
  revert lo i Hn. induction n as [| n IH]; intros lo i Hn.
  - rewrite (zrange_nil lo a) by lia. simpl. by rewrite lookup_nil.
  - rewrite (zrange_cons lo a) by lia. rewrite bind_cons, bind_pair_fmap.
    intros Hl. apply lookup_app_Some in Hl as [Hl | [Hge Hl]].
    + apply list_lookup_fmap_Some in Hl as (x & [= -> ->] & Hx).
      apply lookup_zrange in Hx. rewrite Z.sub_diag. lia.
    + rewrite length_fmap, zrange_length in Hge, Hl.
      apply IH in Hl; [| lia].
      replace ((j - lo) * b) with ((j - (lo + 1)) * b + b) by ring. lia.
Qed.

(** A loop over a list, with an invariant that follows the position. *)
Lemma for_each_lookup_inv {S I} (P : nat -> S -> Prop)
  (body : I -> S -> option S) (l : list I) (s s' : S) :
  (forall k x a b, l !! k = Some x -> body x a = Some b ->
     P k a -> P (Datatypes.S k) b) ->
  for_each body l s = Some s' -> P 0%nat s -> P (length l) s'.
Proof.
  revert P s. induction l as [| x l IH]; intros P s Hstep Hrun HP;
    simpl in Hrun.
  - by simplify_eq.
  - apply bind_Some in Hrun as (a & Ha & Hrun). simpl.
    apply (IH (fun k => P (Datatypes.S k)) a); [| done |].
    + intros k y c d Hy. by apply (Hstep (Datatypes.S k)).
    + by apply (Hstep 0%nat x s a).
Qed.

(** The steps of the initialisation keep the flags of the loop
    arguments. *)
Lemma set_level_num_flags i v la la' :
  set_level_num i v la = Some la' ->
  loop_edge la' = loop_edge la /\ loop_corner la' = loop_corner la.
Proof. unfold set_level_num. intros H. run_inv H. by simplify_eq. Qed.

Lemma set_index_flags i k v la la' :
  set_index i k v la = Some la' ->
  loop_edge la' = loop_edge la /\ loop_corner la' = loop_corner la.
Proof. unfold set_index. intros H. run_inv H. by simplify_eq. Qed.

Lemma set_quadrants_flags i v la la' :
  set_quadrants i v la = Some la' ->
  loop_edge la' = loop_edge la /\ loop_corner la' = loop_corner la.
Proof. unfold set_quadrants. intros H. run_inv H. by simplify_eq. Qed.

Lemma init_root_bounds_flags ctx ghost_offsets side t la la' :
  init_root_bounds ctx ghost_offsets side t la = Some la' ->
  loop_edge la' = loop_edge la /\ loop_corner la' = loop_corner la.
Proof.
  unfold init_root_bounds. intros H. run_inv H.
  repeat match goal with
         | Hs : set_index _ _ _ _ = Some _ |- _ =>
             apply set_index_flags in Hs as [? ?]
         end.
  split; congruence.
Qed.

Lemma fill_quadrants_flags pick lo hi la la' :
  fill_quadrants pick lo hi la = Some la' ->
  loop_edge la' = loop_edge la /\ loop_corner la' = loop_corner la.
Proof.
  unfold fill_quadrants. intros H.
  eapply (for_each_inv
            (fun a => loop_edge a = loop_edge la
                      /\ loop_corner a = loop_corner la));
    [| exact H | done].
  intros i a b _ Hb [He Hc]. apply set_quadrants_flags in Hb as [? ?].
  split; congruence.
Qed.

(** The cells of [quadrants] after a store and after a run of stores. *)
Lemma set_quadrants_cell i v la la' j :
  set_quadrants i v la = Some la' ->
  aget (quadrants la') j
  = if decide (i = j) then Some v else aget (quadrants la) j.
Proof.
  unfold set_quadrants. intros H. run_inv H. simplify_eq. simpl.
  by rewrite (aget_aset _ _ _ _ _ Hx).
Qed.

Lemma fill_quadrants_cell pick lo hi la la' j :
  fill_quadrants pick lo hi la = Some la' ->
  aget (quadrants la') j
  = if decide (lo <= j < hi)
    then Some (if decide (j `rem` 2 <> 0) then GhostQuads else pick j)
    else aget (quadrants la) j.
Proof.
  unfold fill_quadrants. intros H.
  destruct (decide (lo <= hi)) as [Hle | Hgt].
  - pose (P := fun (k : Z) (a : p4est_iter_loop_args_t) =>
                 forall j,
                   aget (quadrants a) j
                   = if decide (lo <= j < k)
                     then Some (if decide (j `rem` 2 <> 0) then GhostQuads
                                else pick j)
                     else aget (quadrants la) j).
    assert (P hi la') as HP; [| apply HP].
    eapply (for_each_zrange_inv P); [exact Hle | | exact H |].
    + intros k a b Hk Hb Ha i. unfold P in Ha.
      rewrite (set_quadrants_cell _ _ _ _ i Hb), Ha.
      repeat case_decide; try lia; by simplify_eq.
    + intros i. by rewrite decide_False by lia.
  - rewrite zrange_nil in H by lia. simpl in H. simplify_eq.
    by rewrite decide_False by lia.
Qed.

(** An even cell of [quadrants] is a local search area. *)
Lemma even_cell (side : Z) (g l : quad_array) :
  (if decide ((side * 2 + 0) `rem` 2 <> 0) then g else l) = l.
Proof. rewrite even_rem. by rewrite decide_False by lia. Qed.

Lemma init_root_bounds_loop_same ctx ghost_offsets t sides la la' :
  for_each (fun i la => init_root_bounds ctx ghost_offsets i t la) sides la
  = Some la' ->
  same_qt la la'
  /\ loop_edge la' = loop_edge la /\ loop_corner la' = loop_corner la.
Proof.
  intros H.
  eapply (for_each_inv
            (fun a => same_qt la a
                      /\ loop_edge a = loop_edge la
                      /\ loop_corner a = loop_corner la));
    [| exact H |].
  - intros i a b _ Hb (Hs & He & Hc).
    pose proof (init_root_bounds_same _ _ _ _ _ _ Hb) as Hs'.
    apply init_root_bounds_flags in Hb as [? ?].
    split; [by eapply same_qt_trans |]. split; congruence.
  - split; [apply same_qt_refl | done].
Qed.

(** What each step of an initialisation does to the flags and to the cells
    of [quadrants]. *)
Ltac init_fwd :=
  repeat match goal with
    | H : set_level_num _ _ _ = Some _ |- _ =>
        pose proof (set_level_num_flags _ _ _ _ H) as [? ?];
        pose proof (proj1 (set_level_num_same _ _ _ _ H));
        clear H
    | H : init_root_bounds _ _ _ _ _ = Some _ |- _ =>
        pose proof (init_root_bounds_flags _ _ _ _ _ _ H) as [? ?];
        pose proof (proj1 (init_root_bounds_same _ _ _ _ _ _ H));
        clear H
    | H : for_each (fun i la => init_root_bounds _ _ i _ la) _ _ = Some _
      |- _ =>
        apply init_root_bounds_loop_same in H as ([? _] & ? & ?)
    | H : fill_quadrants _ _ _ _ = Some _ |- _ =>
        pose proof (fill_quadrants_flags _ _ _ _ _ H) as [? ?];
        pose proof (fun j => fill_quadrants_cell _ _ _ _ _ j H);
        clear H
    | H : set_quadrants _ _ _ = Some _ |- _ =>
        pose proof (set_quadrants_flags _ _ _ _ H) as [? ?];
        pose proof (fun j => set_quadrants_cell _ _ _ _ j H);
        clear H
    end.

(** Read a cell of [quadrants] back through the steps. *)
Ltac cells_rw :=
  repeat match goal with
    | Hc : forall j, aget (quadrants ?b) j = _
      |- context [aget (quadrants ?b) _] => rewrite Hc
    | Hq : quadrants ?b = _ |- context [quadrants ?b] => rewrite Hq
    end.

Lemma init_loop_volume_cells `{Build} ctx ghost_offsets t la la' side :
  p4est_iter_init_loop_volume ctx ghost_offsets t la = Some la' ->
  0 <= side ->
  side < 2 \/ (P4_TO_P8 && loop_edge la = true /\ side < 4)
  \/ (loop_corner la = true /\ side < P4EST_CHILDREN) ->
  aget (quadrants la') (side * 2 + 0) = Some (TreeQuads t).
Proof.
  unfold p4est_iter_init_loop_volume. intros H1 Hside Hcase.
  run_inv H1; simplify_eq; init_fwd; cells_rw; rewrite ?even_cell.
  all: unfold set_level, P4EST_CHILDREN in *; simpl in *.
  all: repeat case_decide; try done.
  all: exfalso; destruct P4_TO_P8; simpl in *;
    destruct Hcase as [? | [[? ?] | [? ?]]]; try lia; congruence.
Qed.

Lemma quot_even (side : Z) : (side * 2 + 0) `quot` 2 = side.
Proof. rewrite Z.add_0_r. apply Z.quot_mul. lia. Qed.

Lemma init_loop_face_cells `{Build} ctx ghost_offsets t nt la la' side :
  p4est_iter_init_loop_face ctx ghost_offsets t nt la = Some la' ->
  0 <= side ->
  side < 2 \/ (P4_TO_P8 && loop_edge la = true /\ side < 4)
  \/ (loop_corner la = true /\ side < P4EST_CHILDREN) ->
  aget (quadrants la') (side * 2 + 0)
  = Some (TreeQuads (if decide (side `rem` 2 <> 0) then nt else t)).
Proof.
  unfold p4est_iter_init_loop_face. intros H1 Hside Hcase.
  run_inv H1; simplify_eq; init_fwd; cells_rw;
    rewrite ?even_cell, ?quot_even.
  all: unfold set_level, P4EST_CHILDREN, left, right, local, ghost in *;
    simpl in *.
  all: repeat case_decide; try done.
  all: try (assert (side = 0) as -> by lia; done).
  all: try (assert (side = 1) as -> by lia; done).
  all: try lia.
  all: try (exfalso; destruct P4_TO_P8; simpl in *;
    destruct Hcase as [? | [[? ?] | [? ?]]]; try lia; congruence).
Qed.

Lemma init_loop_outside_face_cells `{Build} ctx ghost_offsets t la la'
  side :
  p4est_iter_init_loop_outside_face ctx ghost_offsets t la = Some la' ->
  0 <= side ->
  side < 1 \/ (P4_TO_P8 && loop_edge la = true /\ side < 2)
  \/ (loop_corner la = true /\ side * 2 < P4EST_CHILDREN) ->
  aget (quadrants la') (side * 2 + 0) = Some (TreeQuads t).
Proof.
  unfold p4est_iter_init_loop_outside_face. intros H1 Hside Hcase.
  run_inv H1; simplify_eq; init_fwd; cells_rw; rewrite ?even_cell.
  all: unfold set_level, P4EST_CHILDREN, left, right, local, ghost in *;
    simpl in *.
  all: repeat case_decide; try done.
  all: try lia.
  all: try (exfalso; destruct P4_TO_P8; simpl in *;
    destruct Hcase as [? | [[? ?] | [? ?]]]; try lia; congruence).
Qed.

Lemma init_loop_sides_cells ctx ghost_offsets treeids with_corner la la'
  (zz : nat) (t : Z) :
  init_loop_sides ctx ghost_offsets treeids with_corner la = Some la' ->
  treeids !! zz = Some t ->
  aget (quadrants la') (Z.of_nat zz * 2 + 0) = Some (TreeQuads t)
  /\ (with_corner = true ->
      aget (quadrants la')
        ((Z.of_nat (length treeids) + Z.of_nat zz) * 2 + 0)
      = Some (TreeQuads t)).
Proof.
  unfold init_loop_sides. intros H1 Ht. run_inv H1.
  set (n := Z.of_nat (length treeids)) in *.
  pose (P := fun (k : nat) (a : p4est_iter_loop_args_t) =>
               forall (zz : nat) (t : Z),
                 treeids !! zz = Some t -> (zz < k)%nat ->
                 aget (quadrants a) (Z.of_nat zz * 2 + 0)
                 = Some (TreeQuads t)
                 /\ (with_corner = true ->
                     aget (quadrants a) ((n + Z.of_nat zz) * 2 + 0)
                     = Some (TreeQuads t))).
  assert (P (length (zip (zrange 0 n) treeids)) la') as HP.
  { eapply (for_each_lookup_inv P); [| exact H1 |].
    - clear H1 Hx. intros k [z0 t0] a b Hk Hb Ha z1 t1 Hz1 Hlt.
      apply lookup_zip_Some in Hk as [Hz0 Ht0].
      apply lookup_zrange in Hz0 as [-> Hz0].
      run_inv Hb; simplify_eq; init_fwd.
      all: destruct (decide (z1 = k)) as [-> | Hne].
      all: try (assert (z1 < k)%nat as Hold by lia;
                destruct (Ha z1 t1 Hz1 Hold) as [Ha1 Ha2]).
      all: split; [| intros Hw; try done].
      all: cells_rw; unfold local, ghost in *.
      all: repeat case_decide; try lia; try done; try congruence.
      all: try (by apply Ha2).
    - intros z1 t1 _ Hlt. lia. }
  apply HP; [done |].
  rewrite length_zip, zrange_length. apply lookup_lt_Some in Ht. lia.
Qed.

(** *** The sides that the initialisation lays out *)

(** Sides that hold no quadrant yet, each at a position whose local search
    area is the array of its tree. *)
Lemma sides_at_intro {S} (treeid : S -> Z) (data : S -> side_data)
  (qs : carray quad_array) (l : list S) :
  (forall i s, l !! i = Some s ->
     aget qs (Z.of_nat i * 2 + 0) = Some (TreeQuads (treeid s))
     /\ data s = SideUnset) ->
  sides_at treeid data qs l.
Proof.
  intros Hall i s Hs. apply Hall in Hs as [Hq Hd]. split; [done |].
  by rewrite Hd.
Qed.

Lemma rem_of_position (j k b : Z) :
  0 <= j -> 0 <= k < b -> (j * b + k) `rem` b = k.
Proof.
  intros Hj Hk. rewrite Z.rem_mod_nonneg by nia.
  rewrite Z.add_comm, Z_mod_plus_full. apply Z.mod_small. lia.
Qed.

Lemma corner_from_edge_tid qs n cc sides ca :
  p8est_iter_init_corner_from_edge n cc sides = Some ca ->
  (forall j s, 0 <= j < 2 * n -> zlookup sides (j `rem` n) = Some s ->
     aget qs (j * 2 + 0) = Some (TreeQuads (es_treeid s))) ->
  tid qs ca.
Proof.
  unfold p8est_iter_init_corner_from_edge. intros H Hcells.
  apply bind_Some in H as (rows & Hrows & H). simplify_eq.
  apply sides_at_intro. simpl. intros i s Hs.
  apply list_lookup_fmap_Some in Hs as (row & -> & Hrow).
  destruct (mapM_lookup _ _ _ _ _ Hrows Hrow) as (x & Hx & Hf).
  apply lookup_zrange in Hx as [-> Hx]. cbv beta in Hf.
  run_inv Hf; simplify_eq; simpl.
  all: split; [| done]; apply Hcells; [lia |].
  all: by rewrite Z.add_0_l in *.
Qed.

Lemma corner_from_face_tid `{Build} qs num_to_child outside_face fsides
  ca :
  p4est_iter_init_corner_from_face num_to_child outside_face fsides
  = Some ca ->
  (forall i s,
     0 <= i < (if outside_face then 1 else 2) * ntc_str ->
     zlookup fsides (i `rem` (if outside_face then 1 else 2)) = Some s ->
     aget qs (i * 2 + 0) = Some (TreeQuads (fs_treeid s))) ->
  tid qs ca.
Proof.
  unfold p4est_iter_init_corner_from_face. intros H1 Hcells.
  set (limit := if outside_face then 1 else 2) in *.
  assert (0 < limit) as Hlimit by (unfold limit; by destruct outside_face).
  apply bind_Some in H1 as (rows & Hrows & H1). simplify_eq.
  apply sides_at_intro. simpl. intros i s Hs.
  apply list_lookup_fmap_Some in Hs as (row & -> & Hrow).
  destruct (mapM_lookup _ _ _ _ _ Hrows Hrow) as ([j k] & Hx & Hf).
  apply product_lookup in Hx as (Hj & Hk & Hi); [| lia].
  rewrite Z.sub_0_r in Hi. cbv beta in Hf.
  run_inv Hf; simplify_eq; simpl.
  split; [| done]. apply Hcells; [nia |].
  rewrite Hi, rem_of_position by lia. done.
Qed.

Lemma edge_from_face_tid `{Bits} qs cb_corner num_to_child outside_face
  fsides dir side ea :
  p8est_iter_init_edge_from_face cb_corner num_to_child outside_face
    fsides dir side = Some ea ->
  P4_TO_P8 = true ->
  (forall i s,
     0 <= i < (if outside_face then 1 else 2) * 2 ->
     zlookup fsides (i `rem` (if outside_face then 1 else 2)) = Some s ->
     aget qs (i * 2 + 0) = Some (TreeQuads (fs_treeid s))) ->
  (cb_corner = true ->
   forall i s,
     0 <= i < (if outside_face then 1 else 2) * 4 ->
     zlookup fsides (i `rem` (if outside_face then 1 else 2)) = Some s ->
     aget qs (i * 2 + 0) = Some (TreeQuads (fs_treeid s))) ->
  tid qs ea.
Proof.
  unfold p8est_iter_init_edge_from_face. intros H1 H3d Hedge Hcorner.
  set (limit := if outside_face then 1 else 2) in *.
  assert (limit = 1 \/ limit = 2) as Hlimit
    by (unfold limit; destruct outside_face; lia).
  assert (ntc_str = 4) as Hntc
    by (unfold ntc_str, P4EST_CHILDREN; by rewrite H3d).
  apply bind_Some in H1 as (rows & Hrows & H1).
  apply bind_Some in H1 as (ca & Hca & H1). simplify_eq.
  assert (forall (m : nat) s,
            (map (fun r : p8est_iter_edge_side_t * Z * Z * Z => r.1.1.1)
               rows) !! m = Some s ->
            es_is s = SideUnset
            /\ Z.of_nat m < limit * 2
            /\ exists fside,
                 zlookup fsides (Z.of_nat m `rem` limit) = Some fside
                 /\ es_treeid s = fs_treeid fside) as Hsides.
  { intros m s Hs.
    apply list_lookup_fmap_Some in Hs as (row & -> & Hrow).
    destruct (mapM_lookup _ _ _ _ _ Hrows Hrow) as ([j k] & Hx & Hf).
    apply product_lookup in Hx as (Hj & Hk & Hi); [| lia].
    rewrite Z.sub_0_r in Hi. cbv beta in Hf.
    run_inv Hf; simplify_eq; simpl.
    all: split; [done |]; split; [nia |].
    all: eexists; split; [| done].
    all: by rewrite Hi, rem_of_position by lia. }
  split; simpl.
  - apply sides_at_intro. intros i s Hs.
    apply Hsides in Hs as (Hd & Hi & fside & Hf & ->).
    split; [| done]. apply Hedge; [lia | done].
  - destruct cb_corner; [| by simplify_eq]. simpl in Hca.
    apply bind_Some in Hca as (ca' & Hca' & Hca). simplify_eq. simpl.
    eapply corner_from_edge_tid; [exact Hca' |].
    rewrite Hntc.
    replace ((limit * 4) `quot` 2) with (limit * 2)
      by (destruct Hlimit as [-> | ->]; reflexivity).
    intros j s Hj Hs. apply zlookup_Some in Hs as [Hnn Hs].
    apply Hsides in Hs as (Hd & Hi & fside & Hf & ->).
    apply Hcorner; [done | lia |].
    rewrite Z2Nat.id in Hf by done.
    replace (j `rem` limit) with ((j `rem` (limit * 2)) `rem` limit);
      [done |].
    destruct Hlimit as [-> | ->]; Z.to_euclidean_division_equations; lia.
Qed.

Lemma init_face_children_tid `{Bits} qs la num_to_child outside_face
  fsides eas ca :
  init_face_children la num_to_child outside_face fsides
  = Some (eas, ca) ->
  (P4_TO_P8 && loop_edge la = true ->
   forall i s,
     0 <= i < (if outside_face then 1 else 2) * 2 ->
     zlookup fsides (i `rem` (if outside_face then 1 else 2)) = Some s ->
     aget qs (i * 2 + 0) = Some (TreeQuads (fs_treeid s))) ->
  (loop_corner la = true ->
   forall i s,
     0 <= i < (if outside_face then 1 else 2) * ntc_str ->
     zlookup fsides (i `rem` (if outside_face then 1 else 2)) = Some s ->
     aget qs (i * 2 + 0) = Some (TreeQuads (fs_treeid s))) ->
  tid qs eas /\ tid qs ca.
Proof.
  unfold init_face_children. intros H1 Hedge Hcorner.
  apply bind_Some in H1 as (eas' & Heas & H1).
  apply bind_Some in H1 as (ca' & Hca & H1). simplify_eq. split.
  - destruct (P4_TO_P8 && loop_edge la) eqn:Hdo;
      [| simplify_eq; apply tid_nil].
    apply andb_true_iff in Hdo as [H3d Hle].
    assert (ntc_str = 4) as Hntc
      by (unfold ntc_str, P4EST_CHILDREN; by rewrite H3d).
    apply Forall_lookup. intros i ea Hea.
    destruct (mapM_lookup _ _ _ _ _ Heas Hea) as ([dir side] & _ & Hf).
    eapply edge_from_face_tid; [exact Hf | done | by apply Hedge |].
    intros Hc. rewrite <- Hntc. by apply Hcorner.
  - destruct (loop_corner la) eqn:Hc; [| by simplify_eq]. simpl in Hca.
    apply bind_Some in Hca as (ca0 & Hca0 & Hca). simplify_eq. simpl.
    eapply corner_from_face_tid; [exact Hca0 |]. by apply Hcorner.
Qed.

Lemma face_args_laid_out `{Bits} qs la fa :
  init_face_children la (f_num_to_child fa) (f_outside_face fa)
    (fi_sides (f_info fa))
  = Some (f_edge_args fa, f_corner_args fa) ->
  Z.of_nat (length (fi_sides (f_info fa)))
  = (if f_outside_face fa then 1 else 2) ->
  Forall (fun s => fs_is s = SideUnset) (fi_sides (f_info fa)) ->
  (forall i s,
     0 <= i ->
     (i < (if f_outside_face fa then 1 else 2)
      \/ (P4_TO_P8 && loop_edge la = true
          /\ i < (if f_outside_face fa then 1 else 2) * 2)
      \/ (loop_corner la = true
          /\ i < (if f_outside_face fa then 1 else 2) * ntc_str)) ->
     zlookup (fi_sides (f_info fa))
       (i `rem` (if f_outside_face fa then 1 else 2)) = Some s ->
     aget qs (i * 2 + 0) = Some (TreeQuads (fs_treeid s))) ->
  tid qs fa.
Proof.
  intros Hch Hlen Hunset Hcells.
  apply init_face_children_tid with (qs := qs) in Hch as [He Hc].
  - split; [| done]. apply sides_at_intro. intros i s Hs. split.
    + apply lookup_lt_Some in Hs as Hlt.
      apply (Hcells (Z.of_nat i)); [lia | left; lia |].
      rewrite Z.rem_small by lia.
      unfold zlookup. rewrite decide_True by lia. by rewrite Nat2Z.id.
    + eapply Forall_lookup_1 in Hunset; [| exact Hs]. done.
  - intros Hdo i s Hi. apply Hcells; [lia | right; left]. split; [done | lia].
  - intros Hdo i s Hi. apply Hcells; [lia | right; right]. split; [done | lia].
Qed.

Lemma children_of_strides `{Build} : 2 * ntc_str = P4EST_CHILDREN.
Proof. unfold ntc_str, P4EST_CHILDREN. by destruct P4_TO_P8. Qed.

Lemma init_face_tid `{Bits} ctx ghost_offsets la args0 t f args la' :
  p4est_iter_init_face ctx ghost_offsets la args0 t f
  = Some (true, args, la') ->
  tid (quadrants la') args.
Proof.
  unfold p4est_iter_init_face. intros H1.
  apply bind_Some in H1 as ([num_to_child nt] & Hntc & H1).
  apply bind_Some in H1 as (start0 & Hstart0 & H1).
  apply bind_Some in H1 as ([[[sides orientation] nf] start_idx2]
                            & Hsides & H1).
  apply bind_Some in H1 as ([eas ca] & Hch & H1).
  case_decide as Hown; [discriminate H1 |].
  apply bind_Some in H1 as (la1 & Hloop & H1). simplify_eq.
  pose proof children_of_strides as Hstr.
  case_decide as Hnt.
  - (* a face between two trees *)
    apply bind_Some in Hsides as (nrf & Hnrf & Hsides).
    apply bind_Some in Hsides as (start1 & Hstart1 & Hsides).
    simplify_eq.
    rewrite bool_decide_eq_false_2 in Hch |- * by done.
    apply (face_args_laid_out _ la); simpl; [done | done | by repeat constructor |].
    intros i s Hi Hcase Hs.
    rewrite (init_loop_face_cells _ _ _ _ _ _ i Hloop Hi)
      by (destruct Hcase as [? | [[? ?] | [? ?]]];
          [by left | right; left; split; [done | lia]
          | right; right; split; [done | lia]]).
    apply zlookup_Some in Hs as [Hr Hs].
    case_decide as Hrem.
    + assert (i `rem` 2 = 1) as Hr1
        by (Z.to_euclidean_division_equations; lia).
      rewrite Hr1 in Hs. change (Z.to_nat 1) with 1%nat in Hs.
      simpl in Hs. by simplify_eq.
    + assert (i `rem` 2 = 0) as Hr0 by lia.
      rewrite Hr0 in Hs. change (Z.to_nat 0) with 0%nat in Hs.
      simpl in Hs. by simplify_eq.
  - (* a face on the boundary *)
    assert (nt = -1) as -> by lia. simplify_eq.
    rewrite bool_decide_eq_true_2 in Hch |- * by done.
    apply (face_args_laid_out _ la); simpl; [done | done | by repeat constructor |].
    intros i s Hi Hcase Hs.
    rewrite (init_loop_outside_face_cells _ _ _ _ _ i Hloop Hi)
      by (destruct Hcase as [? | [[? ?] | [? ?]]];
          [by left | right; left; split; [done | lia]
          | right; right; split; [done | lia]]).
    rewrite Z.rem_1_r in Hs. apply zlookup_Some in Hs as [Hr Hs].
    change (Z.to_nat 0) with 0%nat in Hs.
    simpl in Hs. by simplify_eq.
Qed.

Lemma init_face_from_volume_tid `{Bits} qs la t dir pos fa :
  p4est_iter_init_face_from_volume la t dir pos = Some fa ->
  volume_cells qs la t ->
  tid qs fa.
Proof.
  unfold p4est_iter_init_face_from_volume. intros H1 Hcells.
  apply bind_Some in H1 as ([eas ca] & Hch & H1). simplify_eq.
  pose proof children_of_strides as Hstr.
  apply (face_args_laid_out _ la); simpl;
    [done | done | by repeat constructor |].
  intros i s Hi Hcase Hs.
  assert (fs_treeid s = t) as ->.
  { apply zlookup_Some in Hs as [Hr Hs].
    assert (i `rem` 2 = 0 \/ i `rem` 2 = 1) as [Hr0 | Hr1]
      by (Z.to_euclidean_division_equations; lia).
    - rewrite Hr0 in Hs. change (Z.to_nat 0) with 0%nat in Hs.
      simpl in Hs. by simplify_eq.
    - rewrite Hr1 in Hs. change (Z.to_nat 1) with 1%nat in Hs.
      simpl in Hs. by simplify_eq. }
  apply Hcells; [done |].
  destruct Hcase as [? | [[? ?] | [? ?]]];
    [by left | right; left; split; [done | lia]
    | right; right; split; [done | lia]].
Qed.

Lemma init_edge_from_volume_tid `{Bits} qs la t dir side ea :
  p8est_iter_init_edge_from_volume la t dir side = Some ea ->
  P4_TO_P8 && loop_edge la = true ->
  volume_cells qs la t ->
  tid qs ea.
Proof.
  unfold p8est_iter_init_edge_from_volume. intros H1 Hdo Hcells.
  apply bind_Some in H1 as (ca & Hca & H1). simplify_eq.
  apply andb_true_iff in Hdo as Hdo'. destruct Hdo' as [H3d Hle].
  assert (forall (j : nat) s,
            map (fun i => {| es_treeid := t; es_edge := 4 * dir + (3 - i);
                             es_orientation := 0; es_is := SideUnset |})
              (zrange 0 4) !! j = Some s ->
            es_treeid s = t /\ es_is s = SideUnset /\ (j < 4)%nat)
    as Hsides.
  { intros j s Hs. apply list_lookup_fmap_Some in Hs as (x & -> & Hx).
    apply lookup_zrange in Hx as [-> Hx]. simpl. repeat split. lia. }
  split; simpl.
  - apply sides_at_intro. intros i s Hs.
    apply Hsides in Hs as (-> & Hu & Hlt). split; [| done].
    apply Hcells; [lia | right; left]. split; [done | lia].
  - destruct (loop_corner la) eqn:Hc; [| by simplify_eq].
    apply bind_Some in Hca as (ca0 & Hca0 & Hca). simplify_eq.
    eapply corner_from_edge_tid; [exact Hca0 |].
    intros j s Hj Hs. apply zlookup_Some in Hs as [_ Hs].
    apply Hsides in Hs as (-> & _ & _).
    apply Hcells; [lia | right; right]. split; [done |].
    unfold P4EST_CHILDREN. rewrite H3d. lia.
Qed.

Lemma init_corner_from_volume_tid `{Build} qs la t :
  loop_corner la = true ->
  volume_cells qs la t ->
  tid qs (p4est_iter_init_corner_from_volume t).
Proof.
  intros Hc Hcells. apply sides_at_intro. simpl. intros i s Hs.
  apply list_lookup_fmap_Some in Hs as (x & -> & Hx).
  apply lookup_zrange in Hx as [-> Hx]. simpl. split; [| done].
  apply Hcells; [lia | right; right]. split; [done | lia].
Qed.

Lemma init_volume_tid `{Bits} ctx ghost_offsets la t args la' :
  p4est_iter_init_volume ctx ghost_offsets la t = Some (args, la') ->
  tid (quadrants la') args.
Proof.
  unfold p4est_iter_init_volume. intros H1.
  apply bind_Some in H1 as (fas & Hfas & H1).
  apply bind_Some in H1 as (eas & Heas & H1).
  apply bind_Some in H1 as (la1 & Hloop & H1). simplify_eq.
  assert (volume_cells (quadrants la') la t) as Hcells.
  { intros i Hi Hcase. by eapply init_loop_volume_cells. }
  apply volume_args_tid_intro.
  - apply Forall_lookup. intros i fa Hfa.
    destruct (mapM_lookup _ _ _ _ _ Hfas Hfa) as ([dir pos] & _ & Hf).
    by eapply init_face_from_volume_tid.
  - destruct (P4_TO_P8 && loop_edge la) eqn:Hdo;
      [| simplify_eq; apply tid_nil].
    apply Forall_lookup. intros i ea Hea.
    destruct (mapM_lookup _ _ _ _ _ Heas Hea) as ([dir side] & _ & Hf).
    by eapply init_edge_from_volume_tid.
  - destruct (loop_corner la) eqn:Hc; [| done].
    by eapply init_corner_from_volume_tid.
  - apply (init_loop_volume_cells _ _ _ _ _ 0 Hloop); [done | left; lia].
Qed.

(** *** Corners and edges of a tree *)

Lemma corner_sides_unset `{Bits} conn t c :
  Forall (fun s => cs_is s = SideUnset) (corner_sides conn t c).
Proof.
  unfold corner_sides.
  apply Forall_app; split; [by repeat constructor |].
  apply Forall_app; split.
  { apply Forall_flat_map, Forall_forall. intros i _.
    destruct (p4est_quadrant_face_neighbor_extra _ _ _ _) as [nt q].
    case_decide; by repeat constructor. }
  apply Forall_app; split.
  { destruct P4_TO_P8; [| constructor].
    apply Forall_flat_map, Forall_forall. intros i _.
    apply Forall_fmap, Forall_forall. by intros [q nt] _. }
  apply Forall_fmap, Forall_forall. by intros [q nt] _.
Qed.

Lemma init_corner_tid `{Bits} ctx ghost_offsets la t c args la' :
  p4est_iter_init_corner ctx ghost_offsets la t c = Some (true, args, la') ->
  tid (quadrants la') args.
Proof.
  unfold p4est_iter_init_corner, p4est_iter_init_loop_corner. intros H1.
  apply bind_Some in H1 as (start_idx2 & Hstart & H1).
  destruct (owner_check _ _ _); [| discriminate H1].
  apply bind_Some in H1 as (la1 & Hloop & H1). simplify_eq.
  apply sides_at_intro. simpl. intros i s Hs. split.
  - eapply init_loop_sides_cells; [exact Hloop |].
    by rewrite list_lookup_fmap, Hs.
  - pose proof (corner_sides_unset (connectivity (ctx_p4est ctx)) t c) as Hu.
    eapply Forall_lookup_1 in Hu; [| exact Hs]. done.
Qed.

Lemma edge_sides_unset `{Bits} conn t e orient :
  Forall (fun r => es_is r.1.1 = SideUnset) (edge_sides conn t e orient).
Proof.
  unfold edge_sides.
  apply Forall_app; split; [by repeat constructor |].
  apply Forall_app; split.
  { apply Forall_flat_map, Forall_forall. intros i _.
    destruct (p4est_quadrant_face_neighbor_extra _ _ _ _) as [nt q].
    case_decide; by repeat constructor. }
  apply Forall_fmap, Forall_forall. by intros [q nt] _.
Qed.

Lemma init_edge_tid `{Bits} ctx ghost_offsets la t e args la' :
  p8est_iter_init_edge ctx ghost_offsets la t e = Some (true, args, la') ->
  tid (quadrants la') args.
Proof.
  unfold p8est_iter_init_edge, p8est_iter_init_loop_edge. intros H1.
  apply bind_Some in H1 as (orient & Horient & H1).
  apply bind_Some in H1 as (start_idx2 & Hstart & H1).
  apply bind_Some in H1 as (ca & Hca & H1).
  destruct (owner_check _ _ _); [| discriminate H1].
  apply bind_Some in H1 as (la1 & Hloop & H1). simplify_eq.
  set (rows := edge_sides (connectivity (ctx_p4est ctx)) t e orient) in *.
  set (sides := map (fun r => r.1.1) rows) in *.
  assert (length sides = length rows) as Hlen
    by (unfold sides; by rewrite length_map).
  assert (forall (i : nat) s,
            sides !! i = Some s ->
            aget (quadrants la') (Z.of_nat i * 2 + 0)
            = Some (TreeQuads (es_treeid s))
            /\ (loop_corner la = true ->
                aget (quadrants la')
                  ((Z.of_nat (length rows) + Z.of_nat i) * 2 + 0)
                = Some (TreeQuads (es_treeid s)))) as Hcells.
  { intros i s Hs.
    pose proof (init_loop_sides_cells _ _ _ _ _ _ i (es_treeid s) Hloop)
      as Hc.
    rewrite length_map, Hlen in Hc. apply Hc.
    by rewrite list_lookup_fmap, Hs. }
  split; simpl.
  - apply sides_at_intro. intros i s Hs. split; [by apply Hcells |].
    unfold sides in Hs. apply list_lookup_fmap_Some in Hs as (r & -> & Hr).
    pose proof (edge_sides_unset (connectivity (ctx_p4est ctx)) t e orient)
      as Hu.
    eapply Forall_lookup_1 in Hu; [| exact Hr]. done.
  - destruct (loop_corner la) eqn:Hc; [| by simplify_eq].
    apply bind_Some in Hca as (ca0 & Hca0 & Hca). simplify_eq.
    eapply corner_from_edge_tid; [exact Hca0 |].
    intros j s Hj Hs. apply zlookup_Some in Hs as [Hr Hs].
    apply lookup_lt_Some in Hs as Hlt.
    destruct (Hcells _ _ Hs) as [Hlo Hhi].
    destruct (decide (j < Z.of_nat (length rows))) as [Hsmall | Hlarge].
    + rewrite Z.rem_small in Hlo by lia. rewrite Z2Nat.id in Hlo by lia.
      done.
    + specialize (Hhi eq_refl).
      replace (Z.of_nat (length rows) + Z.of_nat (Z.to_nat (j `rem` Z.of_nat (length rows))))
        with j in Hhi; [done |].
      rewrite Z2Nat.id by lia.
      rewrite <- (Z.rem_unique j (Z.of_nat (length rows)) 1
                    (j - Z.of_nat (length rows))) by lia.
      lia.
Qed.

(** *** The loop over the trees *)

Lemma iterate_tree_faces_tid `{Bits} fuel ctx cbs tfg t st st' :
  iterate_tree_faces fuel ctx cbs tfg t st = Some st' ->
  Forall event_in_tree st.2 -> Forall event_in_tree st'.2.
Proof.
  unfold iterate_tree_faces. intros H1.
  eapply (for_each_inv (fun s : iterate_state => Forall event_in_tree s.2));
    [| exact H1].
  clear. intros i [[la fa] tr] [[la' fa'] tr'] _ Hb Htr. simpl in *.
  apply bind_Some in Hb as ([[run fa1] la1] & Hinit & Hb).
  destruct run; [| by simplify_eq].
  apply bind_Some in Hb as ([[fa2 la2] evs] & Hrun & Hb). simplify_eq.
  apply init_face_tid in Hinit.
  eapply face_iterate_tid in Hrun as [_ Hevs]; [| exact Hinit | done].
  apply Forall_app. by split.
Qed.

Lemma iterate_tree_edges_tid `{Bits} fuel ctx cbs tfg t st st' :
  iterate_tree_edges fuel ctx cbs tfg t st = Some st' ->
  Forall event_in_tree st.2 -> Forall event_in_tree st'.2.
Proof.
  unfold iterate_tree_edges. intros H1.
  eapply (for_each_inv
            (fun s : p4est_iter_loop_args_t * list iter_event =>
               Forall event_in_tree s.2));
    [| exact H1].
  clear. intros i [la tr] [la' tr'] _ Hb Htr. simpl in *.
  apply bind_Some in Hb as ([[run ea1] la1] & Hinit & Hb).
  destruct run; [| by simplify_eq].
  apply bind_Some in Hb as ([[ea2 la2] evs] & Hrun & Hb). simplify_eq.
  apply init_edge_tid in Hinit.
  eapply edge_iterate_tid in Hrun as [_ Hevs]; [| exact Hinit | done].
  apply Forall_app. by split.
Qed.

Lemma iterate_tree_corners_tid `{Bits} ctx tfg t st st' :
  iterate_tree_corners ctx tfg t st = Some st' ->
  Forall event_in_tree st.2 -> Forall event_in_tree st'.2.
Proof.
  unfold iterate_tree_corners. intros H1.
  eapply (for_each_inv
            (fun s : p4est_iter_loop_args_t * list iter_event =>
               Forall event_in_tree s.2));
    [| exact H1].
  clear. intros i [la tr] [la' tr'] _ Hb Htr. simpl in *.
  apply bind_Some in Hb as ([[run ca1] la1] & Hinit & Hb).
  destruct run; [| by simplify_eq].
  apply bind_Some in Hb as ([[ca2 la2] evs] & Hrun & Hb). simplify_eq.
  apply init_corner_tid in Hinit.
  eapply corner_iterate_tid in Hrun as [_ Hevs]; [| exact Hinit | done].
  apply Forall_app. by split.
Qed.

Lemma iterate_tree_tid `{Bits} fuel ctx cbs tfg t st st' :
  iterate_tree fuel ctx cbs tfg t st = Some st' ->
  Forall event_in_tree st.2 -> Forall event_in_tree st'.2.
Proof.
  unfold iterate_tree. destruct st as [[la fa] tr]. intros H1 Htr.
  simpl in Htr.
  apply bind_Some in H1 as ([va la1] & Hinit & H1).
  apply bind_Some in H1 as ([[va2 la2] evs] & Hrun & H1).
  apply bind_Some in H1 as ([[la3 fa3] tr3] & Hfaces & H1).
  apply bind_Some in H1 as ([la4 tr4] & Hedges & H1).
  apply bind_Some in H1 as ([la5 tr5] & Hcorners & H1). simplify_eq. simpl.
  apply init_volume_tid in Hinit.
  eapply volume_iterate_tid in Hrun as [_ Hevs]; [| exact Hinit | done].
  apply iterate_tree_faces_tid in Hfaces; simpl in Hfaces.
  2: { apply Forall_app. by split. }
  assert (Forall event_in_tree tr4) as Htr4.
  { destruct (P4_TO_P8 && loop_edge la3); [| by simplify_eq].
    by apply iterate_tree_edges_tid in Hedges. }
  destruct (loop_corner la4); [| by simplify_eq].
  by apply iterate_tree_corners_tid in Hcorners.
Qed.

Lemma iterate_search_tid `{Bits} fuel p4est ghost_layer cbs tr :
  p4est_iterate_search fuel p4est ghost_layer cbs = Some tr ->
  Forall event_in_tree tr.
Proof.
  unfold p4est_iterate_search. intros H1.
  apply bind_Some in H1 as (la & Hnew & H1).
  apply bind_Some in H1 as ([[la' fa'] tr'] & Hloop & H1). simplify_eq.
  eapply (for_each_inv (fun s : iterate_state => Forall event_in_tree s.2))
    in Hloop; [exact Hloop | | constructor].
  intros t a b _ Hb Ha. by eapply iterate_tree_tid.
Qed.

Lemma volume_iterate_simple_tid p4est tr :
  p4est_volume_iterate_simple p4est = Some tr -> Forall event_in_tree tr.
Proof.
  unfold p4est_volume_iterate_simple. intros H1.
  eapply (for_each_inv (Forall event_in_tree)) in H1;
    [exact H1 | | constructor].
  intros t a b _ Hb Ha.
  apply bind_Some in Hb as (quads & Hquads & Hb). simplify_eq.
  apply Forall_app; split; [done |].
  apply Forall_fmap, Forall_forall. intros si _ p Hp. simpl in *.
  by simplify_eq.
Qed.

(** X11.  In every callback that [p4est_iterate] makes, the tree id names
    the tree of the local quadrants: the quadrant of a volume callback
    points into the quadrant array of tree [vi_treeid], and every quadrant
    of a face, edge or corner side that is marked [is_local] points into
    the quadrant array of the tree that the side names in [treeid]. *)
Theorem iterate_treeid_names_tree `{Bits} (fuel : nat) (p4est : p4est_t)
  (Ghost_layer : option (list p4est_quadrant_t)) (cbs : callbacks)
  (tr : list iter_event) :
  p4est_iterate fuel p4est Ghost_layer cbs = Some tr ->
  Forall event_in_tree tr.
Proof.
  unfold p4est_iterate. intros H1.
  case_decide; [simplify_eq; constructor |].
  destruct (negb (iter_face cbs) && negb (iter_corner cbs)
            && negb (P4_TO_P8 && iter_edge cbs)).
  - destruct (negb (iter_volume cbs)); [simplify_eq; constructor |].
    by eapply volume_iterate_simple_tid.
  - by eapply iterate_search_tid.
Qed.

Lemma iterate_treeid_names_tree_witness :
  exists tr,
    @p4est_iterate ex_build ex_bits 40 ex_forest2 (Some [])
      ex_all_callbacks = Some tr
    /\ Forall event_in_tree tr /\ length tr = 29%nat.
Proof.
  eexists. split; [vm_compute; reflexivity |]. split; [| done].
  eapply (@iterate_treeid_names_tree ex_build ex_bits 40 ex_forest2
            (Some []) ex_all_callbacks).
  vm_compute; reflexivity.
Defined.

(** ** A face on the boundary of the domain, from [p4est_iter_init_face]
    through [p4est_face_iterate] (C8) *)





Section outside.
Context `{Bits}.
Variables (t f : Z) (pre : list iter_event).







End outside.






(** ** The driver of [p4est_iterate] and the single owner of an entity
    between trees (C2) *)

(** A loop whose rounds each add the callbacks of some blocks to the
    trace. *)
Lemma for_each_blocks {S I} (out : S -> list iter_event)
  (R : I -> list driver_block -> Prop) (body : I -> S -> option S)
  (l : list I) (s s' : S) :
  (forall i a b, i ∈ l -> body i a = Some b ->
     exists bs, R i bs /\ out b = out a ++ flat_map db_events bs) ->
  for_each body l s = Some s' ->
  exists bss, Forall2 R l bss
              /\ out s' = out s ++ flat_map db_events (concat bss).
Proof.
  revert s. induction l as [| i l IH]; intros s Hbody Hrun; simpl in Hrun.
  - simplify_eq. exists []. split; [constructor |]. simpl.
    by rewrite app_nil_r.
  - apply bind_Some in Hrun as (a & Ha & Hrun).
    destruct (Hbody i s a) as (bs & HR & Hout); [by left | done |].
    destruct (IH a) as (bss & Hall & Hout'); [| done |].
    { intros j x y Hj. apply Hbody. by right. }
    exists (bs :: bss). split; [by constructor |].
    rewrite Hout', Hout. simpl. rewrite flat_map_app. by rewrite app_assoc.
Qed.

Lemma NoDup_zrange (lo hi : Z) : NoDup (zrange lo hi).
Proof.
  unfold zrange. apply NoDup_fmap_2; [| apply NoDup_seq].
  intros x y Hxy. lia.
Qed.

Lemma indexed_blocks_keys (kind : entity_kind) (t : Z)
  (P : driver_block -> Prop) (l : list Z) (bss : list (list driver_block)) :
  Forall2 (indexed_blocks kind t P) l bss ->
  map db_key (concat bss) = map (fun i => (kind, (t, i))) l
  /\ Forall P (concat bss).
Proof.
  induction 1 as [| i bs l bss (b & -> & Hk & Ht & Hi & HP) _ [IH1 IH2]];
    [done |].
  simpl. split.
  - rewrite IH1. unfold db_key, db_pair. by rewrite Hk, Ht, Hi.
  - by constructor.
Qed.

Section driver.
Context `{Bits}.
Variables (fuel : nat) (ctx : iter_ctx) (cbs : callbacks)
  (ghost_offsets : list Z).

Lemma iterate_tree_faces_blocks (t : Z) (st st' : iterate_state) :
  iterate_tree_faces fuel ctx cbs ghost_offsets t st = Some st' ->
  exists bss,
    Forall2 (indexed_blocks KFace t (block_assembled fuel ctx ghost_offsets cbs)) (zrange 0 (2 * P4EST_DIM)) bss
    /\ st'.2 = st.2 ++ flat_map db_events (concat bss).
Proof.
  unfold iterate_tree_faces. apply for_each_blocks.
  intros i [[la fa] tr] [[la' fa'] tr'] _ Hb. simpl.
  apply bind_Some in Hb as ([[run fa1] la1] & Hinit & Hb).
  destruct run.
  - apply bind_Some in Hb as ([[fa2 la2] evs] & Hrun & Hb). simplify_eq.
    exists [{| db_kind := KFace; db_tree := t; db_index := i;
               db_pairs := face_pairs fa1; db_owner := true;
               db_events := evs |}].
    split; [| simpl; by rewrite app_nil_r].
    eexists. split; [done |]. repeat (split; [done |]).
    exists la, fa, fa1, la1. split; [done |]. split; [done |].
    by exists fa', la'.
  - simplify_eq.
    exists [{| db_kind := KFace; db_tree := t; db_index := i;
               db_pairs := face_pairs fa'; db_owner := false;
               db_events := [] |}].
    split; [| simpl; by rewrite app_nil_r].
    eexists. split; [done |]. repeat (split; [done |]).
    by exists la, fa, fa', la'.
Qed.

Lemma iterate_tree_edges_blocks (t : Z)
  (st st' : p4est_iter_loop_args_t * list iter_event) :
  iterate_tree_edges fuel ctx cbs ghost_offsets t st = Some st' ->
  exists bss,
    Forall2 (indexed_blocks KEdge t (block_assembled fuel ctx ghost_offsets cbs)) (zrange 0 12) bss
    /\ st'.2 = st.2 ++ flat_map db_events (concat bss).
Proof.
  unfold iterate_tree_edges. apply for_each_blocks.
  intros i [la tr] [la' tr'] _ Hb. simpl.
  apply bind_Some in Hb as ([[run ea1] la1] & Hinit & Hb).
  destruct run.
  - apply bind_Some in Hb as ([[ea2 la2] evs] & Hrun & Hb). simplify_eq.
    exists [{| db_kind := KEdge; db_tree := t; db_index := i;
               db_pairs := edge_pairs ea1; db_owner := true;
               db_events := evs |}].
    split; [| simpl; by rewrite app_nil_r].
    eexists. split; [done |]. repeat (split; [done |]).
    exists la, ea1, la1. split; [done |]. split; [done |].
    by exists ea2, la'.
  - simplify_eq.
    exists [{| db_kind := KEdge; db_tree := t; db_index := i;
               db_pairs := edge_pairs ea1; db_owner := false;
               db_events := [] |}].
    split; [| simpl; by rewrite app_nil_r].
    eexists. split; [done |]. repeat (split; [done |]).
    by exists la, ea1, la'.
Qed.

Lemma iterate_tree_corners_blocks (t : Z)
  (st st' : p4est_iter_loop_args_t * list iter_event) :
  iterate_tree_corners ctx ghost_offsets t st = Some st' ->
  exists bss,
    Forall2 (indexed_blocks KCorner t (block_assembled fuel ctx ghost_offsets cbs)) (zrange 0 P4EST_CHILDREN) bss
    /\ st'.2 = st.2 ++ flat_map db_events (concat bss).
Proof.
  unfold iterate_tree_corners. apply for_each_blocks.
  intros i [la tr] [la' tr'] _ Hb. simpl.
  apply bind_Some in Hb as ([[run ca1] la1] & Hinit & Hb).
  destruct run.
  - apply bind_Some in Hb as ([[ca2 la2] evs] & Hrun & Hb). simplify_eq.
    exists [{| db_kind := KCorner; db_tree := t; db_index := i;
               db_pairs := corner_pairs ca1; db_owner := true;
               db_events := evs |}].
    split; [| simpl; by rewrite app_nil_r].
    eexists. split; [done |]. repeat (split; [done |]).
    exists la, ca1, la1. split; [done |]. split; [done |].
    by exists ca2, la'.
  - simplify_eq.
    exists [{| db_kind := KCorner; db_tree := t; db_index := i;
               db_pairs := corner_pairs ca1; db_owner := false;
               db_events := [] |}].
    split; [| simpl; by rewrite app_nil_r].
    eexists. split; [done |]. repeat (split; [done |]).
    by exists la, ca1, la'.
Qed.

Lemma group_keys (kind : entity_kind) (t : Z) (l : list Z)
  (bss : list (list driver_block)) :
  Forall2 (indexed_blocks kind t (block_assembled fuel ctx ghost_offsets cbs)) l bss -> NoDup l ->
  Forall (fun b => db_tree b = t /\ (block_assembled fuel ctx ghost_offsets cbs) b) (concat bss)
  /\ NoDup (map db_key (concat bss))
  /\ Forall (fun b => db_kind b = kind) (concat bss).
Proof.
  intros Hall Hl. split; [| split].
  - clear Hl.
    induction Hall as [| i bs l bss (b & -> & Hk & Ht & Hi & HP) _ IH];
      [constructor |].
    simpl. by constructor.
  - destruct (indexed_blocks_keys _ _ _ _ _ Hall) as [-> _].
    apply NoDup_fmap_2; [| done]. intros x y Hxy. congruence.
  - clear Hl.
    induction Hall as [| i bs l bss (b & -> & Hk & Ht & Hi & HP) _ IH];
      [constructor |].
    simpl. by constructor.
Qed.

Lemma iterate_tree_blocks (t : Z) (st st' : iterate_state) :
  iterate_tree fuel ctx cbs ghost_offsets t st = Some st' ->
  exists bs, tree_blocks fuel ctx ghost_offsets cbs t bs /\ st'.2 = st.2 ++ flat_map db_events bs.
Proof.
  unfold iterate_tree. destruct st as [[la fa] tr]. intros H1.
  apply bind_Some in H1 as ([va la1] & Hinit & H1).
  apply bind_Some in H1 as ([[va2 la2] evs] & Hrun & H1).
  apply bind_Some in H1 as ([[la3 fa3] tr3] & Hfaces & H1).
  apply bind_Some in H1 as ([la4 tr4] & Hedges & H1).
  apply bind_Some in H1 as ([la5 tr5] & Hcorners & H1). simplify_eq.
  apply iterate_tree_faces_blocks in Hfaces as (fbs & Hf & Hftr).
  assert (exists ebs,
             (ebs = [] \/ Forall2 (indexed_blocks KEdge t (block_assembled fuel ctx ghost_offsets cbs))
                            (zrange 0 12) ebs)
             /\ tr4 = tr3 ++ flat_map db_events (concat ebs))
    as (ebs & He & Hetr).
  { destruct (P4_TO_P8 && loop_edge la3).
    - apply iterate_tree_edges_blocks in Hedges as (ebs & He & Hetr).
      exists ebs. split; [by right | done].
    - simplify_eq. exists []. split; [by left |]. simpl.
      by rewrite app_nil_r. }
  assert (exists cbs',
             (cbs' = [] \/ Forall2 (indexed_blocks KCorner t (block_assembled fuel ctx ghost_offsets cbs))
                             (zrange 0 P4EST_CHILDREN) cbs')
             /\ tr5 = tr4 ++ flat_map db_events (concat cbs'))
    as (cbs' & Hc & Hctr).
  { destruct (loop_corner la4).
    - apply iterate_tree_corners_blocks in Hcorners as (cbs' & Hc & Hctr).
      exists cbs'. split; [by right | done].
    - simplify_eq. exists []. split; [by left |]. simpl.
      by rewrite app_nil_r. }
  simpl in Hftr.
  set (vol := {| db_kind := KVolume; db_tree := t; db_index := 0;
                 db_pairs := []; db_owner := true; db_events := evs |}).
  exists (vol :: concat fbs ++ concat ebs ++ concat cbs').
  destruct (group_keys KFace t _ _ Hf (NoDup_zrange _ _))
    as (Hf1 & Hf2 & Hf3).
  assert (Forall (fun b => db_tree b = t /\ (block_assembled fuel ctx ghost_offsets cbs) b) (concat ebs)
          /\ NoDup (map db_key (concat ebs))
          /\ Forall (fun b => db_kind b = KEdge) (concat ebs))
    as (He1 & He2 & He3).
  { destruct He as [-> | He]; [by repeat constructor |].
    by apply (group_keys KEdge t _ _ He (NoDup_zrange _ _)). }
  assert (Forall (fun b => db_tree b = t /\ (block_assembled fuel ctx ghost_offsets cbs) b) (concat cbs')
          /\ NoDup (map db_key (concat cbs'))
          /\ Forall (fun b => db_kind b = KCorner) (concat cbs'))
    as (Hc1 & Hc2 & Hc3).
  { destruct Hc as [-> | Hc]; [by repeat constructor |].
    by apply (group_keys KCorner t _ _ Hc (NoDup_zrange _ _)). }
  assert (forall kind (l : list driver_block) b,
            Forall (fun b => db_kind b = kind) l ->
            db_key b ∈ map db_key l -> db_kind b = kind) as Hkind.
  { intros kind l b Hl (b' & Hkey & Hb')%list_elem_of_fmap.
    rewrite Forall_forall in Hl. apply Hl in Hb'.
    unfold db_key in Hkey. congruence. }
  split; [split |].
  - constructor.
    + split; [done |]. simpl. repeat (split; [done |]).
      by exists la, va, la1, va2, la2.
    + repeat (apply Forall_app; split); done.
  - simpl. apply NoDup_cons. split.
    + rewrite !fmap_app, !elem_of_app.
      intros [Hin | [Hin | Hin]].
      * by apply (Hkind KFace _ vol Hf3) in Hin.
      * by apply (Hkind KEdge _ vol He3) in Hin.
      * by apply (Hkind KCorner _ vol Hc3) in Hin.
    + rewrite !fmap_app. apply NoDup_app. split; [done |]. split.
      * intros k Hk. rewrite elem_of_app. intros [Hin | Hin].
        -- apply list_elem_of_fmap in Hk as (b & -> & Hb).
           rewrite Forall_forall in Hf3. pose proof (Hf3 b Hb) as Hkf.
           apply (Hkind KEdge _ b He3) in Hin. congruence.
        -- apply list_elem_of_fmap in Hk as (b & -> & Hb).
           rewrite Forall_forall in Hf3. pose proof (Hf3 b Hb) as Hkf.
           apply (Hkind KCorner _ b Hc3) in Hin. congruence.
      * apply NoDup_app. split; [done |]. split; [| done].
        intros k Hk Hin.
        apply list_elem_of_fmap in Hk as (b & -> & Hb).
        rewrite Forall_forall in He3. pose proof (He3 b Hb) as Hke.
        apply (Hkind KCorner _ b Hc3) in Hin. congruence.
  - simpl. rewrite Hctr, Hetr, Hftr. simpl.
    rewrite !flat_map_app. by rewrite <- !app_assoc.
Qed.

End driver.

(** Blocks of different trees have different keys. *)
Lemma tree_blocks_keys `{Bits} fuel ctx ghost_offsets cbs (l : list Z)
  (bss : list (list driver_block)) :
  Forall2 (tree_blocks fuel ctx ghost_offsets cbs) l bss -> NoDup l ->
  NoDup (map db_key (concat bss))
  /\ Forall (block_assembled fuel ctx ghost_offsets cbs) (concat bss)
  /\ Forall (fun b => db_tree b ∈ l) (concat bss).
Proof.
  induction 1 as [| t bs l bss [Hbs Hnd] _ IH]; intros Hl.
  { by repeat constructor. }
  apply NoDup_cons in Hl as [Ht Hl].
  destruct (IH Hl) as (IH1 & IH2 & IH3). simpl.
  rewrite Forall_forall in Hbs.
  split; [| split].
  - rewrite fmap_app. apply NoDup_app. split; [done |]. split; [| done].
    intros k Hk Hk'.
    apply list_elem_of_fmap in Hk as (b & -> & Hb).
    apply list_elem_of_fmap in Hk' as (b' & Hkey & Hb').
    rewrite Forall_forall in IH3. apply IH3 in Hb'.
    destruct (Hbs b Hb) as [Htree _].
    unfold db_key, db_pair in Hkey. apply Ht. congruence.
  - apply Forall_app. split; [| done].
    apply Forall_forall. intros b Hb. by apply Hbs.
  - apply Forall_app. split.
    + apply Forall_forall. intros b Hb. destruct (Hbs b Hb) as [-> _].
      by left.
    + eapply Forall_impl; [exact IH3 |]. intros b Hb. by right.
Qed.

Lemma iterate_search_blocks `{Bits} (fuel : nat) (p4est : p4est_t)
  (ghost_layer : list p4est_quadrant_t) (cbs : callbacks)
  (tr : list iter_event) :
  p4est_iterate_search fuel p4est ghost_layer cbs = Some tr ->
  let ctx := {| ctx_p4est := p4est; ctx_ghost := ghost_layer |} in
  let ghost_offsets :=
    p4est_split_ghost_layer_by_tree ghost_layer
      (Z.of_nat (length (trees p4est))) in
  exists blocks,
    tr = flat_map db_events blocks
    /\ NoDup (map db_key blocks)
    /\ Forall (block_assembled fuel ctx ghost_offsets cbs) blocks.
Proof.
  intros H1. cbv zeta. unfold p4est_iterate_search in H1.
  apply bind_Some in H1 as (la & _ & H1).
  apply bind_Some in H1 as ([[la' fa'] tr'] & Hloop & H1). simplify_eq.
  apply (for_each_blocks (fun s : iterate_state => s.2)
           (tree_blocks fuel
              {| ctx_p4est := p4est; ctx_ghost := ghost_layer |}
              (p4est_split_ghost_layer_by_tree ghost_layer
                 (Z.of_nat (length (trees p4est)))) cbs)) in Hloop
    as (bss & Hall & Htr).
  - exists (concat bss). simpl in Htr. split; [done |].
    destruct (tree_blocks_keys _ _ _ _ _ _ Hall (NoDup_zrange _ _))
      as (Hnd & Hasm & _).
    by split.
  - intros t a b _ Hb. by apply iterate_tree_blocks.
Qed.

(** Two blocks of one kind whose pairs list each other: both init routines
    cannot have accepted. *)
Lemma blocks_single_owner `{Bits} fuel ctx ghost_offsets cbs
  (b b' : driver_block) :
  block_assembled fuel ctx ghost_offsets cbs b ->
  block_assembled fuel ctx ghost_offsets cbs b' ->
  db_kind b = db_kind b' -> db_kind b <> KVolume ->
  db_pair b <> db_pair b' ->
  db_pair b' ∈ db_pairs b -> db_pair b ∈ db_pairs b' ->
  db_owner b && db_owner b' = false
  /\ (db_events b = [] \/ db_events b' = []).
Proof.
  unfold block_assembled. intros Hb Hb' Hkind Hvol Hne Hin Hin'.
  rewrite <- Hkind in Hb'.
  assert ((db_owner b = true
           <-> Forall (fun p => lex_le p (db_pair b)) (db_pairs b))
          /\ (db_owner b' = true
              <-> Forall (fun p => lex_le p (db_pair b')) (db_pairs b'))
          /\ (db_owner b = false -> db_events b = [])
          /\ (db_owner b' = false -> db_events b' = []))
    as (Ho & Ho' & He & He').
  { destruct (db_kind b); [done | | |].
    - destruct Hb as (la & a0 & args & la1 & Hinit & -> & Hev).
      destruct Hb' as (la' & a0' & args' & la1' & Hinit' & -> & Hev').
      apply init_face_owner in Hinit as [_ Hinit].
      apply init_face_owner in Hinit' as [_ Hinit'].
      split; [done |]. split; [done |].
      split; intros Hf; [by rewrite Hf in Hev | by rewrite Hf in Hev'].
    - destruct Hb as (la & args & la1 & Hinit & -> & Hev).
      destruct Hb' as (la' & args' & la1' & Hinit' & -> & Hev').
      apply init_edge_owner in Hinit as [_ Hinit].
      apply init_edge_owner in Hinit' as [_ Hinit'].
      split; [done |]. split; [done |].
      split; intros Hf; [by rewrite Hf in Hev | by rewrite Hf in Hev'].
    - destruct Hb as (la & args & la1 & Hinit & -> & Hev).
      destruct Hb' as (la' & args' & la1' & Hinit' & -> & Hev').
      apply init_corner_owner in Hinit as [_ Hinit].
      apply init_corner_owner in Hinit' as [_ Hinit'].
      split; [done |]. split; [done |].
      split; intros Hf; [by rewrite Hf in Hev | by rewrite Hf in Hev']. }
  destruct (db_owner b) eqn:Hob; [| split; [done | left; by apply He]].
  destruct (db_owner b') eqn:Hob'; [| split; [done | right; by apply He']].
  exfalso. apply Hne.
  eapply two_owners_equal; [exact Hin | exact Hin' | |].
  - by apply Ho.
  - by apply Ho'.
Qed.

(** C2.  One full call of [p4est_iterate] with a face, edge or corner
    callback: the callbacks made are, in order, those of one block for
    each call of the driver, and the driver calls every (tree id, local
    index) pair of a kind once.  The block of a pair holds the callbacks
    that the assembler ([p4est_face_iterate], [p8est_edge_iterate],
    [p4est_corner_iterate]) made for it, and nothing when the init routine
    rejected the pair in its canonical-owner check.  Of two different
    pairs that touch the same entity between trees, each being among the
    pairs that the init routine enumerated from the other, at most one
    passes the check, so that the assembler of the entity runs, and
    callbacks are made, for at most one of them. *)
Theorem multi_tree_entity_single_owner `{Bits} (fuel : nat) (p4est : p4est_t)
  (Ghost_layer : option (list p4est_quadrant_t)) (cbs : callbacks)
  (tr : list iter_event) :
  p4est_iterate fuel p4est Ghost_layer cbs = Some tr ->
  iter_face cbs || iter_corner cbs || (P4_TO_P8 && iter_edge cbs) = true ->
  let ghost_layer := match Ghost_layer with
                     | None => []
                     | Some g => g
                     end in
  let ctx := {| ctx_p4est := p4est; ctx_ghost := ghost_layer |} in
  let ghost_offsets :=
    p4est_split_ghost_layer_by_tree ghost_layer
      (Z.of_nat (length (trees p4est))) in
  exists blocks,
    tr = flat_map db_events blocks
    /\ NoDup (map db_key blocks)
    /\ Forall (block_assembled fuel ctx ghost_offsets cbs) blocks
    /\ forall b b',
         b ∈ blocks -> b' ∈ blocks ->
         db_kind b = db_kind b' -> db_kind b <> KVolume ->
         db_pair b <> db_pair b' ->
         db_pair b' ∈ db_pairs b -> db_pair b ∈ db_pairs b' ->
         db_owner b && db_owner b' = false
         /\ (db_events b = [] \/ db_events b' = []).
Proof.
  intros H1 Hcbs. cbv zeta. unfold p4est_iterate in H1.
  set (ghost_layer := match Ghost_layer with
                      | None => []
                      | Some g => g
                      end) in *.
  set (ctx := {| ctx_p4est := p4est; ctx_ghost := ghost_layer |}).
  set (ghost_offsets :=
         p4est_split_ghost_layer_by_tree ghost_layer
           (Z.of_nat (length (trees p4est)))).
  assert (exists blocks,
             tr = flat_map db_events blocks
             /\ NoDup (map db_key blocks)
             /\ Forall (block_assembled fuel ctx ghost_offsets cbs) blocks)
    as (blocks & Htr & Hnd & Hasm).
  { case_decide.
    - simplify_eq. exists []. by repeat constructor.
    - destruct (negb (iter_face cbs) && negb (iter_corner cbs)
                && negb (P4_TO_P8 && iter_edge cbs)) eqn:Hfast.
      + exfalso. destruct (iter_face cbs), (iter_corner cbs),
          (P4_TO_P8 && iter_edge cbs); done.
      + by apply iterate_search_blocks in H1. }
  exists blocks. repeat (split; [done |]).
  intros b b' Hb Hb'. rewrite Forall_forall in Hasm.
  apply (blocks_single_owner fuel ctx ghost_offsets cbs); by apply Hasm.
Qed.

(** The two trees of [ex_forest2]: the face between them is touched by the
    pairs (0, 1) and (1, 0), which list each other. *)
Lemma multi_tree_entity_single_owner_witness :
  exists tr,
    @p4est_iterate ex_build ex_bits 40 ex_forest2 (Some []) ex_all_callbacks
    = Some tr
    /\ length tr = 29%nat
    /\ exists blocks,
         tr = flat_map db_events blocks
         /\ NoDup (map db_key blocks)
         /\ Forall (@block_assembled ex_build ex_bits 40 ex_ctx2
                      (@p4est_split_ghost_layer_by_tree ex_build ex_bits []
                         2) ex_all_callbacks) blocks
         /\ forall b b',
              b ∈ blocks -> b' ∈ blocks ->
              db_kind b = db_kind b' -> db_kind b <> KVolume ->
              db_pair b <> db_pair b' ->
              db_pair b' ∈ db_pairs b -> db_pair b ∈ db_pairs b' ->
              db_owner b && db_owner b' = false
              /\ (db_events b = [] \/ db_events b' = []).
Proof.
  eexists. split; [vm_compute; reflexivity |]. split; [reflexivity |].
  apply (@multi_tree_entity_single_owner ex_build ex_bits 40 ex_forest2
           (Some []) ex_all_callbacks).
  - vm_compute; reflexivity.
  - reflexivity.
Defined.
